(** * goSQL: association-path resolution, criteria composition and
      raw-to-parameter rewriting of [db.DmlBase], [RawSql.BuildValues], and
      the data access helper [dbx.SimpleDBA]

    A shallow embedding of the Go code of [DmlBase] (package [db]), of
    [RawSql] and of [SimpleDBA] (package [dbx]).  Go pointers are locations into explicit stores (one store per
    pointed-to struct type); a [nil] pointer is [None]; a Go slice whose
    nil-ness the code tests is an [option (list _)].  A panic (nil
    dereference, failed type assertion) is [None]; the explicit [panic] of
    [BuildValues] is a [Panic] carrying its message. *)

From stdpp Require Import base gmap list strings pretty.

Set Default Proof Using "Type".
Set Warnings "-register-all,-clear-no-such-hyp".

(** * Part I: the model *)

Abbreviation loc := positive.

(** ** Go slices and integers *)

Abbreviation slice A := (option (list A)).

Definition slice_list {A} (s : slice A) : list A := default [] s.

(** [append(s, xs...)]: appending nothing gives [s] back (so a nil slice
    stays nil); otherwise the result is a non-nil slice. *)
Definition go_append {A} (s : slice A) (xs : list A) : slice A :=
  match xs with
  | [] => s
  | _ => Some (slice_list s ++ xs)
  end.

(** Go's [int] on the 64-bit platforms: two's complement wrap-around. *)
Definition int_wrap (z : Z) : Z := ((z + 2 ^ 63) `mod` 2 ^ 64 - 2 ^ 63)%Z.

(** [strconv.Itoa]: decimal digits, with a leading minus sign. *)
Definition Itoa (z : Z) : string := pretty z.

(** ** Values held by tokens and by the parameter map

    [interface{}] values: driver literals, and the [*Query] carried by a
    sub-query token, of which [replaceRaw] reads [GetParameters()] only. *)

Inductive Lit :=
  | LNil
  | LInt (z : Z)
  | LStr (s : string)
  | LBool (b : bool).

Inductive Value :=
  | VLit (l : Lit)
  | VQuery (qParameters : gmap string Lit).

(** ** [RawSql] *)

Record RawSql := mkRawSql {
  OriSql : string;
  Sql : string;
  Names : list string
}.

Inductive result (A : Type) :=
  | Ok (a : A)
  | Panic (msg : string).
Arguments Ok {A} a.
Arguments Panic {A} msg.

(** The text built by
    [fmt.Sprintf("[%s] No value supplied for the SQL parameter '%s' for the SQL %s", ...)].
    Its first argument, the fault code [dbx.FAULT_VALUES_STATEMENT], is a
    string constant of package [dbx] declared outside the sources at hand:
    it is the parameter [fault]. *)
Definition missing_value_message (fault name oriSql : string) : string :=
  "[" +:+ fault +:+ "] No value supplied for the SQL parameter '"
      +:+ name +:+ "' for the SQL " +:+ oriSql.

(** The loop of [BuildValues]: [paramArray[i], ok = paramMap[name]], with a
    panic at the first name without an entry. *)
Fixpoint BuildValues_loop (fault oriSql : string) (paramMap : gmap string Value)
    (names : list string) : result (list Value) :=
  match names with
  | [] => Ok []
  | name :: rest =>
      match paramMap !! name with
      | None => Panic (missing_value_message fault name oriSql)
      | Some v =>
          match BuildValues_loop fault oriSql paramMap rest with
          | Ok vs => Ok (v :: vs)
          | Panic msg => Panic msg
          end
      end
  end.

Definition BuildValues (fault : string) (this : RawSql)
    (paramMap : gmap string Value) : result (list Value) :=
  BuildValues_loop fault (OriSql this) paramMap (Names this).

(** ** Expression tree (Criteria / Token)

    The declarations of [Token] and [Criteria] are outside the sources at
    hand; the code under study reads and writes a token through
    [GetOperator]/[SetOperator], [GetValue]/[SetValue], [GetMembers] and
    [SetTableAlias].  A token is a cell of the criteria store; [Members]
    holds pointers to other cells, [None] being a nil member. *)

Inductive Op :=
  | TOKEN_RAW
  | TOKEN_PARAM
  | TOKEN_SUBQUERY
  | TOKEN_COLUMN
  | TOKEN_EQ
  | TOKEN_AND
  | TOKEN_OR.

#[global] Instance Op_eq_dec : EqDecision Op.
Proof. solve_decision. Defined.

Record Token := mkToken {
  Operator : Op;
  TableAlias : string;
  TokValue : Value;
  Members : list (option loc)
}.

Abbreviation cstore := (gmap loc Token).

(** [new(T)]: a cell at an address not yet in the store. *)
Definition alloc {A} (h : gmap loc A) (x : A) : gmap loc A * loc :=
  let l := fresh (dom h) in (<[l := x]> h, l).
Arguments alloc : simpl never.

(** A criteria given as a term: what a constructor call such as
    [column.Matches(value)] builds.  [alloc_tree] builds it in the store,
    members first. *)
Inductive CTree :=
  | CNode (op : Op) (alias : string) (val : Value) (kids : list CTree).

Fixpoint alloc_tree (cs : cstore) (t : CTree) : cstore * loc :=
  match t with
  | CNode op a v kids =>
      let '(cs1, ms) :=
        (fix go (cs : cstore) (ts : list CTree) {struct ts} : cstore * list (option loc) :=
           match ts with
           | [] => (cs, [])
           | t :: ts' =>
               let '(cs1, l) := alloc_tree cs t in
               let '(cs2, ls) := go cs1 ts' in
               (cs2, Some l :: ls)
           end) cs kids in
      alloc cs1 (mkToken op a v ms)
  end.

(** Threading a store through a loop over a list, in the option monad. *)
Fixpoint foldM {S A} (f : S → A → option S) (s : S) (xs : list A) : option S :=
  match xs with
  | [] => Some s
  | x :: xs' => s' ← f s x; foldM f s' xs'
  end.

Fixpoint mapM_st {S A B} (f : S → A → option (S * B)) (s : S) (xs : list A)
    : option (S * list B) :=
  match xs with
  | [] => Some (s, [])
  | x :: xs' =>
      '(s1, y) ← f s x;
      '(s2, ys) ← mapM_st f s1 xs';
      Some (s2, y :: ys)
  end.

(** The body of a loop over the members of a token, nil members skipped:
    [for _, t := range members { if t != nil { visit(t) } }]. *)
Definition visit_member {S} (visit : S → loc → option S) (s : S) (t : option loc)
    : option S :=
  match t with
  | None => Some s
  | Some t => visit s t
  end.

(** Modelled from the spec: [Criteria.Clone] is not in the sources at hand.
    The spec says the expression node "supports deep cloning": the clone of
    a node is a new node with the same operator, alias and value whose
    members are the clones of the members.  [fuel] bounds the depth. *)
Fixpoint Criteria_Clone (fuel : nat) (cs : cstore) (l : loc) : option (cstore * loc) :=
  match fuel with
  | O => None
  | S fuel' =>
      tok ← cs !! l;
      '(cs1, ms) ← mapM_st (λ cs m,
                     match m with
                     | None => Some (cs, None)
                     | Some k => '(cs', k') ← Criteria_Clone fuel' cs k; Some (cs', Some k')
                     end) cs (Members tok);
      Some (alloc cs1 (mkToken (Operator tok) (TableAlias tok) (TokValue tok) ms))
  end.

(** Modelled from the spec: [SetTableAlias] of a token is not in the sources
    at hand.  The spec says the node supports "in-place alias rewriting":
    the alias of the node and, recursively, of its members is overwritten. *)
Fixpoint SetTableAlias (fuel : nat) (cs : cstore) (l : loc) (a : string) : option cstore :=
  match fuel with
  | O => None
  | S fuel' =>
      tok ← cs !! l;
      foldM (visit_member (λ cs k, SetTableAlias fuel' cs k a))
            (<[l := mkToken (Operator tok) a (TokValue tok) (Members tok)]> cs)
            (Members tok)
  end.

(** Modelled from the spec: the combinator [And] is not in the sources at
    hand; the spec lists "boolean AND/OR" among the operators of a composite
    node carrying "a list of child member nodes": [And(conds...)] is a new
    node whose members are the given criteria themselves (not copies). *)
Definition And (cs : cstore) (conds : list loc) : cstore * loc :=
  alloc cs (mkToken TOKEN_AND "" (VLit LNil) (Some <$> conds)).

(** ** Schema metadata *)

Record Table := mkTable {
  TableName : string;
  (** [GetCriterias()]: the table-level discriminator criteria *)
  TableCriterias : slice loc
}.

(** Modelled from the spec: [Table.Equals] is not in the sources at hand;
    tables are compared by name. *)
Definition Table_Equals (t1 t2 : Table) : bool :=
  bool_decide (TableName t1 = TableName t2).

Record ColumnHolder := mkColumnHolder {
  ColumnName : string;
  ColumnTableAlias : string
}.

Record Relation := mkRelation {
  From : ColumnHolder;
  To : ColumnHolder
}.

(** Modelled from the spec: [Discriminator] is not in the sources at hand.
    The spec calls it "a mandatory filter criterion scoped to ... one side
    of an association" and requires that such criteria are "never" attached
    "to a schema-level template": [Criteria()] builds a new criteria from
    the discriminator's description at each call. *)
Record Discriminator := mkDiscriminator {
  DiscriminatorCriteria : CTree
}.

Definition Discriminator_Criteria (cs : cstore) (v : Discriminator) : cstore * loc :=
  alloc_tree cs (DiscriminatorCriteria v).

Record Association := mkAssociation {
  TableFrom : Table;
  TableTo : Table;
  Relations : list Relation;
  DiscriminatorTable : Table;
  Discriminators : slice Discriminator;
  FromM2M : option loc;
  ToM2M : option loc;
  AliasFrom : string;
  AliasTo : string
}.

Abbreviation astore := (gmap loc Association).

(** Modelled from the spec: [IsMany2Many] is not in the sources at hand; a
    many-to-many pairing "references a paired from-junction and to-junction
    association". *)
Definition IsMany2Many (a : Association) : bool :=
  bool_decide (is_Some (FromM2M a) ∧ is_Some (ToM2M a)).

(** Modelled from the spec: [Association.Equals] is not in the sources at
    hand; the spec compares path elements "by schema-level association
    identity". *)
Definition Association_Equals (a b : loc) : bool := bool_decide (a = b).

(** Modelled from the spec: [Association.Clone] is not in the sources at
    hand.  The spec: the core "clones it into a session-scoped copy before
    assigning aliases", and for a many-to-many pairing "both cloned
    associations have their endpoint aliases stamped": the clone of a
    pairing refers to clones of its two junction associations. *)
Definition Association_Clone (st : astore) (l : loc) : option (astore * loc) :=
  a ← st !! l;
  match FromM2M a, ToM2M a with
  | Some f, Some t =>
      fa ← st !! f;
      ta ← st !! t;
      let '(st1, f') := alloc st fa in
      let '(st2, t') := alloc st1 ta in
      Some (alloc st2 (mkAssociation (TableFrom a) (TableTo a) (Relations a)
                         (DiscriminatorTable a) (Discriminators a)
                         (Some f') (Some t') (AliasFrom a) (AliasTo a)))
  | _, _ => Some (alloc st a)
  end.

(** ** Path elements, joins, path criteria *)

Record PathElement := mkPathElement {
  Base : loc;
  Inner : bool;
  PreferredAlias : string;
  Criteria : option loc;
  Columns : slice loc;
  Derived : option loc
}.

Abbreviation pstore := (gmap loc PathElement).

Definition set_Derived (pe : PathElement) (d : option loc) : PathElement :=
  mkPathElement (Base pe) (Inner pe) (PreferredAlias pe) (Criteria pe) (Columns pe) d.

Definition set_Criteria (pe : PathElement) (c : option loc) : PathElement :=
  mkPathElement (Base pe) (Inner pe) (PreferredAlias pe) c (Columns pe) (Derived pe).

(** Modelled from the spec: [Join] and [NewJoin] are not in the sources at
    hand; a join is "an ordered sequence of resolved PathElements ... plus a
    flag indicating whether it is a fetch". *)
Record Join := mkJoin {
  JoinPath : list loc;
  JoinFetch : bool
}.

Definition NewJoin (paths : list loc) (fetch : bool) : Join := mkJoin paths fetch.

Record PathCriteria := mkPathCriteria {
  Criterias : slice loc;
  pcColumns : slice loc
}.

(** ** Alias allocator

    Modelled from the spec: [AliasBag] is not in the sources at hand.  The
    spec: "a mapping from Association (by identity) to an assigned alias
    string"; "repeated calls for the same association identity return the
    same previously assigned alias"; aliases are "generated ... from a
    session-scoped prefix plus a monotonically increasing counter"; "a
    caller-preferred alias may be registered for a specific association".
    The key is a pointer, nil included, as for a Go map keyed by pointers. *)
Record AliasBag := mkAliasBag {
  prefix : string;
  counter : Z;
  bag : gmap (option loc) string
}.

Definition NewAliasBag (p : string) : AliasBag := mkAliasBag p 0 ∅.

Definition AliasBag_SetAlias (b : AliasBag) (fk : option loc) (a : string) : AliasBag :=
  mkAliasBag (prefix b) (counter b) (<[fk := a]> (bag b)).

Definition AliasBag_GetAlias (b : AliasBag) (fk : option loc) : AliasBag * string :=
  match bag b !! fk with
  | Some a => (b, a)
  | None =>
      let c := (counter b + 1)%Z in
      let a := prefix b +:+ Itoa c in
      (mkAliasBag (prefix b) c (<[fk := a]> (bag b)), a)
  end.

(** ** The session: [DmlBase]

    The fields [db] and [dba] (connection handles) play no part in the
    functions below and are left out.  [joinBag] is a pointer in the source;
    [Super] sets it through [alias(PREFIX + "0")] before anything else can
    run, so it is held by value. *)

Definition JOIN_PREFIX : string := "j".
Definition PREFIX : string := "t".

Record DmlBase := mkDmlBase {
  table : option Table;
  tableAlias : string;
  joins : list Join;
  criteria : option loc;
  parameters : gmap string Value;
  joinBag : AliasBag;
  lastFkAlias : string;
  lastJoin : option Join;
  discriminatorCriterias : slice loc;
  rawIndex : Z;
  cachedAssociation : list (list loc);
  path : list loc;
  rawSQL : option RawSql
}.

Definition set_joinBag (this : DmlBase) (b : AliasBag) : DmlBase :=
  mkDmlBase (table this) (tableAlias this) (joins this) (criteria this)
    (parameters this) b (lastFkAlias this) (lastJoin this)
    (discriminatorCriterias this) (rawIndex this) (cachedAssociation this)
    (path this) (rawSQL this).

Definition set_parameters (this : DmlBase) (p : gmap string Value) : DmlBase :=
  mkDmlBase (table this) (tableAlias this) (joins this) (criteria this)
    p (joinBag this) (lastFkAlias this) (lastJoin this)
    (discriminatorCriterias this) (rawIndex this) (cachedAssociation this)
    (path this) (rawSQL this).

Definition set_rawIndex (this : DmlBase) (i : Z) : DmlBase :=
  mkDmlBase (table this) (tableAlias this) (joins this) (criteria this)
    (parameters this) (joinBag this) (lastFkAlias this) (lastJoin this)
    (discriminatorCriterias this) i (cachedAssociation this)
    (path this) (rawSQL this).

Definition set_rawSQL (this : DmlBase) (r : option RawSql) : DmlBase :=
  mkDmlBase (table this) (tableAlias this) (joins this) (criteria this)
    (parameters this) (joinBag this) (lastFkAlias this) (lastJoin this)
    (discriminatorCriterias this) (rawIndex this) (cachedAssociation this)
    (path this) r.

Definition set_criteria (this : DmlBase) (c : option loc) : DmlBase :=
  mkDmlBase (table this) (tableAlias this) (joins this) c
    (parameters this) (joinBag this) (lastFkAlias this) (lastJoin this)
    (discriminatorCriterias this) (rawIndex this) (cachedAssociation this)
    (path this) (rawSQL this).

Definition set_path (this : DmlBase) (p : list loc) : DmlBase :=
  mkDmlBase (table this) (tableAlias this) (joins this) (criteria this)
    (parameters this) (joinBag this) (lastFkAlias this) (lastJoin this)
    (discriminatorCriterias this) (rawIndex this) (cachedAssociation this)
    p (rawSQL this).

(** [this.joinBag.GetAlias(fk)] and [this.joinBag.SetAlias(fk, a)] *)
Definition getAlias (this : DmlBase) (fk : option loc) : DmlBase * string :=
  let '(b, a) := AliasBag_GetAlias (joinBag this) fk in (set_joinBag this b, a).

Definition setAlias (this : DmlBase) (fk : option loc) (a : string) : DmlBase :=
  set_joinBag this (AliasBag_SetAlias (joinBag this) fk a).

(** [func (this *DmlBase) alias(a string)] *)
Definition alias (this : DmlBase) (a : string) : DmlBase :=
  if decide (a = "") then this
  else
    mkDmlBase (table this) a (joins this) (criteria this)
      (parameters this) (NewAliasBag (a +:+ "_" +:+ JOIN_PREFIX))
      (lastFkAlias this) (lastJoin this)
      (discriminatorCriterias this) (rawIndex this) (cachedAssociation this)
      (path this) None.

(** [NewDmlBase] / [Super], on the zero value of the struct. *)
Definition Super (tbl : option Table) : DmlBase :=
  let this := alias (mkDmlBase tbl "" [] None ∅ (NewAliasBag "") "" None None 0 [] [] None)
                    (PREFIX +:+ "0") in
  let this :=
    match tbl with
    | Some t =>
        mkDmlBase (table this) (tableAlias this) (joins this) (criteria this)
          (parameters this) (joinBag this) (lastFkAlias this) (lastJoin this)
          (TableCriterias t) (rawIndex this) (cachedAssociation this)
          (path this) (rawSQL this)
    | None => this
    end in
  set_parameters this ∅.

Definition NewDmlBase (tbl : option Table) : DmlBase := Super tbl.

(** [func (this *DmlBase) SetParameter(key string, parameter interface{})] *)
Definition SetParameter (this : DmlBase) (key : string) (parameter : Value) : DmlBase :=
  set_parameters this (<[key := parameter]> (parameters this)).

(** [func (this *DmlBase) inner(inner bool, associations ...*Association)]:
    one new [PathElement] per association, appended to [this.path]. *)
Fixpoint inner (this : DmlBase) (ps : pstore) (inn : bool) (associations : list loc)
    : DmlBase * pstore :=
  match associations with
  | [] => (set_rawSQL this None, ps)
  | association :: rest =>
      let '(ps1, pe) := alloc ps (mkPathElement association inn "" None None None) in
      inner (set_path this (path this ++ [pe])) ps1 inn rest
  end.

(** ** Raw-to-parameter rewriter: [func (this *DmlBase) replaceRaw(token Tokener)] *)

(** The name given to a raw literal: [this.tableAlias + "_R" + strconv.Itoa(this.rawIndex)] *)
Definition raw_name (tableAlias : string) (i : Z) : string :=
  tableAlias +:+ "_R" +:+ Itoa i.

(** [for k, v := range subquery.GetParameters() { this.SetParameter(k, v) }] *)
Definition copy_parameters (this : DmlBase) (sub : gmap string Lit) : DmlBase :=
  map_fold (λ k v acc, SetParameter acc k (VLit v)) this sub.

Fixpoint replaceRaw (fuel : nat) (this : DmlBase) (cs : cstore) (token : loc)
    : option (DmlBase * cstore) :=
  match fuel with
  | O => None
  | S fuel' =>
      tok ← cs !! token;
      let members := Members tok in
      if decide (Operator tok = TOKEN_RAW) then
        let this1 := set_rawIndex this (int_wrap (rawIndex this + 1)) in
        let parameter := raw_name (tableAlias this1) (rawIndex this1) in
        let this2 := SetParameter this1 parameter (TokValue tok) in
        Some (this2,
              <[token := mkToken TOKEN_PARAM (TableAlias tok) (VLit (LStr parameter))
                           (Members tok)]> cs)
      else if decide (Operator tok = TOKEN_SUBQUERY) then
        match TokValue tok with
        | VQuery sub => Some (copy_parameters this sub, cs)
        | VLit _ => None
        end
      else
        foldM (visit_member (λ s t, replaceRaw fuel' s.1 s.2 t)) (this, cs) members
  end.

(** ** Path resolver *)

(** Modelled from the spec: [DeepestCommonPath] is not in the sources at
    hand.  The spec: "compute the deepest common prefix between the
    requested path and every previously cached path, comparing elements
    pairwise by schema-level association identity"; "a longest-common-prefix
    search across all cached entries; ties are broken by the first matching
    cached entry encountered".  The result holds the elements of the cached
    path (their derived associations are what [addJoin] reuses); it is nil
    when nothing matches. *)
Fixpoint common_prefix (ps : pstore) (cached associations : list loc) : list loc :=
  match cached, associations with
  | c :: cached', a :: associations' =>
      match ps !! c, ps !! a with
      | Some pc, Some pa =>
          if Association_Equals (Base pc) (Base pa)
          then c :: common_prefix ps cached' associations'
          else []
      | _, _ => []
      end
  | _, _ => []
  end.

Definition DeepestCommonPath (ps : pstore) (cachedAssociation : list (list loc))
    (associations : list loc) : slice loc :=
  foldl (λ common cached,
           let temp := common_prefix ps cached associations in
           if decide (length (slice_list common) < length temp)
           then Some temp else common)
        None cachedAssociation.

(** [func (this *DmlBase) prepareAssociation(aliasFrom, aliasTo string, currentFk *Association)] *)
Definition prepareAssociation (st : astore) (aliasFrom aliasTo : string)
    (currentFk : option loc) : option astore :=
  fk ← currentFk;
  a ← st !! fk;
  Some (<[fk := mkAssociation (TableFrom a) (TableTo a)
                  ((λ rel, mkRelation
                             (mkColumnHolder (ColumnName (From rel)) aliasFrom)
                             (mkColumnHolder (ColumnName (To rel)) aliasTo))
                     <$> Relations a)
                  (DiscriminatorTable a) (Discriminators a)
                  (FromM2M a) (ToM2M a) aliasFrom aliasTo]> st).

(** The variables of [addJoin] that live across the iterations of its loop. *)
Record addJoin_state := mkAddJoinState {
  aj_this : DmlBase;
  aj_assocs : astore;
  aj_paths : pstore;
  aj_lastFk : option loc;
  aj_matches : bool;
  aj_f : nat;
  aj_local : list loc
}.

(** The head of an iteration of the loop of [addJoin]: the cached derived
    association to reuse ([lastCachedFk], nil when there is none) and the new
    value of [matches]. *)
Definition lookup_cached (common : list loc) (ps : pstore) (matches : bool) (f : nat)
    (association : loc) : option (option loc * bool) :=
  if matches && bool_decide (f < length common) then
    cf ← common !! f;
    cfr ← ps !! cf;
    if Association_Equals (Base cfr) association
    then Some (Derived cfr, matches)
    else Some (None, false)
  else Some (None, false).

(** The branch [lastCachedFk == nil]: the association is cloned and the
    clone is given its aliases.  The result: the session, the store, the
    clone ([deriveds[f]]) and the new [lastFk]. *)
Definition resolve_association (this : DmlBase) (st : astore) (lastFk : option loc)
    (f : nat) (per : PathElement) : option (DmlBase * astore * loc * option loc) :=
  (* copies to assign the alias to this query *)
  '(st, derived) ← Association_Clone st (Base per);
  let '(this, fkAlias) :=
    if decide (f = 0) then (this, tableAlias this)
    else getAlias this lastFk in
  d ← st !! derived;
  if IsMany2Many d then
    let fromFk := FromM2M d in
    let toFk := ToM2M d in
    let '(this, aliasJunction) := getAlias this fromFk in
    st ← prepareAssociation st fkAlias aliasJunction fromFk;
    let '(this, fkAlias) :=
      if decide (PreferredAlias per = "") then getAlias this toFk
      else (setAlias this toFk (PreferredAlias per), PreferredAlias per) in
    let '(this, aliasJunction) := getAlias this fromFk in
    st ← prepareAssociation st aliasJunction fkAlias toFk;
    Some (this, st, derived, toFk)
  else
    let '(this, fkAlias2) :=
      if decide (PreferredAlias per = "") then getAlias this (Some derived)
      else (setAlias this (Some derived) (PreferredAlias per), PreferredAlias per) in
    st ← prepareAssociation st fkAlias fkAlias2 (Some derived);
    Some (this, st, derived, Some derived).

(** The other branch: the cached derived association is reused; [lastFk] is
    its destination end. *)
Definition reuse_association (st : astore) (lastCachedFk : loc) : option (option loc) :=
  d ← st !! lastCachedFk;
  Some (if IsMany2Many d then ToM2M d else Some lastCachedFk).

(** One iteration of [for _, pe := range associations] in [addJoin].
    [deriveds[f]] is written and read within the iteration only: it is the
    local [derived]. *)
Definition addJoin_step (common : list loc) (s : addJoin_state) (pe : loc)
    : option addJoin_state :=
  per ← aj_paths s !! pe;
  '(lastCachedFk, matches) ←
    lookup_cached common (aj_paths s) (aj_matches s) (aj_f s) (Base per);
  '(this, st, derived, lastFk) ←
    match lastCachedFk with
    | None => resolve_association (aj_this s) (aj_assocs s) (aj_lastFk s) (aj_f s) per
    | Some cached =>
        lastFk ← reuse_association (aj_assocs s) cached;
        Some (aj_this s, aj_assocs s, cached, lastFk)
    end;
  (* pe.Derived = deriveds[f]; local = append(local, pe); f++ *)
  Some (mkAddJoinState this st (<[pe := set_Derived per (Some derived)]> (aj_paths s))
          lastFk matches (S (aj_f s)) (aj_local s ++ [pe])).

(** [func (this *DmlBase) addJoin(associations, common []*PathElement, fetch bool) []*PathElement] *)
Definition addJoin (this : DmlBase) (st : astore) (ps : pstore)
    (associations : list loc) (common : slice loc) (fetch : bool)
    : option (DmlBase * astore * pstore * list loc) :=
  let common :=
    match common with
    | None => DeepestCommonPath ps (cachedAssociation this) associations
    | Some _ => common
    end in
  s ← foldM (addJoin_step (slice_list common))
            (mkAddJoinState this st ps None true 0 []) associations;
  let this := aj_this s in
  let local := aj_local s in
  (* only caches if the path was different *)
  let cache :=
    if aj_matches s then cachedAssociation this
    else cachedAssociation this ++ [local] in
  (* gets the alias of the last join *)
  let '(this, lastAlias) := getAlias this (aj_lastFk s) in
  let j := NewJoin local fetch in
  Some (mkDmlBase (table this) (tableAlias this) (joins this ++ [j]) (criteria this)
          (parameters this) (joinBag this) lastAlias (Some j)
          (discriminatorCriterias this) (rawIndex this) cache
          (path this) (rawSQL this),
        aj_assocs s, aj_paths s, local).

(** ** Discriminator / criteria composer *)

(** The [pc == nil] test followed by [pc = new(PathCriteria)]. *)
Definition pc_or_new (pc : option PathCriteria) : PathCriteria :=
  default (mkPathCriteria None None) pc.

(** First loop of [buildPathCriterias], the body of one iteration: the
    caller's criteria of the element, the table discriminators of the
    destination table, the included columns.  [pc] is a pointer shared with
    [pathCriterias[index]]: the slot holds whatever [pc] holds when the
    iteration ends, and stays nil when [pc] does. *)
Definition normal_path_criteria (per : PathElement) (base : Association)
    : option PathCriteria :=
  let pc : option PathCriteria :=
    match Criteria per with
    | Some c => Some (mkPathCriteria (go_append None [c]) None)
    | None => None
    end in
  (* table discriminator on target *)
  let tableCriterias := TableCriterias (TableTo base) in
  let pc :=
    match tableCriterias with
    | Some tcs =>
        let pc := pc_or_new pc in
        Some (mkPathCriteria (go_append (Criterias pc) tcs) (pcColumns pc))
    | None => pc
    end in
  (* references column Includes *)
  match Columns per with
  | Some cols =>
      let pc := pc_or_new pc in
      Some (mkPathCriteria (Criterias pc) (Some cols))
  | None => pc
  end.

Definition buildPathCriterias_normal (st : astore) (ps : pstore)
    (acc : nat * list (option PathCriteria)) (pe : loc)
    : option (nat * list (option PathCriteria)) :=
  let '(index, pathCriterias) := acc in
  let index := S index in
  per ← ps !! pe;
  base ← st !! Base per;
  let pc := normal_path_criteria per base in
  Some (index,
        match pc with
        | Some _ => <[index := pc]> pathCriterias
        | None => pathCriterias
        end).

(** The variables of the second loop of [buildPathCriterias]. *)
Record discr_state := mkDiscrState {
  ds_this : DmlBase;
  ds_crits : cstore;
  ds_index : nat;
  ds_pathCriterias : list (option PathCriteria);
  ds_lastFkAlias : string
}.

(** Second loop of [buildPathCriterias], one iteration: the discriminators
    of the association. *)
Definition buildPathCriterias_discriminators (fuel : nat) (st : astore) (ps : pstore)
    (s : discr_state) (pe : loc) : option discr_state :=
  let index := S (ds_index s) in
  per ← ps !! pe;
  base ← st !! Base per;
  '(cs, pathCriterias) ←
    match Discriminators base with
    | Some discriminators =>
        slot ← ds_pathCriterias s !! index;
        let pc := pc_or_new slot in
        '(cs, crits) ←
          (if Table_Equals (DiscriminatorTable base) (TableTo base) then
             mapM_st (λ cs v, Some (Discriminator_Criteria cs v))
                     (ds_crits s) discriminators
           else
             (* force table alias for the first criteria *)
             mapM_st (λ cs v,
                        let '(cs, crit) := Discriminator_Criteria cs v in
                        cs ← SetTableAlias fuel cs crit (ds_lastFkAlias s);
                        Some (cs, crit))
                     (ds_crits s) discriminators);
        Some (cs, <[index := Some (mkPathCriteria (go_append (Criterias pc) crits)
                                     (pcColumns pc))]> (ds_pathCriterias s))
    | None => Some (ds_crits s, ds_pathCriterias s)
    end;
  let '(this, lastFkAlias) := getAlias (ds_this s) (Derived per) in
  Some (mkDiscrState this cs index pathCriterias lastFkAlias).

(** [func (this *DmlBase) buildPathCriterias(paths []*PathElement) []*PathCriteria] *)
Definition buildPathCriterias (fuel : nat) (this : DmlBase) (st : astore) (ps : pstore)
    (cs : cstore) (paths : list loc)
    : option (DmlBase * cstore * list (option PathCriteria)) :=
  let length := S (length paths) in
  let pathCriterias := replicate length None in
  (* processes normal criterias *)
  '(_, pathCriterias) ← foldM (buildPathCriterias_normal st ps) (0, pathCriterias) paths;
  (* process criterias from the association discriminators *)
  s ← foldM (buildPathCriterias_discriminators fuel st ps)
            (mkDiscrState this cs 0 pathCriterias (tableAlias this)) paths;
  Some (ds_this s, ds_crits s, ds_pathCriterias s).

(** ** Attaching criteria *)

(** The alias of the destination end of a resolved element, as computed in
    [applyOn] and [applyInclude]. *)
Definition derived_alias (this : DmlBase) (st : astore) (per : PathElement)
    : option (DmlBase * string) :=
  pfk ← Derived per;
  fk ← st !! pfk;
  if IsMany2Many fk then Some (getAlias this (ToM2M fk))
  else Some (getAlias this (Derived per)).

(** [func (this *DmlBase) applyOn(chain []*PathElement, criteria *Criteria)] *)
Definition applyOn (fuel : nat) (this : DmlBase) (st : astore) (ps : pstore) (cs : cstore)
    (chain : list loc) (criteria : loc) : option (DmlBase * pstore * cstore) :=
  match last chain with
  | None => Some (this, ps, cs)
  | Some pe =>
      per ← ps !! pe;
      '(cs, cpy) ← Criteria_Clone fuel cs criteria;
      '(this, fkAlias) ← derived_alias this st per;
      cs ← SetTableAlias fuel cs cpy fkAlias;
      '(this, cs) ← replaceRaw fuel this cs cpy;
      Some (set_rawSQL this None, <[pe := set_Criteria per (Some cpy)]> ps, cs)
  end.

(** [func (this *DmlBase) applyInclude(chain []*PathElement, tokens ...Tokener)] *)
Definition applyInclude (fuel : nat) (this : DmlBase) (st : astore) (ps : pstore)
    (cs : cstore) (chain : list loc) (tokens : list loc) : option (DmlBase * cstore) :=
  match last chain with
  | None => Some (this, cs)
  | Some pe =>
      per ← ps !! pe;
      '(this, fkAlias) ← derived_alias this st per;
      cs ← foldM (λ cs token, SetTableAlias fuel cs token fkAlias) cs tokens;
      Some (set_rawSQL this None, cs)
  end.

(** [func (this *DmlBase) applyWhere(restriction *Criteria)] *)
Definition applyWhere (fuel : nat) (this : DmlBase) (cs : cstore) (restriction : loc)
    : option (DmlBase * cstore) :=
  '(cs, token) ← Criteria_Clone fuel cs restriction;
  '(this, cs) ← replaceRaw fuel this cs token;
  cs ← SetTableAlias fuel cs token (tableAlias this);
  Some (set_rawSQL (set_criteria this (Some token)) None, cs).

(** [func (this *DmlBase) where(restrictions []*Criteria)] *)
Definition where_ (fuel : nat) (this : DmlBase) (cs : cstore) (restrictions : list loc)
    : option (DmlBase * cstore) :=
  let criterias : list loc := restrictions ++ slice_list (discriminatorCriterias this) in
  match criterias with
  | [] => Some (this, cs)
  | _ =>
      let '(cs, conjunction) := And cs criterias in
      applyWhere fuel this cs conjunction
  end.

(** ** [joinTo] *)

(** The variables of the loop of [joinTo] over the composed path criteria. *)
Record joinTo_state := mkJoinToState {
  jt_this : DmlBase;
  jt_paths : pstore;
  jt_crits : cstore;
  jt_firstCriterias : slice loc
}.

(** One iteration of [for index, pathCriteria := range pathCriterias]. *)
Definition joinTo_step (fuel : nat) (st : astore) (path : list loc)
    (s : joinTo_state) (index : nat) (pathCriteria : option PathCriteria)
    : option joinTo_state :=
  match pathCriteria with
  | None => Some s
  | Some pc =>
      s ←
        match Criterias pc with
        | None => Some s
        | Some conds =>
            (* index == 0 applies to the starting table *)
            if decide (index = 0) then
              Some (mkJoinToState (jt_this s) (jt_paths s) (jt_crits s) (Some conds))
            else
              let '(conds, firstCriterias) :=
                match jt_firstCriterias s with
                | Some firstCriterias =>
                    (* add the criterias restriction refering to the table,
                       due to association discriminator *)
                    (conds ++ firstCriterias, None)
                | None => (conds, None)
                end in
              let '(cs, conjunction) := And (jt_crits s) conds in
              '(this, ps, cs) ←
                applyOn fuel (jt_this s) st (jt_paths s) cs (take index path) conjunction;
              Some (mkJoinToState this ps cs firstCriterias)
        end;
      match pcColumns pc with
      | None => Some s
      | Some cols =>
          '(this, cs) ←
            applyInclude fuel (jt_this s) st (jt_paths s) (jt_crits s)
              (take index path) cols;
          Some (mkJoinToState this (jt_paths s) cs (jt_firstCriterias s))
      end
  end.

Fixpoint joinTo_loop (fuel : nat) (st : astore) (path : list loc)
    (s : joinTo_state) (index : nat) (pathCriterias : list (option PathCriteria))
    : option joinTo_state :=
  match pathCriterias with
  | [] => Some s
  | pathCriteria :: rest =>
      s ← joinTo_step fuel st path s index pathCriteria;
      joinTo_loop fuel st path s (S index) rest
  end.

(** [func (this *DmlBase) joinTo(path []*PathElement, fetch bool)] *)
Definition joinTo (fuel : nat) (this : DmlBase) (st : astore) (ps : pstore) (cs : cstore)
    (path : list loc) (fetch : bool) : option (DmlBase * astore * pstore * cstore) :=
  match path with
  | [] => Some (this, st, ps, cs)
  | _ =>
      '(this, st, ps, _) ← addJoin this st ps path None fetch;
      (* the first position refers to constraints applied to the table,
         due to a association discriminator *)
      '(this, cs, pathCriterias) ← buildPathCriterias fuel this st ps cs path;
      s ← joinTo_loop fuel st path (mkJoinToState this ps cs None) 0 pathCriterias;
      Some (jt_this s, st, jt_paths s, jt_crits s)
  end.

(** ** Predicates used to state the properties *)

(** The criteria a slot of the composed path criteria holds. *)
Definition criterias_of (slot : option PathCriteria) : list loc :=
  match slot with
  | Some pc => slice_list (Criterias pc)
  | None => []
  end.

(** [option_list]-like view of a nil-able pointer. *)
Definition ptr_list {A} (p : option A) : list A :=
  match p with
  | Some x => [x]
  | None => []
  end.

(** A set of cells is closed when the members of its cells are in it. *)
Definition closed (X : gset loc) (cs : cstore) : Prop :=
  ∀ k tok m, k ∈ X → cs !! k = Some tok → Some m ∈ Members tok → m ∈ X.

(** Two stores have the same cells with the same members. *)
Definition same_members (cs cs' : cstore) : Prop :=
  ∀ k, Members <$> (cs' !! k) = Members <$> (cs !! k).

(** [cs'] differs from [cs] inside [X] only, and not in the shape. *)
Definition touches_only (X : gset loc) (cs cs' : cstore) : Prop :=
  same_members cs cs' ∧ ∀ k, k ∉ X → cs' !! k = cs !! k.

(** [cs'] is [cs] plus new cells that refer to new cells only. *)
Definition extends (cs cs' : cstore) : Prop :=
  cs ⊆ cs' ∧ closed (dom cs' ∖ dom cs) cs'.

(** The loop bodies are unfolded by name, not by [simpl]. *)
Arguments buildPathCriterias_normal : simpl never.
Arguments buildPathCriterias_discriminators : simpl never.
Arguments addJoin_step : simpl never.
Arguments joinTo_step : simpl never.
Arguments normal_path_criteria : simpl never.
Arguments getAlias : simpl never.

(** ** Criteria trees laid out in the store

    A term that names, for each node, the cell that holds it.  It is used to
    state what [replaceRaw] does to a criteria whose cells form a tree (no
    cell is reached twice), as the clone of a criteria always does. *)

Inductive HTree :=
  | HNode (l : loc) (op : Op) (a : string) (v : Value) (kids : list (option HTree)).

Definition root (t : HTree) : loc :=
  match t with HNode l _ _ _ _ => l end.

Definition roots (kids : list (option HTree)) : list (option loc) :=
  (λ k : option HTree, root <$> k) <$> kids.

(** The cells of a tree, root first. *)
Fixpoint cells (t : HTree) : list (loc * Token) :=
  match t with
  | HNode l op a v kids =>
      (l, mkToken op a v (roots kids))
      :: flat_map (λ k, match k with Some t' => cells t' | None => [] end) kids
  end.

Definition cells_kids (kids : list (option HTree)) : list (loc * Token) :=
  flat_map (λ k, match k with Some t' => cells t' | None => [] end) kids.

Definition locs (t : HTree) : list loc := (cells t).*1.

(** The store holds the tree. *)
Definition repr (cs : cstore) (t : HTree) : Prop :=
  ∀ l tok, (l, tok) ∈ cells t → cs !! l = Some tok.

Definition repr_kids (cs : cstore) (kids : list (option HTree)) : Prop :=
  ∀ l tok, (l, tok) ∈ cells_kids kids → cs !! l = Some tok.

Fixpoint height (t : HTree) : nat :=
  match t with
  | HNode _ _ _ _ kids =>
      S (foldr (λ k h, match k with Some t' => max (height t') h | None => h end) 0 kids)
  end.

(** The number of raw-literal nodes of a tree. *)
Fixpoint raw_nodes (t : HTree) : nat :=
  match t with
  | HNode _ op _ _ kids =>
      (if decide (op = TOKEN_RAW) then 1 else 0)
      + foldr (λ k n, match k with Some t' => raw_nodes t' + n | None => n end) 0 kids
  end.

(** Raw literals are leaves, and there is no sub-query node. *)
Fixpoint plain (t : HTree) : Prop :=
  match t with
  | HNode _ op _ _ kids =>
      op ≠ TOKEN_SUBQUERY ∧ (op = TOKEN_RAW → kids = []) ∧
      foldr (λ k P, match k with Some t' => plain t' ∧ P | None => P end) True kids
  end.

Definition raw_nodes_kids (kids : list (option HTree)) : nat :=
  foldr (λ k n, match k with Some t' => raw_nodes t' + n | None => n end) 0 kids.

Definition plain_kids (kids : list (option HTree)) : Prop :=
  foldr (λ k P, match k with Some t' => plain t' ∧ P | None => P end) True kids.

(** The rewriting as the spec words it: each raw-literal node becomes a
    bound-parameter node whose value is a freshly generated name, made of the
    table alias and the next value of the counter; the literal is registered
    under that name; a sub-query node is left as it is; any other node is
    visited for its members.  The result: the counter, the registrations of
    raw literals in the order they are made, the rewritten tree. *)
Definition rewrite_kids (rw : Z → HTree → Z * list (string * Value) * HTree) :=
  fix go (i : Z) (kids : list (option HTree)) {struct kids}
      : Z * list (string * Value) * list (option HTree) :=
    match kids with
    | [] => (i, [], [])
    | None :: kids' =>
        let '(i', regs, kids'') := go i kids' in (i', regs, None :: kids'')
    | Some k :: kids' =>
        let '(i1, regs1, k') := rw i k in
        let '(i2, regs2, kids'') := go i1 kids' in
        (i2, regs1 ++ regs2, Some k' :: kids'')
    end.

Fixpoint rewrite_raw (tableAlias : string) (i : Z) (t : HTree)
    : Z * list (string * Value) * HTree :=
  match t with
  | HNode l op a v kids =>
      if decide (op = TOKEN_RAW) then
        let name := raw_name tableAlias (i + 1) in
        ((i + 1)%Z, [(name, v)], HNode l TOKEN_PARAM a (VLit (LStr name)) kids)
      else if decide (op = TOKEN_SUBQUERY) then (i, [], HNode l op a v kids)
      else
        let '(i', regs, kids') := rewrite_kids (rewrite_raw tableAlias) i kids in
        (i', regs, HNode l op a v kids')
  end.

(** Registering a list of values, in order. *)
Definition register (params : gmap string Value) (regs : list (string * Value))
    : gmap string Value :=
  foldl (λ m kv, <[kv.1 := kv.2]> m) params regs.

(** The session after a rewriting that left the counter at [i] and the
    parameter map at [params]. *)
Definition with_raw (this : DmlBase) (i : Z) (params : gmap string Value) : DmlBase :=
  mkDmlBase (table this) (tableAlias this) (joins this) (criteria this)
    params (joinBag this) (lastFkAlias this) (lastJoin this)
    (discriminatorCriterias this) i (cachedAssociation this)
    (path this) (rawSQL this).

(** What [rewrite_raw] does to a tree, and to the members of a node: the
    shape is kept, the counter advances by the number of registrations, the
    names are those of the successive values of the counter, and, on a plain
    tree, every raw literal is registered and none is left. *)
Definition rewrite_facts (alias : string) (t : HTree) : Prop :=
  ∀ i i' regs t', rewrite_raw alias i t = (i', regs, t') →
    root t' = root t ∧ locs t' = locs t ∧
    i' = (i + Z.of_nat (length regs))%Z ∧
    regs.*1 = (λ k : nat, raw_name alias (i + Z.of_nat (S k))) <$> seq 0 (length regs) ∧
    (plain t → length regs = raw_nodes t ∧ raw_nodes t' = 0).

Definition rewrite_kids_facts (alias : string) (kids : list (option HTree)) : Prop :=
  ∀ i i' regs kids', rewrite_kids (rewrite_raw alias) i kids = (i', regs, kids') →
    roots kids' = roots kids ∧ (cells_kids kids').*1 = (cells_kids kids).*1 ∧
    i' = (i + Z.of_nat (length regs))%Z ∧
    regs.*1 = (λ k : nat, raw_name alias (i + Z.of_nat (S k))) <$> seq 0 (length regs) ∧
    (plain_kids kids → length regs = raw_nodes_kids kids ∧ raw_nodes_kids kids' = 0).

(** [replaceRaw] on the root of a plain tree held by the store does what
    [rewrite_raw] does on the tree. *)
Definition replaceRaw_refines (t : HTree) : Prop :=
  ∀ fuel this cs i' regs t',
    height t ≤ fuel → repr cs t → NoDup (locs t) → plain t →
    (- 2 ^ 63 ≤ rawIndex this)%Z →
    (rawIndex this + Z.of_nat (raw_nodes t) < 2 ^ 63)%Z →
    rewrite_raw (tableAlias this) (rawIndex this) t = (i', regs, t') →
    ∃ cs',
      replaceRaw fuel this cs (root t)
        = Some (with_raw this i' (register (parameters this) regs), cs') ∧
      repr cs' t' ∧ ∀ k, k ∉ locs t → cs' !! k = cs !! k.


(** The values of the raw literals of a tree, in the order in which
    [replaceRaw] meets them. *)
Fixpoint raw_values (t : HTree) : list Value :=
  match t with
  | HNode _ op _ v kids =>
      if decide (op = TOKEN_RAW) then [v]
      else flat_map (λ k, match k with Some t' => raw_values t' | None => [] end) kids
  end.

(** More of what [rewrite_raw] does to a tree, and to the members of a
    node: on a plain tree the values registered are those of the raw
    literals, in order; the height is kept, and so is plainness; a tree
    without raw literal is left as it is. *)
Definition rewrite_more (alias : string) (t : HTree) : Prop :=
  ∀ i i' regs t', rewrite_raw alias i t = (i', regs, t') →
    (plain t → regs.*2 = raw_values t) ∧ height t' = height t ∧ (plain t → plain t') ∧
    (raw_nodes t = 0 → regs = [] ∧ t' = t).

Definition rewrite_kids_more (alias : string) (kids : list (option HTree)) : Prop :=
  ∀ i i' regs kids', rewrite_kids (rewrite_raw alias) i kids = (i', regs, kids') →
    (plain_kids kids →
     regs.*2 = flat_map (λ k, match k with Some t' => raw_values t' | None => [] end) kids) ∧
    foldr (λ k h, match k with Some t' => max (height t') h | None => h end) 0 kids'
    = foldr (λ k h, match k with Some t' => max (height t') h | None => h end) 0 kids ∧
    (plain_kids kids → plain_kids kids') ∧
    (raw_nodes_kids kids = 0 → regs = [] ∧ kids' = kids).

(** What a path element says about the joins: its association and the
    derived association that resolves it.  Two stores of path elements have
    the same links when they hold the same elements with the same links:
    they may differ in the criteria and the columns attached. *)
Definition link (per : PathElement) : loc * option loc := (Base per, Derived per).

Definition same_links (ps ps' : pstore) : Prop :=
  ∀ q, link <$> ps' !! q = link <$> ps !! q.
(** ** Invariants of a session *)

(** The alias allocator knows the association. *)
Definition aliased (this : DmlBase) (fk : option loc) : Prop :=
  is_Some (bag (joinBag this) !! fk).

(** A session that differs from [this] in its alias allocator only. *)
Definition same_but_bag (this this' : DmlBase) : Prop :=
  this' = set_joinBag this (joinBag this').

(** The element has been resolved: it has a derived association, held by
    the store, whose destination end has an alias. *)
Definition resolved (this : DmlBase) (st : astore) (ps : pstore) (pe : loc) : Prop :=
  ∃ per d lastFk,
    ps !! pe = Some per ∧ Derived per = Some d ∧
    reuse_association st d = Some lastFk ∧ aliased this lastFk.

(** The first [k] elements of two paths follow the same schema-level
    associations. *)
Definition same_bases (ps : pstore) (c1 c2 : list loc) (k : nat) : Prop :=
  ∀ f, f < k →
    ∃ pe1 pe2 per1 per2,
      c1 !! f = Some pe1 ∧ c2 !! f = Some pe2 ∧
      ps !! pe1 = Some per1 ∧ ps !! pe2 = Some per2 ∧ Base per1 = Base per2.

(** What holds of a session between two calls of [addJoin]: the cached
    elements are resolved; the aliases are those of associations of the
    store; two cached paths that start with the same associations have the
    same derived associations there. *)
Record wf_session (this : DmlBase) (st : astore) (ps : pstore) : Prop := {
  wf_resolved :
    ∀ c pe, c ∈ cachedAssociation this → pe ∈ c → resolved this st ps pe;
  wf_bag : ∀ l, aliased this (Some l) → l ∈ dom st;
  wf_coherent :
    ∀ c1 c2 k f pe1 pe2 per1 per2,
      c1 ∈ cachedAssociation this → c2 ∈ cachedAssociation this →
      same_bases ps c1 c2 k → f < k →
      c1 !! f = Some pe1 → c2 !! f = Some pe2 →
      ps !! pe1 = Some per1 → ps !! pe2 = Some per2 →
      Derived per1 = Derived per2
}.

(** A requested path made of new elements, as [inner] builds it. *)
Definition fresh_request (this : DmlBase) (associations : list loc) : Prop :=
  NoDup associations ∧
  ∀ c pe, c ∈ cachedAssociation this → pe ∈ c → pe ∉ associations.

(** An association with the aliases of its two ends stamped on it and on
    its relations, as [prepareAssociation] leaves it. *)
Definition stamped (a : Association) (aliasFrom aliasTo : string) : Association :=
  mkAssociation (TableFrom a) (TableTo a)
    ((λ rel, mkRelation (mkColumnHolder (ColumnName (From rel)) aliasFrom)
                        (mkColumnHolder (ColumnName (To rel)) aliasTo))
       <$> Relations a)
    (DiscriminatorTable a) (Discriminators a) (FromM2M a) (ToM2M a) aliasFrom aliasTo.

Arguments resolve_association : simpl never.
Arguments lookup_cached : simpl never.
Arguments reuse_association : simpl never.
Arguments Association_Clone : simpl never.
Arguments prepareAssociation : simpl never.

(** What holds of the variables of the loop of [addJoin] at the head of
    each iteration. *)
Definition aj_inv (common : list loc) (s : addJoin_state) : Prop :=
  (∀ l, aliased (aj_this s) (Some l) → l ∈ dom (aj_assocs s)) ∧
  (aj_f s ≠ 0 → aliased (aj_this s) (aj_lastFk s)) ∧
  (∀ cf, cf ∈ common → resolved (aj_this s) (aj_assocs s) (aj_paths s) cf) ∧
  (aj_f s ≠ 0 →
   ∃ pe0 per0 d0,
     last (aj_local s) = Some pe0 ∧ aj_paths s !! pe0 = Some per0 ∧
     Derived per0 = Some d0 ∧
     reuse_association (aj_assocs s) d0 = Some (aj_lastFk s)).

(** How the loop of [addJoin] moves the stores: associations and aliases
    are added, none is changed, and the new aliases are those of new
    associations. *)
Definition aj_mono (s s' : addJoin_state) : Prop :=
  aj_assocs s ⊆ aj_assocs s' ∧
  same_but_bag (aj_this s) (aj_this s') ∧
  bag (joinBag (aj_this s)) ⊆ bag (joinBag (aj_this s')) ∧
  ∀ key, aliased (aj_this s') key → ¬ aliased (aj_this s) key →
    ∃ l, key = Some l ∧ aj_assocs s !! l = None.

(** Two stores of path elements with the same elements, following the same
    associations. *)
Definition same_base_store (ps ps' : pstore) : Prop :=
  ∀ q, Base <$> (ps' !! q) = Base <$> (ps !! q).

(** The cached element at position [f] of [common] follows the same
    association as the element [per]. *)
Definition matches_at (common : list loc) (ps : pstore) (f : nat) (per : PathElement)
    : Prop :=
  ∃ cf cfr, common !! f = Some cf ∧ ps !! cf = Some cfr ∧ Base cfr = Base per.

(** ** Attaching the composed criteria, as the spec words it

    "All other slots attach as ON-clause restrictions for their respective
    join": the criteria of slot [index] are joined by [And] and attached by
    [applyOn] to the prefix of the path that ends at step [index]; the
    columns of the slot are given the alias of that step. *)
Definition attach_slot (fuel : nat) (st : astore) (path : list loc)
    (s : joinTo_state) (index : nat) (slot : option PathCriteria) : option joinTo_state :=
  match slot with
  | None => Some s
  | Some pc =>
      s ←
        match Criterias pc with
        | None => Some s
        | Some conds =>
            let '(cs, conjunction) := And (jt_crits s) conds in
            '(this, ps, cs) ←
              applyOn fuel (jt_this s) st (jt_paths s) cs (take index path) conjunction;
            Some (mkJoinToState this ps cs (jt_firstCriterias s))
        end;
      match pcColumns pc with
      | None => Some s
      | Some cols =>
          '(this, cs) ←
            applyInclude fuel (jt_this s) st (jt_paths s) (jt_crits s)
              (take index path) cols;
          Some (mkJoinToState this (jt_paths s) cs (jt_firstCriterias s))
      end
  end.

Fixpoint attach_slots (fuel : nat) (st : astore) (path : list loc)
    (s : joinTo_state) (index : nat) (slots : list (option PathCriteria))
    : option joinTo_state :=
  match slots with
  | [] => Some s
  | slot :: rest =>
      s ← attach_slot fuel st path s index slot;
      attach_slots fuel st path s (S index) rest
  end.

Arguments attach_slot : simpl never.
Arguments applyOn : simpl never.
Arguments applyInclude : simpl never.
Arguments And : simpl never.

Arguments addJoin : simpl never.
Arguments buildPathCriterias : simpl never.
Arguments applyWhere : simpl never.
Arguments derived_alias : simpl never.

(** ** When the rewrites return

    The operations on criteria walk the members of a node with a bound on
    the depth; they stop without a result on a dangling member, on a
    sub-query token whose value is not a query and when the bound is
    reached. *)

Definition is_query (v : Value) : Prop :=
  match v with
  | VQuery _ => True
  | VLit _ => False
  end.

(** The cells reachable from [l] are in the store, at most [n] levels deep,
    and the sub-query tokens among them hold a query. *)
Fixpoint criteria_ok (n : nat) (cs : cstore) (l : loc) : Prop :=
  match n with
  | O => False
  | S n' =>
      ∃ tok, cs !! l = Some tok ∧
        (Operator tok = TOKEN_SUBQUERY → is_query (TokValue tok)) ∧
        Forall (λ m, match m with Some k => criteria_ok n' cs k | None => True end)
               (Members tok)
  end.

(** [cs'] has the cells of [cs], with the same members, and its sub-query
    tokens hold a query where those of [cs] do. *)
Definition keeps_shape (cs cs' : cstore) : Prop :=
  ∀ k tok, cs !! k = Some tok →
    ∃ tok', cs' !! k = Some tok' ∧ Members tok' = Members tok ∧
      ((Operator tok = TOKEN_SUBQUERY → is_query (TokValue tok)) →
       Operator tok' = TOKEN_SUBQUERY → is_query (TokValue tok')).

(** The depth of a criteria given as a term, and its sub-query tokens. *)
Fixpoint CTree_height (t : CTree) : nat :=
  match t with
  | CNode _ _ _ kids => S (foldr (λ k h, max (CTree_height k) h) 0 kids)
  end.

Fixpoint CTree_ok (t : CTree) : Prop :=
  match t with
  | CNode op _ v kids =>
      (op = TOKEN_SUBQUERY → is_query v) ∧ foldr (λ k P, CTree_ok k ∧ P) True kids
  end.

(** The elements of the path and their associations are in the stores, and
    the criteria of the association-level discriminators are at most [fuel]
    levels deep. *)
Definition composable (fuel : nat) (st : astore) (ps : pstore) (paths : list loc) : Prop :=
  Forall (λ pe, ∃ per base,
            ps !! pe = Some per ∧ st !! Base per = Some base ∧
            Forall (λ v, CTree_ok (DiscriminatorCriteria v) ∧
                         CTree_height (DiscriminatorCriteria v) ≤ fuel)
                   (slice_list (Discriminators base)))
         paths.

(** The elements of the requested path and their associations are in the
    stores, the two junction associations of a many-to-many pairing
    included. *)
Definition resolvable (st : astore) (ps : pstore) (associations : list loc) : Prop :=
  Forall (λ pe, ∃ per base,
            ps !! pe = Some per ∧ st !! Base per = Some base ∧
            match FromM2M base, ToM2M base with
            | Some f, Some t => is_Some (st !! f) ∧ is_Some (st !! t)
            | _, _ => True
            end)
         associations.

(** The columns a slot of the composed path criteria holds. *)
Definition columns_of (slot : option PathCriteria) : list loc :=
  match slot with
  | Some pc => slice_list (pcColumns pc)
  | None => []
  end.

(** The criteria and the columns of the slots are in the store, at most [n]
    levels deep. *)
Definition slots_ok (n : nat) (cs : cstore) (slots : list (option PathCriteria)) : Prop :=
  Forall (λ slot, Forall (criteria_ok n cs) (criterias_of slot) ∧
                  Forall (criteria_ok n cs) (columns_of slot)) slots.

(** What [joinTo] needs of a path to return: its elements and their
    associations are in the stores, and the criteria it attaches (those of
    the caller, the included columns, the discriminators of the tables and
    of the associations) are at most [n] levels deep. *)
Definition attachable (n : nat) (st : astore) (ps : pstore) (cs : cstore)
    (path : list loc) : Prop :=
  Forall (λ pe, ∃ per base,
            ps !! pe = Some per ∧ st !! Base per = Some base ∧
            Forall (criteria_ok n cs) (ptr_list (Criteria per)) ∧
            Forall (criteria_ok n cs) (slice_list (Columns per)) ∧
            Forall (criteria_ok n cs) (slice_list (TableCriterias (TableTo base))) ∧
            Forall (λ v, CTree_ok (DiscriminatorCriteria v) ∧
                         CTree_height (DiscriminatorCriteria v) ≤ n)
                   (slice_list (Discriminators base)))
         path.

(** The elements of the path have a derived association, held by the
    store. *)
Definition derived_in (st : astore) (ps : pstore) (path : list loc) : Prop :=
  ∀ pe, pe ∈ path → ∃ per d, ps !! pe = Some per ∧ Derived per = Some d ∧ is_Some (st !! d).


(** ** What [replaceRaw] meets

    [replaceRaw] does not visit the members of a raw-literal token, nor
    those of a sub-query token. *)

(** The cells that [replaceRaw] meets, root first. *)
Fixpoint met (t : HTree) : list (loc * Token) :=
  match t with
  | HNode l op a v kids =>
      (l, mkToken op a v (roots kids))
      :: (if decide (op = TOKEN_RAW) then []
          else if decide (op = TOKEN_SUBQUERY) then []
          else flat_map (λ k, match k with Some t' => met t' | None => [] end) kids)
  end.

Definition met_kids (kids : list (option HTree)) : list (loc * Token) :=
  flat_map (λ k, match k with Some t' => met t' | None => [] end) kids.

(** The number of raw-literal nodes that it meets. *)
Fixpoint raw_met (t : HTree) : nat :=
  match t with
  | HNode _ op _ _ kids =>
      if decide (op = TOKEN_RAW) then 1
      else if decide (op = TOKEN_SUBQUERY) then 0
      else foldr (λ k n, match k with Some t' => raw_met t' + n | None => n end) 0 kids
  end.

Definition raw_met_kids (kids : list (option HTree)) : nat :=
  foldr (λ k n, match k with Some t' => raw_met t' + n | None => n end) 0 kids.

(** Every sub-query token that it meets carries a query. *)
Fixpoint subqueries_ok (t : HTree) : Prop :=
  match t with
  | HNode _ op _ v kids =>
      if decide (op = TOKEN_RAW) then True
      else if decide (op = TOKEN_SUBQUERY) then is_query v
      else foldr (λ k P, match k with Some t' => subqueries_ok t' ∧ P | None => P end)
                 True kids
  end.

Definition subqueries_ok_kids (kids : list (option HTree)) : Prop :=
  foldr (λ k P, match k with Some t' => subqueries_ok t' ∧ P | None => P end) True kids.

(** The names of the parameters of the sub-queries that it meets. *)
Fixpoint copied (t : HTree) : list string :=
  match t with
  | HNode _ op _ v kids =>
      if decide (op = TOKEN_RAW) then []
      else if decide (op = TOKEN_SUBQUERY) then
        match v with
        | VQuery sub => (map_to_list sub).*1
        | VLit _ => []
        end
      else flat_map (λ k, match k with Some t' => copied t' | None => [] end) kids
  end.

Definition copied_kids (kids : list (option HTree)) : list string :=
  flat_map (λ k, match k with Some t' => copied t' | None => [] end) kids.

(** Raw-literal and sub-query tokens are leaves. *)
Fixpoint leaves (t : HTree) : Prop :=
  match t with
  | HNode _ op _ _ kids =>
      (op = TOKEN_RAW ∨ op = TOKEN_SUBQUERY → kids = []) ∧
      foldr (λ k P, match k with Some t' => leaves t' ∧ P | None => P end) True kids
  end.

Definition leaves_kids (kids : list (option HTree)) : Prop :=
  foldr (λ k P, match k with Some t' => leaves t' ∧ P | None => P end) True kids.

(** The counter and the parameter map after the visit of a tree: a raw
    literal is registered under the next name, the parameters of a sub-query
    are copied in. *)
Definition params_after_kids
    (visit : Z * gmap string Value → HTree → Z * gmap string Value) :=
  fix go (s : Z * gmap string Value) (kids : list (option HTree)) {struct kids}
      : Z * gmap string Value :=
    match kids with
    | [] => s
    | None :: kids' => go s kids'
    | Some k :: kids' => go (visit s k) kids'
    end.

Fixpoint params_after (tableAlias : string) (s : Z * gmap string Value) (t : HTree)
    : Z * gmap string Value :=
  match t with
  | HNode _ op _ v kids =>
      if decide (op = TOKEN_RAW) then
        ((s.1 + 1)%Z, <[raw_name tableAlias (s.1 + 1) := v]> s.2)
      else if decide (op = TOKEN_SUBQUERY) then
        (s.1, match v with
              | VQuery sub => (VLit <$> sub) ∪ s.2
              | VLit _ => s.2
              end)
      else params_after_kids (params_after tableAlias) s kids
  end.

(** [replaceRaw] on the root of a tree held by the store does what
    [rewrite_raw] does on the tree, and leaves the counter and the
    parameters that [params_after] gives. *)
Definition replaceRaw_runs (t : HTree) : Prop :=
  ∀ fuel this cs i' regs t',
    height t ≤ fuel → repr cs t → NoDup (locs t) → subqueries_ok t →
    (- 2 ^ 63 ≤ rawIndex this)%Z →
    (rawIndex this + Z.of_nat (raw_met t) < 2 ^ 63)%Z →
    rewrite_raw (tableAlias this) (rawIndex this) t = (i', regs, t') →
    ∃ cs',
      replaceRaw fuel this cs (root t)
        = Some (with_raw this i'
                  (params_after (tableAlias this) (rawIndex this, parameters this) t).2,
                cs') ∧
      repr cs' t' ∧ ∀ k, k ∉ locs t → cs' !! k = cs !! k.

(** What [rewrite_raw] does to the nodes met: every raw literal met is
    registered, and is a bound parameter in the rewritten tree; when
    raw-literal and sub-query tokens are leaves, every raw literal is met
    and none is left. *)
Definition rewrite_met_facts (alias : string) (t : HTree) : Prop :=
  ∀ i i' regs t', rewrite_raw alias i t = (i', regs, t') →
    length regs = raw_met t ∧
    (leaves t → raw_met t = raw_nodes t ∧ raw_nodes t' = 0) ∧
    ∀ l tok, (l, tok) ∈ met t → Operator tok = TOKEN_RAW →
      ∃ name, (name, TokValue tok) ∈ regs ∧
        (l, mkToken TOKEN_PARAM (TableAlias tok) (VLit (LStr name)) (Members tok))
          ∈ cells t'.

Definition rewrite_met_kids_facts (alias : string) (kids : list (option HTree)) : Prop :=
  ∀ i i' regs kids', rewrite_kids (rewrite_raw alias) i kids = (i', regs, kids') →
    length regs = raw_met_kids kids ∧
    (leaves_kids kids → raw_met_kids kids = raw_nodes_kids kids ∧ raw_nodes_kids kids' = 0) ∧
    ∀ l tok, (l, tok) ∈ met_kids kids → Operator tok = TOKEN_RAW →
      ∃ name, (name, TokValue tok) ∈ regs ∧
        (l, mkToken TOKEN_PARAM (TableAlias tok) (VLit (LStr name)) (Members tok))
          ∈ cells_kids kids'.

(** What the visit does to the parameter map: its keys afterwards are its
    keys before, the names of the registrations and the names of the
    parameters copied; the entries under other names are left; a
    registration is there afterwards unless a sub-query holds a parameter of
    its name; without parameters to copy, the map is the registrations made
    in order. *)
Definition params_facts (alias : string) (t : HTree) : Prop :=
  ∀ i p i' regs t', rewrite_raw alias i t = (i', regs, t') →
    (params_after alias (i, p) t).1 = i' ∧
    (∀ name, is_Some ((params_after alias (i, p) t).2 !! name) ↔
       is_Some (p !! name) ∨ name ∈ regs.*1 ∨ name ∈ copied t) ∧
    (∀ name, name ∉ regs.*1 → name ∉ copied t →
       (params_after alias (i, p) t).2 !! name = p !! name) ∧
    (∀ name v, NoDup regs.*1 → (name, v) ∈ regs → name ∉ copied t →
       (params_after alias (i, p) t).2 !! name = Some v) ∧
    (copied t = [] → (params_after alias (i, p) t).2 = register p regs).

Definition params_kids_facts (alias : string) (kids : list (option HTree)) : Prop :=
  ∀ i p i' regs kids', rewrite_kids (rewrite_raw alias) i kids = (i', regs, kids') →
    (params_after_kids (params_after alias) (i, p) kids).1 = i' ∧
    (∀ name, is_Some ((params_after_kids (params_after alias) (i, p) kids).2 !! name) ↔
       is_Some (p !! name) ∨ name ∈ regs.*1 ∨ name ∈ copied_kids kids) ∧
    (∀ name, name ∉ regs.*1 → name ∉ copied_kids kids →
       (params_after_kids (params_after alias) (i, p) kids).2 !! name = p !! name) ∧
    (∀ name v, NoDup regs.*1 → (name, v) ∈ regs → name ∉ copied_kids kids →
       (params_after_kids (params_after alias) (i, p) kids).2 !! name = Some v) ∧
    (copied_kids kids = [] →
     (params_after_kids (params_after alias) (i, p) kids).2 = register p regs).
(** ** The alias forced on origin-side discriminators

    The successive values of [lastFkAlias] in the second loop of
    [buildPathCriterias]: the value in force at step [i] is the alias of the
    base table for the first step, and what the alias allocator answers for
    the derived association of the previous element otherwise. *)
Fixpoint forced_aliases (this : DmlBase) (ps : pstore) (a : string) (paths : list loc)
    : list string :=
  match paths with
  | [] => []
  | pe :: rest =>
      a :: match ps !! pe with
           | Some per =>
               let '(this', a') := getAlias this (Derived per) in
               forced_aliases this' ps a' rest
           | None => []
           end
  end.

(** The operator, alias and value of the root of a criteria given as a
    term. *)
Definition CTree_root (t : CTree) : Op * string * Value :=
  match t with
  | CNode op a v _ => (op, a, v)
  end.

(** ** Copies of a criteria

    What a criteria says, apart from the cells that hold it: two trees with
    the same shape have the same operators, aliases, values and members, in
    possibly different cells. *)

Inductive Shape :=
  | SNode (op : Op) (a : string) (v : Value) (kids : list (option Shape)).

Fixpoint shape (t : HTree) : Shape :=
  match t with
  | HNode _ op a v kids =>
      SNode op a v (map (λ k, match k with Some t' => Some (shape t') | None => None end) kids)
  end.

Definition shape_kids (kids : list (option HTree)) : list (option Shape) :=
  map (λ k, match k with Some t' => Some (shape t') | None => None end) kids.

Definition height_kids (kids : list (option HTree)) : nat :=
  foldr (λ k h, match k with Some t' => max (height t') h | None => h end) 0 kids.

(** [t1] is a copy of [t] in cells that the store [cs] does not hold. *)
Definition copy_of (cs : cstore) (t t1 : HTree) : Prop :=
  shape t1 = shape t ∧ NoDup (locs t1) ∧ ∀ k, k ∈ locs t1 → cs !! k = None.

(** The tree with the alias of every node set to [a]: what [SetTableAlias]
    makes of it. *)
Fixpoint realias (a : string) (t : HTree) : HTree :=
  match t with
  | HNode l op _ v kids =>
      HNode l op a v
        (map (λ k, match k with Some t' => Some (realias a t') | None => None end) kids)
  end.

Definition realias_kids (a : string) (kids : list (option HTree)) : list (option HTree) :=
  map (λ k, match k with Some t' => Some (realias a t') | None => None end) kids.

(** The included columns of the elements of a path. *)
Definition included (ps : pstore) (path : list loc) : list loc :=
  flat_map (λ pe, match ps !! pe with
                  | Some per => slice_list (Columns per)
                  | None => []
                  end) path.

(** What the caller attached to a path element, and the stores of path
    elements that differ in nothing of it. *)
Definition attachment (per : PathElement) : option loc * slice loc :=
  (Criteria per, Columns per).

Definition same_attachments (ps ps' : pstore) : Prop :=
  ∀ q, attachment <$> ps' !! q = attachment <$> ps !! q.

(** [cs'] has the cells of [cs], and differs from it inside [X] only, [X]
    being a closed set of cells of [cs']. *)
Definition keeps_outside (X : gset loc) (cs cs' : cstore) : Prop :=
  X ⊆ dom cs' ∧ closed X cs' ∧ dom cs ⊆ dom cs' ∧
  ∀ k, k ∈ dom cs → k ∉ X → cs' !! k = cs !! k.

(** The criteria of the path elements of [ps'] are those of [ps], or cells
    that [cs] does not hold. *)
Definition criteria_kept_or_new (cs : cstore) (ps ps' : pstore) : Prop :=
  ∀ pe per', ps' !! pe = Some per' →
    ∃ per, ps !! pe = Some per ∧
      (Criteria per' = Criteria per ∨ ∃ c, Criteria per' = Some c ∧ cs !! c = None).

(** ** The data access helper [SimpleDBA] (package [dbx])

    [SimpleDBA] runs statements through [database/sql], which is outside the
    repository, as are the error values, the persistence failure and the
    fault codes of package [dbx].  They are the parameters of the model,
    gathered in the class [Sql]: the theorems hold for every instance.

    The world outside is explicit state: the statements and the result sets
    that are open, and the calls made, in order.  A result set is a finite
    list of rows; [Next] is modelled with the row it makes current, and a
    transformer is a function of that row.  [Close] ends a statement or a
    result set whatever it answers.  The calls to the logger have no effect
    on what the functions return and are left out; [QueryInto], which works
    by reflection on the type of a closure, and [QueryFirst], which reads
    the collection of the toolkit, are not modelled. *)

Module dbx.

Class Sql := {
  (** Go's [error] values and their [Error()] text *)
  error : Type;
  Error : error → string;
  (** the failure built by [NewPersistenceFail(code, message)] *)
  NewPersistenceFail : string → string → error;
  FAULT_PREP_STATEMENT : string;
  FAULT_QUERY : string;
  FAULT_TRANSFORM : string;
  FAULT_PARSE_STATEMENT : string;
  FAULT_EXEC_STATEMENT : string;
  (** the values bound to a statement, and [fmt.Sprintf("%v", params)] *)
  Param : Type;
  Sprintf_v : list Param → string;
  (** a row of a result set, and [Scan] into one [*int64] destination,
      given what the destination holds: what it holds afterwards, and the
      error *)
  Row : Type;
  Scan_int64 : Row → Z → Z * option error
}.

Section SimpleDBA.
Context `{Sql}.

(** The answers of the database behind a connection: the error of
    [Prepare]; the error or the rows of [Query]; the error of [Exec] or what
    [RowsAffected] will answer; the errors of closing a result set and a
    statement.  They depend on the text of the statement and on the values
    bound to it. *)
Record IConnection := mkConnection {
  on_Prepare : string → option error;
  on_Query : string → slice Param → error + list Row;
  on_Exec : string → slice Param → error + (Z * option error);
  on_Rows_Close : string → option error;
  on_Stmt_Close : string → option error
}.

Record SimpleDBA := mkSimpleDBA {
  (* The connection to execute the query in. *)
  connection : IConnection
}.

Definition NewSimpleDBA (connection : IConnection) : SimpleDBA :=
  mkSimpleDBA connection.

(** [*sql.Stmt], [*sql.Rows] and [sql.Result].  A result set carries the rows
    that [Next] has not yet made current. *)
Record Stmt := mkStmt {
  stmt_id : loc;
  stmt_connection : IConnection;
  stmt_sql : string
}.

Record Rows := mkRows {
  rows_id : loc;
  rows_connection : IConnection;
  rows_sql : string;
  rows_pending : list Row
}.

Record Result := mkResult {
  rowsAffected : Z * option error
}.

(** The calls made on [database/sql], and on the row transformer of
    [QueryCollection]. *)
Inductive Call :=
  | CallPrepare (sql : string)
  | CallQuery (stmt : loc) (params : slice Param)
  | CallExec (stmt : loc) (params : slice Param)
  | CallStmtClose (stmt : loc)
  | CallNext (rows : loc)
  | CallScan (rows : loc)
  | CallRowsClose (rows : loc)
  | CallRowsAffected
  | CallBeforeAll
  | CallTransform
  | CallOnTransformation
  | CallAfterAll.

(** The world outside: the statements and the result sets that are open, and
    the calls made so far, oldest first. *)
Record World := mkWorld {
  statements : gset loc;
  cursors : gset loc;
  calls : list Call
}.

Definition called (c : Call) (w : World) : World :=
  mkWorld (statements w) (cursors w) (calls w ++ [c]).

Definition Prepare (c : IConnection) (sql : string) (w : World)
    : World * (error + Stmt) :=
  let w := called (CallPrepare sql) w in
  match on_Prepare c sql with
  | Some err => (w, inl err)
  | None =>
      let id := fresh (statements w) in
      (mkWorld ({[id]} ∪ statements w) (cursors w) (calls w), inr (mkStmt id c sql))
  end.

Definition Stmt_Query (stmt : Stmt) (params : slice Param) (w : World)
    : World * (error + Rows) :=
  let w := called (CallQuery (stmt_id stmt) params) w in
  match on_Query (stmt_connection stmt) (stmt_sql stmt) params with
  | inl err => (w, inl err)
  | inr rows =>
      let id := fresh (cursors w) in
      (mkWorld (statements w) ({[id]} ∪ cursors w) (calls w),
       inr (mkRows id (stmt_connection stmt) (stmt_sql stmt) rows))
  end.

Definition Stmt_Exec (stmt : Stmt) (params : slice Param) (w : World)
    : World * (error + Result) :=
  let w := called (CallExec (stmt_id stmt) params) w in
  match on_Exec (stmt_connection stmt) (stmt_sql stmt) params with
  | inl err => (w, inl err)
  | inr affected => (w, inr (mkResult affected))
  end.

Definition Stmt_Close (stmt : Stmt) (w : World) : World * option error :=
  let w := called (CallStmtClose (stmt_id stmt)) w in
  (mkWorld (statements w ∖ {[stmt_id stmt]}) (cursors w) (calls w),
   on_Stmt_Close (stmt_connection stmt) (stmt_sql stmt)).

Definition Rows_Close (rows : Rows) (w : World) : World * option error :=
  let w := called (CallRowsClose (rows_id rows)) w in
  (mkWorld (statements w) (cursors w ∖ {[rows_id rows]}) (calls w),
   on_Rows_Close (rows_connection rows) (rows_sql rows)).

Definition Result_RowsAffected (result : Result) (w : World)
    : World * (Z * option error) :=
  (called CallRowsAffected w, rowsAffected result).

(** Throws a new exception with a more informative error message. *)
Definition rethrow (code : string) (cause : error) (sql : string)
    (params : slice Param) : error :=
  let causeMessage := Error cause in
  let msg := causeMessage +:+ String (Ascii.ascii_of_nat 10) "SQL: " +:+ sql
               +:+ String (Ascii.ascii_of_nat 10) "Parameters: " in
  let msg :=
    match params with
    | Some params => msg +:+ Sprintf_v params
    | None => msg
    end in
  NewPersistenceFail code msg.

Definition closeResources (rows : option Rows) (stmt : option Stmt) (w : World)
    : World * option error :=
  let '(w, err) :=
    match rows with
    | Some rows => Rows_Close rows w
    | None => (w, None)
    end in
  match err with
  | Some err => (w, Some err)
  | None =>
      let '(w, err) :=
        match stmt with
        | Some stmt => Stmt_Close stmt w
        | None => (w, None)
        end in
      match err with
      | Some err => (w, Some err)
      | None => (w, None)
      end
  end.

Definition fetchRows (this : SimpleDBA) (sql : string) (params : slice Param)
    (w : World) : World * (error + Rows * Stmt) :=
  match Prepare (connection this) sql w with
  | (w, inl err) => (w, inl (rethrow FAULT_PREP_STATEMENT err sql params))
  | (w, inr stmt) =>
      match Stmt_Query stmt params w with
      | (w, inl err) =>
          let '(w, _) := Stmt_Close stmt w in
          (w, inl (rethrow FAULT_QUERY err sql params))
      | (w, inr rows) => (w, inr (rows, stmt))
      end
  end.

(** The loop [for rows.Next() { ... }] of [Query] over the rows not yet
    read: [Next] is called once more than rows are read, unless the
    transformer fails. *)
Fixpoint Query_rows {R} (sql : string) (transformer : Row → error + R)
    (params : slice Param) (rows : loc) (pending : list Row) (results : list R)
    (w : World) : World * (error + list R) :=
  let w := called (CallNext rows) w in
  match pending with
  | [] => (w, inr results)
  | row :: pending =>
      match transformer row with
      | inl err => (w, inl (rethrow FAULT_PARSE_STATEMENT err sql params))
      | inr result => Query_rows sql transformer params rows pending (results ++ [result]) w
      end
  end.

Definition Query {R} (this : SimpleDBA) (sql : string)
    (transformer : Row → error + R) (params : slice Param) (w : World)
    : World * (error + list R) :=
  match fetchRows this sql params w with
  | (w, inl fail) => (w, inl fail)
  | (w, inr (rows, stmt)) =>
      let '(w, r) :=
        Query_rows sql transformer params (rows_id rows) (rows_pending rows) [] w in
      (* defer closeResources(rows, stmt) *)
      let '(w, _) := closeResources (Some rows) (Some stmt) w in
      (w, r)
  end.

(** [QueryCollection]: the row transformer is an object with four methods,
    which act on its state and on the collection that [BeforeAll] makes,
    together the state [S]; [Transform] gives an instance of type [I] or an
    error.  The collection is returned when there is no error. *)
Record IRowTransformer (S I : Type) := mkRowTransformer {
  BeforeAll : S → S;
  Transform : Row → S → S * (error + I);
  OnTransformation : I → S → S;
  AfterAll : S → S
}.
Arguments BeforeAll {S I} _ _.
Arguments Transform {S I} _ _ _.
Arguments OnTransformation {S I} _ _ _.
Arguments AfterAll {S I} _ _.
Arguments mkRowTransformer {S I} _ _ _ _.

Fixpoint QueryCollection_rows {S I} (sql : string) (rt : IRowTransformer S I)
    (params : slice Param) (rows : loc) (pending : list Row) (s : S)
    (w : World) : World * (S * option error) :=
  let w := called (CallNext rows) w in
  match pending with
  | [] => (w, (s, None))
  | row :: pending =>
      let w := called CallTransform w in
      match Transform rt row s with
      | (s, inl err) => (w, (s, Some (rethrow FAULT_TRANSFORM err sql params)))
      | (s, inr instance) =>
          let w := called CallOnTransformation w in
          QueryCollection_rows sql rt params rows pending (OnTransformation rt instance s) w
      end
  end.

Definition QueryCollection {S I} (this : SimpleDBA) (sql : string)
    (rt : IRowTransformer S I) (params : slice Param) (s : S) (w : World)
    : World * (S * option error) :=
  match fetchRows this sql params w with
  | (w, inl fail) => (w, (s, Some fail))
  | (w, inr (rows, stmt)) =>
      let w := called CallBeforeAll w in
      let s := BeforeAll rt s in
      let '(w, (s, err)) :=
        QueryCollection_rows sql rt params (rows_id rows) (rows_pending rows) s w in
      (* defer rt.AfterAll(result) *)
      let w := called CallAfterAll w in
      let s := AfterAll rt s in
      (* defer closeResources(rows, stmt) *)
      let '(w, _) := closeResources (Some rows) (Some stmt) w in
      (w, (s, err))
  end.

(** [QueryClosure]: the transformer builds the result itself, in the state
    [S] that its closure captures. *)
Fixpoint QueryClosure_rows {S} (query : string) (transformer : Row → S → S * option error)
    (params : slice Param) (rows : loc) (pending : list Row) (s : S)
    (w : World) : World * (S * option error) :=
  let w := called (CallNext rows) w in
  match pending with
  | [] => (w, (s, None))
  | row :: pending =>
      match transformer row s with
      | (s, Some err) => (w, (s, Some (rethrow FAULT_PARSE_STATEMENT err query params)))
      | (s, None) => QueryClosure_rows query transformer params rows pending s w
      end
  end.

Definition QueryClosure {S} (this : SimpleDBA) (query : string)
    (transformer : Row → S → S * option error) (params : slice Param) (s : S)
    (w : World) : World * (S * option error) :=
  match fetchRows this query params w with
  | (w, inl fail) => (w, (s, Some fail))
  | (w, inr (rows, stmt)) =>
      let '(w, r) :=
        QueryClosure_rows query transformer params (rows_id rows) (rows_pending rows) s w in
      let '(w, _) := closeResources (Some rows) (Some stmt) w in
      (w, r)
  end.

(** [QueryRow]: the destinations [dest] are what they hold, of a type [D],
    with the [Scan] of [database/sql] into them: given a row and what they
    hold, what they hold afterwards, and the error. *)
Definition QueryRow {D} (Scan : Row → D → D * option error)
    (this : SimpleDBA) (sql : string) (params : slice Param) (dest : D)
    (w : World) : World * (D * (bool * option error)) :=
  match fetchRows this sql params w with
  | (w, inl err) => (w, (dest, (false, Some err)))
  | (w, inr (rows, stmt)) =>
      let '(w, r) :=
        let w := called (CallNext (rows_id rows)) w in
        match rows_pending rows with
        | row :: _ =>
            let w := called (CallScan (rows_id rows)) w in
            match Scan row dest with
            | (dest, Some err) => (w, (dest, (false, Some err)))
            | (dest, None) => (w, (dest, (true, None)))
            end
        | [] => (w, (dest, (false, None)))
        end in
      let '(w, _) := closeResources (Some rows) (Some stmt) w in
      (w, r)
  end.

Definition execute (this : SimpleDBA) (sql : string) (params : slice Param)
    (w : World) : World * (error + Result * Stmt) :=
  match Prepare (connection this) sql w with
  | (w, inl err) => (w, inl (rethrow FAULT_PREP_STATEMENT err sql params))
  | (w, inr stmt) =>
      match Stmt_Exec stmt params w with
      | (w, inl err) =>
          let '(w, _) := Stmt_Close stmt w in
          (w, inl (rethrow FAULT_EXEC_STATEMENT err sql params))
      | (w, inr result) => (w, inr (result, stmt))
      end
  end.

Definition Update (this : SimpleDBA) (sql : string) (params : slice Param)
    (w : World) : World * (Z * option error) :=
  match execute this sql params w with
  | (w, inl err) => (w, (0%Z, Some err))
  | (w, inr (result, stmt)) =>
      let '(w, r) := Result_RowsAffected result w in
      (* defer closeResources(nil, stmt) *)
      let '(w, _) := closeResources None (Some stmt) w in
      (w, r)
  end.

Definition Delete (this : SimpleDBA) (sql : string) (params : slice Param)
    (w : World) : World * (Z * option error) :=
  Update this sql params w.

Definition Insert (this : SimpleDBA) (sql : string) (params : slice Param)
    (w : World) : World * (Z * option error) :=
  match execute this sql params w with
  | (w, inl err) => (w, (0%Z, Some err))
  | (w, inr (_, stmt)) =>
      let '(w, _) := closeResources None (Some stmt) w in
      (* not supported in all drivers (ex: pq) *)
      (w, (0%Z, None))
  end.

Definition InsertReturning (this : SimpleDBA) (sql : string) (params : slice Param)
    (w : World) : World * (Z * option error) :=
  let id := 0%Z in
  match QueryRow Scan_int64 this sql params id w with
  | (w, (_, (_, Some err))) => (w, (0%Z, Some err))
  | (w, (id, (_, None))) => (w, (id, None))
  end.

End SimpleDBA.

Arguments BeforeAll {H S I} _ _.
Arguments Transform {H S I} _ _ _.
Arguments OnTransformation {H S I} _ _ _.
Arguments AfterAll {H S I} _ _.
Arguments mkRowTransformer {H S I} _ _ _ _.

End dbx.

(** ** The dump of the parameters for the log: [dumpParameters]

    The values are [interface{}] values of any type; what [reflect] tells
    about one, as far as the function looks, is its [Shown].  Go iterates
    over a map in no fixed order: the function takes the entries in the
    order of the iteration. *)

(** [strings.HasSuffix] *)
Definition HasSuffix (s suffix : string) : bool :=
  bool_decide (String.length suffix ≤ String.length s) &&
  bool_decide (String.substring (String.length s - String.length suffix)
                 (String.length suffix) s = suffix).

Inductive Shown :=
  (** [v == nil] *)
  | ShownNil
  (** a slice or an array *)
  | ShownBlob
  (** a pointer: nil, or with the [%v] text of what it points to *)
  | ShownNilPtr
  | ShownPtr (elem : string)
  (** any other value, with its [%v] text *)
  | ShownValue (text : string).

Fixpoint dumpParameters {V} (reflect : V → Shown) (params : list (string * V))
    : string :=
  match params with
  | [] => EmptyString
  | (name, v) :: params =>
      (if HasSuffix name "$" then
         (* secret *)
         "[" +:+ name +:+ "=****]"
       else
         match reflect v with
         | ShownBlob => "[" +:+ name +:+ "=<BLOB>]"
         | ShownNilPtr => "[" +:+ name +:+ "=NULL]"
         | ShownPtr elem => "[" +:+ name +:+ "=(*)" +:+ elem +:+ "]"
         | ShownValue text => "[" +:+ name +:+ "=" +:+ text +:+ "]"
         | ShownNil => "[" +:+ name +:+ "=NULL]"
         end)
      +:+ dumpParameters reflect params
  end.
(** * Example data

    A small schema: ORDER -> CUSTOMER -> ADDRESS by single associations,
    ORDER <-> TAG by a many-to-many pairing through ORDER_TAG, and
    TAG -> ADDRESS with a discriminator on its origin side.  CUSTOMER has a
    table-level discriminator, the criteria at cell 10. *)
Module Example.

Definition tOrder := mkTable "ORDER" None.
Definition tCustomer := mkTable "CUSTOMER" (Some [10%positive]).
Definition tAddress := mkTable "ADDRESS" None.
Definition tTag := mkTable "TAG" None.
Definition tOrderTag := mkTable "ORDER_TAG" None.

Definition relation (a b : string) : Relation :=
  mkRelation (mkColumnHolder a "") (mkColumnHolder b "").

Definition single (tableFrom tableTo : Table) (a b : string)
    (discriminators : slice Discriminator) (discriminatorTable : Table) : Association :=
  mkAssociation tableFrom tableTo [relation a b] discriminatorTable discriminators
    None None "" "".

(** [KIND = 'X'] *)
Definition kind_is_x : CTree :=
  CNode TOKEN_EQ "" (VLit LNil)
    [CNode TOKEN_COLUMN "" (VLit (LStr "KIND")) [];
     CNode TOKEN_RAW "" (VLit (LStr "X")) []].

Definition aOrderCustomer : loc := 1%positive.
Definition aCustomerAddress : loc := 2%positive.
Definition aOrderOrderTag : loc := 3%positive.
Definition aOrderTagTag : loc := 4%positive.
Definition aOrderTags : loc := 5%positive.
Definition aTagAddress : loc := 6%positive.

Definition schema : astore :=
  list_to_map
    [(aOrderCustomer, single tOrder tCustomer "CUSTOMER_ID" "ID" None tOrder);
     (aCustomerAddress, single tCustomer tAddress "ADDRESS_ID" "ID" None tCustomer);
     (aOrderOrderTag, single tOrder tOrderTag "ID" "ORDER_ID" None tOrder);
     (aOrderTagTag, single tOrderTag tTag "TAG_ID" "ID" None tOrderTag);
     (aOrderTags,
      mkAssociation tOrder tTag [] tOrder None (Some aOrderOrderTag) (Some aOrderTagTag)
        "" "");
     (aTagAddress,
      single tTag tAddress "ADDRESS_ID" "ID" (Some [mkDiscriminator kind_is_x]) tTag)].

(** [ACTIVE = true], the discriminator of CUSTOMER, and a caller's filter
    [(TOTAL = 100) AND (STATUS = 'open')]. *)
Definition criteria0 : cstore :=
  list_to_map
    [(10%positive, mkToken TOKEN_EQ "" (VLit LNil) [Some 11%positive; Some 12%positive]);
     (11%positive, mkToken TOKEN_COLUMN "" (VLit (LStr "ACTIVE")) []);
     (12%positive, mkToken TOKEN_RAW "" (VLit (LBool true)) []);
     (20%positive, mkToken TOKEN_AND "" (VLit LNil) [Some 21%positive; Some 24%positive]);
     (21%positive, mkToken TOKEN_EQ "" (VLit LNil) [Some 22%positive; Some 23%positive]);
     (22%positive, mkToken TOKEN_COLUMN "" (VLit (LStr "TOTAL")) []);
     (23%positive, mkToken TOKEN_RAW "" (VLit (LInt 100)) []);
     (24%positive, mkToken TOKEN_EQ "" (VLit LNil) [Some 25%positive; Some 26%positive]);
     (25%positive, mkToken TOKEN_COLUMN "" (VLit (LStr "STATUS")) []);
     (26%positive, mkToken TOKEN_RAW "" (VLit (LStr "open")) [])].

(** The caller's filter as a tree laid out in [criteria0]. *)
Definition filter_tree : HTree :=
  HNode 20 TOKEN_AND "" (VLit LNil)
    [Some (HNode 21 TOKEN_EQ "" (VLit LNil)
             [Some (HNode 22 TOKEN_COLUMN "" (VLit (LStr "TOTAL")) []);
              Some (HNode 23 TOKEN_RAW "" (VLit (LInt 100)) [])]);
     Some (HNode 24 TOKEN_EQ "" (VLit LNil)
             [Some (HNode 25 TOKEN_COLUMN "" (VLit (LStr "STATUS")) []);
              Some (HNode 26 TOKEN_RAW "" (VLit (LStr "open")) [])])].

(** A new session on ORDER. *)
Definition session0 : DmlBase := NewDmlBase (Some tOrder).

(** The path ORDER -> CUSTOMER -> ADDRESS, built by [inner]. *)
Definition request1 : DmlBase * pstore :=
  inner session0 ∅ true [aOrderCustomer; aCustomerAddress].

Definition path1 : list loc := path request1.1.

(** The state after [addJoin] on that path; the next request starts from an
    empty [path]. *)
Definition after1 : DmlBase * astore * pstore * list loc :=
  default (session0, schema, ∅, [])
          (addJoin request1.1 schema request1.2 path1 None false).

Definition session1 : DmlBase := set_path after1.1.1.1 [].
Definition store1 : astore := after1.1.1.2.
Definition paths1 : pstore := after1.1.2.

(** A second request, ORDER -> CUSTOMER -> ADDRESS again and then an
    association more, on new path elements. *)
Definition request2 : DmlBase * pstore :=
  inner session1 paths1 true [aOrderCustomer; aCustomerAddress; aTagAddress].

Definition path2 : list loc := path request2.1.

(** The path ORDER <-> TAG -> ADDRESS on a new session. *)
Definition request3 : DmlBase * pstore :=
  inner session0 ∅ true [aOrderTags; aTagAddress].

Definition path3 : list loc := path request3.1.

(** The first element of the third path and its association, the
    many-to-many pairing ORDER <-> TAG. *)
Definition pe3 : loc := 1%positive.
Definition per3 : PathElement := mkPathElement aOrderTags true "" None None None.
Definition pairing : Association :=
  mkAssociation tOrder tTag [] tOrder None (Some aOrderOrderTag) (Some aOrderTagTag)
    "" "".

(** The session after [addJoin] on the second and on the third request. *)
Definition after2 : DmlBase * astore * pstore * list loc :=
  default (session0, schema, ∅, [])
          (addJoin request2.1 store1 request2.2 path2 None false).

Definition after3 : DmlBase * astore * pstore * list loc :=
  default (session0, schema, ∅, [])
          (addJoin request3.1 schema request3.2 path3 None false).

(** The path criteria composed for the third path. *)
Definition composed3 : DmlBase * cstore * list (option PathCriteria) :=
  default (session0, ∅, [])
          (buildPathCriterias 3 after3.1.1.1 after3.1.1.2 after3.1.2 criteria0 path3).

(** The caller's filter attached as the ON clause of the first join. *)
Definition attached1 : DmlBase * pstore * cstore :=
  default (session0, ∅, ∅)
          (applyOn 4 session1 store1 paths1 criteria0 (take 1 path1) 20%positive).

(** A later request on the session of the third path: the pairing
    ORDER <-> TAG again, on a new path element with the preferred alias
    [x]. *)
Definition session3 : DmlBase := set_path after3.1.1.1 [].
Definition store3 : astore := after3.1.1.2.
Definition paths3 : pstore := after3.1.2.

Definition request4 : DmlBase * pstore :=
  let '(ps, pe) := alloc paths3 (mkPathElement aOrderTags true "x" None None None) in
  (set_path session3 [pe], ps).

Definition path4 : list loc := path request4.1.

Definition after4 : DmlBase * astore * pstore * list loc :=
  default (session0, schema, ∅, [])
          (addJoin request4.1 store3 request4.2 path4 None false).

(** A sub-query token whose query holds one parameter. *)
Definition subquery_store : cstore :=
  {[ 1%positive := mkToken TOKEN_SUBQUERY "" (VQuery {[ "p" := LInt 1 ]}) [] ]}.

Definition subquery_tree : HTree :=
  HNode 1 TOKEN_SUBQUERY "" (VQuery {[ "p" := LInt 1 ]}) [].

(** A filter with a sub-query, [(TOTAL = 100) AND (sub-query)]. *)
Definition mixed_store : cstore :=
  list_to_map
    [(30%positive, mkToken TOKEN_AND "" (VLit LNil) [Some 31%positive; Some 34%positive]);
     (31%positive, mkToken TOKEN_EQ "" (VLit LNil) [Some 32%positive; Some 33%positive]);
     (32%positive, mkToken TOKEN_COLUMN "" (VLit (LStr "TOTAL")) []);
     (33%positive, mkToken TOKEN_RAW "" (VLit (LInt 100)) []);
     (34%positive, mkToken TOKEN_SUBQUERY "" (VQuery {[ "p" := LInt 1 ]}) [])].

Definition mixed_tree : HTree :=
  HNode 30 TOKEN_AND "" (VLit LNil)
    [Some (HNode 31 TOKEN_EQ "" (VLit LNil)
             [Some (HNode 32 TOKEN_COLUMN "" (VLit (LStr "TOTAL")) []);
              Some (HNode 33 TOKEN_RAW "" (VLit (LInt 100)) [])]);
     Some (HNode 34 TOKEN_SUBQUERY "" (VQuery {[ "p" := LInt 1 ]}) [])].

(** The path ORDER -> CUSTOMER on a new session, whose element includes
    the column NAME, the token at cell 40. *)
Definition columns_store : cstore :=
  <[40%positive := mkToken TOKEN_COLUMN "" (VLit (LStr "NAME")) []]> criteria0.

Definition request5 : DmlBase * pstore :=
  let '(ps, pe) :=
    alloc (∅ : pstore)
          (mkPathElement aOrderCustomer true "" None (Some [40%positive]) None) in
  (set_path session0 [pe], ps).

Definition path5 : list loc := path request5.1.

Definition rawSql : RawSql :=
  mkRawSql "select * from T where A = :a and B = :b"
           "select * from T where A = ? and B = ?" ["a"; "b"].

Definition values_ab : gmap string Value :=
  {[ "a" := VLit (LInt 1); "b" := VLit (LStr "x") ]}.

Definition values_a : gmap string Value := {[ "a" := VLit (LInt 1) ]}.

End Example.


(** ** Example data for the data access helper

    Errors are their texts; the values bound and the cells of a row are
    literals; a connection that knows three statements. *)

Module ExampleDba.

Definition texts : dbx.Sql :=
  {| dbx.error := string;
     dbx.Error := λ err, err;
     dbx.NewPersistenceFail := λ code msg, "[" +:+ code +:+ "] " +:+ msg;
     dbx.FAULT_PREP_STATEMENT := "PREP";
     dbx.FAULT_QUERY := "QUERY";
     dbx.FAULT_TRANSFORM := "TRANSFORM";
     dbx.FAULT_PARSE_STATEMENT := "PARSE";
     dbx.FAULT_EXEC_STATEMENT := "EXEC";
     dbx.Param := Lit;
     dbx.Sprintf_v := λ params, "[" +:+ pretty (length params) +:+ " values]";
     dbx.Row := list Lit;
     dbx.Scan_int64 := λ row id,
       match row with
       | LInt z :: _ => (z, None)
       | _ => (id, Some "unsupported Scan")
       end |}.

Definition select_ids : string := "SELECT ID FROM CUSTOMER".
Definition select_codes : string := "SELECT CODE FROM CUSTOMER".
Definition select_none : string := "SELECT ID FROM CUSTOMER WHERE 1 = 0".
Definition select_gone : string := "SELECT ID FROM GONE".
Definition delete_all : string := "DELETE FROM CUSTOMER".
Definition delete_kept : string := "DELETE FROM COUNTRY".
Definition misspelt : string := "SELEC ID FROM CUSTOMER".

(** [select_ids] gives two rows, [select_codes] three, of which the second
    holds no number, and closing its rows fails; [select_none] gives no row;
    [select_gone] cannot be run; [delete_all] affects two rows and
    [delete_kept] is refused; [misspelt] cannot be prepared. *)
Definition shop : @dbx.IConnection texts :=
  dbx.mkConnection (H := texts)
    (λ sql, if decide (sql = misspelt) then Some "syntax error" else None)
    (λ sql _,
       if decide (sql = select_ids) then inr [[LInt 7]; [LInt 8]]
       else if decide (sql = select_codes) then inr [[LInt 7]; [LStr "x"]; [LInt 9]]
       else if decide (sql = select_none) then inr []
       else inl "no such table")
    (λ sql _,
       if decide (sql = delete_all) then inr (2%Z, None)
       else inl "still referenced")
    (λ sql, if decide (sql = select_codes) then Some "connection lost" else None)
    (λ _, None).

Definition dba : @dbx.SimpleDBA texts := dbx.NewSimpleDBA shop.

Definition world0 : @dbx.World texts := dbx.mkWorld ∅ ∅ [].

(** A transformer that reads the number of a row of one cell. *)
Definition number (row : list Lit) : string + Z :=
  match row with
  | [LInt z] => inr z
  | _ => inl "not a number"
  end.

(** A closure that adds up the numbers of the rows. *)
Definition add_up (row : list Lit) (sum : Z) : Z * option string :=
  match row with
  | [LInt z] => ((sum + z)%Z, None)
  | _ => (sum, Some "not a number")
  end.

(** A row transformer that collects the numbers of the rows, and records
    that its work is over. *)
Definition collector : @dbx.IRowTransformer texts (list Z * bool) Z :=
  dbx.mkRowTransformer (H := texts)
    (λ _, ([], false))
    (λ row s, (s, number row))
    (λ z s, (s.1 ++ [z], s.2))
    (λ s, (s.1, true)).

(** Parameters for the log, a secret among them, in two versions that
    differ in the secret. *)
Definition show (v : Lit) : Shown :=
  match v with
  | LNil => ShownNil
  | LInt z => ShownValue (pretty z)
  | LStr s => ShownValue s
  | LBool b => ShownValue (if b then "true" else "false")
  end.

Definition logged : list (string * Lit) :=
  [("name", LStr "ann"); ("password$", LStr "hunter2"); ("age", LInt 30)].

Definition logged' : list (string * Lit) :=
  [("name", LStr "ann"); ("password$", LStr "swordfish"); ("age", LInt 30)].

End ExampleDba.
(** * Part II: properties *)

(** ** [RawSql.BuildValues] *)

Section BuildValues.
Variable fault : string.

Lemma BuildValues_loop_ok oriSql (paramMap : gmap string Value) names vs :
  BuildValues_loop fault oriSql paramMap names = Ok vs →
  length vs = length names ∧
  ∀ i name, names !! i = Some name → vs !! i = paramMap !! name.
Proof.
  revert vs. induction names as [|name rest IH]; intros vs Hrun; simpl in Hrun.
  - inversion Hrun; subst. split; [done|]. intros i name Hi. by destruct i.
  - destruct (paramMap !! name) as [v|] eqn:Hv; [|done].
    destruct (BuildValues_loop fault oriSql paramMap rest) as [vs'|] eqn:Hrest; [|done].
    inversion Hrun; subst. destruct (IH vs' eq_refl) as [Hlen Hnth].
    split; [simpl; by rewrite Hlen|].
    intros [|i] name' Hi; simpl in *.
    + by inversion Hi; subst.
    + by apply Hnth.
Qed.

Lemma BuildValues_loop_total oriSql (paramMap : gmap string Value) names :
  (∀ name, name ∈ names → is_Some (paramMap !! name)) →
  ∃ vs, BuildValues_loop fault oriSql paramMap names = Ok vs.
Proof.
  induction names as [|name rest IH]; intros Hall; simpl.
  - by eexists.
  - destruct (Hall name) as [v Hv]; [by left|]. rewrite Hv.
    destruct IH as [vs Hvs]; [intros n Hn; apply Hall; by right|].
    rewrite Hvs. by eexists.
Qed.

(** A missing name makes the loop panic at the first missing name: every
    name declared before it has a value. *)
Lemma BuildValues_loop_panic oriSql (paramMap : gmap string Value) names name :
  name ∈ names → paramMap !! name = None →
  ∃ i missing,
    names !! i = Some missing ∧ paramMap !! missing = None ∧
    (∀ j n, (j < i)%nat → names !! j = Some n → is_Some (paramMap !! n)) ∧
    BuildValues_loop fault oriSql paramMap names
      = Panic (missing_value_message fault missing oriSql).
Proof.
  induction names as [|n rest IH]; intros Hin Hnone.
  - by apply elem_of_nil in Hin.
  - simpl. destruct (paramMap !! n) as [v|] eqn:Hv.
    + apply elem_of_cons in Hin as [->|Hin]; [congruence|].
      destruct (IH Hin Hnone) as (i & missing & Hi & Hmiss & Hbefore & Hrun).
      exists (S i), missing. rewrite Hrun. repeat split; try done.
      intros [|j] n' Hj Hn'; simpl in Hn'.
      * inversion Hn'; subst. by rewrite Hv.
      * eapply Hbefore; [|done]. lia.
    + exists 0%nat, n. repeat split; try done. intros j n' Hj. lia.
Qed.

(** C4. [BuildValues] either returns the array whose [i]-th entry is the
    map's value for the [i]-th declared name (when every declared name has an
    entry), or, as soon as a declared name has no entry, panics with the
    message that names the first such parameter and the original SQL text;
    no value is ever bound for a missing name. *)
Theorem BuildValues_positional_or_panic (this : RawSql) (paramMap : gmap string Value) :
  ((∀ name, name ∈ Names this → is_Some (paramMap !! name)) →
   ∃ vs, BuildValues fault this paramMap = Ok vs ∧
         length vs = length (Names this) ∧
         ∀ i name, Names this !! i = Some name → vs !! i = paramMap !! name)
  ∧
  (∀ name, name ∈ Names this → paramMap !! name = None →
   ∃ missing, missing ∈ Names this ∧ paramMap !! missing = None ∧
     BuildValues fault this paramMap
       = Panic ("[" +:+ fault +:+ "] No value supplied for the SQL parameter '"
                    +:+ missing +:+ "' for the SQL " +:+ OriSql this)).
Proof.
  unfold BuildValues. split.
  - intros Hall. destruct (BuildValues_loop_total (OriSql this) paramMap _ Hall) as [vs Hvs].
    exists vs. split; [done|]. by apply (BuildValues_loop_ok (OriSql this)).
  - intros name Hin Hnone.
    destruct (BuildValues_loop_panic (OriSql this) paramMap _ _ Hin Hnone)
      as (i & missing & Hi & Hmiss & _ & Hrun).
    exists missing. split; [|done]. apply list_elem_of_lookup. eauto.
Qed.

End BuildValues.

(** ** Loops in the option monad *)

Lemma foldM_app {S A} (f : S → A → option S) s xs ys :
  foldM f s (xs ++ ys) = s' ← foldM f s xs; foldM f s' ys.
Proof.
  revert s. induction xs as [|x xs IH]; intros s; simpl; [done|].
  destruct (f s x) as [s1|]; simpl; [apply IH|done].
Qed.

Lemma foldM_inv {S A} (f : S → A → option S) (I : S → Prop) xs s s' :
  I s →
  (∀ s x s', x ∈ xs → I s → f s x = Some s' → I s') →
  foldM f s xs = Some s' → I s'.
Proof.
  revert s. induction xs as [|x xs IH]; intros s Hs Hstep Hrun; simpl in Hrun.
  - by inversion Hrun; subst.
  - destruct (f s x) as [s1|] eqn:Hf; simpl in Hrun; [|done].
    apply (IH s1); [| |done].
    + eapply Hstep; [|done|done]. by left.
    + intros s2 y s3 Hy. apply Hstep. by right.
Qed.

Lemma CTree_ind' (P : CTree → Prop) :
  (∀ op a v kids, Forall P kids → P (CNode op a v kids)) → ∀ t, P t.
Proof.
  intros H. fix IH 1. intros [op a v kids]. apply H.
  induction kids as [|k kids IHk]; constructor; [apply IH|apply IHk].
Qed.

(** ** Allocation *)

Lemma alloc_spec {A} (h h' : gmap loc A) x l :
  alloc h x = (h', l) → h !! l = None ∧ h' = <[l := x]> h.
Proof.
  unfold alloc. intros [= <- <-]. split; [|done].
  apply not_elem_of_dom. apply is_fresh.
Qed.

Lemma alloc_subseteq {A} (h h' : gmap loc A) x l :
  alloc h x = (h', l) → h ⊆ h'.
Proof. intros [Hl ->]%alloc_spec. by apply insert_subseteq. Qed.

(** ** Shapes of criteria stores *)

Lemma same_members_refl cs : same_members cs cs.
Proof. by intros k. Qed.

Lemma same_members_trans cs1 cs2 cs3 :
  same_members cs1 cs2 → same_members cs2 cs3 → same_members cs1 cs3.
Proof. intros H12 H23 k. by rewrite H23, H12. Qed.

Lemma same_members_dom cs cs' : same_members cs cs' → dom cs' = dom cs.
Proof.
  intros H. apply set_eq. intros k. rewrite !elem_of_dom.
  specialize (H k). destruct (cs' !! k), (cs !! k); simpl in H; try done;
    split; intros [? ?]; done.
Qed.

Lemma same_members_closed X cs cs' :
  same_members cs cs' → closed X cs → closed X cs'.
Proof.
  intros Hsame Hcl k tok m Hk Hlook Hm. specialize (Hsame k).
  rewrite Hlook in Hsame. simpl in Hsame.
  destruct (cs !! k) as [tok0|] eqn:H0; simpl in Hsame; [|done].
  inversion Hsame as [Hmem]. eapply Hcl; [done|done|]. by rewrite <- Hmem.
Qed.

Lemma touches_only_refl X cs : touches_only X cs cs.
Proof. split; [apply same_members_refl|done]. Qed.

Lemma touches_only_trans X cs1 cs2 cs3 :
  touches_only X cs1 cs2 → touches_only X cs2 cs3 → touches_only X cs1 cs3.
Proof.
  intros [Hs12 Hf12] [Hs23 Hf23]. split; [by eapply same_members_trans|].
  intros k Hk. by rewrite Hf23, Hf12.
Qed.

Lemma touches_only_mono X Y cs cs' :
  X ⊆ Y → touches_only X cs cs' → touches_only Y cs cs'.
Proof. intros HXY [Hs Hf]. split; [done|]. intros k Hk. apply Hf. set_solver. Qed.

Lemma touches_only_insert X (cs : cstore) l tok tok' :
  l ∈ X → cs !! l = Some tok → Members tok' = Members tok →
  touches_only X cs (<[l := tok']> cs).
Proof.
  intros Hl Hlook Hmem. split.
  - intros k. destruct (decide (l = k)) as [<-|Hne].
    + rewrite lookup_insert_eq, Hlook. simpl. by rewrite Hmem.
    + by rewrite lookup_insert_ne.
  - intros k Hk. rewrite lookup_insert_ne; [done|]. by intros <-.
Qed.

(** ** What the in-place rewrites touch *)

(** [SetTableAlias] stays inside any closed set that holds its root. *)
Lemma SetTableAlias_touches fuel X cs l a cs' :
  closed X cs → l ∈ X →
  SetTableAlias fuel cs l a = Some cs' → touches_only X cs cs'.
Proof.
  revert cs l cs'. induction fuel as [|fuel IH]; intros cs l cs' Hcl Hl Hrun; [done|].
  simpl in Hrun. destruct (cs !! l) as [tok|] eqn:Hlook; simpl in Hrun; [|done].
  set (cs1 := <[l := mkToken (Operator tok) a (TokValue tok) (Members tok)]> cs) in *.
  assert (H1 : touches_only X cs cs1) by (by apply (touches_only_insert X cs l tok)).
  revert Hrun. apply (foldM_inv _ (touches_only X cs)); [done|].
  intros s [k|] s' Hin Hs Hstep; simpl in Hstep.
  - eapply touches_only_trans; [done|]. eapply IH; [| |done].
    + eapply same_members_closed; [apply Hs|done].
    + eapply Hcl; [done|done|done].
  - by inversion Hstep; subst.
Qed.

(** So does [replaceRaw]. *)
Lemma replaceRaw_touches fuel X this cs l this' cs' :
  closed X cs → l ∈ X →
  replaceRaw fuel this cs l = Some (this', cs') → touches_only X cs cs'.
Proof.
  revert this cs l this' cs'.
  induction fuel as [|fuel IH]; intros this cs l this' cs' Hcl Hl Hrun; [done|].
  simpl in Hrun. destruct (cs !! l) as [tok|] eqn:Hlook; simpl in Hrun; [|done].
  destruct (decide (Operator tok = TOKEN_RAW)) as [Hraw|Hraw].
  { inversion Hrun; subst. by apply (touches_only_insert X cs l tok). }
  destruct (decide (Operator tok = TOKEN_SUBQUERY)) as [Hsub|Hsub].
  { destruct (TokValue tok); [done|]. inversion Hrun; subst. apply touches_only_refl. }
  change cs' with (snd (this', cs')). revert Hrun.
  apply (foldM_inv _ (λ s, touches_only X cs (snd s))); [apply touches_only_refl|].
  intros [this1 cs1] [k|] [this2 cs2] Hin Hs Hstep; simpl in *.
  - eapply touches_only_trans; [done|]. eapply IH; [| |done].
    + eapply same_members_closed; [apply Hs|done].
    + eapply Hcl; [done|done|done].
  - by inversion Hstep; subst.
Qed.

(** ** What the allocating operations add *)

Lemma closed_empty cs : closed ∅ cs.
Proof. intros k tok m Hk. set_solver. Qed.

Lemma extends_refl cs : extends cs cs.
Proof.
  split; [done|]. replace (dom cs ∖ dom cs) with (∅ : gset loc) by set_solver.
  apply closed_empty.
Qed.

Lemma extends_dom cs cs' : extends cs cs' → dom cs ⊆ dom cs'.
Proof. intros [Hsub _]. by apply subseteq_dom. Qed.

Lemma extends_trans cs1 cs2 cs3 :
  extends cs1 cs2 → extends cs2 cs3 → extends cs1 cs3.
Proof.
  intros [Hs12 Hc12] [Hs23 Hc23]. split; [by etrans|].
  intros k tok m Hk Hlook Hm.
  assert (Hd12 := subseteq_dom _ _ Hs12). assert (Hd23 := subseteq_dom _ _ Hs23).
  destruct (decide (k ∈ dom cs2)) as [Hk2|Hk2].
  - apply elem_of_dom in Hk2 as [tok2 Hlook2].
    assert (cs3 !! k = Some tok2) as Heq by (by eapply lookup_weaken).
    rewrite Hlook in Heq. inversion Heq; subst tok2.
    assert (m ∈ dom cs2 ∖ dom cs1); [|set_solver].
    eapply Hc12; [|done|done]. apply elem_of_difference. split; [|set_solver].
    apply elem_of_dom. eauto.
  - assert (m ∈ dom cs3 ∖ dom cs2); [|set_solver].
    eapply Hc23; [|done|done]. set_solver.
Qed.

(** A new cell whose members are new cells. *)
Lemma extends_alloc cs0 cs cs' l tok :
  extends cs0 cs → alloc cs tok = (cs', l) →
  (∀ m, Some m ∈ Members tok → m ∈ dom cs ∖ dom cs0) →
  extends cs0 cs' ∧ l ∈ dom cs' ∖ dom cs0.
Proof.
  intros [Hsub Hcl] [Hfresh ->]%alloc_spec Hmem.
  assert (Hd := subseteq_dom _ _ Hsub).
  assert (l ∉ dom cs) as Hl by (by apply not_elem_of_dom).
  split; [split|].
  - etrans; [done|]. by apply insert_subseteq.
  - intros k tok' m Hk Hlook Hm. rewrite dom_insert_L in *.
    destruct (decide (l = k)) as [<-|Hne].
    + rewrite lookup_insert_eq in Hlook. inversion Hlook; subst tok'.
      specialize (Hmem m Hm). set_solver.
    + rewrite lookup_insert_ne in Hlook by done.
      assert (m ∈ dom cs ∖ dom cs0); [|set_solver].
      eapply Hcl; [|done|done]. set_solver.
  - rewrite dom_insert_L. set_solver.
Qed.

Lemma alloc_tree_extends t : ∀ cs cs' l,
  alloc_tree cs t = (cs', l) → extends cs cs' ∧ l ∈ dom cs' ∖ dom cs.
Proof.
  induction t as [op a v kids IH] using CTree_ind'. intros cs cs' l Hrun.
  simpl in Hrun.
  match type of Hrun with
  | (let '(_, _) := ?g cs kids in _) = _ => set (go := g) in *
  end.
  assert (Hgo : ∀ ks cs1 cs2 ms,
            Forall (λ t, ∀ cs cs' l, alloc_tree cs t = (cs', l) →
                      extends cs cs' ∧ l ∈ dom cs' ∖ dom cs) ks →
            go cs1 ks = (cs2, ms) →
            extends cs1 cs2 ∧ ∀ m, Some m ∈ ms → m ∈ dom cs2 ∖ dom cs1).
  { clear. induction ks as [|k ks IHks]; intros cs1 cs2 ms Hall Hgo; simpl in Hgo.
    - inversion Hgo; subst. split; [apply extends_refl|].
      intros m Hm. by apply elem_of_nil in Hm.
    - inversion Hall as [|? ? Hk Hks]; subst.
      destruct (alloc_tree cs1 k) as [cs1' lk] eqn:Hak.
      destruct (go cs1' ks) as [cs2' ls] eqn:Hgs. inversion Hgo; subst.
      destruct (Hk _ _ _ Hak) as (Hext1 & Hlk).
      destruct (IHks _ _ _ Hks Hgs) as (Hext2 & Hms).
      split; [by eapply extends_trans|].
      assert (Hd1 := extends_dom _ _ Hext1). assert (Hd2 := extends_dom _ _ Hext2).
      intros m [[= ->]|Hm]%elem_of_cons; [|apply Hms in Hm]; set_solver. }
  destruct (go cs kids) as [cs1 ms] eqn:Hkids.
  destruct (Hgo _ _ _ _ IH Hkids) as (Hext1 & Hms).
  by apply (extends_alloc cs cs1 cs' l _ Hext1 Hrun).
Qed.

Lemma Criteria_Clone_extends fuel : ∀ cs l cs' l',
  Criteria_Clone fuel cs l = Some (cs', l') →
  extends cs cs' ∧ l' ∈ dom cs' ∖ dom cs.
Proof.
  induction fuel as [|fuel IH]; intros cs l cs' l' Hrun; [done|].
  simpl in Hrun. destruct (cs !! l) as [tok|] eqn:Hlook; simpl in Hrun; [|done].
  match type of Hrun with
  | (mapM_st ?g cs _ ≫= _) = _ => set (step := g) in *
  end.
  assert (Hgo : ∀ ks cs1 cs2 ms, mapM_st step cs1 ks = Some (cs2, ms) →
            extends cs1 cs2 ∧ ∀ m, Some m ∈ ms → m ∈ dom cs2 ∖ dom cs1).
  { induction ks as [|k ks IHks]; intros cs1 cs2 ms Hgo; simpl in Hgo.
    - inversion Hgo; subst. split; [apply extends_refl|].
      intros m Hm. by apply elem_of_nil in Hm.
    - destruct (step cs1 k) as [[cs1' y]|] eqn:Hk; simpl in Hgo; [|done].
      destruct (mapM_st step cs1' ks) as [[cs2' ys]|] eqn:Hks; simpl in Hgo; [|done].
      inversion Hgo; subst. destruct (IHks _ _ _ Hks) as (Hext2 & Hms).
      assert (extends cs1 cs1' ∧ ∀ m, y = Some m → m ∈ dom cs1' ∖ dom cs1) as [Hext1 Hy].
      { unfold step in Hk. destruct k as [k|].
        - destruct (Criteria_Clone fuel cs1 k) as [[c k']|] eqn:Hc; simpl in Hk; [|done].
          inversion Hk; subst. destruct (IH _ _ _ _ Hc) as [? ?].
          split; [done|]. by intros m [= <-].
        - inversion Hk; subst. split; [apply extends_refl|done]. }
      split; [by eapply extends_trans|].
      assert (Hd1 := extends_dom _ _ Hext1). assert (Hd2 := extends_dom _ _ Hext2).
      intros m [Heq|Hm]%elem_of_cons; [symmetry in Heq; apply Hy in Heq|apply Hms in Hm];
        set_solver. }
  destruct (mapM_st step cs (Members tok)) as [[cs1 ms]|] eqn:Hms; simpl in Hrun; [|done].
  destruct (Hgo _ _ _ _ Hms) as (Hext1 & Hmem).
  apply (inj Some) in Hrun. by apply (extends_alloc cs cs1 cs' l' _ Hext1 Hrun).
Qed.

(** The cells a clone adds make a closed set, so rewriting the clone in
    place leaves every cell that existed before the clone as it was. *)
Lemma extends_touches_frame cs0 cs cs' :
  extends cs0 cs → touches_only (dom cs ∖ dom cs0) cs cs' → cs0 ⊆ cs'.
Proof.
  intros [Hsub Hcl] [Hsame Hframe]. apply map_subseteq_spec. intros k tok Hlook.
  rewrite Hframe; [by eapply lookup_weaken|].
  intros [_ Hk]%elem_of_difference. apply Hk, elem_of_dom. eauto.
Qed.

Lemma touches_only_extends cs0 cs cs' :
  extends cs0 cs → touches_only (dom cs ∖ dom cs0) cs cs' → extends cs0 cs'.
Proof.
  intros Hext Htouch. split; [by eapply extends_touches_frame|].
  destruct Hext as [Hsub Hcl]. destruct Htouch as [Hsame Hframe].
  rewrite (same_members_dom _ _ Hsame). by eapply same_members_closed.
Qed.

(** ** The criteria composer: [buildPathCriterias] *)

Lemma criterias_of_go_append pc xs c :
  criterias_of (Some (mkPathCriteria (go_append (Criterias pc) xs) c))
  = criterias_of (Some pc) ++ xs.
Proof.
  unfold criterias_of, go_append. simpl. destruct xs; simpl; [|done].
  by rewrite app_nil_r.
Qed.

Lemma normal_path_criteria_spec per base :
  criterias_of (normal_path_criteria per base)
    = ptr_list (Criteria per) ++ slice_list (TableCriterias (TableTo base)) ∧
  (is_Some (TableCriterias (TableTo base)) → is_Some (normal_path_criteria per base)).
Proof.
  unfold normal_path_criteria. split.
  - destruct (Criteria per) as [c|], (TableCriterias (TableTo base)) as [[|t tcs]|],
      (Columns per) as [cols|]; reflexivity.
  - intros [tcs Htcs]. rewrite Htcs. by destruct (Columns per).
Qed.

(** One iteration of the first loop writes slot [index + 1] only, with the
    caller's criteria of the element followed by the table discriminators
    of the destination table of its association. *)
Lemma buildPathCriterias_normal_spec st ps index pcs pe index' pcs' :
  buildPathCriterias_normal st ps (index, pcs) pe = Some (index', pcs') →
  ∃ per base,
    ps !! pe = Some per ∧ st !! Base per = Some base ∧ index' = S index ∧
    pcs' = match normal_path_criteria per base with
           | Some _ => <[S index := normal_path_criteria per base]> pcs
           | None => pcs
           end.
Proof.
  unfold buildPathCriterias_normal. intros Hrun.
  destruct (ps !! pe) as [per|] eqn:Hper; simpl in Hrun; [|done].
  destruct (st !! Base per) as [base|] eqn:Hbase; simpl in Hrun; [|done].
  inversion Hrun; subst. by exists per, base.
Qed.

Lemma buildPathCriterias_normal_loop st ps : ∀ paths index pcs index' pcs',
  foldM (buildPathCriterias_normal st ps) (index, pcs) paths = Some (index', pcs') →
  index' = index + length paths ∧ length pcs' = length pcs ∧
  (∀ k, k ≤ index → pcs' !! k = pcs !! k) ∧
  ∀ j pe, paths !! j = Some pe →
    ∃ per base, ps !! pe = Some per ∧ st !! Base per = Some base ∧
      (pcs !! (S index + j) = Some None →
       ∃ slot, pcs' !! (S index + j) = Some slot ∧
         criterias_of slot
           = ptr_list (Criteria per) ++ slice_list (TableCriterias (TableTo base)) ∧
         (is_Some (TableCriterias (TableTo base)) → is_Some slot)).
Proof.
  induction paths as [|pe paths IH]; intros index pcs index' pcs' Hrun; simpl in Hrun.
  - inversion Hrun; subst. split; [simpl; lia|]. split; [done|]. split; [done|].
    intros j pe Hj. by destruct j.
  - destruct (buildPathCriterias_normal st ps (index, pcs) pe) as [[i1 pcs1]|] eqn:Hstep;
      simpl in Hrun; [|done].
    destruct (buildPathCriterias_normal_spec _ _ _ _ _ _ _ Hstep)
      as (per & base & Hper & Hbase & -> & Hpcs1).
    destruct (normal_path_criteria_spec per base) as [Hcrit Hsome].
    remember (normal_path_criteria per base) as slot eqn:Hslotdef. clear Hslotdef.
    destruct (IH _ _ _ _ Hrun) as (-> & Hlen & Hlow & Hslots).
    assert (Hlen1 : length pcs1 = length pcs).
    { subst pcs1. destruct slot; [apply length_insert|done]. }
    assert (Hother : ∀ k, k ≠ S index → pcs1 !! k = pcs !! k).
    { intros k Hk. subst pcs1. destruct slot; [|done]. by apply list_lookup_insert_ne. }
    split; [simpl; lia|]. split; [congruence|]. split.
    { intros k Hk. rewrite Hlow by lia. apply Hother. lia. }
    intros [|j] pe' Hj; simpl in Hj.
    + inversion Hj; subst pe'. exists per, base. split; [done|]. split; [done|].
      rewrite Nat.add_0_r. intros Hnone. rewrite Hlow by lia.
      subst pcs1. destruct slot as [pc|].
      * exists (Some pc). split; [|done].
        apply list_lookup_insert_eq. by eapply lookup_lt_Some.
      * exists None. done.
    + destruct (Hslots j pe' Hj) as (per' & base' & Hper' & Hbase' & Hslot).
      exists per', base'. split; [done|]. split; [done|].
      replace (S index + S j) with (S (S index) + j) by lia.
      intros Hnone. apply Hslot. rewrite Hother by lia. done.
Qed.

(** Building the criteria of a list of discriminators adds new cells only;
    the criteria returned are new cells. *)
Lemma mapM_st_extends {A} (f : cstore → A → option (cstore * loc)) :
  (∀ cs x cs' l, f cs x = Some (cs', l) → extends cs cs' ∧ l ∈ dom cs' ∖ dom cs) →
  ∀ xs cs cs' ls, mapM_st f cs xs = Some (cs', ls) →
    extends cs cs' ∧ ∀ l, l ∈ ls → l ∈ dom cs' ∖ dom cs.
Proof.
  intros Hf. induction xs as [|x xs IH]; intros cs cs' ls Hrun; simpl in Hrun.
  - inversion Hrun; subst. split; [apply extends_refl|]. intros l Hl.
    by apply elem_of_nil in Hl.
  - destruct (f cs x) as [[cs1 y]|] eqn:Hx; simpl in Hrun; [|done].
    destruct (mapM_st f cs1 xs) as [[cs2 ys]|] eqn:Hxs; simpl in Hrun; [|done].
    inversion Hrun; subst. destruct (Hf _ _ _ _ Hx) as [Hext1 Hy].
    destruct (IH _ _ _ Hxs) as [Hext2 Hys].
    split; [by eapply extends_trans|].
    assert (Hd1 := extends_dom _ _ Hext1). assert (Hd2 := extends_dom _ _ Hext2).
    intros l [->|Hl]%elem_of_cons; [|apply Hys in Hl]; set_solver.
Qed.

Lemma Discriminator_Criteria_extends cs v cs' l :
  Discriminator_Criteria cs v = (cs', l) → extends cs cs' ∧ l ∈ dom cs' ∖ dom cs.
Proof. apply alloc_tree_extends. Qed.

Lemma Discriminator_Criteria_aliased_extends fuel a cs v cs' l :
  (let '(cs, crit) := Discriminator_Criteria cs v in
   cs ← SetTableAlias fuel cs crit a; Some (cs, crit)) = Some (cs', l) →
  extends cs cs' ∧ l ∈ dom cs' ∖ dom cs.
Proof.
  destruct (Discriminator_Criteria cs v) as [cs1 crit] eqn:Hc. intros Hrun.
  destruct (SetTableAlias fuel cs1 crit a) as [cs2|] eqn:Hset; simpl in Hrun; [|done].
  inversion Hrun; subst. destruct (Discriminator_Criteria_extends _ _ _ _ Hc) as [Hext Hl].
  assert (Htouch : touches_only (dom cs1 ∖ dom cs) cs1 cs').
  { eapply SetTableAlias_touches; [apply Hext|done|done]. }
  split; [by eapply touches_only_extends|].
  by rewrite (same_members_dom _ _ (proj1 Htouch)).
Qed.

(** One iteration of the second loop writes slot [index + 1] only, and only
    appends criteria that it has just built. *)
Lemma buildPathCriterias_discriminators_spec fuel st ps s pe s' :
  buildPathCriterias_discriminators fuel st ps s pe = Some s' →
  ∃ per base,
    ps !! pe = Some per ∧ st !! Base per = Some base ∧
    ds_index s' = S (ds_index s) ∧
    extends (ds_crits s) (ds_crits s') ∧
    (ds_this s', ds_lastFkAlias s') = getAlias (ds_this s) (Derived per) ∧
    ((Discriminators base = None ∧ ds_pathCriterias s' = ds_pathCriterias s ∧
      ds_crits s' = ds_crits s) ∨
     ∃ slot pc extra,
       is_Some (Discriminators base) ∧
       ds_pathCriterias s !! S (ds_index s) = Some slot ∧
       ds_pathCriterias s' = <[S (ds_index s) := Some pc]> (ds_pathCriterias s) ∧
       criterias_of (Some pc) = criterias_of slot ++ extra ∧
       ∀ c, c ∈ extra → c ∈ dom (ds_crits s') ∖ dom (ds_crits s)).
Proof.
  unfold buildPathCriterias_discriminators. intros Hrun.
  destruct (ps !! pe) as [per|] eqn:Hper; simpl in Hrun; [|done].
  destruct (st !! Base per) as [base|] eqn:Hbase; simpl in Hrun; [|done].
  exists per, base. split; [done|]. split; [done|].
  destruct (Discriminators base) as [discriminators|].
  - destruct (ds_pathCriterias s !! S (ds_index s)) as [slot|] eqn:Hslot;
      simpl in Hrun; [|done].
    match type of Hrun with
    | (?m ≫= _) ≫= _ = _ => destruct m as [[cs crits]|] eqn:Hcrits; simpl in Hrun; [|done]
    end.
    destruct (getAlias (ds_this s) (Derived per)) as [this' a'] eqn:Hget.
    inversion Hrun; subst s'; simpl. clear Hrun.
    assert (extends (ds_crits s) cs ∧ ∀ l, l ∈ crits → l ∈ dom cs ∖ dom (ds_crits s))
      as [Hext Hnew].
    { destruct (Table_Equals (DiscriminatorTable base) (TableTo base)).
      - eapply mapM_st_extends; [|done]. intros cs0 x cs0' l [= Hd].
        by apply Discriminator_Criteria_extends in Hd.
      - eapply mapM_st_extends; [|done]. intros cs0 x cs0' l.
        apply Discriminator_Criteria_aliased_extends. }
    split; [done|]. split; [done|]. split; [done|]. right.
    eexists slot, _, crits. split; [by eexists|]. split; [done|]. split; [done|].
    split; [|done].
    etrans; [apply (criterias_of_go_append (pc_or_new slot) crits)|]. by destruct slot.
  - simpl in Hrun. destruct (getAlias (ds_this s) (Derived per)) as [this' a'] eqn:Hget.
    inversion Hrun; subst s'; simpl. split; [done|]. split; [apply extends_refl|].
    split; [done|]. by left.
Qed.

Lemma buildPathCriterias_discriminators_loop fuel st ps : ∀ paths s s',
  foldM (buildPathCriterias_discriminators fuel st ps) s paths = Some s' →
  ds_index s' = ds_index s + length paths ∧
  length (ds_pathCriterias s') = length (ds_pathCriterias s) ∧
  extends (ds_crits s) (ds_crits s') ∧
  (∀ k, k ≤ ds_index s → ds_pathCriterias s' !! k = ds_pathCriterias s !! k) ∧
  ∀ j pe slot, paths !! j = Some pe →
    ds_pathCriterias s !! (S (ds_index s) + j) = Some slot →
    ∃ slot' extra,
      ds_pathCriterias s' !! (S (ds_index s) + j) = Some slot' ∧
      criterias_of slot' = criterias_of slot ++ extra ∧
      (is_Some slot → is_Some slot') ∧
      ∀ c, c ∈ extra → c ∉ dom (ds_crits s).
Proof.
  induction paths as [|pe paths IH]; intros s s' Hrun; simpl in Hrun.
  - inversion Hrun; subst. split; [simpl; lia|]. split; [done|].
    split; [apply extends_refl|]. split; [done|]. intros j pe slot Hj. by destruct j.
  - destruct (buildPathCriterias_discriminators fuel st ps s pe) as [s1|] eqn:Hstep;
      simpl in Hrun; [|done].
    destruct (buildPathCriterias_discriminators_spec _ _ _ _ _ _ Hstep)
      as (per & base & Hper & Hbase & Hidx & Hext1 & Hget & Hslots1).
    destruct (IH _ _ Hrun) as (Hidx' & Hlen & Hext2 & Hlow & Hslots).
    assert (Hlen1 : length (ds_pathCriterias s1) = length (ds_pathCriterias s)).
    { destruct Hslots1 as [(_ & -> & _)|(slot & pc & extra & _ & _ & -> & _)];
        [done|apply length_insert]. }
    assert (Hother : ∀ k, k ≠ S (ds_index s) →
              ds_pathCriterias s1 !! k = ds_pathCriterias s !! k).
    { intros k Hk.
      destruct Hslots1 as [(_ & -> & _)|(slot & pc & extra & _ & _ & -> & _)];
        [done|by apply list_lookup_insert_ne]. }
    split; [simpl; lia|]. split; [congruence|].
    split; [by eapply extends_trans|]. split.
    { intros k Hk. rewrite Hlow by lia. apply Hother. lia. }
    intros [|j] pe' slot Hj Hslot; simpl in Hj.
    + inversion Hj; subst pe'. rewrite Nat.add_0_r in *.
      rewrite Hlow by lia.
      destruct Hslots1 as [(_ & -> & _)|(slot0 & pc & extra & _ & Hs0 & -> & Hcrit & Hnew)].
      * exists slot, []. rewrite app_nil_r. split; [done|]. split; [done|].
        split; [done|]. intros c Hc. by apply elem_of_nil in Hc.
      * rewrite Hslot in Hs0. inversion Hs0; subst slot0.
        exists (Some pc), extra. split.
        { apply list_lookup_insert_eq. by eapply lookup_lt_Some. }
        split; [done|]. split; [by eexists|].
        intros c Hc. apply Hnew in Hc. set_solver.
    + replace (S (ds_index s) + S j) with (S (ds_index s1) + j) in * by lia.
      rewrite <- Hother in Hslot by lia.
      destruct (Hslots j pe' slot Hj Hslot) as (slot' & extra & Hs' & Hcrit & Hsome & Hnew).
      exists slot', extra. split; [done|]. split; [done|]. split; [done|].
      intros c Hc Hdom. apply (Hnew c Hc). by apply (extends_dom _ _ Hext1).
Qed.

(** What [buildPathCriterias] returns: [n + 1] slots; slot 0 is nil; slot
    [i + 1] holds, in this order, the caller's criteria of the [i]-th
    element, the table discriminators of the destination table of its
    association, and criteria built during the call (from the
    discriminators of the association).  No cell that existed before the
    call is changed. *)
Lemma buildPathCriterias_spec fuel this st ps cs paths this' cs' pcs :
  buildPathCriterias fuel this st ps cs paths = Some (this', cs', pcs) →
  length pcs = S (length paths) ∧
  pcs !! 0 = Some None ∧
  extends cs cs' ∧
  ∀ i pe, paths !! i = Some pe →
    ∃ per base slot extra,
      ps !! pe = Some per ∧ st !! Base per = Some base ∧
      pcs !! S i = Some slot ∧
      criterias_of slot
        = ptr_list (Criteria per) ++ slice_list (TableCriterias (TableTo base)) ++ extra ∧
      (is_Some (TableCriterias (TableTo base)) → is_Some slot) ∧
      ∀ c, c ∈ extra → c ∉ dom cs.
Proof.
  unfold buildPathCriterias. intros Hrun.
  destruct (foldM (buildPathCriterias_normal st ps) _ paths) as [[i1 pcs1]|] eqn:H1;
    simpl in Hrun; [|done].
  destruct (foldM (buildPathCriterias_discriminators fuel st ps) _ paths) as [s2|] eqn:H2;
    simpl in Hrun; [|done].
  inversion Hrun; subst this' cs' pcs. clear Hrun.
  destruct (buildPathCriterias_normal_loop _ _ _ _ _ _ _ H1) as (-> & Hlen1 & Hlow1 & Hslots1).
  destruct (buildPathCriterias_discriminators_loop _ _ _ _ _ _ H2)
    as (Hidx2 & Hlen2 & Hext & Hlow2 & Hslots2). simpl in *.
  rewrite length_replicate in Hlen1.
  split; [congruence|]. split.
  { rewrite Hlow2, Hlow1 by lia. done. }
  split; [done|]. intros i pe Hi.
  destruct (Hslots1 i pe Hi) as (per & base & Hper & Hbase & Hslot1).
  assert (Hilt : i < length paths) by (by eapply lookup_lt_Some).
  destruct Hslot1 as (slot1 & Hs1 & Hcrit1 & Hsome1).
  { apply lookup_replicate. split; [done|]. lia. }
  destruct (Hslots2 i pe slot1 Hi Hs1) as (slot2 & extra & Hs2 & Hcrit2 & Hsome2 & Hnew).
  exists per, base, slot2, extra. split; [done|]. split; [done|]. split; [done|].
  split; [by rewrite Hcrit2, Hcrit1, app_assoc|]. split; [|done].
  intros Htc. by apply Hsome2, Hsome1.
Qed.

(** Where [buildPathCriterias] puts the table-level discriminators: in the
    slot of the step whose association leads to the table, after the
    caller's criteria of the step; a criteria that existed before the call
    sits in no other slot than that of its step. *)
Lemma buildPathCriterias_placement
    fuel this st ps cs (paths : list loc) this' cs' (pathCriterias : list (option PathCriteria)) :
  buildPathCriterias fuel this st ps cs paths = Some (this', cs', pathCriterias) →
  (∀ i pe per base tcs,
     paths !! i = Some pe → ps !! pe = Some per → st !! Base per = Some base →
     TableCriterias (TableTo base) = Some tcs →
     ∃ pc extra,
       pathCriterias !! (i + 1) = Some (Some pc) ∧
       slice_list (Criterias pc) = ptr_list (Criteria per) ++ tcs ++ extra) ∧
  pathCriterias !! 0 = Some None ∧
  (∀ j slot c,
     pathCriterias !! j = Some slot → c ∈ criterias_of slot → c ∈ dom cs →
     ∃ i pe per base,
       j = i + 1 ∧ paths !! i = Some pe ∧ ps !! pe = Some per ∧
       st !! Base per = Some base ∧
       (Criteria per = Some c ∨ c ∈ slice_list (TableCriterias (TableTo base)))).
Proof.
  intros Hrun.
  destruct (buildPathCriterias_spec _ _ _ _ _ _ _ _ _ Hrun) as (Hlen & H0 & _ & Hslots).
  split; [|split; [done|]].
  - intros i pe per base tcs Hi Hper Hbase Htcs.
    destruct (Hslots i pe Hi) as (per' & base' & slot & extra & Hper' & Hbase' & Hs & Hc & Hsome & _).
    rewrite Hper in Hper'. inversion Hper'; subst per'.
    rewrite Hbase in Hbase'. inversion Hbase'; subst base'.
    destruct Hsome as [pc ->]; [by eexists|]. exists pc, extra.
    rewrite Nat.add_1_r. split; [done|]. simpl in Hc. by rewrite Hc, Htcs.
  - intros [|j] slot c Hj Hc Hdom.
    { rewrite H0 in Hj. inversion Hj; subst slot. by apply elem_of_nil in Hc. }
    assert (Hjlt : j < length paths).
    { apply lookup_lt_Some in Hj. lia. }
    destruct (lookup_lt_is_Some_2 paths j Hjlt) as [pe Hpe].
    destruct (Hslots j pe Hpe) as (per & base & slot' & extra & Hper & Hbase & Hs & Hcrit & _ & Hnew).
    rewrite Hj in Hs. inversion Hs; subst slot'.
    exists j, pe, per, base. rewrite Nat.add_1_r.
    split; [done|]. split; [done|]. split; [done|]. split; [done|].
    rewrite Hcrit in Hc. apply elem_of_app in Hc as [Hc|Hc].
    + left. destruct (Criteria per) as [c0|]; simpl in Hc.
      * apply list_elem_of_singleton in Hc. by subst.
      * by apply elem_of_nil in Hc.
    + apply elem_of_app in Hc as [Hc|Hc]; [by right|]. by destruct (Hnew c Hc).
Qed.

(** ** The raw-to-parameter rewriter: [replaceRaw] *)

Lemma HTree_ind' (P : HTree → Prop) :
  (∀ l op a v kids,
     Forall (λ k, match k with Some t => P t | None => True end) kids →
     P (HNode l op a v kids)) →
  ∀ t, P t.
Proof.
  intros H. fix IH 1. intros [l op a v kids]. apply H.
  induction kids as [|[k|] kids IHk]; constructor; [apply IH|apply IHk|done|apply IHk].
Qed.

Lemma with_raw_id this : with_raw this (rawIndex this) (parameters this) = this.
Proof. by destruct this. Qed.

Lemma with_raw_with_raw this i p i' p' :
  with_raw (with_raw this i p) i' p' = with_raw this i' p'.
Proof. done. Qed.

Lemma register_app params regs1 regs2 :
  register params (regs1 ++ regs2) = register (register params regs1) regs2.
Proof. unfold register. by rewrite foldl_app. Qed.

(** *** The rewriting on terms *)

Section rewrite_raw.
Variable alias : string.

Lemma rewrite_kids_facts_intro kids :
  Forall (λ k, match k with Some t => rewrite_facts alias t | None => True end) kids →
  rewrite_kids_facts alias kids.
Proof.
  induction kids as [|[k|] kids IH]; intros Hall i i' regs kids' Hrw; simpl in Hrw.
  - inversion Hrw; subst. simpl. repeat split; try done. lia.
  - inversion Hall as [|? ? Hk Hks]; subst.
    destruct (rewrite_raw alias i k) as [[i1 regs1] k'] eqn:Hrk.
    destruct (rewrite_kids (rewrite_raw alias) i1 kids) as [[i2 regs2] kids2] eqn:Hrks.
    inversion Hrw; subst. clear Hrw.
    destruct (Hk _ _ _ _ Hrk) as (Hroot & Hlocs & Hi1 & Hnames1 & Hplain1).
    destruct (IH Hks _ _ _ _ Hrks) as (Hroots & Hcells & Hi2 & Hnames2 & Hplain2).
    split; [|split; [|split; [|split]]].
    + change (Some (root k') :: roots kids2 = Some (root k) :: roots kids).
      by rewrite Hroot, Hroots.
    + change ((cells k' ++ cells_kids kids2).*1 = (cells k ++ cells_kids kids).*1).
      rewrite !fmap_app. unfold locs in Hlocs. by rewrite Hlocs, Hcells.
    + rewrite length_app. lia.
    + rewrite length_app, seq_app, !fmap_app, Hnames1, Hnames2. f_equal.
      rewrite (Nat.add_comm 0 (length regs1)), <- fmap_add_seq, <- list_fmap_compose.
      apply list_fmap_ext. intros _ n _. simpl. f_equal. lia.
    + simpl. intros [Hp Hps]. destruct (Hplain1 Hp) as [Hn1 Hz1].
      destruct (Hplain2 Hps) as [Hn2 Hz2]. rewrite length_app. lia.
  - inversion Hall as [|? ? Hk Hks]; subst.
    destruct (rewrite_kids (rewrite_raw alias) i kids) as [[i2 regs2] kids2] eqn:Hrks.
    inversion Hrw; subst. clear Hrw.
    destruct (IH Hks _ _ _ _ Hrks) as (Hroots & Hcells & Hi2 & Hnames2 & Hplain2).
    split; [|done]. change (None :: roots kids2 = None :: roots kids).
    by rewrite Hroots.
Qed.

Lemma rewrite_raw_facts t : rewrite_facts alias t.
Proof.
  induction t as [l op a v kids IH] using HTree_ind'.
  apply rewrite_kids_facts_intro in IH.
  intros i i' regs t' Hrw. simpl in Hrw.
  destruct (decide (op = TOKEN_RAW)) as [Hraw|Hraw].
  - inversion Hrw; subst. simpl. split; [done|]. split; [done|]. split; [lia|].
    split; [done|]. intros (_ & Hleaf & _). by rewrite (Hleaf eq_refl).
  - destruct (decide (op = TOKEN_SUBQUERY)) as [Hsub|Hsub].
    { inversion Hrw; subst. simpl. split; [done|]. split; [done|]. split; [lia|].
      split; [done|]. by intros (Hno & _). }
    destruct (rewrite_kids (rewrite_raw alias) i kids) as [[i2 regs2] kids2] eqn:Hrks.
    inversion Hrw; subst. clear Hrw.
    destruct (IH _ _ _ _ Hrks) as (Hroots & Hcells & Hi2 & Hnames2 & Hplain2).
    split; [done|]. split.
    { change ((root (HNode l op a v kids2)) :: (cells_kids kids2).*1
              = l :: (cells_kids kids).*1). simpl. by rewrite Hcells. }
    split; [done|]. split; [done|]. simpl.
    rewrite decide_False by done. intros (_ & _ & Hps). by apply Hplain2.
Qed.

End rewrite_raw.

(** *** The code against the rewriting on terms *)

Lemma int_wrap_id z : (- 2 ^ 63 ≤ z < 2 ^ 63)%Z → int_wrap z = z.
Proof. intros Hz. unfold int_wrap. rewrite Z.mod_small; lia. Qed.

Lemma height_kid k kids :
  Some k ∈ kids →
  height k ≤ foldr (λ k h, match k with Some t' => max (height t') h | None => h end) 0 kids.
Proof.
  induction kids as [|[k'|] kids IH]; intros Hin.
  - by apply elem_of_nil in Hin.
  - apply elem_of_cons in Hin as [[= ->]|Hin]; simpl; [lia|]. specialize (IH Hin). lia.
  - apply elem_of_cons in Hin as [?|Hin]; [done|]. simpl. by apply IH.
Qed.

Lemma replaceRaw_refines_kids fuel kids :
  Forall (λ k, match k with Some t => replaceRaw_refines t | None => True end) kids →
  ∀ this cs i' regs kids',
    (∀ k, Some k ∈ kids → height k ≤ fuel) →
    repr_kids cs kids → NoDup (cells_kids kids).*1 →
    plain_kids kids →
    (- 2 ^ 63 ≤ rawIndex this)%Z →
    (rawIndex this + Z.of_nat (raw_nodes_kids kids) < 2 ^ 63)%Z →
    rewrite_kids (rewrite_raw (tableAlias this)) (rawIndex this) kids = (i', regs, kids') →
    ∃ cs',
      foldM (visit_member (λ s t, replaceRaw fuel s.1 s.2 t)) (this, cs) (roots kids)
        = Some (with_raw this i' (register (parameters this) regs), cs') ∧
      repr_kids cs' kids' ∧ ∀ k, k ∉ (cells_kids kids).*1 → cs' !! k = cs !! k.
Proof.
  induction kids as [|[k|] kids IH];
    intros Hall this cs i' regs kids' Hfuel Hrepr Hnodup Hplain Hlo Hhi Hrw; simpl in Hrw.
  - inversion Hrw; subst. exists cs. simpl. by rewrite with_raw_id.
  - inversion Hall as [|? ? Hk Hks]; subst.
    destruct (rewrite_raw (tableAlias this) (rawIndex this) k) as [[i1 regs1] k'] eqn:Hrk.
    destruct (rewrite_kids (rewrite_raw (tableAlias this)) i1 kids)
      as [[i2 regs2] kids2] eqn:Hrks.
    inversion Hrw; subst. clear Hrw.
    change (cells_kids (Some k :: kids)) with (cells k ++ cells_kids kids) in *.
    rewrite fmap_app in Hnodup. apply NoDup_app in Hnodup as (Hnd1 & Hdisj & Hnd2).
    destruct Hplain as [Hp Hps]. simpl in Hhi.
    destruct (rewrite_raw_facts (tableAlias this) k _ _ _ _ Hrk)
      as (Hroot & Hlocs & Hi1 & _ & Hcount).
    destruct (Hcount Hp) as [Hn1 _].
    destruct (Hk fuel this cs i1 regs1 k') as (cs1 & Hrun1 & Hrepr1 & Hframe1);
      try done.
    { apply Hfuel. by left. }
    { intros l tok Hl. apply Hrepr. apply elem_of_app. by left. }
    { lia. }
    set (this1 := with_raw this i1 (register (parameters this) regs1)).
    destruct (IH Hks this1 cs1 i' regs2 kids2) as (cs2 & Hrun2 & Hrepr2 & Hframe2);
      try done.
    { intros k0 Hk0. apply Hfuel. by right. }
    { intros l tok Hl. rewrite Hframe1.
      - apply Hrepr. apply elem_of_app. by right.
      - intros Hin. apply (Hdisj l Hin). apply list_elem_of_fmap. by exists (l, tok). }
    { simpl. lia. }
    { simpl. lia. }
    exists cs2. split; [|split].
    + change (roots (Some k :: kids)) with (Some (root k) :: roots kids).
      simpl. rewrite Hrun1. simpl. fold this1. rewrite Hrun2. simpl.
      by rewrite register_app.
    + change (cells_kids (Some k' :: kids2)) with (cells k' ++ cells_kids kids2).
      intros l tok [Hl|Hl]%elem_of_app; [|by apply Hrepr2].
      rewrite Hframe2; [by apply Hrepr1|].
      intros Hin. apply (Hdisj l); [|done]. fold (locs k). rewrite <- Hlocs.
      apply list_elem_of_fmap. by exists (l, tok).
    + intros l Hl. rewrite fmap_app in Hl. rewrite Hframe2, Hframe1; [done| |];
        intros Hin; apply Hl, elem_of_app; [by left|by right].
  - inversion Hall as [|? ? Hk Hks]; subst.
    destruct (rewrite_kids (rewrite_raw (tableAlias this)) (rawIndex this) kids)
      as [[i2 regs2] kids2] eqn:Hrks.
    inversion Hrw; subst. clear Hrw.
    destruct (IH Hks this cs i' regs kids2) as (cs2 & Hrun2 & Hrepr2 & Hframe2); try done.
    { intros k0 Hk0. apply Hfuel. by right. }
    exists cs2. done.
Qed.

Lemma replaceRaw_refines_all t : replaceRaw_refines t.
Proof.
  induction t as [l op a v kids IH] using HTree_ind'.
  intros fuel this cs i' regs t' Hfuel Hrepr Hnodup Hplain Hlo Hhi Hrw.
  destruct fuel as [|fuel]; [simpl in Hfuel; lia|].
  assert (Hroot : cs !! l = Some (mkToken op a v (roots kids))).
  { apply Hrepr. by left. }
  simpl in Hrw |- *. rewrite Hroot. simpl.
  destruct Hplain as (Hsub & Hleaf & Hps).
  destruct (decide (op = TOKEN_RAW)) as [Hraw|Hraw].
  - inversion Hrw; subst. clear Hrw. rewrite (Hleaf eq_refl) in *. simpl in Hhi.
    rewrite int_wrap_id by lia. eexists. split; [reflexivity|]. split.
    + intros l' tok [Hl|Hl]%elem_of_cons; [|by apply elem_of_nil in Hl].
      inversion Hl; subst. apply lookup_insert_eq.
    + intros k Hk. apply lookup_insert_ne. intros <-. apply Hk. by left.
  - rewrite decide_False by done. rewrite decide_False in Hrw by done.
    destruct (rewrite_kids (rewrite_raw (tableAlias this)) (rawIndex this) kids)
      as [[i2 regs2] kids2] eqn:Hrks.
    inversion Hrw; subst. clear Hrw.
    change (locs (HNode l op a v kids)) with (l :: (cells_kids kids).*1) in *.
    apply NoDup_cons in Hnodup as [Hl Hnd]. simpl in Hhi.
    rewrite decide_False in Hhi by done.
    destruct (replaceRaw_refines_kids fuel kids IH this cs i' regs kids2)
      as (cs' & Hrun & Hrepr' & Hframe); try done.
    { intros k Hk. apply height_kid in Hk. simpl in Hfuel. lia. }
    { intros l' tok Hl'. apply Hrepr. by right. }
    exists cs'. split; [done|]. split.
    + assert (HF : Forall (λ k, match k with
                                Some t => rewrite_facts (tableAlias this) t
                              | None => True end) kids).
      { clear. induction kids as [|[k|] kids IHk]; constructor; try done.
        apply rewrite_raw_facts. }
      destruct (rewrite_kids_facts_intro (tableAlias this) kids HF _ _ _ _ Hrks)
        as (Hroots & _).
      intros l' tok [Hl'|Hl']%elem_of_cons; [|by apply Hrepr'].
      inversion Hl'; subst. rewrite Hroots, Hframe; done.
    + intros k Hk. apply Hframe. intros Hin. apply Hk. by right.
Qed.

(** *** Names and registrations *)

Lemma raw_name_inj a : Inj (=) (=) (raw_name a).
Proof.
  intros i j Heq. unfold raw_name, Itoa in Heq.
  apply String.app_inj in Heq. apply String.app_inj in Heq.
  by apply pretty_Z_inj in Heq.
Qed.

Lemma raw_names_NoDup a (i : Z) n :
  NoDup ((λ k : nat, raw_name a (i + Z.of_nat (S k))) <$> seq 0 n).
Proof.
  apply NoDup_fmap_2; [|apply NoDup_seq].
  intros k1 k2 Heq. apply raw_name_inj in Heq. lia.
Qed.

Lemma register_lookup_notin params regs name :
  name ∉ regs.*1 → register params regs !! name = params !! name.
Proof.
  revert params. induction regs as [|[k v] regs IH]; intros params Hnotin; [done|].
  simpl in Hnotin. apply not_elem_of_cons in Hnotin as [Hne Hnotin].
  unfold register in *. simpl. rewrite IH by done. by apply lookup_insert_ne.
Qed.

Lemma register_lookup params regs name v :
  NoDup regs.*1 → (name, v) ∈ regs → register params regs !! name = Some v.
Proof.
  revert params. induction regs as [|[k w] regs IH]; intros params Hnd Hin.
  - by apply elem_of_nil in Hin.
  - simpl in Hnd. apply NoDup_cons in Hnd as [Hk Hnd].
    apply elem_of_cons in Hin as [[= -> ->]|Hin].
    + change (register (<[k := w]> params) regs !! k = Some w).
      rewrite register_lookup_notin by done. apply lookup_insert_eq.
    + by apply (IH (<[k := w]> params)).
Qed.

Lemma register_size params regs :
  NoDup regs.*1 → (∀ name, name ∈ regs.*1 → params !! name = None) →
  size (register params regs) = size params + length regs.
Proof.
  revert params. induction regs as [|[k w] regs IH]; intros params Hnd Hfresh.
  - unfold register. simpl. lia.
  - simpl in Hnd. apply NoDup_cons in Hnd as [Hk Hnd].
    change (size (register (<[k := w]> params) regs) = size params + S (length regs)).
    rewrite IH; [|done|].
    + rewrite map_size_insert_None; [lia|]. apply Hfresh. by left.
    + intros name Hname. rewrite lookup_insert_ne; [apply Hfresh; by right|].
      by intros <-.
Qed.

(** Each raw-literal node of the tree is, in the rewritten tree, a
    bound-parameter node at the same cell whose value is the name under
    which its literal is registered. *)
Lemma rewrite_raw_nodes alias t : ∀ i i' regs t' l tok,
  rewrite_raw alias i t = (i', regs, t') → plain t →
  (l, tok) ∈ cells t → Operator tok = TOKEN_RAW →
  ∃ name, (name, TokValue tok) ∈ regs ∧
    (l, mkToken TOKEN_PARAM (TableAlias tok) (VLit (LStr name)) (Members tok)) ∈ cells t'.
Proof.
  induction t as [l0 op a v kids IH] using HTree_ind'.
  intros i i' regs t' l tok Hrw Hplain Hin Hop. simpl in Hrw.
  destruct Hplain as (Hsub & Hleaf & Hps).
  destruct (decide (op = TOKEN_RAW)) as [Hraw|Hraw].
  - inversion Hrw; subst. rewrite (Hleaf eq_refl) in *. simpl in Hin.
    apply list_elem_of_singleton in Hin. inversion Hin; subst. simpl.
    eexists. split; by left.
  - rewrite decide_False in Hrw by done.
    destruct (rewrite_kids (rewrite_raw alias) i kids) as [[i2 regs2] kids2] eqn:Hrks.
    inversion Hrw; subst. clear Hrw.
    apply elem_of_cons in Hin as [Hin|Hin].
    { inversion Hin; subst. simpl in Hop. done. }
    cut (∃ name, (name, TokValue tok) ∈ regs ∧
           (l, mkToken TOKEN_PARAM (TableAlias tok) (VLit (LStr name)) (Members tok))
             ∈ cells_kids kids2).
    { intros (name & ? & ?). exists name. split; [done|]. by right. }
    clear Hraw Hsub Hleaf. fold (cells_kids kids) in Hin. fold (plain_kids kids) in Hps.
    revert i i' regs kids2 Hrks Hps Hin.
    induction kids as [|[k|] kids IHk]; intros i i' regs kids2 Hrks Hps Hin; simpl in Hrks.
    + by apply elem_of_nil in Hin.
    + inversion IH as [|? ? Hk Hks]; subst.
      destruct (rewrite_raw alias i k) as [[i1 regs1] k'] eqn:Hrk.
      destruct (rewrite_kids (rewrite_raw alias) i1 kids) as [[i3 regs3] kids3] eqn:Hrks3.
      inversion Hrks; subst. clear Hrks. destruct Hps as [Hp Hps].
      change (cells_kids (Some k :: kids)) with (cells k ++ cells_kids kids) in Hin.
      change (cells_kids (Some k' :: kids3)) with (cells k' ++ cells_kids kids3).
      apply elem_of_app in Hin as [Hin|Hin].
      * destruct (Hk _ _ _ _ _ _ Hrk Hp Hin Hop) as (name & Hreg & Hcell).
        exists name. split; apply elem_of_app; by left.
      * destruct (IHk Hks _ _ _ _ Hrks3 Hps Hin) as (name & Hreg & Hcell).
        exists name. split; apply elem_of_app; by right.
    + inversion IH as [|? ? Hk Hks]; subst.
      destruct (rewrite_kids (rewrite_raw alias) i kids) as [[i3 regs3] kids3] eqn:Hrks3.
      inversion Hrks; subst. clear Hrks.
      by apply (IHk Hks _ _ _ _ Hrks3 Hps Hin).
Qed.
(** ** The alias allocator *)

Lemma same_but_bag_refl this : same_but_bag this this.
Proof. by destruct this. Qed.

Lemma same_but_bag_trans this1 this2 this3 :
  same_but_bag this1 this2 → same_but_bag this2 this3 → same_but_bag this1 this3.
Proof. unfold same_but_bag. intros -> ->. done. Qed.

Lemma same_but_bag_set this b : same_but_bag this (set_joinBag this b).
Proof. done. Qed.

(** [GetAlias] answers with the alias it holds for the key afterwards, keeps
    every alias it held, and changes nothing when it held one for the key. *)
Lemma getAlias_spec this fk this' a :
  getAlias this fk = (this', a) →
  same_but_bag this this' ∧
  bag (joinBag this') !! fk = Some a ∧
  (∀ key, key ≠ fk → bag (joinBag this') !! key = bag (joinBag this) !! key) ∧
  bag (joinBag this) ⊆ bag (joinBag this') ∧
  (aliased this fk → this' = this).
Proof.
  unfold getAlias, AliasBag_GetAlias, aliased.
  destruct (bag (joinBag this) !! fk) as [a0|] eqn:Hfk; intros [= <- <-]; simpl.
  - split; [done|]. split; [done|]. split; [done|]. split; [done|].
    intros _. by destruct this as [? ? ? ? ? []].
  - split; [done|]. split; [apply lookup_insert_eq|].
    split; [intros key Hne; by apply lookup_insert_ne|].
    split; [by apply insert_subseteq|]. by intros [? ?].
Qed.

Lemma getAlias_idempotent this fk this' a :
  getAlias this fk = (this', a) → getAlias this' fk = (this', a).
Proof.
  intros (_ & Hfk & _)%getAlias_spec. unfold getAlias, AliasBag_GetAlias.
  rewrite Hfk. by destruct this' as [? ? ? ? ? []].
Qed.

Lemma setAlias_spec this fk a :
  same_but_bag this (setAlias this fk a) ∧
  bag (joinBag (setAlias this fk a)) !! fk = Some a ∧
  (∀ key, key ≠ fk →
     bag (joinBag (setAlias this fk a)) !! key = bag (joinBag this) !! key) ∧
  (¬ aliased this fk → bag (joinBag this) ⊆ bag (joinBag (setAlias this fk a))).
Proof.
  unfold setAlias, AliasBag_SetAlias, aliased. simpl.
  split; [done|]. split; [apply lookup_insert_eq|].
  split; [intros key Hne; by apply lookup_insert_ne|].
  intros Hnot. apply insert_subseteq. by apply eq_None_not_Some.
Qed.

(** ** Cloning and stamping associations *)

Lemma Association_Clone_spec (st : astore) l st' d :
  Association_Clone st l = Some (st', d) →
  ∃ a, st !! l = Some a ∧ st ⊆ st' ∧ st !! d = None ∧
    ((IsMany2Many a = false ∧ st' = <[d := a]> st) ∨
     ∃ f t fa ta f' t',
       FromM2M a = Some f ∧ ToM2M a = Some t ∧
       st !! f = Some fa ∧ st !! t = Some ta ∧
       st !! f' = None ∧ st !! t' = None ∧ f' ≠ t' ∧ d ≠ f' ∧ d ≠ t' ∧
       st' = <[d := mkAssociation (TableFrom a) (TableTo a) (Relations a)
                      (DiscriminatorTable a) (Discriminators a)
                      (Some f') (Some t') (AliasFrom a) (AliasTo a)]>
               (<[t' := ta]> (<[f' := fa]> st))).
Proof.
  unfold Association_Clone. intros Hrun.
  destruct (st !! l) as [a|] eqn:Hl; cbn in Hrun; [|done].
  exists a. split; [done|].
  assert (Hsingle : ∀ st' d, alloc st a = (st', d) →
            st ⊆ st' ∧ st !! d = None ∧ st' = <[d := a]> st).
  { intros st0 d0 Ha. destruct (alloc_spec _ _ _ _ Ha) as [Hd ->].
    split; [by apply insert_subseteq|done]. }
  destruct (FromM2M a) as [f|] eqn:Hf, (ToM2M a) as [t|] eqn:Ht.
  - destruct (st !! f) as [fa|] eqn:Hfa; cbn in Hrun; [|done].
    destruct (st !! t) as [ta|] eqn:Hta; cbn in Hrun; [|done].
    destruct (alloc st fa) as [st1 f'] eqn:Ha1.
    destruct (alloc st1 ta) as [st2 t'] eqn:Ha2.
    apply (inj Some) in Hrun.
    destruct (alloc_spec _ _ _ _ Ha1) as [Hf' ->].
    destruct (alloc_spec _ _ _ _ Ha2) as [Ht' ->].
    destruct (alloc_spec _ _ _ _ Hrun) as [Hd ->].
    assert (f' ≠ t') by (intros <-; by rewrite lookup_insert_eq in Ht').
    assert (d ≠ t') by (intros <-; by rewrite lookup_insert_eq in Hd).
    assert (d ≠ f').
    { intros <-. rewrite lookup_insert_ne in Hd by done.
      by rewrite lookup_insert_eq in Hd. }
    rewrite lookup_insert_ne in Ht' by done.
    rewrite !lookup_insert_ne in Hd by done.
    split; [|split; [done|]].
    + etrans; [|apply insert_subseteq]; [|by rewrite !lookup_insert_ne].
      etrans; [|apply insert_subseteq]; [|by rewrite !lookup_insert_ne].
      by apply insert_subseteq.
    + right. by exists f, t, fa, ta, f', t'.
  - apply (inj Some) in Hrun. destruct (Hsingle _ _ Hrun) as (? & ? & ?).
    split; [done|]. split; [done|]. left. split; [|done].
    unfold IsMany2Many. rewrite Ht. apply bool_decide_eq_false. by intros [_ [? ?]].
  - apply (inj Some) in Hrun. destruct (Hsingle _ _ Hrun) as (? & ? & ?).
    split; [done|]. split; [done|]. left. split; [|done].
    unfold IsMany2Many. rewrite Hf. apply bool_decide_eq_false. by intros [[? ?] _].
  - apply (inj Some) in Hrun. destruct (Hsingle _ _ Hrun) as (? & ? & ?).
    split; [done|]. split; [done|]. left. split; [|done].
    unfold IsMany2Many. rewrite Hf. apply bool_decide_eq_false. by intros [[? ?] _].
Qed.

Lemma prepareAssociation_spec (st : astore) aliasFrom aliasTo currentFk st' :
  prepareAssociation st aliasFrom aliasTo currentFk = Some st' →
  ∃ fk a, currentFk = Some fk ∧ st !! fk = Some a ∧
    st' = <[fk := stamped a aliasFrom aliasTo]> st.
Proof.
  unfold prepareAssociation. intros Hrun.
  destruct currentFk as [fk|]; simpl in Hrun; [|done].
  destruct (st !! fk) as [a|] eqn:Hfk; simpl in Hrun; [|done].
  inversion Hrun; subst. by exists fk, a.
Qed.

(** ** Resolving one association *)

Lemma getAlias_aliased this fk this' a key :
  getAlias this fk = (this', a) → aliased this' key ↔ key = fk ∨ aliased this key.
Proof.
  intros (_ & Hfk & Hother & _)%getAlias_spec. unfold aliased.
  destruct (decide (key = fk)) as [->|Hne].
  - rewrite Hfk. split; [by left|by eexists].
  - rewrite Hother by done. split; [by right|by intros [?|?]].
Qed.

Lemma setAlias_aliased this fk a key :
  aliased (setAlias this fk a) key ↔ key = fk ∨ aliased this key.
Proof.
  destruct (setAlias_spec this fk a) as (_ & Hfk & Hother & _). unfold aliased.
  destruct (decide (key = fk)) as [->|Hne].
  - rewrite Hfk. split; [by left|by eexists].
  - rewrite Hother by done. split; [by right|by intros [?|?]].
Qed.

(** The alias given to the destination end of a new clone: the preferred
    alias when there is one, otherwise the alias the allocator generates. *)
Lemma destination_alias this fk pref this' dest :
  (if decide (pref = "") then getAlias this fk else (setAlias this fk pref, pref))
    = (this', dest) →
  ¬ aliased this fk →
  same_but_bag this this' ∧
  bag (joinBag this') !! fk = Some dest ∧
  (∀ key, key ≠ fk → bag (joinBag this') !! key = bag (joinBag this) !! key) ∧
  bag (joinBag this) ⊆ bag (joinBag this') ∧
  (∀ key, aliased this' key ↔ key = fk ∨ aliased this key) ∧
  (pref ≠ "" → dest = pref).
Proof.
  intros Hrun Hnew. destruct (decide (pref = "")) as [Hp|Hp].
  - destruct (getAlias_spec _ _ _ _ Hrun) as (? & ? & ? & ? & _).
    repeat split; try done; by apply (getAlias_aliased _ _ _ _ _ Hrun).
  - inversion Hrun; subst. destruct (setAlias_spec this fk dest) as (? & ? & ? & Hsub).
    repeat split; try done; try (by apply setAlias_aliased). by apply Hsub.
Qed.

Lemma IsMany2Many_stamped a af at_ : IsMany2Many (stamped a af at_) = IsMany2Many a.
Proof. done. Qed.

Lemma IsMany2Many_true a :
  IsMany2Many a = true ↔ ∃ f t, FromM2M a = Some f ∧ ToM2M a = Some t.
Proof.
  unfold IsMany2Many. rewrite bool_decide_eq_true. split.
  - intros [[f ?] [t ?]]. by exists f, t.
  - intros (f & t & -> & ->). split; by eexists.
Qed.

(** The origin alias of a new join: the alias of the base table for the
    first element, the alias of the destination end of the previous element
    otherwise; asking for the latter changes nothing when it has one. *)
Lemma origin_alias this lastFk f this0 origin :
  (if decide (f = 0) then (this, tableAlias this) else getAlias this lastFk)
    = (this0, origin) →
  (f ≠ 0 → aliased this lastFk) →
  this0 = this ∧
  (f = 0 → origin = tableAlias this) ∧
  (f ≠ 0 → bag (joinBag this) !! lastFk = Some origin).
Proof.
  intros Hrun Hal. destruct (decide (f = 0)) as [Hf|Hf].
  - inversion Hrun; subst. done.
  - destruct (getAlias_spec _ _ _ _ Hrun) as (_ & Hfk & _ & _ & Hsame).
    rewrite (Hsame (Hal Hf)) in *. done.
Qed.

(** What the resolution of a single (not many-to-many) association does. *)
Lemma resolve_association_single this st lastFk f per this' st' d lastFk' base :
  resolve_association this st lastFk f per = Some (this', st', d, lastFk') →
  (∀ l, aliased this (Some l) → l ∈ dom st) →
  (f ≠ 0 → aliased this lastFk) →
  st !! Base per = Some base → IsMany2Many base = false →
  ∃ origin dest,
    (f = 0 → origin = tableAlias this) ∧
    (f ≠ 0 → bag (joinBag this) !! lastFk = Some origin) ∧
    (PreferredAlias per ≠ "" → dest = PreferredAlias per) ∧
    st !! d = None ∧
    st' = <[d := stamped base origin dest]> st ∧
    lastFk' = Some d ∧
    same_but_bag this this' ∧
    bag (joinBag this') !! Some d = Some dest ∧
    bag (joinBag this) ⊆ bag (joinBag this') ∧
    (∀ key, aliased this' key ↔ key = Some d ∨ aliased this key).
Proof.
  unfold resolve_association. intros Hrun Hbag Hlast Hbase Hsingle.
  destruct (Association_Clone st (Base per)) as [[st1 d1]|] eqn:Hclone; cbn in Hrun; [|done].
  destruct (Association_Clone_spec _ _ _ _ Hclone) as (a & Ha & Hsub & Hd1 & Hcases).
  rewrite Hbase in Ha. inversion Ha; subst a. clear Ha.
  destruct Hcases as [[_ ->]|(f0 & t0 & ? & ? & ? & ? & Hf0 & Ht0 & _)].
  2:{ assert (IsMany2Many base = true) by (apply IsMany2Many_true; eauto). congruence. }
  destruct (if decide (f = 0) then _ else _) as [this0 origin] eqn:Horigin.
  destruct (origin_alias _ _ _ _ _ Horigin Hlast) as (-> & Ho0 & Ho1).
  rewrite lookup_insert_eq in Hrun. cbn in Hrun. rewrite Hsingle in Hrun.
  destruct (if decide (PreferredAlias per = "") then _ else _) as [this2 dest] eqn:Hdest.
  assert (Hnew : ¬ aliased this (Some d1)).
  { intros Hal. apply Hbag in Hal. by apply not_elem_of_dom in Hd1. }
  destruct (destination_alias _ _ _ _ _ Hdest Hnew) as (Hsame & Hkey & _ & Hbsub & Hal & Hpref).
  destruct (prepareAssociation _ _ _ _) as [st2|] eqn:Hprep; cbn in Hrun; [|done].
  destruct (prepareAssociation_spec _ _ _ _ _ Hprep) as (fk & a & [= <-] & Hfk & ->).
  rewrite lookup_insert_eq in Hfk. inversion Hfk; subst a. clear Hfk.
  inversion Hrun; subst. clear Hrun.
  exists origin, dest. rewrite insert_insert_eq. done.
Qed.

(** What the resolution of a many-to-many pairing does: two hops, the
    first to the junction, the second from the junction. *)
Lemma resolve_association_many2many this st lastFk f per this' st' d lastFk' base :
  resolve_association this st lastFk f per = Some (this', st', d, lastFk') →
  (∀ l, aliased this (Some l) → l ∈ dom st) →
  (f ≠ 0 → aliased this lastFk) →
  st !! Base per = Some base → IsMany2Many base = true →
  ∃ origin junction dest bf bt fa ta fromFk toFk,
    (f = 0 → origin = tableAlias this) ∧
    (f ≠ 0 → bag (joinBag this) !! lastFk = Some origin) ∧
    (PreferredAlias per ≠ "" → dest = PreferredAlias per) ∧
    FromM2M base = Some bf ∧ ToM2M base = Some bt ∧
    st !! bf = Some fa ∧ st !! bt = Some ta ∧
    st !! d = None ∧ st !! fromFk = None ∧ st !! toFk = None ∧
    fromFk ≠ toFk ∧ d ≠ fromFk ∧ d ≠ toFk ∧
    st' = <[toFk := stamped ta junction dest]>
            (<[fromFk := stamped fa origin junction]>
               (<[d := mkAssociation (TableFrom base) (TableTo base) (Relations base)
                         (DiscriminatorTable base) (Discriminators base)
                         (Some fromFk) (Some toFk) (AliasFrom base) (AliasTo base)]>
                  (<[toFk := ta]> (<[fromFk := fa]> st)))) ∧
    lastFk' = Some toFk ∧
    same_but_bag this this' ∧
    bag (joinBag this') !! Some fromFk = Some junction ∧
    bag (joinBag this') !! Some toFk = Some dest ∧
    bag (joinBag this) ⊆ bag (joinBag this') ∧
    (∀ key, aliased this' key ↔ key = Some fromFk ∨ key = Some toFk ∨ aliased this key).
Proof.
  unfold resolve_association. intros Hrun Hbag Hlast Hbase Hmany.
  destruct (Association_Clone st (Base per)) as [[st1 d1]|] eqn:Hclone; cbn in Hrun; [|done].
  destruct (Association_Clone_spec _ _ _ _ Hclone) as (a & Ha & Hsub & Hd1 & Hcases).
  rewrite Hbase in Ha. inversion Ha; subst a. clear Ha.
  destruct Hcases as [[? _]|(bf & bt & fa & ta & f' & t' & Hbf & Hbt & Hfa & Hta
                              & Hf' & Ht' & Hft & Hdf & Hdt & ->)]; [congruence|].
  destruct (if decide (f = 0) then _ else _) as [this0 origin] eqn:Horigin.
  destruct (origin_alias _ _ _ _ _ Horigin Hlast) as (-> & Ho0 & Ho1).
  rewrite lookup_insert_eq in Hrun. cbn in Hrun.
  destruct (getAlias this (Some f')) as [this1 junction] eqn:Hj1.
  destruct (getAlias_spec _ _ _ _ Hj1) as (Hsame1 & Hkey1 & Hoth1 & Hsub1 & _).
  destruct (prepareAssociation _ _ _ (Some f')) as [st2|] eqn:Hprep1; cbn in Hrun; [|done].
  destruct (prepareAssociation_spec _ _ _ _ _ Hprep1) as (fk & a & [= <-] & Hfk & ->).
  rewrite lookup_insert_ne, lookup_insert_ne, lookup_insert_eq in Hfk by done.
  inversion Hfk; subst a. clear Hfk.
  destruct (if decide (PreferredAlias per = "") then _ else _) as [this2 dest] eqn:Hdest.
  assert (Hnew : ¬ aliased this1 (Some t')).
  { intros Hal. apply (getAlias_aliased _ _ _ _ _ Hj1) in Hal as [[= ?]|Hal]; [done|].
    apply Hbag in Hal. by apply not_elem_of_dom in Ht'. }
  destruct (destination_alias _ _ _ _ _ Hdest Hnew)
    as (Hsame2 & Hkey2 & Hoth2 & Hsub2 & Hal2 & Hpref).
  destruct (getAlias this2 (Some f')) as [this3 junction'] eqn:Hj2.
  assert (Hf2 : bag (joinBag this2) !! Some f' = Some junction).
  { rewrite Hoth2; [done|]. intros [= ?]. done. }
  destruct (getAlias_spec _ _ _ _ Hj2) as (_ & Hkey3 & _ & _ & Hid).
  rewrite Hid in * by (by eexists). clear Hid this3 Hj2.
  rewrite Hf2 in Hkey3. inversion Hkey3; subst junction'. clear Hkey3.
  destruct (prepareAssociation _ _ _ (Some t')) as [st3|] eqn:Hprep2; cbn in Hrun; [|done].
  destruct (prepareAssociation_spec _ _ _ _ _ Hprep2) as (fk & a & [= <-] & Hfk & ->).
  rewrite lookup_insert_ne, lookup_insert_ne, lookup_insert_eq in Hfk by done.
  inversion Hfk; subst a. clear Hfk.
  inversion Hrun; subst. clear Hrun.
  exists origin, junction, dest, bf, bt, fa, ta, f', t'.
  repeat split; try done.
  - by eapply same_but_bag_trans.
  - by etrans.
  - intros Hal. apply Hal2 in Hal as [->|Hal]; [by right; left|].
    apply (getAlias_aliased _ _ _ _ _ Hj1) in Hal as [->|Hal]; [by left|by right; right].
  - intros [->|[->|Hal]]; apply Hal2; [right|by left|right];
      apply (getAlias_aliased _ _ _ _ _ Hj1); [by left|by right].
Qed.

(** What every resolution does, whatever the kind of the association: new
    associations only, the existing ones and the existing aliases kept. *)
Lemma resolve_association_frame this st lastFk f per this' st' d lastFk' :
  resolve_association this st lastFk f per = Some (this', st', d, lastFk') →
  (∀ l, aliased this (Some l) → l ∈ dom st) →
  (f ≠ 0 → aliased this lastFk) →
  st ⊆ st' ∧ st !! d = None ∧
  same_but_bag this this' ∧
  bag (joinBag this) ⊆ bag (joinBag this') ∧
  (∀ l, aliased this' (Some l) → l ∈ dom st') ∧
  (∀ key, aliased this' key → ¬ aliased this key → ∃ l, key = Some l ∧ st !! l = None) ∧
  reuse_association st' d = Some lastFk' ∧ aliased this' lastFk'.
Proof.
  intros Hrun Hbag Hlast.
  assert (∃ base, st !! Base per = Some base) as [base Hbase].
  { unfold resolve_association in Hrun.
    destruct (Association_Clone st (Base per)) as [[st1 d1]|] eqn:Hclone; [|done].
    destruct (Association_Clone_spec _ _ _ _ Hclone) as (a & Ha & _). by exists a. }
  destruct (IsMany2Many base) eqn:Hmany.
  - destruct (resolve_association_many2many _ _ _ _ _ _ _ _ _ _ Hrun Hbag Hlast Hbase Hmany)
      as (origin & junction & dest & bf & bt & fa & ta & fromFk & toFk & _ & _ & _ & _ & _
          & _ & _ & Hd & Hf & Ht & Hft & Hdf & Hdt & -> & -> & Hsame & Hkf & Hkt & Hsub & Hal).
    split; [|split; [done|]]; [|split; [done|]]; [|split; [done|]]; [|split; [|split; [|split]]].
    + apply map_subseteq_spec. intros k x Hk.
      rewrite !lookup_insert_ne; [done|..]; intros <-; congruence.
    + intros l [[= ->]|[[= ->]|Hl]]%Hal; rewrite !dom_insert_L; [set_solver..|].
      apply Hbag in Hl. set_solver.
    + intros key [->|[->|?]]%Hal Hnot; [by eexists..|done].
    + unfold reuse_association.
      rewrite lookup_insert_ne, lookup_insert_ne, lookup_insert_eq by done. done.
    + by eexists.
  - destruct (resolve_association_single _ _ _ _ _ _ _ _ _ _ Hrun Hbag Hlast Hbase Hmany)
      as (origin & dest & _ & _ & _ & Hd & -> & -> & Hsame & Hkd & Hsub & Hal).
    split; [by apply insert_subseteq|]. split; [done|]. split; [done|]. split; [done|].
    split; [|split; [|split]].
    + intros l [[= ->]|Hl]%Hal; rewrite dom_insert_L; [set_solver|].
      apply Hbag in Hl. set_solver.
    + intros key [->|?]%Hal Hnot; [by eexists|done].
    + unfold reuse_association. rewrite lookup_insert_eq. cbn.
      by rewrite IsMany2Many_stamped, Hmany.
    + by eexists.
Qed.

(** ** The loop of [addJoin] *)

Lemma lookup_cached_spec common ps m f b r m' :
  lookup_cached common ps m f b = Some (r, m') →
  (m = true ∧ m' = true ∧
   ∃ cf cfr, common !! f = Some cf ∧ ps !! cf = Some cfr ∧ Base cfr = b ∧ r = Derived cfr)
  ∨ (r = None ∧ m' = false ∧
     (m = false ∨ length common ≤ f ∨
      ∃ cf cfr, common !! f = Some cf ∧ ps !! cf = Some cfr ∧ Base cfr ≠ b)).
Proof.
  unfold lookup_cached. intros Hrun.
  destruct m; simpl in Hrun; [|inversion Hrun; subst; right; by eauto].
  destruct (bool_decide (f < length common)) eqn:Hf; simpl in Hrun.
  - destruct (common !! f) as [cf|] eqn:Hcf; simpl in Hrun; [|done].
    destruct (ps !! cf) as [cfr|] eqn:Hcfr; simpl in Hrun; [|done].
    unfold Association_Equals in Hrun. destruct (bool_decide (Base cfr = b)) eqn:Heq.
    + apply bool_decide_eq_true in Heq. inversion Hrun; subst. left. eauto 10.
    + apply bool_decide_eq_false in Heq. inversion Hrun; subst. right. eauto 10.
  - apply bool_decide_eq_false in Hf. inversion Hrun; subst. right.
    split; [done|]. split; [done|]. right. left. lia.
Qed.

Lemma reuse_association_weaken (st st' : astore) d lastFk :
  st ⊆ st' → reuse_association st d = Some lastFk → reuse_association st' d = Some lastFk.
Proof.
  unfold reuse_association. intros Hsub Hrun.
  destruct (st !! d) as [a|] eqn:Hd; [|done].
  by rewrite (lookup_weaken _ _ _ _ Hd Hsub).
Qed.

Lemma resolved_weaken this st ps this' st' ps' cf :
  resolved this st ps cf →
  st ⊆ st' → bag (joinBag this) ⊆ bag (joinBag this') → ps' !! cf = ps !! cf →
  resolved this' st' ps' cf.
Proof.
  intros (per & d & lastFk & Hper & Hd & Hreuse & [a Ha]) Hst Hbag Hps.
  exists per, d, lastFk. rewrite Hps. split; [done|]. split; [done|].
  split; [by eapply reuse_association_weaken|].
  exists a. by eapply lookup_weaken.
Qed.

Lemma aj_mono_refl s : aj_mono s s.
Proof.
  split; [done|]. split; [apply same_but_bag_refl|]. split; [done|].
  intros key ? ?. done.
Qed.

Lemma aj_mono_trans s1 s2 s3 : aj_mono s1 s2 → aj_mono s2 s3 → aj_mono s1 s3.
Proof.
  intros (Hst12 & Hsame12 & Hbag12 & Hnew12) (Hst23 & Hsame23 & Hbag23 & Hnew23).
  split; [by etrans|]. split; [by eapply same_but_bag_trans|]. split; [by etrans|].
  intros key H3 H1. destruct (decide (aliased (aj_this s2) key)) as [H2|H2].
  - by apply Hnew12.
  - destruct (Hnew23 key H3 H2) as (l & -> & Hl). exists l. split; [done|].
    destruct (aj_assocs s1 !! l) as [a|] eqn:Ha; [|done].
    by rewrite (lookup_weaken _ _ _ _ Ha Hst12) in Hl.
Qed.

(** One iteration, in full: the element gets a derived association, which
    is either the cached one at the same position (nothing else changes) or
    a new clone. *)
Lemma addJoin_step_spec common s pe s' :
  addJoin_step common s pe = Some s' →
  ∃ per d,
    aj_paths s !! pe = Some per ∧
    aj_paths s' = <[pe := set_Derived per (Some d)]> (aj_paths s) ∧
    aj_f s' = S (aj_f s) ∧ aj_local s' = aj_local s ++ [pe] ∧
    ((aj_matches s = true ∧ aj_matches s' = true ∧
      (∃ cf cfr, common !! aj_f s = Some cf ∧ aj_paths s !! cf = Some cfr ∧
                 Base cfr = Base per ∧ Derived cfr = Some d) ∧
      aj_this s' = aj_this s ∧ aj_assocs s' = aj_assocs s ∧
      reuse_association (aj_assocs s) d = Some (aj_lastFk s'))
     ∨
     (resolve_association (aj_this s) (aj_assocs s) (aj_lastFk s) (aj_f s) per
        = Some (aj_this s', aj_assocs s', d, aj_lastFk s') ∧
      (aj_matches s' = true →
       aj_matches s = true ∧
       ∃ cf cfr, common !! aj_f s = Some cf ∧ aj_paths s !! cf = Some cfr ∧
                 Base cfr = Base per ∧ Derived cfr = None) ∧
      (aj_matches s' = false →
       aj_matches s = false ∨ ¬ matches_at common (aj_paths s) (aj_f s) per))).
Proof.
  unfold addJoin_step. intros Hrun.
  destruct (aj_paths s !! pe) as [per|] eqn:Hper; cbn in Hrun; [|done].
  destruct (lookup_cached _ _ _ _ _) as [[r m']|] eqn:Hlook; cbn in Hrun; [|done].
  apply lookup_cached_spec in Hlook.
  destruct r as [c|].
  - destruct (reuse_association (aj_assocs s) c) as [lastFk|] eqn:Hreuse; cbn in Hrun; [|done].
    inversion Hrun; subst s'; simpl. clear Hrun.
    exists per, c. split; [done|]. split; [done|]. split; [done|]. split; [done|]. left.
    destruct Hlook as [(Hm & -> & cf & cfr & Hcf & Hcfr & Hb & Hd)|(? & _)]; [|done].
    split; [done|]. split; [done|]. split; [by exists cf, cfr|]. done.
  - destruct (resolve_association _ _ _ _ _) as [[[[this1 st1] d] lastFk]|] eqn:Hres;
      cbn in Hrun; [|done].
    inversion Hrun; subst s'; simpl. clear Hrun.
    exists per, d. split; [done|]. split; [done|]. split; [done|]. split; [done|]. right.
    split; [done|].
    destruct Hlook as [(Hm & -> & cf & cfr & Hcf & Hcfr & Hb & Hd)|(_ & -> & Hwhy)].
    + split; [|done]. intros _. split; [done|]. by exists cf, cfr.
    + split; [done|]. intros _.
      destruct Hwhy as [?|[Hlen|(cf & cfr & Hcf & Hcfr & Hb)]]; [by left|right..].
      * intros (cf & cfr & Hcf & _). apply lookup_lt_Some in Hcf. lia.
      * intros (cf' & cfr' & Hcf' & Hcfr' & Hb'). congruence.
Qed.

(** One iteration keeps the invariant and moves the stores monotonically. *)
Lemma addJoin_step_inv common s pe s' :
  addJoin_step common s pe = Some s' → aj_inv common s → pe ∉ common →
  aj_inv common s' ∧ aj_mono s s'.
Proof.
  intros Hrun (Hbag & Hlast & Hres & _) Hpe.
  destruct (addJoin_step_spec _ _ _ _ Hrun)
    as (per & d & Hper & Hps & Hf & Hloc & [Hreuse|Hresolve]).
  - destruct Hreuse as (Hm & Hm' & (cf & cfr & Hcf & Hcfr & Hb & Hd) & Hthis & Hst & Hlf).
    assert (Hcfin : cf ∈ common) by (apply list_elem_of_lookup; eauto).
    split.
    + unfold aj_inv. rewrite Hthis, Hst, Hps, Hloc, last_snoc. split; [done|].
      split; [|split].
      * intros _. destruct (Hres cf Hcfin) as (per0 & d0 & lf0 & Hper0 & Hd0 & Hlf0 & Hal0).
        rewrite Hcfr in Hper0. inversion Hper0; subst per0.
        rewrite Hd in Hd0. inversion Hd0; subst d0.
        rewrite Hlf in Hlf0. by inversion Hlf0; subst lf0.
      * intros c Hc. eapply resolved_weaken; [by apply Hres|done|done|].
        apply lookup_insert_ne. by intros <-.
      * intros _. eexists pe, _, d. split; [done|]. by rewrite lookup_insert_eq.
    + unfold aj_mono. rewrite Hthis, Hst. apply aj_mono_refl.
  - destruct Hresolve as (Hrun' & _).
    destruct (resolve_association_frame _ _ _ _ _ _ _ _ _ Hrun' Hbag Hlast)
      as (Hst & Hd & Hsame & Hsub & Hbag' & Hnew & Hlf & Hal).
    split; [|done]. split; [done|]. split; [done|]. split.
    + intros c Hc. eapply resolved_weaken; [by apply Hres|done|done|].
      rewrite Hps. apply lookup_insert_ne. by intros <-.
    + intros _. rewrite Hps, Hloc, last_snoc. eexists pe, _, d.
      split; [done|]. by rewrite lookup_insert_eq.
Qed.

(** The whole loop, from any iteration on. *)
Lemma addJoin_loop_inv common : ∀ todo s s',
  foldM (addJoin_step common) s todo = Some s' →
  aj_inv common s → (∀ pe, pe ∈ todo → pe ∉ common) →
  aj_inv common s' ∧ aj_mono s s' ∧
  aj_f s' = aj_f s + length todo ∧ aj_local s' = aj_local s ++ todo ∧
  (∀ q, q ∉ todo → aj_paths s' !! q = aj_paths s !! q) ∧
  (∀ q per', aj_paths s' !! q = Some per' →
     ∃ per, aj_paths s !! q = Some per ∧ per' = set_Derived per (Derived per')).
Proof.
  induction todo as [|pe todo IH]; intros s s' Hrun Hinv Hdisj; simpl in Hrun.
  - inversion Hrun; subst. split; [done|]. split; [apply aj_mono_refl|].
    split; [simpl; lia|]. split; [by rewrite app_nil_r|]. split; [done|].
    intros q per' Hq. exists per'. split; [done|]. by destruct per'.
  - destruct (addJoin_step common s pe) as [s1|] eqn:Hstep; simpl in Hrun; [|done].
    destruct (addJoin_step_inv _ _ _ _ Hstep Hinv) as [Hinv1 Hmono1].
    { apply Hdisj. by left. }
    destruct (addJoin_step_spec _ _ _ _ Hstep) as (per & d & Hper & Hps & Hf & Hloc & _).
    destruct (IH _ _ Hrun Hinv1) as (Hinv' & Hmono' & Hf' & Hloc' & Hframe & Hshape).
    { intros q Hq. apply Hdisj. by right. }
    split; [done|]. split; [by eapply aj_mono_trans|]. split; [simpl; lia|].
    split; [by rewrite Hloc', Hloc, <- app_assoc|]. split.
    + intros q Hq. apply not_elem_of_cons in Hq as [Hne Hq].
      rewrite Hframe, Hps by done. by apply lookup_insert_ne.
    + intros q per' Hq. destruct (Hshape q per' Hq) as (per1 & Hq1 & Heq).
      rewrite Hps in Hq1. destruct (decide (pe = q)) as [<-|Hne].
      * rewrite lookup_insert_eq in Hq1. inversion Hq1; subst per1.
        exists per. split; [done|]. by rewrite Heq.
      * rewrite lookup_insert_ne in Hq1 by done. by exists per1.
Qed.


(** *** The flag [matches] *)

Lemma same_base_store_refl ps : same_base_store ps ps.
Proof. by intros q. Qed.

Lemma same_base_store_trans ps1 ps2 ps3 :
  same_base_store ps1 ps2 → same_base_store ps2 ps3 → same_base_store ps1 ps3.
Proof. intros H12 H23 q. by rewrite H23, H12. Qed.

Lemma same_base_store_insert (ps : pstore) pe per d :
  ps !! pe = Some per → same_base_store ps (<[pe := set_Derived per d]> ps).
Proof.
  intros Hpe q. destruct (decide (pe = q)) as [<-|Hne].
  - by rewrite lookup_insert_eq, Hpe.
  - by rewrite lookup_insert_ne.
Qed.

Lemma matches_at_same_base common ps ps' f per per' :
  same_base_store ps ps' → Base per' = Base per →
  matches_at common ps' f per' ↔ matches_at common ps f per.
Proof.
  intros Hsame Hb. unfold matches_at. rewrite Hb. split.
  - intros (cf & cfr & Hcf & Hcfr & Heq). specialize (Hsame cf). rewrite Hcfr in Hsame.
    destruct (ps !! cf) as [cfr0|] eqn:Hcfr0; [|done]. inversion Hsame.
    exists cf, cfr0. split; [done|]. split; [done|]. congruence.
  - intros (cf & cfr & Hcf & Hcfr & Heq). specialize (Hsame cf). rewrite Hcfr in Hsame.
    destruct (ps' !! cf) as [cfr0|] eqn:Hcfr0; [|done]. inversion Hsame.
    exists cf, cfr0. split; [done|]. split; [done|]. congruence.
Qed.

(** After an iteration [matches] holds exactly when it held before and the
    cached element at the position of the element follows the same
    association. *)
Lemma addJoin_step_matches common s pe s' :
  addJoin_step common s pe = Some s' →
  ∃ per, aj_paths s !! pe = Some per ∧ same_base_store (aj_paths s) (aj_paths s') ∧
    aj_f s' = S (aj_f s) ∧
    (aj_matches s' = true ↔
     aj_matches s = true ∧ matches_at common (aj_paths s) (aj_f s) per).
Proof.
  intros Hrun.
  destruct (addJoin_step_spec _ _ _ _ Hrun)
    as (per & d & Hper & Hps & Hf & Hloc & Hcases).
  exists per. split; [done|]. split; [rewrite Hps; by apply same_base_store_insert|].
  split; [done|].
  destruct Hcases as [(Hm & Hm' & (cf & cfr & Hcf & Hcfr & Hb & Hd) & _)
                     |(_ & Htrue & Hfalse)].
  - split; [|done]. intros _. split; [done|]. by exists cf, cfr.
  - destruct (aj_matches s') eqn:Hm'.
    + split; [|done]. intros _. destruct (Htrue eq_refl) as (Hm & cf & cfr & ? & ? & ? & _).
      split; [done|]. by exists cf, cfr.
    + split; [done|]. intros [Hm Hat]. destruct (Hfalse eq_refl); [congruence|done].
Qed.

Lemma addJoin_loop_matches common : ∀ todo s s',
  foldM (addJoin_step common) s todo = Some s' →
  same_base_store (aj_paths s) (aj_paths s') ∧
  (aj_matches s' = true ↔
   aj_matches s = true ∧
   ∀ j pe, todo !! j = Some pe →
     ∃ per, aj_paths s !! pe = Some per ∧
       matches_at common (aj_paths s) (aj_f s + j) per).
Proof.
  induction todo as [|pe todo IH]; intros s s' Hrun; simpl in Hrun.
  - inversion Hrun; subst. split; [apply same_base_store_refl|].
    split; [|by intros [? _]]. intros ?. split; [done|]. intros j pe Hj. by destruct j.
  - destruct (addJoin_step common s pe) as [s1|] eqn:Hstep; simpl in Hrun; [|done].
    destruct (addJoin_step_matches _ _ _ _ Hstep) as (per & Hper & Hsame1 & Hf1 & Hm1).
    destruct (IH _ _ Hrun) as (Hsame2 & Hm2).
    split; [by eapply same_base_store_trans|].
    rewrite Hm2, Hm1. split.
    + intros [[Hm Hat] Hrest]. split; [done|]. intros [|j] pe' Hj; simpl in Hj.
      * inversion Hj; subst pe'. exists per. rewrite Nat.add_0_r. done.
      * destruct (Hrest j pe' Hj) as (per1 & Hper1 & Hat1).
        assert (Hb := Hsame1 pe'). rewrite Hper1 in Hb.
        destruct (aj_paths s !! pe') as [per0|] eqn:Hper0; [|done].
        exists per0. split; [done|]. inversion Hb as [Hbase].
        rewrite Hf1 in Hat1. replace (aj_f s + S j) with (S (aj_f s) + j) by lia.
        by apply (matches_at_same_base common (aj_paths s) (aj_paths s1) _ per0 per1).
    + intros [Hm Hall]. split.
      * split; [done|]. destruct (Hall 0 pe eq_refl) as (per0 & Hper0 & Hat).
        rewrite Nat.add_0_r in Hat. congruence.
      * intros j pe' Hj. destruct (Hall (S j) pe' Hj) as (per0 & Hper0 & Hat).
        assert (Hb := Hsame1 pe'). rewrite Hper0 in Hb.
        destruct (aj_paths s1 !! pe') as [per1|] eqn:Hper1; [|done].
        exists per1. split; [done|]. inversion Hb as [Hbase].
        rewrite Hf1. replace (aj_f s + S j) with (S (aj_f s) + j) in Hat by lia.
        by apply (matches_at_same_base common (aj_paths s) (aj_paths s1) _ per0 per1).
Qed.

(** ** The deepest common path *)

Lemma common_prefix_lookup ps : ∀ c a j cf,
  common_prefix ps c a !! j = Some cf →
  c !! j = Some cf ∧
  ∃ pe cfr per, a !! j = Some pe ∧ ps !! cf = Some cfr ∧ ps !! pe = Some per ∧
    Base cfr = Base per.
Proof.
  induction c as [|c0 c IH]; intros [|a0 a] j cf Hj; simpl in Hj; try done.
  destruct (ps !! c0) as [pc|] eqn:Hc0; [|done].
  destruct (ps !! a0) as [pa|] eqn:Ha0; [|done].
  unfold Association_Equals in Hj.
  destruct (bool_decide (Base pc = Base pa)) eqn:Heq; [|done].
  apply bool_decide_eq_true in Heq. destruct j as [|j]; simpl in Hj.
  - inversion Hj; subst cf. split; [done|]. by exists a0, pc, pa.
  - simpl. by apply IH.
Qed.

Lemma common_prefix_max ps : ∀ c a k,
  same_bases ps a c k → k ≤ length (common_prefix ps c a).
Proof.
  induction c as [|c0 c IH]; intros a k Hsame.
  - destruct k as [|k]; [simpl; lia|].
    destruct (Hsame 0) as (? & ? & ? & ? & _ & Hc & _); [lia|done].
  - destruct k as [|k]; [lia|].
    destruct (Hsame 0) as (pe1 & pe2 & per1 & per2 & Ha & Hc & Hp1 & Hp2 & Hb); [lia|].
    destruct a as [|a0 a]; [done|]. simpl in Ha, Hc. inversion Ha; inversion Hc; subst.
    simpl. rewrite Hp1, Hp2. unfold Association_Equals.
    rewrite bool_decide_eq_true_2 by done. simpl. apply le_n_S. apply IH.
    intros f Hf. destruct (Hsame (S f)) as (q1 & q2 & r1 & r2 & ? & ? & ? & ? & ?); [lia|].
    by exists q1, q2, r1, r2.
Qed.

Lemma DeepestCommonPath_fold ps a : ∀ cache acc,
  let r := foldl (λ common cached,
                    let temp := common_prefix ps cached a in
                    if decide (length (slice_list common) < length temp)
                    then Some temp else common) acc cache in
  (r = acc ∨ ∃ c, c ∈ cache ∧ r = Some (common_prefix ps c a)) ∧
  length (slice_list acc) ≤ length (slice_list r) ∧
  ∀ c, c ∈ cache → length (common_prefix ps c a) ≤ length (slice_list r).
Proof.
  induction cache as [|c0 cache IH]; intros acc; simpl.
  - split; [by left|]. split; [done|]. intros c Hc. by apply elem_of_nil in Hc.
  - specialize (IH (if decide (length (slice_list acc) < length (common_prefix ps c0 a))
                    then Some (common_prefix ps c0 a) else acc)).
    simpl in IH. destruct IH as (Hr & Hlen & Hall).
    destruct (decide (length (slice_list acc) < length (common_prefix ps c0 a))) as [Hlt|Hge].
    + split; [|split].
      * right. destruct Hr as [->|(c & Hc & ->)]; [exists c0|exists c];
          (split; [|done]); [by left|by right].
      * simpl in Hlen. lia.
      * intros c [->|Hc]%elem_of_cons; [done|by apply Hall].
    + split; [|split; [done|]].
      * destruct Hr as [->|(c & Hc & ->)]; [by left|]. right. exists c.
        split; [by right|done].
      * intros c [->|Hc]%elem_of_cons; [lia|by apply Hall].
Qed.

Lemma DeepestCommonPath_spec ps cache a :
  (DeepestCommonPath ps cache a = None ∨
   ∃ c, c ∈ cache ∧ DeepestCommonPath ps cache a = Some (common_prefix ps c a)) ∧
  ∀ c, c ∈ cache →
    length (common_prefix ps c a) ≤ length (slice_list (DeepestCommonPath ps cache a)).
Proof.
  destruct (DeepestCommonPath_fold ps a cache None) as (Hr & _ & Hall). done.
Qed.

(** The deepest common path covers the [f]-th element of the requested path
    exactly when some cached path follows the same associations as the
    requested path up to that element. *)
Lemma DeepestCommonPath_covers ps cache a n :
  0 < n → n ≤ length a →
  (∃ c, c ∈ cache ∧ same_bases ps a c n) ↔
  (∀ j pe, j < n → a !! j = Some pe →
     ∃ per, ps !! pe = Some per ∧
       matches_at (slice_list (DeepestCommonPath ps cache a)) ps j per).
Proof.
  intros Hn Hna. destruct (DeepestCommonPath_spec ps cache a) as [Hr Hmax]. split.
  - intros (c & Hc & Hsame) j pe Hj Hpe.
    assert (Hlen := Hmax c Hc). assert (Hk := common_prefix_max ps c a n Hsame).
    destruct Hr as [Hnone|(c' & Hc' & Hsome)].
    { rewrite Hnone in Hlen. simpl in Hlen. lia. }
    rewrite Hsome in *. simpl in *.
    destruct (lookup_lt_is_Some_2 (common_prefix ps c' a) j) as [cf Hcf]; [lia|].
    destruct (common_prefix_lookup _ _ _ _ _ Hcf) as (_ & pe' & cfr & per & Hpe' & ? & ? & ?).
    rewrite Hpe in Hpe'. inversion Hpe'; subst pe'.
    exists per. split; [done|]. by exists cf, cfr.
  - intros Hall.
    destruct (lookup_lt_is_Some_2 a 0) as [pe0 Hpe0]; [lia|].
    destruct (Hall 0 pe0 Hn Hpe0) as (per0 & _ & cf0 & cfr0 & Hcf0 & _).
    destruct Hr as [Hnone|(c & Hc & Hsome)].
    { rewrite Hnone in Hcf0. done. }
    exists c. split; [done|]. intros f Hf.
    destruct (lookup_lt_is_Some_2 a f) as [pe Hpe]; [lia|].
    destruct (Hall f pe Hf Hpe) as (per & Hper & cf & cfr & Hcf & Hcfr & Hb).
    rewrite Hsome in Hcf. simpl in Hcf.
    destruct (common_prefix_lookup _ _ _ _ _ Hcf) as (Hcc & _).
    by exists pe, cf, per, cfr.
Qed.

(** ** The session fields [addJoin] leaves alone *)

Lemma destination_same_but_bag this fk pref this' dest :
  (if decide (pref = "") then getAlias this fk else (setAlias this fk pref, pref))
    = (this', dest) →
  same_but_bag this this'.
Proof.
  destruct (decide (pref = "")); intros Hrun.
  - by apply getAlias_spec in Hrun as [? _].
  - inversion Hrun; subst. apply same_but_bag_set.
Qed.

Lemma resolve_association_same_but_bag this st lastFk f per this' st' d lastFk' :
  resolve_association this st lastFk f per = Some (this', st', d, lastFk') →
  same_but_bag this this'.
Proof.
  unfold resolve_association. intros Hrun.
  destruct (Association_Clone _ _) as [[st1 d1]|]; cbn in Hrun; [|done].
  destruct (if decide (f = 0) then _ else _) as [this0 origin] eqn:H0.
  assert (same_but_bag this this0) as Hs0.
  { destruct (decide (f = 0)); [inversion H0; apply same_but_bag_refl|].
    by apply getAlias_spec in H0 as [? _]. }
  destruct (st1 !! d1) as [a|]; cbn in Hrun; [|done].
  destruct (IsMany2Many a).
  - destruct (getAlias this0 (FromM2M a)) as [this1 j1] eqn:H1.
    destruct (prepareAssociation _ _ _ (FromM2M a)) as [st2|]; cbn in Hrun; [|done].
    destruct (if decide (PreferredAlias per = "") then _ else _) as [this2 dest] eqn:H2.
    destruct (getAlias this2 (FromM2M a)) as [this3 j3] eqn:H3.
    destruct (prepareAssociation _ _ _ (ToM2M a)) as [st3|]; cbn in Hrun; [|done].
    inversion Hrun; subst. clear Hrun.
    apply getAlias_spec in H1 as [? _]. apply destination_same_but_bag in H2.
    apply getAlias_spec in H3 as [? _].
    eapply same_but_bag_trans; [done|]. eapply same_but_bag_trans; [done|].
    by eapply same_but_bag_trans.
  - destruct (if decide (PreferredAlias per = "") then _ else _) as [this2 dest] eqn:H2.
    destruct (prepareAssociation _ _ _ _) as [st2|]; cbn in Hrun; [|done].
    inversion Hrun; subst. clear Hrun. apply destination_same_but_bag in H2.
    by eapply same_but_bag_trans.
Qed.

Lemma addJoin_loop_basic common : ∀ todo s s',
  foldM (addJoin_step common) s todo = Some s' →
  aj_local s' = aj_local s ++ todo ∧ aj_f s' = aj_f s + length todo ∧
  same_but_bag (aj_this s) (aj_this s').
Proof.
  induction todo as [|pe todo IH]; intros s s' Hrun; simpl in Hrun.
  - inversion Hrun; subst. rewrite app_nil_r. split; [done|]. split; [simpl; lia|].
    apply same_but_bag_refl.
  - destruct (addJoin_step common s pe) as [s1|] eqn:Hstep; simpl in Hrun; [|done].
    destruct (addJoin_step_spec _ _ _ _ Hstep) as (per & d & _ & _ & Hf & Hloc & Hcases).
    destruct (IH _ _ Hrun) as (Hloc' & Hf' & Hsame').
    split; [by rewrite Hloc', Hloc, <- app_assoc|]. split; [simpl; lia|].
    eapply same_but_bag_trans; [|done].
    destruct Hcases as [(_ & _ & _ & -> & _)|(Hres & _)]; [apply same_but_bag_refl|].
    by eapply resolve_association_same_but_bag.
Qed.

(** ** The cache of traversed paths *)

(** When [addJoin] appends to the cache, and what. *)
Lemma addJoin_cache_append_facts this st ps (associations : list loc) fetch this' st' ps' local :
  addJoin this st ps associations None fetch = Some (this', st', ps', local) →
  associations ≠ [] →
  local = associations ∧
  (((∃ c, c ∈ cachedAssociation this ∧
          same_bases ps associations c (length associations)) ∧
    cachedAssociation this' = cachedAssociation this)
   ∨
   ((¬ ∃ c, c ∈ cachedAssociation this ∧
            same_bases ps associations c (length associations)) ∧
    cachedAssociation this' = cachedAssociation this ++ [associations])).
Proof.
  unfold addJoin. intros Hrun Hne.
  destruct (foldM _ _ associations) as [s|] eqn:Hloop; cbn in Hrun; [|done].
  destruct (getAlias (aj_this s) (aj_lastFk s)) as [this1 lastAlias] eqn:Hget.
  inversion Hrun; subst this' st' ps' local. clear Hrun. simpl.
  destruct (addJoin_loop_basic _ _ _ _ Hloop) as (Hloc & _ & Hsame). simpl in *.
  destruct (addJoin_loop_matches _ _ _ _ Hloop) as (_ & Hm). simpl in Hm.
  apply getAlias_spec in Hget as (Hsame1 & _).
  assert (Hcache : cachedAssociation this1 = cachedAssociation this).
  { rewrite Hsame1, Hsame. done. }
  assert (Hcache0 : cachedAssociation (aj_this s) = cachedAssociation this).
  { rewrite Hsame. done. }
  split; [done|].
  assert (Hlen : 0 < length associations) by (destruct associations; [done|simpl; lia]).
  assert (Hcov := DeepestCommonPath_covers ps (cachedAssociation this) associations
                    (length associations) Hlen (le_n _)).
  destruct (aj_matches s) eqn:Hmatch.
  - left. split; [|done].
    apply Hcov. intros j pe Hj Hpe. destruct Hm as [Hm _].
    by destruct (Hm eq_refl) as [_ Hall]; apply Hall.
  - right. rewrite Hcache0, Hloc. split; [|done].
    intros Hex. destruct Hcov as [Hcov _]. specialize (Hcov Hex). destruct Hm as [_ Hm].
    assert (false = true); [|done]. apply Hm. split; [done|].
    intros j pe Hpe. apply Hcov; [|done]. by eapply lookup_lt_Some.
Qed.

(** ** Reuse of the cached prefix *)

(** When [matches] still holds after the loop, every iteration has reused a
    cached derived association: no association and no alias was added. *)
Lemma addJoin_loop_reuse common : ∀ todo s s',
  foldM (addJoin_step common) s todo = Some s' →
  aj_inv common s → (∀ pe, pe ∈ todo → pe ∉ common) →
  aj_matches s' = true →
  aj_assocs s' = aj_assocs s ∧ aj_this s' = aj_this s.
Proof.
  induction todo as [|pe todo IH]; intros s s' Hrun Hinv Hdisj Hm; simpl in Hrun.
  - by inversion Hrun; subst.
  - destruct (addJoin_step common s pe) as [s1|] eqn:Hstep; simpl in Hrun; [|done].
    destruct (addJoin_step_inv _ _ _ _ Hstep Hinv) as [Hinv1 _]; [apply Hdisj; by left|].
    destruct (IH _ _ Hrun Hinv1) as [Hst Hthis]; [intros q Hq; apply Hdisj; by right|done|].
    destruct (addJoin_loop_matches _ _ _ _ Hrun) as (_ & [Hm1 _]).
    destruct (Hm1 Hm) as [Hm1' _].
    destruct (addJoin_step_spec _ _ _ _ Hstep)
      as (per & d & _ & _ & _ & _ & [(_ & _ & _ & Hthis1 & Hst1 & _)|(_ & Htrue & _)]).
    + by rewrite Hst, Hthis, Hst1, Hthis1.
    + destruct (Htrue Hm1') as (_ & cf & cfr & Hcf & Hcfr & _ & Hnone).
      destruct Hinv as (_ & _ & Hres & _).
      destruct (Hres cf) as (per0 & d0 & ? & Hper0 & Hd0 & _).
      { apply list_elem_of_lookup. eauto. }
      congruence.
Qed.

(** The iteration that handles the [f]-th element, with what holds before
    and after it. *)
Lemma addJoin_loop_zoom common associations s0 s f pe :
  foldM (addJoin_step common) s0 associations = Some s →
  aj_inv common s0 → (∀ q, q ∈ associations → q ∉ common) → NoDup associations →
  associations !! f = Some pe →
  ∃ s1 s2 per,
    foldM (addJoin_step common) s0 (take f associations) = Some s1 ∧
    addJoin_step common s1 pe = Some s2 ∧
    aj_inv common s1 ∧ aj_mono s0 s1 ∧ aj_mono s2 s ∧ aj_mono s1 s2 ∧
    aj_f s1 = aj_f s0 + f ∧
    aj_paths s0 !! pe = Some per ∧ aj_paths s1 !! pe = Some per ∧
    (∀ q, q ∈ common → aj_paths s1 !! q = aj_paths s0 !! q) ∧
    same_base_store (aj_paths s0) (aj_paths s1) ∧
    aj_paths s !! pe = aj_paths s2 !! pe ∧
    (∀ q, q ∈ take f associations → aj_paths s !! q = aj_paths s1 !! q).
Proof.
  intros Hrun Hinv Hdisj Hnd Hpe.
  rewrite <- (take_drop_middle _ _ _ Hpe) in Hrun, Hnd.
  rewrite foldM_app in Hrun.
  destruct (foldM _ s0 (take f associations)) as [s1|] eqn:Hpre; simpl in Hrun; [|done].
  destruct (addJoin_step common s1 pe) as [s2|] eqn:Hstep; simpl in Hrun; [|done].
  apply NoDup_app in Hnd as (Hnd1 & Hnd12 & Hnd2). apply NoDup_cons in Hnd2 as [Hpost Hnd2].
  assert (Hin : ∀ q, q ∈ take f associations → q ∈ associations).
  { intros q Hq. rewrite <- (take_drop f associations). apply elem_of_app. by left. }
  assert (Hin' : ∀ q, q ∈ drop (S f) associations → q ∈ associations).
  { intros q Hq. rewrite <- (take_drop (S f) associations). apply elem_of_app. by right. }
  destruct (addJoin_loop_inv _ _ _ _ Hpre Hinv)
    as (Hinv1 & Hmono1 & Hf1 & _ & Hframe1 & Hshape1); [intros q Hq; by apply Hdisj, Hin|].
  destruct (addJoin_loop_matches _ _ _ _ Hpre) as (Hsame1 & _).
  destruct (addJoin_step_inv _ _ _ _ Hstep Hinv1) as [Hinv2 Hmono2].
  { apply Hdisj. apply list_elem_of_lookup. eauto. }
  destruct (addJoin_loop_inv _ _ _ _ Hrun Hinv2)
    as (Hinv' & Hmono' & _ & _ & Hframe' & _); [intros q Hq; by apply Hdisj, Hin'|].
  destruct (addJoin_step_spec _ _ _ _ Hstep) as (per & d & Hper & Hps2 & _).
  assert (Hpe1 : pe ∉ take f associations).
  { intros Hq. apply (Hnd12 pe Hq). by left. }
  exists s1, s2, per. split; [done|]. split; [done|]. split; [done|]. split; [done|].
  split; [done|]. split; [done|].
  rewrite length_take in Hf1. apply lookup_lt_Some in Hpe as Hlt.
  split; [lia|]. split; [by rewrite <- Hframe1|]. split; [done|].
  split; [intros q Hq; apply Hframe1; intros Hq'; by apply (Hdisj q (Hin q Hq'))|].
  split; [done|]. split; [by apply Hframe'|].
  intros q Hq. rewrite Hframe', Hps2.
  - apply lookup_insert_ne. intros <-. done.
  - intros Hq'. apply (Hnd12 q Hq). by right.
Qed.

Lemma addJoin_unfold this st ps associations fetch this' st' ps' local :
  addJoin this st ps associations None fetch = Some (this', st', ps', local) →
  ∃ s this1 a,
    foldM (addJoin_step (slice_list (DeepestCommonPath ps (cachedAssociation this)
                                       associations)))
          (mkAddJoinState this st ps None true 0 []) associations = Some s ∧
    st' = aj_assocs s ∧ ps' = aj_paths s ∧ local = aj_local s ∧
    getAlias (aj_this s) (aj_lastFk s) = (this1, a) ∧
    joinBag this' = joinBag this1 ∧ tableAlias this' = tableAlias this1 ∧
    lastFkAlias this' = a ∧
    lastJoin this' = Some (NewJoin (aj_local s) fetch) ∧
    joins this' = joins this1 ++ [NewJoin (aj_local s) fetch].
Proof.
  unfold addJoin. intros Hrun.
  destruct (foldM _ _ associations) as [s|] eqn:Hloop; cbn in Hrun; [|done].
  destruct (getAlias (aj_this s) (aj_lastFk s)) as [this1 a] eqn:Hget.
  inversion Hrun; subst. by exists s, this1, a.
Qed.

Lemma common_in_cache ps cache a j cf :
  slice_list (DeepestCommonPath ps cache a) !! j = Some cf →
  ∃ c pe cfr per,
    c ∈ cache ∧ c !! j = Some cf ∧ a !! j = Some pe ∧
    ps !! cf = Some cfr ∧ ps !! pe = Some per ∧ Base cfr = Base per ∧
    DeepestCommonPath ps cache a = Some (common_prefix ps c a).
Proof.
  intros Hj. destruct (DeepestCommonPath_spec ps cache a) as [[Hnone|(c & Hc & Hsome)] _].
  - by rewrite Hnone in Hj.
  - rewrite Hsome in Hj. simpl in Hj.
    destruct (common_prefix_lookup _ _ _ _ _ Hj) as (Hcj & pe & cfr & per & ? & ? & ? & ?).
    by exists c, pe, cfr, per.
Qed.

Lemma addJoin_initial_inv this st ps associations :
  wf_session this st ps →
  aj_inv (slice_list (DeepestCommonPath ps (cachedAssociation this) associations))
         (mkAddJoinState this st ps None true 0 []).
Proof.
  intros [Hres Hbag Hcoh]. split; [done|]. split; [done|]. split; [|done].
  intros cf [j Hj]%list_elem_of_lookup. simpl.
  destruct (common_in_cache _ _ _ _ _ Hj) as (c & _ & _ & _ & Hc & Hcj & _).
  apply (Hres c); [done|]. apply list_elem_of_lookup. eauto.
Qed.

Lemma addJoin_request_disjoint this ps associations :
  fresh_request this associations →
  ∀ q, q ∈ associations →
    q ∉ slice_list (DeepestCommonPath ps (cachedAssociation this) associations).
Proof.
  intros [_ Hfresh] q Hq [j Hj]%list_elem_of_lookup.
  destruct (common_in_cache _ _ _ _ _ Hj) as (c & _ & _ & _ & Hc & Hcj & _).
  apply (Hfresh c q); [done| |done]. apply list_elem_of_lookup. eauto.
Qed.

(** The elements of the requested path that some cached path covers are
    those within the deepest common path. *)
Lemma shared_within_common ps cache a c k :
  c ∈ cache → same_bases ps a c k →
  k ≤ length (slice_list (DeepestCommonPath ps cache a)).
Proof.
  intros Hc Hsame. destruct (DeepestCommonPath_spec ps cache a) as [_ Hmax].
  etrans; [by apply common_prefix_max|by apply Hmax].
Qed.

Lemma common_prefix_same_bases ps c a :
  same_bases ps a c (length (common_prefix ps c a)).
Proof.
  intros f Hf. destruct (lookup_lt_is_Some_2 _ _ Hf) as [cf Hcf].
  destruct (common_prefix_lookup _ _ _ _ _ Hcf) as (Hc & pe & cfr & per & ? & ? & ? & ?).
  by exists pe, cf, per, cfr.
Qed.

Lemma same_bases_le ps c1 c2 k k' : k' ≤ k → same_bases ps c1 c2 k → same_bases ps c1 c2 k'.
Proof. intros Hle Hsame f Hf. apply Hsame. lia. Qed.

(** The loop of [addJoin] within [addJoin], for a well-formed session and a
    request made of new elements. *)
Lemma addJoin_setup this st ps associations fetch this' st' ps' local :
  wf_session this st ps → fresh_request this associations → associations ≠ [] →
  addJoin this st ps associations None fetch = Some (this', st', ps', local) →
  ∃ s,
    foldM (addJoin_step (slice_list (DeepestCommonPath ps (cachedAssociation this)
                                       associations)))
          (mkAddJoinState this st ps None true 0 []) associations = Some s ∧
    aj_inv (slice_list (DeepestCommonPath ps (cachedAssociation this) associations))
           (mkAddJoinState this st ps None true 0 []) ∧
    (∀ q, q ∈ associations →
       q ∉ slice_list (DeepestCommonPath ps (cachedAssociation this) associations)) ∧
    st' = aj_assocs s ∧ ps' = aj_paths s ∧ local = associations ∧
    joinBag this' = joinBag (aj_this s) ∧ tableAlias this' = tableAlias this ∧
    aj_mono (mkAddJoinState this st ps None true 0 []) s ∧
    aj_inv (slice_list (DeepestCommonPath ps (cachedAssociation this) associations)) s ∧
    (aj_f s ≠ 0 → bag (joinBag this') !! aj_lastFk s = Some (lastFkAlias this')).
Proof.
  intros Hwf Hfresh Hne Hrun.
  destruct (addJoin_unfold _ _ _ _ _ _ _ _ _ Hrun)
    as (s & this1 & a & Hloop & -> & -> & -> & Hget & Hbag & Halias & Hlast & _).
  assert (Hinv0 := addJoin_initial_inv this st ps associations Hwf).
  assert (Hdisj := addJoin_request_disjoint this ps associations Hfresh).
  destruct (addJoin_loop_inv _ _ _ _ Hloop Hinv0 Hdisj)
    as (Hinv & Hmono & Hf & Hloc & _ & _).
  simpl in Hf, Hloc.
  assert (Hlen : aj_f s ≠ 0) by (destruct associations; [done|simpl in Hf; lia]).
  destruct (getAlias_spec _ _ _ _ Hget) as (Hsame1 & Hkey & _ & _ & Hid).
  destruct Hinv as (Hi1 & Hi2 & Hi3 & Hi4).
  rewrite (Hid (Hi2 Hlen)) in *. clear Hid.
  exists s. split; [done|]. split; [done|]. split; [done|]. split; [done|].
  split; [done|]. split; [done|]. split; [done|]. split.
  { rewrite Halias. destruct Hmono as (_ & Hs & _). simpl in Hs. by rewrite Hs. }
  split; [done|]. split; [done|]. intros _. by rewrite Hbag, Hlast.
Qed.

(** What [addJoin] reuses and what it adds. *)
Lemma addJoin_reuse_facts this st ps (associations : list loc) fetch this' st' ps' local :
  wf_session this st ps → fresh_request this associations → associations ≠ [] →
  addJoin this st ps associations None fetch = Some (this', st', ps', local) →
  st ⊆ st' ∧
  bag (joinBag this) ⊆ bag (joinBag this') ∧
  (∀ key, aliased this' key → ¬ aliased this key → ∃ l, key = Some l ∧ st !! l = None) ∧
  (∀ c k f pe cf cfr,
     c ∈ cachedAssociation this → same_bases ps associations c k → f < k →
     associations !! f = Some pe → c !! f = Some cf → ps !! cf = Some cfr →
     ∃ per d, ps !! pe = Some per ∧ ps' !! pe = Some (set_Derived per (Some d)) ∧
       Derived cfr = Some d ∧ is_Some (st !! d)) ∧
  (∀ f pe,
     associations !! f = Some pe →
     (¬ ∃ c, c ∈ cachedAssociation this ∧ same_bases ps associations c (S f)) →
     ∃ per d, ps !! pe = Some per ∧ ps' !! pe = Some (set_Derived per (Some d)) ∧
       st !! d = None ∧ is_Some (st' !! d)) ∧
  ((∃ c, c ∈ cachedAssociation this ∧
         same_bases ps associations c (length associations)) →
   st' = st ∧ joinBag this' = joinBag this).
Proof.
  intros Hwf Hfresh Hne Hrun.
  destruct (addJoin_setup _ _ _ _ _ _ _ _ _ Hwf Hfresh Hne Hrun)
    as (s & Hloop & Hinv0 & Hdisj & -> & -> & -> & Hbag & Halias & Hmono & Hinv & _).
  set (common := slice_list (DeepestCommonPath ps (cachedAssociation this) associations))
    in *.
  destruct Hmono as (Hst & _ & Hsub & Hnew). simpl in Hst, Hsub, Hnew.
  unfold aliased in *. rewrite Hbag.
  split; [done|]. split; [done|]. split; [done|].
  destruct Hfresh as [Hnd Hfresh]. split; [|split].
  - (* the shared prefix *)
    intros c k f pe cf cfr Hc Hsame Hfk Hpe Hcf Hcfr.
    assert (HK := shared_within_common ps _ _ c k Hc Hsame). fold common in HK.
    destruct (lookup_lt_is_Some_2 common f) as [cf0 Hcf0]; [lia|].
    destruct (common_in_cache _ _ _ _ _ Hcf0)
      as (c0 & pe' & cfr0 & per & Hc0 & Hc0f & Hpe' & Hcfr0 & Hper & Hb0 & Hsome).
    rewrite Hpe in Hpe'. inversion Hpe'; subst pe'. clear Hpe'.
    destruct (addJoin_loop_zoom _ _ _ _ _ _ Hloop Hinv0 Hdisj Hnd Hpe)
      as (s1 & s2 & per1 & Hpre & Hstep & Hinv1 & Hmono1 & Hmono2 & _ & Hf1 & Hper0 & Hper1
          & Hcommon1 & Hsame1 & Hfinal & _).
    simpl in Hf1, Hper0, Hcommon1, Hsame1. rewrite Hper in Hper0.
    inversion Hper0; subst per1. clear Hper0.
    assert (Hm1 : aj_matches s1 = true).
    { destruct (addJoin_loop_matches _ _ _ _ Hpre) as (_ & [_ Hm]). apply Hm.
      split; [done|]. intros j pej Hj. simpl.
      apply lookup_take_Some in Hj as [Hj Hjf].
      destruct (lookup_lt_is_Some_2 common j) as [cfj Hcfj]; [lia|].
      destruct (common_in_cache _ _ _ _ _ Hcfj)
        as (cj & pej' & cfrj & perj & _ & _ & Hpej' & Hcfrj & Hperj & Hbj & _).
      rewrite Hj in Hpej'. inversion Hpej'; subst pej'.
      exists perj. split; [done|]. by exists cfj, cfrj. }
    assert (Hat : matches_at common (aj_paths s1) (aj_f s1) per).
    { exists cf0, cfr0. rewrite Hf1, Hcommon1; [done|].
      apply list_elem_of_lookup. eauto. }
    destruct (addJoin_step_spec _ _ _ _ Hstep)
      as (per1 & d & Hper1' & Hps2 & _ & _ & Hcases).
    rewrite Hper1 in Hper1'. inversion Hper1'; subst per1. clear Hper1'.
    destruct Hcases as [Hreuse|(_ & Htrue & Hfalse)].
    2:{ destruct (aj_matches s2) eqn:Hm2.
        - destruct (Htrue eq_refl) as (_ & cf' & cfr' & Hcf' & Hcfr' & _ & Hnone).
          destruct Hinv1 as (_ & _ & Hres & _).
          destruct (Hres cf') as (? & ? & ? & ? & ? & _); [|congruence].
          apply list_elem_of_lookup. eauto.
        - destruct (Hfalse eq_refl); [congruence|done]. }
    destruct Hreuse as (_ & _ & (cf' & cfr' & Hcf' & Hcfr' & _ & Hd) & _).
    rewrite Hf1 in Hcf'. simpl in Hcf'. rewrite Hcf0 in Hcf'. inversion Hcf'; subst cf'.
    rewrite Hcommon1, Hcfr0 in Hcfr' by (apply list_elem_of_lookup; eauto).
    inversion Hcfr'; subst cfr'. clear Hcf' Hcfr'.
    exists per, d. split; [done|]. split.
    { rewrite Hfinal, Hps2. apply lookup_insert_eq. }
    split.
    + rewrite <- Hd. symmetry.
      apply (wf_coherent _ _ _ Hwf c0 c (S f) f cf0 cf cfr0 cfr); try done; [|lia].
      intros g Hg.
      destruct (Hsame g) as (q1 & q2 & r1 & r2 & Hq1 & Hq2 & Hr1 & Hr2 & Hb); [lia|].
      destruct (lookup_lt_is_Some_2 common g) as [cfg Hcfg]; [lia|].
      unfold common in Hcfg. rewrite Hsome in Hcfg. simpl in Hcfg.
      destruct (common_prefix_lookup _ _ _ _ _ Hcfg)
        as (Hc0g & q1' & rg & r1' & Hq1' & Hrg & Hr1' & Hbg).
      rewrite Hq1 in Hq1'. inversion Hq1'; subst q1'.
      rewrite Hr1 in Hr1'. inversion Hr1'; subst r1'.
      exists cfg, q2, rg, r2. repeat split; try done. congruence.
    + destruct (wf_resolved _ _ _ Hwf c0 cf0 Hc0) as (p0 & d0 & lf & Hp0 & Hd0 & Hreuse & _).
      { apply list_elem_of_lookup. eauto. }
      rewrite Hcfr0 in Hp0. inversion Hp0; subst p0. rewrite Hd in Hd0.
      inversion Hd0; subst d0. unfold reuse_association in Hreuse.
      destruct (st !! d); [by eexists|done].
  - (* beyond the shared prefixes *)
    intros f pe Hpe Hnot.
    destruct (addJoin_loop_zoom _ _ _ _ _ _ Hloop Hinv0 Hdisj Hnd Hpe)
      as (s1 & s2 & per & Hpre & Hstep & Hinv1 & Hmono1 & Hmono2 & _ & Hf1 & Hper0 & Hper1
          & _ & _ & Hfinal & _).
    simpl in Hf1, Hper0.
    destruct (addJoin_step_spec _ _ _ _ Hstep)
      as (per1 & d & Hper1' & Hps2 & _ & _ & [Hreuse|(Hres & _)]).
    { destruct Hreuse as (_ & _ & (cf' & cfr' & Hcf' & _) & _). exfalso. apply Hnot.
      rewrite Hf1 in Hcf'. simpl in Hcf'.
      destruct (common_in_cache _ _ _ _ _ Hcf') as (c0 & _ & _ & _ & Hc0 & _ & _ & _ & _ & _ & Hsome).
      exists c0. split; [done|].
      eapply same_bases_le; [|apply common_prefix_same_bases].
      apply lookup_lt_Some in Hcf'. unfold common in Hcf'. rewrite Hsome in Hcf'.
      simpl in Hcf'. lia. }
    rewrite Hper1 in Hper1'. inversion Hper1'; subst per1. clear Hper1'.
    destruct Hinv1 as (Hb1 & Hl1 & _).
    destruct (resolve_association_frame _ _ _ _ _ _ _ _ _ Hres Hb1 Hl1)
      as (_ & Hd & _ & _ & _ & _ & Hreuse & _).
    exists per, d. split; [done|]. split.
    { rewrite Hfinal, Hps2. apply lookup_insert_eq. }
    split.
    + destruct Hmono1 as (Hst1 & _). simpl in Hst1.
      destruct (st !! d) as [x|] eqn:Hx; [|done].
      by rewrite (lookup_weaken _ _ _ _ Hx Hst1) in Hd.
    + destruct Hmono2 as (Hst2 & _). unfold reuse_association in Hreuse.
      destruct (aj_assocs s2 !! d) as [x|] eqn:Hx; [|done].
      exists x. by eapply lookup_weaken.
  - (* the whole path is shared *)
    intros Hex.
    assert (Hlen : 0 < length associations) by (destruct associations; [done|simpl; lia]).
    destruct (DeepestCommonPath_covers ps (cachedAssociation this) associations
                (length associations) Hlen (le_n _)) as [Hcov _].
    specialize (Hcov Hex).
    assert (Hm : aj_matches s = true).
    { destruct (addJoin_loop_matches _ _ _ _ Hloop) as (_ & [_ Hm]). apply Hm.
      split; [done|]. intros j pe Hj. apply Hcov; [|done]. by eapply lookup_lt_Some. }
    destruct (addJoin_loop_reuse _ _ _ _ Hloop Hinv0 Hdisj Hm) as [-> ->]. done.
Qed.

(** ** Many-to-many expansion *)

Lemma last_take_lookup {A} (l : list A) f :
  f ≠ 0 → f ≤ length l → last (take f l) = l !! (f - 1).
Proof.
  intros Hf Hle. rewrite last_lookup, length_take, lookup_take_lt by lia.
  f_equal. lia.
Qed.

Lemma stamped_relations a aliasFrom aliasTo :
  Forall (λ rel, ColumnTableAlias (From rel) = aliasFrom ∧
                 ColumnTableAlias (To rel) = aliasTo)
         (Relations (stamped a aliasFrom aliasTo)).
Proof. simpl. apply Forall_fmap. by apply Forall_forall. Qed.

(** The two hops of a many-to-many pairing that [addJoin] resolves. *)
Lemma addJoin_two_hops_facts
    this st ps (associations : list loc) fetch this' st' ps' local f pe per base :
  wf_session this st ps → fresh_request this associations → associations ≠ [] →
  addJoin this st ps associations None fetch = Some (this', st', ps', local) →
  associations !! f = Some pe → ps !! pe = Some per →
  st !! Base per = Some base → IsMany2Many base = true →
  (¬ ∃ c, c ∈ cachedAssociation this ∧ same_bases ps associations c (S f)) →
  ∃ d fromFk toFk hop1 hop2 origin junction dest,
    ps' !! pe = Some (set_Derived per (Some d)) ∧
    st !! d = None ∧ st !! fromFk = None ∧ st !! toFk = None ∧
    fromFk ≠ toFk ∧ d ≠ fromFk ∧ d ≠ toFk ∧
    st' !! d = Some (mkAssociation (TableFrom base) (TableTo base) (Relations base)
                       (DiscriminatorTable base) (Discriminators base)
                       (Some fromFk) (Some toFk) (AliasFrom base) (AliasTo base)) ∧
    st' !! fromFk = Some hop1 ∧ st' !! toFk = Some hop2 ∧
    AliasFrom hop1 = origin ∧ AliasTo hop1 = junction ∧
    AliasFrom hop2 = junction ∧ AliasTo hop2 = dest ∧
    AliasTo hop1 = AliasFrom hop2 ∧
    Forall (λ rel, ColumnTableAlias (From rel) = origin ∧
                   ColumnTableAlias (To rel) = junction) (Relations hop1) ∧
    Forall (λ rel, ColumnTableAlias (From rel) = junction ∧
                   ColumnTableAlias (To rel) = dest) (Relations hop2) ∧
    bag (joinBag this') !! Some fromFk = Some junction ∧
    bag (joinBag this') !! Some toFk = Some dest ∧
    (PreferredAlias per ≠ "" → dest = PreferredAlias per) ∧
    (f = 0 → origin = tableAlias this) ∧
    (f ≠ 0 →
     ∃ pe0 per0 d0 lastFk,
       associations !! (f - 1) = Some pe0 ∧ ps' !! pe0 = Some per0 ∧
       Derived per0 = Some d0 ∧ reuse_association st' d0 = Some lastFk ∧
       bag (joinBag this') !! lastFk = Some origin).
Proof.
  intros Hwf Hfresh Hne Hrun Hpe Hper Hbase Hmany Hnot.
  destruct (addJoin_setup _ _ _ _ _ _ _ _ _ Hwf Hfresh Hne Hrun)
    as (s & Hloop & Hinv0 & Hdisj & -> & -> & -> & Hbag & Halias & _ & _ & _).
  set (common := slice_list (DeepestCommonPath ps (cachedAssociation this) associations))
    in *.
  destruct Hfresh as [Hnd Hfresh]. rewrite Hbag.
  destruct (addJoin_loop_zoom _ _ _ _ _ _ Hloop Hinv0 Hdisj Hnd Hpe)
    as (s1 & s2 & per1 & Hpre & Hstep & Hinv1 & Hmono1 & Hmono2 & Hmono12 & Hf1 & Hper0
        & Hper1 & _ & _ & Hfinal & Hbefore).
  simpl in Hf1, Hper0. rewrite Hper in Hper0. inversion Hper0; subst per1. clear Hper0.
  destruct (addJoin_step_spec _ _ _ _ Hstep)
    as (per1 & d & Hper1' & Hps2 & _ & _ & Hcases).
  rewrite Hper1 in Hper1'. inversion Hper1'; subst per1. clear Hper1'.
  destruct Hcases as [Hreuse|(Hres & _)].
  { destruct Hreuse as (_ & _ & (cf' & cfr' & Hcf' & _) & _). exfalso. apply Hnot.
    rewrite Hf1 in Hcf'. simpl in Hcf'.
    destruct (common_in_cache _ _ _ _ _ Hcf') as (c0 & _ & _ & _ & Hc0 & _ & _ & _ & _ & _ & Hsome).
    exists c0. split; [done|].
    eapply same_bases_le; [|apply common_prefix_same_bases].
    apply lookup_lt_Some in Hcf'. unfold common in Hcf'. rewrite Hsome in Hcf'.
    simpl in Hcf'. lia. }
  destruct Hmono1 as (Hst1 & Hsame1 & Hsub1 & _). simpl in Hst1, Hsame1, Hsub1.
  destruct Hmono2 as (Hst2 & _ & Hsub2 & _).
  destruct Hmono12 as (Hst12 & _ & Hsub12 & _).
  destruct Hinv1 as (Hb1 & Hl1 & _ & Hprev).
  assert (Hbase1 : aj_assocs s1 !! Base per = Some base) by (by eapply lookup_weaken).
  destruct (resolve_association_many2many _ _ _ _ _ _ _ _ _ _ Hres Hb1 Hl1 Hbase1 Hmany)
    as (origin & junction & dest & bf & bt & fa & ta & fromFk & toFk & Ho0 & Ho1 & Hpref
        & Hbf & Hbt & Hfa & Hta & Hd & Hf & Ht & Hft & Hdf & Hdt & Hst' & Hlf & _
        & Hkf & Hkt & _).
  assert (Hnone : ∀ l, aj_assocs s1 !! l = None → st !! l = None).
  { intros l Hl. destruct (st !! l) as [x|] eqn:Hx; [|done].
    by rewrite (lookup_weaken _ _ _ _ Hx Hst1) in Hl. }
  exists d, fromFk, toFk, (stamped fa origin junction), (stamped ta junction dest),
    origin, junction, dest.
  split; [rewrite Hfinal, Hps2; apply lookup_insert_eq|].
  split; [by apply Hnone|]. split; [by apply Hnone|]. split; [by apply Hnone|].
  split; [done|]. split; [done|]. split; [done|].
  split.
  { apply (lookup_weaken (aj_assocs s2)); [|done]. rewrite Hst'.
    rewrite !lookup_insert_ne by done. apply lookup_insert_eq. }
  split.
  { apply (lookup_weaken (aj_assocs s2)); [|done]. rewrite Hst'.
    rewrite lookup_insert_ne by done. apply lookup_insert_eq. }
  split.
  { apply (lookup_weaken (aj_assocs s2)); [|done]. rewrite Hst'.
    apply lookup_insert_eq. }
  split; [done|]. split; [done|]. split; [done|]. split; [done|]. split; [done|].
  split; [apply stamped_relations|]. split; [apply stamped_relations|].
  split; [by eapply lookup_weaken|]. split; [by eapply lookup_weaken|].
  split; [done|]. split.
  { intros H0. rewrite Ho0 by lia. by rewrite Hsame1. }
  intros H0. destruct Hprev as (pe0 & per0 & d0 & Hlast & Hper0 & Hd0 & Hreuse); [lia|].
  destruct (addJoin_loop_basic _ _ _ _ Hpre) as (Hloc1 & _). simpl in Hloc1.
  rewrite Hloc1 in Hlast. apply lookup_lt_Some in Hpe as Hlt.
  rewrite last_take_lookup in Hlast by lia.
  exists pe0, per0, d0, (aj_lastFk s1). split; [done|]. split.
  { rewrite Hbefore; [done|]. rewrite <- (take_drop_middle _ _ _ Hpe) in Hlast.
    apply list_elem_of_lookup. exists (f - 1).
    rewrite lookup_app_l in Hlast; [done|]. rewrite length_take. lia. }
  split; [done|]. split.
  { eapply reuse_association_weaken; [|done]. by etrans. }
  eapply lookup_weaken; [|done]. eapply lookup_weaken; [|done]. apply Ho1. lia.
Qed.

(** ** Well-formed sessions *)

(** A new session is well-formed. *)
Lemma NewDmlBase_wf tbl st ps : wf_session (NewDmlBase tbl) st ps.
Proof.
  split.
  - intros c pe Hc. destruct tbl; simpl in Hc; by apply elem_of_nil in Hc.
  - intros l [a Ha]. destruct tbl; simpl in Ha; by rewrite lookup_empty in Ha.
  - intros c1 c2 k f pe1 pe2 per1 per2 Hc. destruct tbl; simpl in Hc; by apply elem_of_nil in Hc.
Qed.

Lemma same_bases_same_base_store ps ps' c1 c2 k :
  same_base_store ps ps' → same_bases ps' c1 c2 k → same_bases ps c1 c2 k.
Proof.
  intros Hsame Hb f Hf.
  destruct (Hb f Hf) as (pe1 & pe2 & per1 & per2 & H1 & H2 & Hp1 & Hp2 & Heq).
  assert (Hs1 := Hsame pe1). assert (Hs2 := Hsame pe2). rewrite Hp1 in Hs1. rewrite Hp2 in Hs2.
  destruct (ps !! pe1) as [q1|] eqn:Hq1; [|done].
  destruct (ps !! pe2) as [q2|] eqn:Hq2; [|done].
  inversion Hs1. inversion Hs2. exists pe1, pe2, q1, q2. repeat split; try done. congruence.
Qed.

(** [addJoin] keeps a session well-formed. *)
Lemma addJoin_preserves_wf this st ps associations fetch this' st' ps' local :
  wf_session this st ps → fresh_request this associations → associations ≠ [] →
  addJoin this st ps associations None fetch = Some (this', st', ps', local) →
  wf_session this' st' ps'.
Proof.
  intros Hwf Hfresh Hne Hrun.
  destruct (addJoin_reuse_facts _ _ _ _ _ _ _ _ _ Hwf Hfresh Hne Hrun)
    as (Hst & Hsub & _ & Hprefix & _ & _).
  destruct (addJoin_cache_append_facts _ _ _ _ _ _ _ _ _ Hrun Hne) as [_ Hcache].
  destruct (addJoin_setup _ _ _ _ _ _ _ _ _ Hwf Hfresh Hne Hrun)
    as (s & Hloop & Hinv0 & Hdisj & -> & -> & -> & Hbag & Halias & Hmono & Hinv & _).
  set (common := slice_list (DeepestCommonPath ps (cachedAssociation this) associations))
    in *.
  destruct (addJoin_loop_inv _ _ _ _ Hloop Hinv0 Hdisj) as (_ & _ & _ & _ & Hframe & _).
  destruct (addJoin_loop_matches _ _ _ _ Hloop) as (Hsame & _).
  simpl in Hframe, Hsame.
  destruct Hfresh as [Hnd Hfresh].
  assert (Hold : ∀ c pe, c ∈ cachedAssociation this → pe ∈ c →
            aj_paths s !! pe = ps !! pe).
  { intros c pe Hc Hpe. apply Hframe. by apply (Hfresh c pe). }
  assert (Hnewres : ∀ pe, pe ∈ associations → resolved this' (aj_assocs s) (aj_paths s) pe).
  { intros pe [f Hpe]%list_elem_of_lookup.
    destruct (addJoin_loop_zoom _ _ _ _ _ _ Hloop Hinv0 Hdisj Hnd Hpe)
      as (s1 & s2 & per & _ & Hstep & Hinv1 & _ & Hmono2 & _ & _ & _ & _ & _ & _ & Hfinal & _).
    destruct (addJoin_step_inv _ _ _ _ Hstep Hinv1) as [(_ & Hal2 & _ & Hlast2) _].
    { apply Hdisj. apply list_elem_of_lookup. eauto. }
    destruct (addJoin_step_spec _ _ _ _ Hstep) as (per1 & d & _ & Hps2 & Hf2 & Hloc2 & _).
    destruct Hlast2 as (pe0 & per0 & d0 & Hl & Hp0 & Hd0 & Hreuse); [lia|].
    rewrite Hloc2, last_snoc in Hl. inversion Hl; subst pe0.
    destruct Hmono2 as (Hst2 & _ & Hsub2 & _).
    exists per0, d0, (aj_lastFk s2). split; [by rewrite Hfinal|]. split; [done|].
    split; [by eapply reuse_association_weaken|].
    destruct Hal2 as [a Ha]; [lia|]. exists a. rewrite Hbag. by eapply lookup_weaken. }
  assert (Holdres : ∀ c pe, c ∈ cachedAssociation this → pe ∈ c →
            resolved this' (aj_assocs s) (aj_paths s) pe).
  { intros c pe Hc Hpe. eapply resolved_weaken; [by eapply (wf_resolved _ _ _ Hwf)|done| |].
    - done.
    - by eapply Hold. }
  split.
  - intros c pe Hc Hpe. destruct Hcache as [[_ Heq]|[_ Heq]]; rewrite Heq in Hc.
    + by eapply Holdres.
    + apply elem_of_app in Hc as [Hc|Hc]; [by eapply Holdres|].
      apply list_elem_of_singleton in Hc. subst c. by apply Hnewres.
  - intros l Hl. destruct Hinv as (Hb & _). apply Hb. unfold aliased in *.
    by rewrite <- Hbag.
  - assert (Hcoh_old : ∀ c1 c2 k f pe1 pe2 per1 per2,
              c1 ∈ cachedAssociation this → c2 ∈ cachedAssociation this →
              same_bases (aj_paths s) c1 c2 k → f < k →
              c1 !! f = Some pe1 → c2 !! f = Some pe2 →
              aj_paths s !! pe1 = Some per1 → aj_paths s !! pe2 = Some per2 →
              Derived per1 = Derived per2).
    { intros c1 c2 k f pe1 pe2 per1 per2 Hc1 Hc2 Hb Hf H1 H2 Hp1 Hp2.
      rewrite (Hold c1) in Hp1 by (try done; apply list_elem_of_lookup; eauto).
      rewrite (Hold c2) in Hp2 by (try done; apply list_elem_of_lookup; eauto).
      eapply (wf_coherent _ _ _ Hwf c1 c2 k f); try done.
      by eapply same_bases_same_base_store. }
    assert (Hcoh_new : ∀ c2 k f pe1 pe2 per1 per2,
              c2 ∈ cachedAssociation this →
              same_bases (aj_paths s) associations c2 k → f < k →
              associations !! f = Some pe1 → c2 !! f = Some pe2 →
              aj_paths s !! pe1 = Some per1 → aj_paths s !! pe2 = Some per2 →
              Derived per1 = Derived per2).
    { intros c2 k f pe1 pe2 per1 per2 Hc2 Hb Hf H1 H2 Hp1 Hp2.
      rewrite (Hold c2) in Hp2 by (try done; apply list_elem_of_lookup; eauto).
      apply (same_bases_same_base_store ps) in Hb; [|done].
      destruct (Hprefix c2 k f pe1 pe2 per2 Hc2 Hb Hf H1 H2 Hp2)
        as (per & d & _ & Hp1' & Hd & _).
      rewrite Hp1 in Hp1'. inversion Hp1'; subst per1. by rewrite Hd. }
    assert (Hsym : ∀ c1 c2 k, same_bases (aj_paths s) c1 c2 k →
              same_bases (aj_paths s) c2 c1 k).
    { intros c1 c2 k Hb f Hf. destruct (Hb f Hf) as (q1 & q2 & r1 & r2 & ? & ? & ? & ? & ?).
      by exists q2, q1, r2, r1. }
    intros c1 c2 k f pe1 pe2 per1 per2 Hc1 Hc2 Hb Hf H1 H2 Hp1 Hp2.
    destruct Hcache as [[_ Heq]|[_ Heq]]; rewrite Heq in Hc1, Hc2.
    + by eapply (Hcoh_old c1 c2 k f).
    + apply elem_of_app in Hc1 as [Hc1|Hc1]; apply elem_of_app in Hc2 as [Hc2|Hc2].
      * by eapply (Hcoh_old c1 c2 k f).
      * apply list_elem_of_singleton in Hc2. subst c2. symmetry.
        eapply (Hcoh_new c1 k f pe2 pe1); try done. by apply Hsym.
      * apply list_elem_of_singleton in Hc1. subst c1.
        by eapply (Hcoh_new c2 k f pe1 pe2).
      * apply list_elem_of_singleton in Hc1. apply list_elem_of_singleton in Hc2.
        subst c1 c2. congruence.
Qed.

(** ** Attaching criteria: [applyOn], [applyWhere] *)

Arguments Criteria_Clone : simpl never.
Arguments SetTableAlias : simpl never.
Arguments replaceRaw : simpl never.

(** Cloning a criteria and then rewriting the clone in place adds cells and
    changes none that existed. *)
Lemma clone_then_SetTableAlias fuel cs crit cs1 cpy a cs2 :
  Criteria_Clone fuel cs crit = Some (cs1, cpy) →
  SetTableAlias fuel cs1 cpy a = Some cs2 →
  extends cs cs2 ∧ cpy ∈ dom cs2 ∖ dom cs.
Proof.
  intros Hclone Hset. destruct (Criteria_Clone_extends _ _ _ _ _ Hclone) as [Hext Hcpy].
  assert (Htouch : touches_only (dom cs1 ∖ dom cs) cs1 cs2).
  { eapply SetTableAlias_touches; [apply Hext|done|done]. }
  split; [by eapply touches_only_extends|].
  by rewrite (same_members_dom _ _ (proj1 Htouch)).
Qed.

Lemma extends_then_replaceRaw fuel this cs cs1 cpy this' cs2 :
  extends cs cs1 → cpy ∈ dom cs1 ∖ dom cs →
  replaceRaw fuel this cs1 cpy = Some (this', cs2) →
  extends cs cs2 ∧ cpy ∈ dom cs2 ∖ dom cs.
Proof.
  intros Hext Hcpy Hrun.
  assert (Htouch : touches_only (dom cs1 ∖ dom cs) cs1 cs2).
  { eapply replaceRaw_touches; [apply Hext|done|done]. }
  split; [by eapply touches_only_extends|].
  by rewrite (same_members_dom _ _ (proj1 Htouch)).
Qed.

Lemma extends_then_SetTableAlias fuel cs cs1 cpy a cs2 :
  extends cs cs1 → cpy ∈ dom cs1 ∖ dom cs →
  SetTableAlias fuel cs1 cpy a = Some cs2 →
  extends cs cs2 ∧ cpy ∈ dom cs2 ∖ dom cs.
Proof.
  intros Hext Hcpy Hrun.
  assert (Htouch : touches_only (dom cs1 ∖ dom cs) cs1 cs2).
  { eapply SetTableAlias_touches; [apply Hext|done|done]. }
  split; [by eapply touches_only_extends|].
  by rewrite (same_members_dom _ _ (proj1 Htouch)).
Qed.

Lemma derived_alias_same_but_bag this st per this' a :
  derived_alias this st per = Some (this', a) → same_but_bag this this'.
Proof.
  unfold derived_alias. intros Hrun.
  destruct (Derived per) as [pfk|]; cbn in Hrun; [|done].
  destruct (st !! pfk) as [fk|]; cbn in Hrun; [|done].
  destruct (IsMany2Many fk); apply (inj Some) in Hrun;
    by apply getAlias_spec in Hrun as [? _].
Qed.

(** [applyOn]: the criteria passed in and every other cell that existed are
    unchanged; what is attached to the last element of the chain is a new
    cell; the other path elements are unchanged, and the last one changes in
    its field [Criteria] only. *)
Lemma applyOn_frame fuel this st ps cs chain crit this' ps' cs' :
  applyOn fuel this st ps cs chain crit = Some (this', ps', cs') →
  extends cs cs' ∧
  (chain = [] → this' = this ∧ ps' = ps ∧ cs' = cs) ∧
  (∀ pe, last chain = Some pe →
     ∃ per cpy,
       ps !! pe = Some per ∧ ps' = <[pe := set_Criteria per (Some cpy)]> ps ∧
       cpy ∈ dom cs' ∖ dom cs ∧
       criteria this' = criteria this ∧
       cachedAssociation this' = cachedAssociation this ∧
       tableAlias this' = tableAlias this).
Proof.
  unfold applyOn. intros Hrun. destruct (last chain) as [pe|] eqn:Hlast.
  2:{ inversion Hrun; subst. split; [apply extends_refl|]. split; [done|]. done. }
  destruct (ps !! pe) as [per|] eqn:Hper; cbn in Hrun; [|done].
  destruct (Criteria_Clone fuel cs crit) as [[cs1 cpy]|] eqn:Hclone; cbn in Hrun; [|done].
  destruct (derived_alias this st per) as [[this1 fkAlias]|] eqn:Hal; cbn in Hrun; [|done].
  destruct (SetTableAlias fuel cs1 cpy fkAlias) as [cs2|] eqn:Hset; cbn in Hrun; [|done].
  destruct (replaceRaw fuel this1 cs2 cpy) as [[this2 cs3]|] eqn:Hraw; cbn in Hrun; [|done].
  inversion Hrun; subst this' ps' cs'. clear Hrun.
  destruct (clone_then_SetTableAlias _ _ _ _ _ _ _ Hclone Hset) as [Hext2 Hcpy2].
  destruct (extends_then_replaceRaw _ _ _ _ _ _ _ Hext2 Hcpy2 Hraw) as [Hext3 Hcpy3].
  split; [done|]. split.
  { intros ->. done. }
  intros pe' [= <-]. exists per, cpy. split; [done|]. split; [done|]. split; [done|].
  apply derived_alias_same_but_bag in Hal. unfold same_but_bag in Hal.
  assert (Hfields : criteria this2 = criteria this1 ∧
                    cachedAssociation this2 = cachedAssociation this1 ∧
                    tableAlias this2 = tableAlias this1).
  { clear - Hraw. revert this1 cs2 cpy this2 cs3 Hraw.
    induction fuel as [|fuel IH]; intros this1 cs2 cpy this2 cs3 Hraw; [done|].
    unfold replaceRaw in Hraw. fold replaceRaw in Hraw.
    destruct (cs2 !! cpy) as [tok|]; cbn in Hraw; [|done].
    destruct (decide (Operator tok = TOKEN_RAW)); [by inversion Hraw; subst|].
    destruct (decide (Operator tok = TOKEN_SUBQUERY)).
    { destruct (TokValue tok) as [|sub]; [done|]. inversion Hraw; subst.
      unfold copy_parameters.
      apply (map_fold_weak_ind (λ r _, criteria r = criteria this1 ∧
                                  cachedAssociation r = cachedAssociation this1 ∧
                                  tableAlias r = tableAlias this1)); [done|].
      intros k v m r _ Hr. done. }
    revert Hraw.
    apply (foldM_inv _ (λ s, criteria s.1 = criteria this1 ∧
                             cachedAssociation s.1 = cachedAssociation this1 ∧
                             tableAlias s.1 = tableAlias this1) _ _ (this2, cs3)); [done|].
    intros [t1 c1] [k|] [t2 c2] _ Ht Hstep; simpl in *.
    - destruct (IH _ _ _ _ _ Hstep) as (? & ? & ?). destruct Ht as (? & ? & ?).
      repeat split; congruence.
    - by inversion Hstep; subst. }
  simpl. destruct Hfields as (-> & -> & ->). rewrite Hal. done.
Qed.

(** [applyWhere]: the restriction passed in and every other cell that
    existed are unchanged; the filter installed is a new cell. *)
Lemma applyWhere_frame fuel this cs restriction this' cs' :
  applyWhere fuel this cs restriction = Some (this', cs') →
  extends cs cs' ∧
  ∃ token, criteria this' = Some token ∧ token ∈ dom cs' ∖ dom cs.
Proof.
  unfold applyWhere. intros Hrun.
  destruct (Criteria_Clone fuel cs restriction) as [[cs1 token]|] eqn:Hclone;
    cbn in Hrun; [|done].
  destruct (replaceRaw fuel this cs1 token) as [[this1 cs2]|] eqn:Hraw; cbn in Hrun; [|done].
  destruct (SetTableAlias fuel cs2 token (tableAlias this1)) as [cs3|] eqn:Hset;
    cbn in Hrun; [|done].
  inversion Hrun; subst this' cs'. clear Hrun.
  destruct (Criteria_Clone_extends _ _ _ _ _ Hclone) as [Hext1 Htok1].
  destruct (extends_then_replaceRaw _ _ _ _ _ _ _ Hext1 Htok1 Hraw) as [Hext2 Htok2].
  destruct (extends_then_SetTableAlias _ _ _ _ _ _ Hext2 Htok2 Hset) as [Hext3 Htok3].
  split; [done|]. by exists token.
Qed.

(** ** [joinTo] *)

(** While no criteria of slot 0 is pending, an iteration of the loop of
    [joinTo] at a slot other than slot 0 attaches the criteria of the slot
    as they are. *)
Lemma joinTo_step_attach fuel st path s index slot :
  jt_firstCriterias s = None → index ≠ 0 →
  joinTo_step fuel st path s index slot = attach_slot fuel st path s index slot.
Proof.
  intros Hfirst Hidx. unfold joinTo_step, attach_slot.
  destruct slot as [pc|]; [|done].
  destruct (Criterias pc) as [conds|]; [|done].
  rewrite decide_False by done. rewrite Hfirst. done.
Qed.

Lemma attach_slot_first fuel st path s index slot s' :
  attach_slot fuel st path s index slot = Some s' →
  jt_firstCriterias s' = jt_firstCriterias s.
Proof.
  unfold attach_slot. intros Hrun. destruct slot as [pc|]; [|by inversion Hrun].
  destruct (Criterias pc) as [conds|]; cbn in Hrun.
  - destruct (And (jt_crits s) conds) as [cs c].
    destruct (applyOn _ _ _ _ _ _ _) as [[[this1 ps1] cs1]|]; cbn in Hrun; [|done].
    destruct (pcColumns pc) as [cols|]; [|by inversion Hrun].
    destruct (applyInclude _ _ _ _ _ _ _) as [[this2 cs2]|]; cbn in Hrun; [|done].
    by inversion Hrun.
  - destruct (pcColumns pc) as [cols|]; [|by inversion Hrun].
    destruct (applyInclude _ _ _ _ _ _ _) as [[this2 cs2]|]; cbn in Hrun; [|done].
    by inversion Hrun.
Qed.

Lemma joinTo_loop_attach fuel st path : ∀ slots s index,
  jt_firstCriterias s = None → index ≠ 0 →
  joinTo_loop fuel st path s index slots = attach_slots fuel st path s index slots.
Proof.
  induction slots as [|slot slots IH]; intros s index Hfirst Hidx; [done|].
  simpl. rewrite joinTo_step_attach by done.
  destruct (attach_slot fuel st path s index slot) as [s1|] eqn:Hstep; [|done].
  simpl. apply IH; [|lia]. by rewrite (attach_slot_first _ _ _ _ _ _ _ Hstep).
Qed.

(** What the loop does with criteria in slot 0: they are held back, then
    appended to the criteria of the next slot that has some, and attached
    with them by [applyOn]. *)
Lemma joinTo_step_slot0 fuel st path s pc conds :
  Criterias pc = Some conds → pcColumns pc = None →
  joinTo_step fuel st path s 0 (Some pc)
  = Some (mkJoinToState (jt_this s) (jt_paths s) (jt_crits s) (Some conds)).
Proof. intros Hc Hcols. unfold joinTo_step. by rewrite Hc, Hcols. Qed.

Lemma joinTo_step_pending fuel st path s index pc conds firstCriterias :
  index ≠ 0 → Criterias pc = Some conds → pcColumns pc = None →
  jt_firstCriterias s = Some firstCriterias →
  joinTo_step fuel st path s index (Some pc)
  = (let '(cs, conjunction) := And (jt_crits s) (conds ++ firstCriterias) in
     '(this, ps, cs) ←
       applyOn fuel (jt_this s) st (jt_paths s) cs (take index path) conjunction;
     Some (mkJoinToState this ps cs None)).
Proof.
  intros Hidx Hc Hcols Hfirst. unfold joinTo_step.
  rewrite Hc, Hcols, Hfirst, decide_False by done.
  destruct (And _ _) as [cs c].
  by destruct (applyOn _ _ _ _ _ _ _) as [[[? ?] ?]|].
Qed.

(** *** The top-level filter is not touched *)

Lemma same_but_bag_criteria this this' :
  same_but_bag this this' → criteria this' = criteria this.
Proof. intros ->. done. Qed.

Lemma addJoin_criteria this st ps associations common fetch this' st' ps' local :
  addJoin this st ps associations common fetch = Some (this', st', ps', local) →
  criteria this' = criteria this.
Proof.
  unfold addJoin. intros Hrun.
  destruct (foldM _ _ associations) as [s|] eqn:Hloop; cbn in Hrun; [|done].
  destruct (getAlias (aj_this s) (aj_lastFk s)) as [this1 lastAlias] eqn:Hget.
  inversion Hrun; subst. simpl.
  destruct (addJoin_loop_basic _ _ _ _ Hloop) as (_ & _ & Hsame). simpl in Hsame.
  apply getAlias_spec in Hget as [Hsame1 _].
  by rewrite (same_but_bag_criteria _ _ Hsame1), (same_but_bag_criteria _ _ Hsame).
Qed.

Lemma buildPathCriterias_same_but_bag fuel this st ps cs paths this' cs' pcs :
  buildPathCriterias fuel this st ps cs paths = Some (this', cs', pcs) →
  same_but_bag this this'.
Proof.
  unfold buildPathCriterias. intros Hrun.
  destruct (foldM (buildPathCriterias_normal st ps) _ paths) as [[i1 pcs1]|];
    simpl in Hrun; [|done].
  destruct (foldM (buildPathCriterias_discriminators fuel st ps) _ paths) as [s2|] eqn:H2;
    simpl in Hrun; [|done].
  inversion Hrun; subst. clear Hrun. revert H2.
  apply (foldM_inv _ (λ s, same_but_bag this (ds_this s))); [apply same_but_bag_refl|].
  intros s pe s' _ Hs Hstep.
  destruct (buildPathCriterias_discriminators_spec _ _ _ _ _ _ Hstep)
    as (per & base & _ & _ & _ & _ & Hget & _).
  symmetry in Hget. apply getAlias_spec in Hget as [Hsame _].
  by eapply same_but_bag_trans.
Qed.

Lemma applyInclude_criteria fuel this st ps cs chain tokens this' cs' :
  applyInclude fuel this st ps cs chain tokens = Some (this', cs') →
  criteria this' = criteria this.
Proof.
  unfold applyInclude. intros Hrun. destruct (last chain) as [pe|]; [|by inversion Hrun].
  destruct (ps !! pe) as [per|]; cbn in Hrun; [|done].
  destruct (derived_alias this st per) as [[this1 a]|] eqn:Hal; cbn in Hrun; [|done].
  destruct (foldM _ cs tokens) as [cs1|]; cbn in Hrun; [|done].
  inversion Hrun; subst. simpl.
  apply derived_alias_same_but_bag in Hal. by apply same_but_bag_criteria.
Qed.

Lemma applyOn_criteria fuel this st ps cs chain crit this' ps' cs' :
  applyOn fuel this st ps cs chain crit = Some (this', ps', cs') →
  criteria this' = criteria this.
Proof.
  intros Hrun. destruct (applyOn_frame _ _ _ _ _ _ _ _ _ _ Hrun) as (_ & Hnil & Hlast).
  destruct (last chain) as [pe|] eqn:Hl.
  - by destruct (Hlast pe eq_refl) as (? & ? & _ & _ & _ & ? & _).
  - apply last_None in Hl. by destruct (Hnil Hl) as (-> & _).
Qed.

Lemma attach_slots_criteria fuel st path : ∀ slots s index s',
  attach_slots fuel st path s index slots = Some s' →
  criteria (jt_this s') = criteria (jt_this s).
Proof.
  induction slots as [|slot slots IH]; intros s index s' Hrun; simpl in Hrun.
  - by inversion Hrun.
  - destruct (attach_slot fuel st path s index slot) as [s1|] eqn:Hstep;
      simpl in Hrun; [|done].
    rewrite (IH _ _ _ Hrun). clear IH Hrun.
    unfold attach_slot in Hstep. destruct slot as [pc|]; [|by inversion Hstep].
    assert (∃ s0, match Criterias pc with
                  | Some conds =>
                      let '(cs, conjunction) := And (jt_crits s) conds in
                      '(this, ps, cs) ←
                        applyOn fuel (jt_this s) st (jt_paths s) cs (take index path)
                          conjunction;
                      Some (mkJoinToState this ps cs (jt_firstCriterias s))
                  | None => Some s
                  end = Some s0 ∧ criteria (jt_this s0) = criteria (jt_this s) ∧
                  match pcColumns pc with
                  | Some cols =>
                      '(this, cs) ←
                        applyInclude fuel (jt_this s0) st (jt_paths s0) (jt_crits s0)
                          (take index path) cols;
                      Some (mkJoinToState this (jt_paths s0) cs (jt_firstCriterias s0))
                  | None => Some s0
                  end = Some s1) as (s0 & _ & Hc0 & Hcols).
    { destruct (Criterias pc) as [conds|]; cbn in Hstep.
      - destruct (And (jt_crits s) conds) as [cs c].
        destruct (applyOn _ _ _ _ _ _ _) as [[[this1 ps1] cs1]|] eqn:Hon; cbn in Hstep; [|done].
        eexists. split; [done|]. split; [|done]. simpl. by eapply applyOn_criteria.
      - by exists s. }
    rewrite <- Hc0. destruct (pcColumns pc) as [cols|]; [|by inversion Hcols].
    destruct (applyInclude _ _ _ _ _ _ _) as [[this2 cs2]|] eqn:Hinc; cbn in Hcols; [|done].
    inversion Hcols; subst. simpl. by eapply applyInclude_criteria.
Qed.

(** [joinTo] as the attachment of the slots after slot 0. *)
Lemma joinTo_attach_facts fuel this st ps cs (path : list loc) fetch this' st' ps' cs' :
  joinTo fuel this st ps cs path fetch = Some (this', st', ps', cs') →
  path ≠ [] →
  criteria this' = criteria this ∧
  ∃ this1 ps1 local this2 cs2 slots s',
    addJoin this st ps path None fetch = Some (this1, st', ps1, local) ∧
    buildPathCriterias fuel this1 st' ps1 cs path = Some (this2, cs2, None :: slots) ∧
    length slots = length path ∧
    attach_slots fuel st' path (mkJoinToState this2 ps1 cs2 None) 1 slots = Some s' ∧
    this' = jt_this s' ∧ ps' = jt_paths s' ∧ cs' = jt_crits s'.
Proof.
  unfold joinTo. intros Hrun Hne. destruct path as [|pe path]; [done|].
  set (p := pe :: path) in *.
  destruct (addJoin this st ps p None fetch) as [[[[this1 st1] ps1] local]|] eqn:Hadd;
    cbn in Hrun; [|done].
  destruct (buildPathCriterias fuel this1 st1 ps1 cs p) as [[[this2 cs2] pcs]|] eqn:Hbuild;
    cbn in Hrun; [|done].
  destruct (joinTo_loop fuel st1 p _ 0 pcs) as [s'|] eqn:Hloop; cbn in Hrun; [|done].
  inversion Hrun; subst this' st' ps' cs'. clear Hrun.
  destruct (buildPathCriterias_spec _ _ _ _ _ _ _ _ _ Hbuild) as (Hlen & H0 & _).
  destruct pcs as [|slot0 slots]; [done|]. simpl in H0. inversion H0; subst slot0.
  change (joinTo_loop fuel st1 p (mkJoinToState this2 ps1 cs2 None) 1 slots = Some s')
    in Hloop.
  rewrite joinTo_loop_attach in Hloop by done.
  split.
  - rewrite (attach_slots_criteria _ _ _ _ _ _ _ Hloop). simpl.
    rewrite (same_but_bag_criteria _ _ (buildPathCriterias_same_but_bag _ _ _ _ _ _ _ _ _ Hbuild)).
    by eapply addJoin_criteria.
  - exists this1, ps1, local, this2, cs2, slots, s'. simpl in Hlen.
    split; [done|]. split; [done|]. split; [subst p; simpl in *; lia|].
    split; [done|]. done.
Qed.

(** ** [addJoin] and the associations of the schema *)

(** Whatever the session, a resolution changes no association that the
    store held: it stamps its own clones only. *)
Lemma resolve_association_store this st lastFk f per this' st' d lastFk' :
  resolve_association this st lastFk f per = Some (this', st', d, lastFk') → st ⊆ st'.
Proof.
  unfold resolve_association. intros Hrun.
  destruct (Association_Clone st (Base per)) as [[st1 d1]|] eqn:Hclone; cbn in Hrun; [|done].
  destruct (Association_Clone_spec _ _ _ _ Hclone) as (a & Ha & Hsub & Hd1 & Hcases).
  destruct (if decide (f = 0) then _ else _) as [this0 origin].
  destruct Hcases as [[Hsingle ->]|(bf & bt & fa & ta & f' & t' & Hbf & Hbt & Hfa & Hta
                                    & Hf' & Ht' & Hft & Hdf & Hdt & ->)].
  - rewrite lookup_insert_eq in Hrun. cbn in Hrun. rewrite Hsingle in Hrun.
    destruct (if decide (PreferredAlias per = "") then _ else _) as [this2 dest].
    destruct (prepareAssociation _ _ _ _) as [st2|] eqn:Hprep; cbn in Hrun; [|done].
    destruct (prepareAssociation_spec _ _ _ _ _ Hprep) as (fk & a0 & [= <-] & _ & ->).
    inversion Hrun; subst. rewrite insert_insert_eq. by apply insert_subseteq.
  - rewrite lookup_insert_eq in Hrun. cbn in Hrun.
    destruct (getAlias this0 (Some f')) as [this1 junction].
    destruct (prepareAssociation _ _ _ (Some f')) as [st2|] eqn:Hprep1; cbn in Hrun; [|done].
    destruct (prepareAssociation_spec _ _ _ _ _ Hprep1) as (fk & a0 & [= <-] & _ & ->).
    destruct (if decide (PreferredAlias per = "") then _ else _) as [this2 dest].
    destruct (getAlias this2 (Some f')) as [this3 junction'].
    destruct (prepareAssociation _ _ _ (Some t')) as [st3|] eqn:Hprep2; cbn in Hrun; [|done].
    destruct (prepareAssociation_spec _ _ _ _ _ Hprep2) as (fk & a1 & [= <-] & _ & ->).
    inversion Hrun; subst. apply map_subseteq_spec. intros k x Hk.
    rewrite !lookup_insert_ne; [done|..]; intros <-; congruence.
Qed.

Lemma addJoin_store_frame this st ps associations common fetch this' st' ps' local :
  addJoin this st ps associations common fetch = Some (this', st', ps', local) →
  st ⊆ st'.
Proof.
  unfold addJoin. intros Hrun.
  destruct (foldM _ _ associations) as [s|] eqn:Hloop; cbn in Hrun; [|done].
  destruct (getAlias (aj_this s) (aj_lastFk s)) as [this1 lastAlias].
  inversion Hrun; subst. clear Hrun. revert Hloop.
  apply (foldM_inv _ (λ s, st ⊆ aj_assocs s)); [done|].
  intros s1 pe s2 _ Hs Hstep.
  destruct (addJoin_step_spec _ _ _ _ Hstep)
    as (per & d & _ & _ & _ & _ & [(_ & _ & _ & _ & -> & _)|(Hres & _)]); [done|].
  etrans; [done|]. by eapply resolve_association_store.
Qed.

(** ** Well-formed sessions and new path elements *)

Lemma wf_session_weaken this st ps this' ps' :
  wf_session this st ps →
  cachedAssociation this' = cachedAssociation this → joinBag this' = joinBag this →
  ps ⊆ ps' → wf_session this' st ps'.
Proof.
  intros [Hres Hbag Hcoh] Hcache Hjb Hps.
  assert (Hin : ∀ c pe per, c ∈ cachedAssociation this → pe ∈ c →
            ps' !! pe = Some per → ps !! pe = Some per).
  { intros c pe per Hc Hpe Hper.
    destruct (Hres c pe Hc Hpe) as (per0 & _ & _ & Hper0 & _).
    by rewrite (lookup_weaken _ _ _ _ Hper0 Hps) in Hper; inversion Hper; subst. }
  split.
  - intros c pe Hc Hpe. rewrite Hcache in Hc.
    destruct (Hres c pe Hc Hpe) as (per & d & lf & Hper & Hd & Hreuse & Hal).
    exists per, d, lf. split; [by eapply lookup_weaken|]. split; [done|]. split; [done|].
    unfold aliased in *. by rewrite Hjb.
  - intros l Hl. apply Hbag. unfold aliased in *. by rewrite <- Hjb.
  - intros c1 c2 k f pe1 pe2 per1 per2 Hc1 Hc2 Hsame Hf H1 H2 Hp1 Hp2.
    rewrite Hcache in Hc1, Hc2.
    apply (Hcoh c1 c2 k f pe1 pe2 per1 per2); try done.
    + intros g Hg. destruct (Hsame g Hg) as (q1 & q2 & r1 & r2 & ? & ? & ? & ? & ?).
      exists q1, q2, r1, r2. repeat split; try done.
      * eapply (Hin c1); [done| |done]. apply list_elem_of_lookup. eauto.
      * eapply (Hin c2); [done| |done]. apply list_elem_of_lookup. eauto.
    + eapply (Hin c1); [done| |done]. apply list_elem_of_lookup. eauto.
    + eapply (Hin c2); [done| |done]. apply list_elem_of_lookup. eauto.
Qed.

(** [inner] adds new path elements and touches neither the cache nor the
    alias allocator. *)
Lemma inner_spec : ∀ associations this ps inn this' ps',
  inner this ps inn associations = (this', ps') →
  ps ⊆ ps' ∧ cachedAssociation this' = cachedAssociation this ∧
  joinBag this' = joinBag this ∧
  ∃ new, path this' = path this ++ new ∧ NoDup new ∧ ∀ pe, pe ∈ new → ps !! pe = None.
Proof.
  induction associations as [|a associations IH]; intros this ps inn this' ps' Hrun;
    simpl in Hrun.
  - inversion Hrun; subst. simpl. split; [done|]. split; [done|]. split; [done|].
    exists []. rewrite app_nil_r. split; [done|]. split; [constructor|].
    intros pe Hpe. by apply elem_of_nil in Hpe.
  - set (pe := fresh (dom ps)) in *.
    assert (Hpe : ps !! pe = None) by (apply not_elem_of_dom, is_fresh).
    destruct (IH _ _ _ _ _ Hrun) as (Hsub & Hcache & Hbag & new & Hpath & Hnd & Hnew).
    simpl in *. split; [etrans; [by apply insert_subseteq|done]|].
    split; [done|]. split; [done|].
    exists (pe :: new). split; [by rewrite Hpath, <- app_assoc|]. split.
    + apply NoDup_cons. split; [|done]. intros Hin. apply Hnew in Hin.
      by rewrite lookup_insert_eq in Hin.
    + intros q [->|Hq]%elem_of_cons; [done|]. apply Hnew in Hq.
      destruct (decide (pe = q)) as [<-|Hne]; [done|].
      by rewrite lookup_insert_ne in Hq.
Qed.

(** A path built by [inner] on a well-formed session whose [path] is empty
    is a request made of new elements, and the session stays well-formed. *)
Lemma inner_fresh_request this st ps inn associations this' ps' :
  wf_session this st ps → path this = [] →
  inner this ps inn associations = (this', ps') →
  wf_session this' st ps' ∧ fresh_request this' (path this').
Proof.
  intros Hwf Hpath Hrun.
  destruct (inner_spec _ _ _ _ _ _ Hrun) as (Hsub & Hcache & Hbag & new & Hnewpath & Hnd & Hnew).
  rewrite Hpath in Hnewpath. simpl in Hnewpath. rewrite Hnewpath.
  split; [by eapply wf_session_weaken|]. split; [done|].
  intros c pe Hc Hpe Hin. rewrite Hcache in Hc.
  destruct (wf_resolved _ _ _ Hwf c pe Hc Hpe) as (per & _ & _ & Hper & _).
  by rewrite (Hnew pe Hin) in Hper.
Qed.

(** ** The associations [addJoin] adds *)

Lemma resolve_association_base this (st : astore) lastFk f per r :
  resolve_association this st lastFk f per = Some r → is_Some (st !! Base per).
Proof.
  unfold resolve_association. intros Hrun.
  destruct (Association_Clone st (Base per)) as [[st1 d]|] eqn:Hclone; [|done].
  destruct (Association_Clone_spec _ _ _ _ Hclone) as (a & Ha & _). by exists a.
Qed.

(** The associations a step of the loop adds to the store are the clone it
    gives to its element and, for a many-to-many pairing, the two junction
    clones of that clone. *)
Lemma addJoin_step_new common s pe s' :
  addJoin_step common s pe = Some s' → aj_inv common s →
  ∀ l, aj_assocs s !! l = None → is_Some (aj_assocs s' !! l) →
    ∃ per d a,
      aj_paths s' !! pe = Some per ∧ Derived per = Some d ∧
      aj_assocs s' !! d = Some a ∧ aj_assocs s !! d = None ∧
      (l = d ∨ FromM2M a = Some l ∨ ToM2M a = Some l).
Proof.
  intros Hstep (Hbag & Hlast & _) l Hl Hl'.
  destruct (addJoin_step_spec _ _ _ _ Hstep) as (per & d & Hper & Hps & _ & _ & Hcase).
  destruct Hcase as [(_ & _ & _ & _ & Hst & _)|(Hres & _)].
  { rewrite Hst, Hl in Hl'. by destruct Hl'. }
  exists (set_Derived per (Some d)), d. rewrite Hps, lookup_insert_eq.
  destruct (resolve_association_base _ _ _ _ _ _ Hres) as [base Hbase].
  destruct (IsMany2Many base) eqn:Hm2m.
  - destruct (resolve_association_many2many _ _ _ _ _ _ _ _ _ _ Hres Hbag Hlast Hbase Hm2m)
      as (origin & junction & dest & bf & bt & fa & ta & fromFk & toFk & _ & _ & _ &
          _ & _ & _ & _ & Hd & Hf & Ht & Hne & Hdf & Hdt & Hst' & _).
    eexists. split; [done|]. split; [done|].
    rewrite Hst'.
    rewrite lookup_insert_ne by done. rewrite lookup_insert_ne by done.
    rewrite lookup_insert_eq. split; [reflexivity|]. split; [done|]. simpl.
    rewrite Hst' in Hl'.
    destruct (decide (l = toFk)) as [->|Hn1]; [by right; right|].
    rewrite lookup_insert_ne in Hl' by done.
    destruct (decide (l = fromFk)) as [->|Hn2]; [by right; left|].
    rewrite lookup_insert_ne in Hl' by done.
    destruct (decide (l = d)) as [->|Hn3]; [by left|].
    rewrite lookup_insert_ne in Hl' by done.
    rewrite lookup_insert_ne in Hl' by done.
    rewrite lookup_insert_ne in Hl' by done.
    rewrite Hl in Hl'. by destruct Hl'.
  - destruct (resolve_association_single _ _ _ _ _ _ _ _ _ _ Hres Hbag Hlast Hbase Hm2m)
      as (origin & dest & _ & _ & _ & Hd & Hst' & _).
    eexists. split; [done|]. split; [done|].
    rewrite Hst', lookup_insert_eq. split; [reflexivity|]. split; [done|].
    rewrite Hst' in Hl'.
    destruct (decide (l = d)) as [->|Hn]; [by left|].
    rewrite lookup_insert_ne in Hl' by done.
    rewrite Hl in Hl'. by destruct Hl'.
Qed.

Lemma addJoin_loop_new common : ∀ todo s s',
  foldM (addJoin_step common) s todo = Some s' →
  aj_inv common s → (∀ pe, pe ∈ todo → pe ∉ common) → NoDup todo →
  ∀ l, aj_assocs s !! l = None → is_Some (aj_assocs s' !! l) →
    ∃ pe per d a,
      pe ∈ todo ∧ aj_paths s' !! pe = Some per ∧ Derived per = Some d ∧
      aj_assocs s' !! d = Some a ∧ aj_assocs s !! d = None ∧
      (l = d ∨ FromM2M a = Some l ∨ ToM2M a = Some l).
Proof.
  induction todo as [|pe todo IH]; intros s s' Hrun Hinv Hdisj Hnodup l Hl Hl'.
  { simpl in Hrun. inversion Hrun; subst. rewrite Hl in Hl'. by destruct Hl'. }
  simpl in Hrun.
  destruct (addJoin_step common s pe) as [s1|] eqn:Hstep; simpl in Hrun; [|done].
  apply NoDup_cons in Hnodup as [Hpe Hnodup].
  destruct (addJoin_step_inv _ _ _ _ Hstep Hinv) as [Hinv1 (Hsub1 & _)].
  { apply Hdisj. by left. }
  assert (Hdisj1 : ∀ q, q ∈ todo → q ∉ common).
  { intros q Hq. apply Hdisj. by right. }
  destruct (addJoin_loop_inv _ _ _ _ Hrun Hinv1 Hdisj1)
    as (_ & (Hsub & _) & _ & _ & Hsame & _).
  destruct (aj_assocs s1 !! l) as [a1|] eqn:Hl1.
  - destruct (addJoin_step_new _ _ _ _ Hstep Hinv l Hl) as (per & d & a & Hper & Hd & Ha & Hnew & Hrel);
      [by eexists|].
    exists pe, per, d, a. split; [by left|].
    rewrite (Hsame _ Hpe). split; [done|]. split; [done|].
    split; [by eapply lookup_weaken|done].
  - destruct (IH _ _ Hrun Hinv1 Hdisj1 Hnodup l Hl1 Hl')
      as (q & per & d & a & Hq & Hper & Hd & Ha & Hnew & Hrel).
    exists q, per, d, a. split; [by right|]. split; [done|]. split; [done|].
    split; [done|]. split; [|done].
    destruct (aj_assocs s !! d) as [a0|] eqn:Hd0; [|done].
    by rewrite (lookup_weaken _ _ _ _ Hd0 Hsub1) in Hnew.
Qed.

(** The associations [addJoin] adds to the store are the clones it gives to
    elements of the requested path, with their junction clones. *)
Lemma addJoin_new_associations this st ps associations fetch this' st' ps' local :
  wf_session this st ps → fresh_request this associations → associations ≠ [] →
  addJoin this st ps associations None fetch = Some (this', st', ps', local) →
  ∀ l, st !! l = None → is_Some (st' !! l) →
    ∃ pe per d a,
      pe ∈ associations ∧ ps' !! pe = Some per ∧ Derived per = Some d ∧
      st' !! d = Some a ∧ st !! d = None ∧
      (l = d ∨ FromM2M a = Some l ∨ ToM2M a = Some l).
Proof.
  intros Hwf Hfresh Hne Hrun.
  destruct (addJoin_setup _ _ _ _ _ _ _ _ _ Hwf Hfresh Hne Hrun)
    as (s & Hloop & Hinv & Hdisj & -> & -> & _).
  destruct Hfresh as [Hnodup _].
  by apply (addJoin_loop_new _ _ _ _ Hloop Hinv Hdisj Hnodup).
Qed.

(** ** Clone before mutate *)

Lemma where_frame fuel this cs restrictions this' cs' :
  where_ fuel this cs restrictions = Some (this', cs') → cs ⊆ cs'.
Proof.
  unfold where_. intros Hrun.
  destruct (restrictions ++ slice_list (discriminatorCriterias this)) as [|c l] eqn:Hl.
  - by inversion Hrun.
  - destruct (And cs (c :: l)) as [cs1 conjunction] eqn:Hand.
    unfold And in Hand. apply alloc_subseteq in Hand.
    destruct (applyWhere_frame _ _ _ _ _ _ Hrun) as [[Hsub _] _]. by etrans.
Qed.

(** [applyInclude] rewrites the tokens it is given, and what they refer
    to, in place: the other cells are left as they were. *)
Lemma applyInclude_touches fuel X this st ps cs chain tokens this' cs' :
  applyInclude fuel this st ps cs chain tokens = Some (this', cs') →
  closed X cs → (∀ t, t ∈ tokens → t ∈ X) →
  touches_only X cs cs'.
Proof.
  unfold applyInclude. intros Hrun Hclosed Hin.
  destruct (last chain) as [pe|]; [|inversion Hrun; subst; apply touches_only_refl].
  destruct (ps !! pe) as [per|]; simpl in Hrun; [|done].
  destruct (derived_alias this st per) as [[this1 fkAlias]|]; simpl in Hrun; [|done].
  destruct (foldM _ cs tokens) as [cs1|] eqn:Hfold; simpl in Hrun; [|done].
  inversion Hrun; subst. clear Hrun.
  eapply (foldM_inv _ (touches_only X cs)); [apply touches_only_refl| |exact Hfold].
  intros cs0 t cs2 Ht Hcs0 Hstep. simpl in Hstep.
  eapply touches_only_trans; [exact Hcs0|].
  eapply SetTableAlias_touches; [|by apply Hin|exact Hstep].
  destruct Hcs0 as [Hsame _]. by eapply same_members_closed.
Qed.

(** ** When the operations return *)

Lemma keeps_shape_refl cs : keeps_shape cs cs.
Proof. intros k tok Hk. exists tok. auto. Qed.

Lemma keeps_shape_trans cs1 cs2 cs3 :
  keeps_shape cs1 cs2 → keeps_shape cs2 cs3 → keeps_shape cs1 cs3.
Proof.
  intros H12 H23 k tok Hk.
  destruct (H12 _ _ Hk) as (tok2 & Hk2 & Hm2 & Hq2).
  destruct (H23 _ _ Hk2) as (tok3 & Hk3 & Hm3 & Hq3).
  exists tok3. split; [done|]. split; [congruence|]. auto.
Qed.

Lemma keeps_shape_subseteq (cs cs' : cstore) : cs ⊆ cs' → keeps_shape cs cs'.
Proof.
  intros Hsub k tok Hk. exists tok.
  split; [by eapply lookup_weaken|]. auto.
Qed.

Lemma keeps_shape_insert (cs : cstore) l tok tok' :
  cs !! l = Some tok → Members tok' = Members tok →
  ((Operator tok = TOKEN_SUBQUERY → is_query (TokValue tok)) →
   Operator tok' = TOKEN_SUBQUERY → is_query (TokValue tok')) →
  keeps_shape cs (<[l := tok']> cs).
Proof.
  intros Hl Hm Hq k tok0 Hk. destruct (decide (k = l)) as [->|Hne].
  - exists tok'. rewrite lookup_insert_eq. simplify_eq. auto.
  - exists tok0. rewrite lookup_insert_ne by done. auto.
Qed.

Lemma criteria_ok_keeps n : ∀ cs cs' l,
  keeps_shape cs cs' → criteria_ok n cs l → criteria_ok n cs' l.
Proof.
  induction n as [|n IH]; intros cs cs' l Hks; [done|].
  intros (tok & Hl & Hq & Hms).
  destruct (Hks _ _ Hl) as (tok' & Hl' & Hm' & Hq').
  exists tok'. split; [done|]. split; [auto|].
  rewrite Hm'. eapply Forall_impl; [exact Hms|].
  intros [k|]; [|done]. by apply IH.
Qed.

Lemma criteria_ok_mono n : ∀ m cs l, n ≤ m → criteria_ok n cs l → criteria_ok m cs l.
Proof.
  induction n as [|n IH]; intros m cs l Hle; [done|].
  destruct m as [|m]; [lia|].
  intros (tok & Hl & Hq & Hms). exists tok. split; [done|]. split; [done|].
  eapply Forall_impl; [exact Hms|].
  intros [k|]; [|done]. apply IH. lia.
Qed.

(** A loop that keeps an invariant and whose body returns under it returns. *)
Lemma foldM_total {S A} (f : S → A → option S) (I : S → Prop) xs : ∀ s,
  I s →
  (∀ s x, x ∈ xs → I s → ∃ s', f s x = Some s' ∧ I s') →
  ∃ s', foldM f s xs = Some s' ∧ I s'.
Proof.
  induction xs as [|x xs IH]; intros s Hs Hstep; simpl.
  - by exists s.
  - destruct (Hstep s x) as (s1 & -> & Hs1); [left|done|]. simpl.
    apply IH; [done|]. intros s2 y Hy. apply Hstep. by right.
Qed.

(** The equations of the walks over criteria. *)
Lemma SetTableAlias_S fuel cs l a :
  SetTableAlias (S fuel) cs l a
  = (tok ← cs !! l;
     foldM (visit_member (λ cs k, SetTableAlias fuel cs k a))
           (<[l := mkToken (Operator tok) a (TokValue tok) (Members tok)]> cs)
           (Members tok)).
Proof. reflexivity. Qed.

Lemma Criteria_Clone_S fuel cs l :
  Criteria_Clone (S fuel) cs l
  = (tok ← cs !! l;
     '(cs1, ms) ← mapM_st (λ cs m,
                    match m with
                    | None => Some (cs, None)
                    | Some k => '(cs', k') ← Criteria_Clone fuel cs k; Some (cs', Some k')
                    end) cs (Members tok);
     Some (alloc cs1 (mkToken (Operator tok) (TableAlias tok) (TokValue tok) ms))).
Proof. reflexivity. Qed.

Lemma replaceRaw_S fuel this cs token :
  replaceRaw (S fuel) this cs token
  = (tok ← cs !! token;
     if decide (Operator tok = TOKEN_RAW) then
       let this1 := set_rawIndex this (int_wrap (rawIndex this + 1)) in
       let parameter := raw_name (tableAlias this1) (rawIndex this1) in
       Some (SetParameter this1 parameter (TokValue tok),
             <[token := mkToken TOKEN_PARAM (TableAlias tok) (VLit (LStr parameter))
                          (Members tok)]> cs)
     else if decide (Operator tok = TOKEN_SUBQUERY) then
       match TokValue tok with
       | VQuery sub => Some (copy_parameters this sub, cs)
       | VLit _ => None
       end
     else
       foldM (visit_member (λ s t, replaceRaw fuel s.1 s.2 t)) (this, cs) (Members tok)).
Proof. reflexivity. Qed.

Lemma SetTableAlias_total fuel : ∀ n cs l a,
  criteria_ok n cs l → n ≤ fuel →
  ∃ cs', SetTableAlias fuel cs l a = Some cs' ∧ keeps_shape cs cs'.
Proof.
  induction fuel as [|fuel IH]; intros n cs l a Hok Hle.
  - destruct n; [done|lia].
  - destruct n as [|n]; [done|]. destruct Hok as (tok & Hl & Hq & Hms).
    rewrite SetTableAlias_S, Hl. simpl.
    set (cs1 := <[l := _]> cs).
    assert (H1 : keeps_shape cs cs1) by (by apply (keeps_shape_insert cs l tok)).
    destruct (foldM_total
                (visit_member (λ cs k, SetTableAlias fuel cs k a))
                (keeps_shape cs) (Members tok) cs1 H1) as (cs' & Hrun & Hks).
    + intros s [k|] Hin Hs; simpl; [|by exists s].
      rewrite Forall_forall in Hms. specialize (Hms _ Hin). simpl in Hms.
      destruct (IH n s k a) as (s' & Hs' & Hks'); [by eapply criteria_ok_keeps|lia|].
      exists s'. split; [done|]. by eapply keeps_shape_trans.
    + by exists cs'.
Qed.

Lemma replaceRaw_total fuel : ∀ n this cs l,
  criteria_ok n cs l → n ≤ fuel →
  ∃ this' cs', replaceRaw fuel this cs l = Some (this', cs') ∧ keeps_shape cs cs'.
Proof.
  induction fuel as [|fuel IH]; intros n this cs l Hok Hle.
  - destruct n; [done|lia].
  - destruct n as [|n]; [done|]. destruct Hok as (tok & Hl & Hq & Hms).
    rewrite replaceRaw_S, Hl. simpl.
    destruct (decide (Operator tok = TOKEN_RAW)) as [Hraw|Hraw].
    { eexists _, _. split; [reflexivity|].
      apply (keeps_shape_insert cs l tok); [done..|]. simpl. discriminate. }
    destruct (decide (Operator tok = TOKEN_SUBQUERY)) as [Hsub|Hsub].
    { specialize (Hq Hsub). destruct (TokValue tok); [done|].
      eexists _, _. split; [reflexivity|]. apply keeps_shape_refl. }
    destruct (foldM_total
                (visit_member (λ s t, replaceRaw fuel s.1 s.2 t))
                (λ s : DmlBase * cstore, keeps_shape cs s.2) (Members tok) (this, cs))
      as ([this' cs'] & Hrun & Hks).
    + apply keeps_shape_refl.
    + intros [this1 cs1] [k|] Hin Hs; simpl in *; [|by exists (this1, cs1)].
      rewrite Forall_forall in Hms. specialize (Hms _ Hin). simpl in Hms.
      destruct (IH n this1 cs1 k) as (this2 & cs2 & Hrun2 & Hks2);
        [by eapply criteria_ok_keeps|lia|].
      exists (this2, cs2). split; [done|]. simpl. by eapply keeps_shape_trans.
    + by exists this', cs'.
Qed.

Lemma Criteria_Clone_total fuel : ∀ n cs l,
  criteria_ok n cs l → n ≤ fuel →
  ∃ cs' l', Criteria_Clone fuel cs l = Some (cs', l') ∧ cs ⊆ cs' ∧ criteria_ok n cs' l'.
Proof.
  induction fuel as [|fuel IH]; intros n cs l Hok Hle.
  - destruct n; [done|lia].
  - destruct n as [|n]; [done|]. destruct Hok as (tok & Hl & Hq & Hms).
    rewrite Criteria_Clone_S, Hl. simpl.
    set (clone := λ (cs : cstore) (m : option loc),
           match m with
           | None => Some (cs, None)
           | Some k => '(cs', k') ← Criteria_Clone fuel cs k; Some (cs', Some k')
           end).
    assert (Hmap : ∀ ms cs0, cs ⊆ cs0 →
              Forall (λ m, match m with Some k => criteria_ok n cs k | None => True end) ms →
              ∃ cs1 ms', mapM_st clone cs0 ms = Some (cs1, ms') ∧ cs0 ⊆ cs1 ∧
                Forall (λ m, match m with Some k => criteria_ok n cs1 k | None => True end) ms').
    { induction ms as [|m ms IHms]; intros cs0 Hsub Hall; simpl.
      - eexists _, _. split; [reflexivity|]. split; [done|constructor].
      - apply Forall_cons in Hall as [Hm Hall].
        assert (∃ cs1 m', clone cs0 m = Some (cs1, m') ∧ cs0 ⊆ cs1 ∧
                  match m' with Some k => criteria_ok n cs1 k | None => True end)
          as (cs1 & m' & -> & Hsub1 & Hm').
        { destruct m as [k|]; simpl; [|by eexists _, _].
          destruct (IH n cs0 k) as (cs1 & k' & -> & Hsub1 & Hk');
            [eapply criteria_ok_keeps; [by apply keeps_shape_subseteq|done]|lia|].
          simpl. by eexists _, _. }
        simpl.
        destruct (IHms cs1) as (cs2 & ms' & -> & Hsub2 & Hms'); [by etrans|done|].
        simpl. eexists _, _. split; [reflexivity|]. split; [by etrans|].
        constructor; [|done].
        destruct m' as [k|]; [|done].
        eapply criteria_ok_keeps; [by apply keeps_shape_subseteq|done]. }
    destruct (Hmap (Members tok) cs) as (cs1 & ms' & -> & Hsub1 & Hms'); [done..|].
    simpl.
    destruct (alloc cs1 _) as [cs' l'] eqn:Halloc.
    apply alloc_spec in Halloc as [Hfresh ->].
    assert (Hsub' : cs1 ⊆ <[l' := mkToken (Operator tok) (TableAlias tok) (TokValue tok) ms']> cs1)
      by (by apply insert_subseteq).
    eexists _, _. split; [reflexivity|]. split; [by etrans|].
    eexists. rewrite lookup_insert_eq. split; [reflexivity|]. simpl. split; [done|].
    eapply Forall_impl; [exact Hms'|].
    intros [k|]; [|done]. apply criteria_ok_keeps. by apply keeps_shape_subseteq.
Qed.

Lemma And_ok n cs conds cs' l :
  Forall (criteria_ok n cs) conds → And cs conds = (cs', l) →
  cs ⊆ cs' ∧ criteria_ok (S n) cs' l.
Proof.
  intros Hall Hand. unfold And in Hand. apply alloc_spec in Hand as [Hfresh ->].
  assert (Hsub : cs ⊆ <[l := mkToken TOKEN_AND "" (VLit LNil) (Some <$> conds)]> cs)
    by (by apply insert_subseteq).
  split; [done|].
  eexists. rewrite lookup_insert_eq. split; [reflexivity|]. simpl.
  split; [discriminate|].
  apply Forall_fmap. eapply Forall_impl; [exact Hall|].
  intros k Hk. simpl. eapply criteria_ok_keeps; [by apply keeps_shape_subseteq|done].
Qed.

Lemma CTree_height_kid k kids :
  k ∈ kids → CTree_height k ≤ foldr (λ k h, max (CTree_height k) h) 0 kids.
Proof.
  induction kids as [|k' kids IH]; intros Hin; [by apply elem_of_nil in Hin|].
  apply elem_of_cons in Hin as [->|Hin]; simpl; [lia|].
  specialize (IH Hin). lia.
Qed.

Lemma CTree_ok_kid k kids :
  k ∈ kids → foldr (λ k P, CTree_ok k ∧ P) True kids → CTree_ok k.
Proof.
  induction kids as [|k' kids IH]; intros Hin; [by apply elem_of_nil in Hin|].
  apply elem_of_cons in Hin as [->|Hin]; simpl; intros [? ?]; auto.
Qed.

Lemma alloc_tree_ok t : ∀ cs cs' l,
  CTree_ok t → alloc_tree cs t = (cs', l) →
  cs ⊆ cs' ∧ criteria_ok (CTree_height t) cs' l.
Proof.
  induction t as [op a v kids IH] using CTree_ind'. intros cs cs' l [Hq Hkids] Hrun.
  simpl in Hrun.
  set (go := fix go (cs : cstore) (ts : list CTree) {struct ts}
               : cstore * list (option loc) :=
         match ts with
         | [] => (cs, [])
         | t :: ts' =>
             let '(cs1, l) := alloc_tree cs t in
             let '(cs2, ls) := go cs1 ts' in
             (cs2, Some l :: ls)
         end) in Hrun.
  assert (Hgo : ∀ ts cs0 cs1 ms,
            Forall (λ t, ∀ cs cs' l, CTree_ok t → alloc_tree cs t = (cs', l) →
                           cs ⊆ cs' ∧ criteria_ok (CTree_height t) cs' l) ts →
            Forall CTree_ok ts →
            go cs0 ts = (cs1, ms) →
            cs0 ⊆ cs1 ∧
            Forall (λ m, match m with
                         | Some k => criteria_ok (foldr (λ k h, max (CTree_height k) h) 0 ts) cs1 k
                         | None => True
                         end) ms).
  { induction ts as [|t ts IHts]; intros cs0 cs1 ms HIH Hoks Hg; simpl in Hg.
    - inversion Hg; subst. split; [done|constructor].
    - apply Forall_cons in HIH as [Ht HIH]. apply Forall_cons in Hoks as [Hokt Hoks].
      destruct (alloc_tree cs0 t) as [cs2 k] eqn:Ht'.
      destruct (go cs2 ts) as [cs3 ls] eqn:Hts'.
      inversion Hg; subst. clear Hg.
      destruct (Ht _ _ _ Hokt Ht') as [Hsub2 Hk].
      destruct (IHts _ _ _ HIH Hoks Hts') as [Hsub3 Hls].
      split; [by etrans|]. simpl. constructor.
      + eapply criteria_ok_keeps; [by apply keeps_shape_subseteq|].
        eapply criteria_ok_mono; [|exact Hk]. lia.
      + eapply Forall_impl; [exact Hls|]. intros [k'|]; [|done].
        apply criteria_ok_mono. lia. }
  destruct (go cs kids) as [cs1 ms] eqn:Hg.
  apply alloc_spec in Hrun as [Hfresh ->].
  assert (Hoks : Forall CTree_ok kids).
  { apply Forall_forall. intros k Hk. by eapply CTree_ok_kid. }
  destruct (Hgo _ _ _ _ IH Hoks Hg) as [Hsub1 Hms].
  assert (Hsub' : cs1 ⊆ <[l := mkToken op a v ms]> cs1) by (by apply insert_subseteq).
  split; [by etrans|]. simpl.
  eexists. rewrite lookup_insert_eq. split; [reflexivity|]. simpl. split; [done|].
  eapply Forall_impl; [exact Hms|]. intros [k|]; [|done].
  apply criteria_ok_keeps. by apply keeps_shape_subseteq.
Qed.

Lemma mapM_st_total {S A B} (f : S → A → option (S * B)) xs : ∀ s,
  (∀ s x, x ∈ xs → is_Some (f s x)) → is_Some (mapM_st f s xs).
Proof.
  induction xs as [|x xs IH]; intros s Hf; simpl; [done|].
  destruct (Hf s x) as [[s1 y] ->]; [left|]. simpl.
  destruct (IH s1) as [[s2 ys] ->]; [|done].
  intros s' x' Hx'. apply Hf. by right.
Qed.

Lemma buildPathCriterias_normal_total st ps paths : ∀ acc,
  Forall (λ pe, ∃ per base, ps !! pe = Some per ∧ st !! Base per = Some base) paths →
  is_Some (foldM (buildPathCriterias_normal st ps) acc paths).
Proof.
  induction paths as [|pe paths IH]; intros [index pcs] Hall; simpl; [done|].
  apply Forall_cons in Hall as [(per & base & Hper & Hbase) Hall].
  assert (Hstep : is_Some (buildPathCriterias_normal st ps (index, pcs) pe)).
  { unfold buildPathCriterias_normal. rewrite Hper. simpl. rewrite Hbase. done. }
  destruct Hstep as [acc' ->]. simpl. by apply IH.
Qed.

Lemma buildPathCriterias_discriminators_total fuel st ps pe s :
  composable fuel st ps [pe] →
  S (ds_index s) < length (ds_pathCriterias s) →
  is_Some (buildPathCriterias_discriminators fuel st ps s pe).
Proof.
  intros Hready Hlen. apply Forall_cons in Hready as [(per & base & Hper & Hbase & Hds) _].
  unfold buildPathCriterias_discriminators. rewrite Hper. simpl. rewrite Hbase. simpl.
  destruct (Discriminators base) as [discriminators|] eqn:Hd; simpl in *.
  - destruct (lookup_lt_is_Some_2 _ _ Hlen) as [slot ->]. simpl.
    match goal with
    | |- is_Some (mbind _ (mbind _ ?m)) => assert (Hm : is_Some m)
    end.
    { destruct (Table_Equals _ _).
      - apply mapM_st_total. intros cs v _. done.
      - apply mapM_st_total. intros cs v Hv.
        rewrite Forall_forall in Hds. destruct (Hds _ Hv) as [Hok Hh].
        destruct (Discriminator_Criteria cs v) as [cs1 crit] eqn:Hc.
        apply alloc_tree_ok in Hc as [_ Hcrit]; [|done].
        destruct (SetTableAlias_total fuel _ cs1 crit (ds_lastFkAlias s) Hcrit Hh)
          as (cs2 & -> & _).
        done. }
    destruct Hm as [[cs1 crits] ->]. simpl.
    destruct (getAlias _ _). done.
  - destruct (getAlias _ _). done.
Qed.

Lemma buildPathCriterias_discriminators_loop_total fuel st ps paths : ∀ s,
  composable fuel st ps paths →
  ds_index s + length paths < length (ds_pathCriterias s) →
  is_Some (foldM (buildPathCriterias_discriminators fuel st ps) s paths).
Proof.
  induction paths as [|pe paths IH]; intros s Hready Hlen; simpl; [done|].
  apply Forall_cons in Hready as [Hpe Hready].
  destruct (buildPathCriterias_discriminators_total fuel st ps pe s) as [s1 Hs1].
  { by constructor. }
  { simpl in Hlen. lia. }
  rewrite Hs1. simpl.
  destruct (buildPathCriterias_discriminators_loop fuel st ps [pe] s s1)
    as (Hidx & Hl & _).
  { simpl. by rewrite Hs1. }
  apply IH; [done|]. simpl in *. lia.
Qed.

Lemma composable_elements fuel st ps paths :
  composable fuel st ps paths →
  Forall (λ pe, ∃ per base, ps !! pe = Some per ∧ st !! Base per = Some base) paths.
Proof.
  intros Hready. eapply Forall_impl; [exact Hready|].
  intros pe (per & base & ? & ? & _). eauto.
Qed.

(** [buildPathCriterias] returns. *)
Lemma buildPathCriterias_total fuel this st ps cs paths :
  composable fuel st ps paths →
  is_Some (buildPathCriterias fuel this st ps cs paths).
Proof.
  intros Hready. unfold buildPathCriterias.
  destruct (buildPathCriterias_normal_total st ps paths
              (0, replicate (S (length paths)) None)) as [[index pcs] Hrun1].
  { by eapply composable_elements. }
  rewrite Hrun1. simpl.
  apply buildPathCriterias_normal_loop in Hrun1 as (_ & Hlen & _).
  rewrite length_replicate in Hlen.
  destruct (buildPathCriterias_discriminators_loop_total fuel st ps paths
              (mkDiscrState this cs 0 pcs (tableAlias this))) as [s ->]; [done|..].
  - simpl. lia.
  - done.
Qed.

Lemma Association_Clone_total (st : astore) l a :
  st !! l = Some a →
  match FromM2M a, ToM2M a with
  | Some f, Some t => is_Some (st !! f) ∧ is_Some (st !! t)
  | _, _ => True
  end →
  is_Some (Association_Clone st l).
Proof.
  intros Hl Hj. unfold Association_Clone. rewrite Hl. cbn.
  destruct (FromM2M a) as [f|], (ToM2M a) as [t|]; try done.
  destruct Hj as [[fa ->] [ta ->]]. cbn.
  destruct (alloc st fa) as [st1 f']. destruct (alloc st1 ta) as [st2 t']. done.
Qed.

Lemma prepareAssociation_total (st : astore) aliasFrom aliasTo fk :
  is_Some (st !! fk) → is_Some (prepareAssociation st aliasFrom aliasTo (Some fk)).
Proof. intros [a Ha]. unfold prepareAssociation. cbn. rewrite Ha. done. Qed.

Lemma resolve_association_total this (st : astore) lastFk f per base :
  st !! Base per = Some base →
  match FromM2M base, ToM2M base with
  | Some f, Some t => is_Some (st !! f) ∧ is_Some (st !! t)
  | _, _ => True
  end →
  is_Some (resolve_association this st lastFk f per).
Proof.
  intros Hbase Hj.
  destruct (Association_Clone_total st (Base per) base Hbase Hj) as [[st1 d] Hclone].
  unfold resolve_association. rewrite Hclone. cbn.
  destruct (Association_Clone_spec _ _ _ _ Hclone) as (a & Ha & Hsub & Hd & Hshape).
  assert (a = base) by congruence. subst a.
  destruct (if decide (f = 0) then (this, tableAlias this) else getAlias this lastFk)
    as [this1 fkAlias].
  destruct Hshape as [[Hsingle ->]|(bf & bt & fa & ta & f' & t' & Hbf & Hbt & Hfa & Hta &
                                    Hf' & Ht' & Hne & Hdf & Hdt & ->)].
  - rewrite lookup_insert_eq. cbn. rewrite Hsingle.
    destruct (if decide (PreferredAlias per = "") then getAlias this1 (Some d)
              else (setAlias this1 (Some d) (PreferredAlias per), PreferredAlias per))
      as [this2 fkAlias2].
    destruct (prepareAssociation_total (<[d := base]> st) fkAlias fkAlias2 d) as [st2 ->];
      [by rewrite lookup_insert_eq|done].
  - rewrite lookup_insert_eq. cbn.
    destruct (getAlias this1 (Some f')) as [this2 aliasJunction].
    set (st2 := <[d := _]> _).
    destruct (prepareAssociation st2 fkAlias aliasJunction (Some f')) as [st3|] eqn:Hp1.
    2:{ destruct (prepareAssociation_total st2 fkAlias aliasJunction f') as [? Hp]; [|congruence].
        subst st2. rewrite lookup_insert_ne by done. rewrite lookup_insert_ne by done.
        by rewrite lookup_insert_eq. }
    cbn.
    destruct (if decide (PreferredAlias per = "") then getAlias this2 (Some t')
              else (setAlias this2 (Some t') (PreferredAlias per), PreferredAlias per))
      as [this3 fkAlias3].
    destruct (getAlias this3 (Some f')) as [this4 aliasJunction'].
    destruct (prepareAssociation_spec _ _ _ _ _ Hp1) as (fk & afk & Hfk & Hafk & ->).
    destruct (prepareAssociation_total (<[fk := stamped afk fkAlias aliasJunction]> st2)
                aliasJunction' fkAlias3 t') as [st4 ->]; [|done].
    apply (inj Some) in Hfk. subst fk.
    rewrite lookup_insert_ne by done. subst st2.
    rewrite lookup_insert_ne by done. by rewrite lookup_insert_eq.
Qed.

Lemma lookup_cached_total common (this : DmlBase) st ps matches f b :
  (∀ cf, cf ∈ common → resolved this st ps cf) →
  ∃ r m, lookup_cached common ps matches f b = Some (r, m) ∧
    ∀ d, r = Some d → is_Some (reuse_association st d).
Proof.
  intros Hres. unfold lookup_cached.
  destruct (matches && bool_decide (f < length common)) eqn:Hc.
  - apply andb_prop in Hc as [_ Hlt]. apply bool_decide_eq_true in Hlt.
    destruct (lookup_lt_is_Some_2 _ _ Hlt) as [cf Hcf]. rewrite Hcf. cbn.
    destruct (Hres cf) as (cfr & d & lastFk & Hcfr & Hd & Hreuse & _).
    { by eapply list_elem_of_lookup_2. }
    rewrite Hcfr. cbn.
    destruct (Association_Equals (Base cfr) b).
    + eexists _, _. split; [reflexivity|]. intros d' Hd'.
      assert (d' = d) by congruence. subst d'. by eexists.
    + eexists _, _. split; [reflexivity|]. done.
  - eexists _, _. split; [reflexivity|]. done.
Qed.

Lemma addJoin_step_total common s pe per base :
  aj_inv common s →
  aj_paths s !! pe = Some per → aj_assocs s !! Base per = Some base →
  match FromM2M base, ToM2M base with
  | Some f, Some t => is_Some (aj_assocs s !! f) ∧ is_Some (aj_assocs s !! t)
  | _, _ => True
  end →
  is_Some (addJoin_step common s pe).
Proof.
  intros (_ & _ & Hres & _) Hper Hbase Hj. unfold addJoin_step. rewrite Hper. cbn.
  destruct (lookup_cached_total common (aj_this s) (aj_assocs s) (aj_paths s)
              (aj_matches s) (aj_f s) (Base per) Hres) as (r & m & -> & Hreuse).
  cbn. destruct r as [cached|].
  - destruct (Hreuse cached eq_refl) as [lastFk ->]. done.
  - destruct (resolve_association_total (aj_this s) (aj_assocs s) (aj_lastFk s) (aj_f s)
                per base Hbase Hj) as [[[[this1 st1] d] lastFk] ->].
    done.
Qed.

Lemma addJoin_loop_total common : ∀ todo s,
  aj_inv common s → (∀ pe, pe ∈ todo → pe ∉ common) → NoDup todo →
  resolvable (aj_assocs s) (aj_paths s) todo →
  is_Some (foldM (addJoin_step common) s todo).
Proof.
  induction todo as [|pe todo IH]; intros s Hinv Hdisj Hnodup Hready; simpl; [done|].
  apply Forall_cons in Hready as [(per & base & Hper & Hbase & Hj) Hready].
  apply NoDup_cons in Hnodup as [Hpe Hnodup].
  destruct (addJoin_step_total common s pe per base Hinv Hper Hbase Hj) as [s1 Hs1].
  rewrite Hs1. simpl.
  destruct (addJoin_step_inv _ _ _ _ Hs1 Hinv) as [Hinv1 (Hsub & _)].
  { apply Hdisj. by left. }
  destruct (addJoin_step_spec _ _ _ _ Hs1) as (per' & d & Hper' & Hps1 & _).
  apply IH; [done| |done|].
  - intros q Hq. apply Hdisj. by right.
  - unfold resolvable. rewrite Forall_forall in Hready |- *.
    intros q Hq. destruct (Hready q Hq) as (qer & qbase & Hqer & Hqbase & Hqj).
    exists qer, qbase. rewrite Hps1.
    rewrite lookup_insert_ne by (intros ->; done).
    split; [done|]. split; [by eapply lookup_weaken|].
    destruct (FromM2M qbase) as [bf|], (ToM2M qbase) as [bt|]; try done.
    destruct Hqj as [[fa Hfa] [ta Hta]].
    split; eexists; by eapply lookup_weaken.
Qed.

(** [addJoin] returns. *)
Lemma addJoin_total this st ps associations fetch :
  wf_session this st ps → fresh_request this associations →
  resolvable st ps associations →
  is_Some (addJoin this st ps associations None fetch).
Proof.
  intros Hwf [Hnodup Hfresh] Hready. unfold addJoin.
  set (common := slice_list (DeepestCommonPath ps (cachedAssociation this) associations)).
  destruct (addJoin_loop_total common associations
              (mkAddJoinState this st ps None true 0 [])) as [s Hs].
  - by apply addJoin_initial_inv.
  - intros pe Hpe Hin. apply list_elem_of_lookup in Hin as [j Hj].
    destruct (common_in_cache _ _ _ _ _ Hj) as (c & _ & _ & _ & Hc & Hcj & _).
    eapply Hfresh; [exact Hc| |exact Hpe]. by eapply list_elem_of_lookup_2.
  - done.
  - done.
  - rewrite Hs. cbn. destruct (getAlias (aj_this s) (aj_lastFk s)). done.
Qed.

Lemma slots_ok_keeps n cs cs' slots :
  keeps_shape cs cs' → slots_ok n cs slots → slots_ok n cs' slots.
Proof.
  intros Hks Hok. eapply Forall_impl; [exact Hok|].
  intros slot [Hc Hcol].
  split; (eapply Forall_impl; [eassumption|]); intros c; by apply criteria_ok_keeps.
Qed.

Lemma normal_path_criteria_columns per base :
  columns_of (normal_path_criteria per base) = slice_list (Columns per).
Proof.
  unfold normal_path_criteria.
  destruct (Criteria per), (TableCriterias (TableTo base)), (Columns per); reflexivity.
Qed.

Lemma attachable_composable n fuel st ps cs path :
  n ≤ fuel → attachable n st ps cs path → composable fuel st ps path.
Proof.
  intros Hle Hat. eapply Forall_impl; [exact Hat|].
  intros pe (per & base & Hper & Hbase & _ & _ & _ & Hds).
  exists per, base. split; [done|]. split; [done|].
  eapply Forall_impl; [exact Hds|]. intros v [? ?]. split; [done|lia].
Qed.

Lemma buildPathCriterias_normal_ok n st ps cs paths : ∀ acc acc',
  attachable n st ps cs paths →
  foldM (buildPathCriterias_normal st ps) acc paths = Some acc' →
  slots_ok n cs acc.2 → slots_ok n cs acc'.2.
Proof.
  intros acc acc' Hat Hrun Hok.
  eapply (foldM_inv _ (λ acc, slots_ok n cs acc.2)); [exact Hok| |exact Hrun].
  intros [index pcs] pe [index' pcs'] Hpe Hacc Hstep. simpl in *.
  apply buildPathCriterias_normal_spec in Hstep as (per & base & Hper & Hbase & _ & ->).
  unfold attachable in Hat. rewrite Forall_forall in Hat.
  destruct (Hat pe Hpe) as (per' & base' & Hper' & Hbase' & Hc & Hcols & Htcs & _).
  assert (per' = per) by congruence. subst per'.
  assert (base' = base) by congruence. subst base'.
  destruct (normal_path_criteria per base) as [pc|] eqn:Hpc; [|done].
  apply Forall_insert; [done|].
  destruct (normal_path_criteria_spec per base) as [Hcrit _].
  pose proof (normal_path_criteria_columns per base) as Hcolumns.
  rewrite Hpc in Hcrit, Hcolumns. rewrite Hcrit, Hcolumns.
  split; [|done]. by apply Forall_app.
Qed.

Lemma mapM_st_ok {A} n (f : cstore → A → option (cstore * loc)) xs :
  (∀ cs x cs' l, x ∈ xs → f cs x = Some (cs', l) →
     keeps_shape cs cs' ∧ criteria_ok n cs' l) →
  ∀ cs cs' ls, mapM_st f cs xs = Some (cs', ls) →
    keeps_shape cs cs' ∧ Forall (criteria_ok n cs') ls.
Proof.
  induction xs as [|x xs IH]; intros Hf cs cs' ls Hrun; simpl in Hrun.
  - inversion Hrun; subst. split; [apply keeps_shape_refl|constructor].
  - destruct (f cs x) as [[cs1 l]|] eqn:Hx; simpl in Hrun; [|done].
    destruct (mapM_st f cs1 xs) as [[cs2 ls']|] eqn:Hxs; simpl in Hrun; [|done].
    inversion Hrun; subst. clear Hrun.
    destruct (Hf _ _ _ _ (list_elem_of_here _ _) Hx) as [Hks1 Hl].
    destruct (IH (λ cs x cs' l Hin, Hf cs x cs' l (list_elem_of_further _ _ _ Hin))
                 _ _ _ Hxs) as [Hks2 Hls].
    split; [by eapply keeps_shape_trans|].
    constructor; [by eapply criteria_ok_keeps|done].
Qed.

Lemma buildPathCriterias_discriminators_ok n fuel st ps cs0 pe s s' :
  n ≤ fuel → attachable n st ps cs0 [pe] →
  buildPathCriterias_discriminators fuel st ps s pe = Some s' →
  slots_ok n (ds_crits s) (ds_pathCriterias s) →
  keeps_shape (ds_crits s) (ds_crits s') ∧
  slots_ok n (ds_crits s') (ds_pathCriterias s').
Proof.
  intros Hle Hat Hrun Hok.
  apply Forall_cons in Hat as [(per & base & Hper & Hbase & _ & _ & _ & Hds) _].
  unfold buildPathCriterias_discriminators in Hrun.
  rewrite Hper in Hrun. simpl in Hrun. rewrite Hbase in Hrun. simpl in Hrun.
  destruct (Discriminators base) as [discriminators|] eqn:Hd; simpl in *.
  2:{ destruct (getAlias _ _). inversion Hrun; subst. simpl.
      split; [apply keeps_shape_refl|done]. }
  destruct (ds_pathCriterias s !! S (ds_index s)) as [slot|] eqn:Hslot;
    simpl in Hrun; [|done].
  match type of Hrun with
  | mbind _ (mbind _ ?m) = _ => destruct m as [[cs1 crits]|] eqn:Hm
  end; simpl in Hrun; [|done].
  destruct (getAlias _ _) as [this1 a]. inversion Hrun; subst. simpl. clear Hrun.
  assert (Hcrits : keeps_shape (ds_crits s) cs1 ∧ Forall (criteria_ok n cs1) crits).
  { destruct (Table_Equals _ _).
    - eapply mapM_st_ok; [|exact Hm].
      intros cs v cs' l Hv Hf. apply (inj Some) in Hf.
      rewrite Forall_forall in Hds. destruct (Hds _ Hv) as [Hokv Hh].
      apply alloc_tree_ok in Hf as [Hsub Hl]; [|done].
      split; [by apply keeps_shape_subseteq|]. by eapply criteria_ok_mono.
    - eapply mapM_st_ok; [|exact Hm].
      intros cs v cs' l Hv Hf.
      rewrite Forall_forall in Hds. destruct (Hds _ Hv) as [Hokv Hh].
      cbv beta in Hf.
      destruct (Discriminator_Criteria cs v) as [cs2 crit] eqn:Hc.
      apply alloc_tree_ok in Hc as [Hsub Hcrit]; [|done].
      destruct (SetTableAlias_total fuel _ cs2 crit (ds_lastFkAlias s) Hcrit)
        as (cs3 & Hset & Hks); [lia|].
      rewrite Hset in Hf. simpl in Hf. inversion Hf; subst.
      split.
      + eapply keeps_shape_trans; [by apply keeps_shape_subseteq|done].
      + eapply criteria_ok_keeps; [exact Hks|]. by eapply criteria_ok_mono. }
  destruct Hcrits as [Hks Hcrits]. split; [done|].
  apply Forall_insert; [by eapply slots_ok_keeps|].
  unfold slots_ok in Hok. rewrite Forall_forall in Hok.
  destruct (Hok slot) as [Hsc Hscol]; [by eapply list_elem_of_lookup_2|].
  split.
  - rewrite criterias_of_go_append. apply Forall_app. split; [|done].
    eapply Forall_impl; [|intros c; by apply criteria_ok_keeps].
    by destruct slot.
  - simpl. eapply Forall_impl; [|intros c; by apply criteria_ok_keeps].
    by destruct slot.
Qed.

Lemma buildPathCriterias_ok n fuel this st ps cs paths this' cs' pcs :
  n ≤ fuel → attachable n st ps cs paths →
  buildPathCriterias fuel this st ps cs paths = Some (this', cs', pcs) →
  keeps_shape cs cs' ∧ slots_ok n cs' pcs.
Proof.
  intros Hle Hat Hrun. unfold buildPathCriterias in Hrun.
  destruct (foldM (buildPathCriterias_normal st ps) _ paths) as [[index pcs1]|] eqn:Hrun1;
    simpl in Hrun; [|done].
  destruct (foldM (buildPathCriterias_discriminators fuel st ps) _ paths) as [s|] eqn:Hrun2;
    simpl in Hrun; [|done].
  inversion Hrun; subst. clear Hrun.
  apply (buildPathCriterias_normal_ok n _ _ cs) in Hrun1; [|done|].
  2:{ apply (Forall_replicate _ (S (length paths))). split; constructor. }
  simpl in Hrun1.
  eapply (foldM_inv _ (λ s, keeps_shape cs (ds_crits s) ∧
                            slots_ok n (ds_crits s) (ds_pathCriterias s)));
    [| |exact Hrun2].
  - simpl. split; [apply keeps_shape_refl|done].
  - intros s1 pe s2 Hpe [Hks1 Hok1] Hstep.
    destruct (buildPathCriterias_discriminators_ok n fuel st ps cs pe s1 s2)
      as [Hks2 Hok2]; [done| |done|done|].
    { constructor; [|constructor]. unfold attachable in Hat.
      rewrite Forall_forall in Hat. by apply Hat. }
    split; [by eapply keeps_shape_trans|done].
Qed.

Lemma derived_alias_total this (st : astore) per d :
  Derived per = Some d → is_Some (st !! d) → is_Some (derived_alias this st per).
Proof.
  intros Hd [fk Hfk]. unfold derived_alias. rewrite Hd. cbn. rewrite Hfk. cbn.
  destruct (IsMany2Many fk); done.
Qed.

Lemma applyOn_total fuel n this st (ps : pstore) cs chain crit pe per d :
  last chain = Some pe → ps !! pe = Some per →
  Derived per = Some d → is_Some (st !! d) →
  criteria_ok n cs crit → n ≤ fuel →
  ∃ this' cpy cs',
    applyOn fuel this st ps cs chain crit
      = Some (this', <[pe := set_Criteria per (Some cpy)]> ps, cs') ∧
    cs ⊆ cs'.
Proof.
  intros Hlast Hper Hd Hst Hok Hle.
  assert (Hsome : is_Some (applyOn fuel this st ps cs chain crit)).
  { unfold applyOn. rewrite Hlast, Hper. cbn.
    destruct (Criteria_Clone_total fuel n cs crit Hok Hle) as (cs1 & cpy & -> & _ & Hcpy).
    cbn.
    destruct (derived_alias_total this st per d Hd Hst) as [[this1 fkAlias] ->]. cbn.
    destruct (SetTableAlias_total fuel n cs1 cpy fkAlias Hcpy Hle) as (cs2 & -> & Hks).
    cbn.
    destruct (replaceRaw_total fuel n this1 cs2 cpy) as (this2 & cs3 & -> & _);
      [by eapply criteria_ok_keeps|done|].
    done. }
  destruct Hsome as [[[this' ps'] cs'] Hrun].
  destruct (applyOn_frame _ _ _ _ _ _ _ _ _ _ Hrun) as ([Hsub _] & _ & Hattach).
  destruct (Hattach pe Hlast) as (per' & cpy & Hper' & -> & _).
  assert (per' = per) by congruence. subst per'.
  by exists this', cpy, cs'.
Qed.

Lemma applyInclude_total fuel n this st (ps : pstore) cs chain tokens pe per d :
  last chain = Some pe → ps !! pe = Some per →
  Derived per = Some d → is_Some (st !! d) →
  Forall (criteria_ok n cs) tokens → n ≤ fuel →
  ∃ this' cs', applyInclude fuel this st ps cs chain tokens = Some (this', cs') ∧
    keeps_shape cs cs'.
Proof.
  intros Hlast Hper Hd Hst Hok Hle.
  unfold applyInclude. rewrite Hlast, Hper. cbn.
  destruct (derived_alias_total this st per d Hd Hst) as [[this1 fkAlias] ->]. cbn.
  destruct (foldM_total (λ cs token, SetTableAlias fuel cs token fkAlias)
              (keeps_shape cs) tokens cs) as (cs' & -> & Hks).
  - apply keeps_shape_refl.
  - intros cs1 token Hin Hks1. rewrite Forall_forall in Hok.
    destruct (SetTableAlias_total fuel n cs1 token fkAlias) as (cs2 & -> & Hks2);
      [eapply criteria_ok_keeps; [exact Hks1|by apply Hok]|done|].
    exists cs2. split; [done|]. by eapply keeps_shape_trans.
  - cbn. by eexists _, _.
Qed.

Lemma derived_in_insert st (ps : pstore) path pe per c :
  ps !! pe = Some per → derived_in st ps path →
  derived_in st (<[pe := set_Criteria per c]> ps) path.
Proof.
  intros Hper Hin q Hq. destruct (Hin q Hq) as (qer & d & Hqer & Hd & Hst).
  destruct (decide (q = pe)) as [->|Hne].
  - exists (set_Criteria per c), d. rewrite lookup_insert_eq.
    assert (qer = per) by congruence. subst qer. done.
  - exists qer, d. by rewrite lookup_insert_ne.
Qed.

Lemma last_take_elem {A} (l : list A) i x :
  last (take i l) = Some x → x ∈ l.
Proof.
  intros Hlast. apply last_Some in Hlast as [l' Hl'].
  assert (x ∈ take i l) by (rewrite Hl'; apply elem_of_app; right; by left).
  apply elem_of_take in H as (j & Hj & _). by eapply list_elem_of_lookup_2.
Qed.

Lemma attach_slot_total fuel n st path s index slot :
  S n ≤ fuel → 0 < index ≤ length path →
  derived_in st (jt_paths s) path →
  Forall (criteria_ok n (jt_crits s)) (criterias_of slot) →
  Forall (criteria_ok n (jt_crits s)) (columns_of slot) →
  ∃ s', attach_slot fuel st path s index slot = Some s' ∧
    keeps_shape (jt_crits s) (jt_crits s') ∧ derived_in st (jt_paths s') path.
Proof.
  intros Hle Hidx Hder Hcrit Hcols. unfold attach_slot.
  destruct slot as [pc|]; [|exists s; split; [done|]; split; [apply keeps_shape_refl|done]].
  assert (Hlast : ∃ pe, last (take index path) = Some pe ∧ pe ∈ path).
  { destruct (last (take index path)) as [pe|] eqn:Hl.
    - exists pe. split; [done|]. by eapply last_take_elem.
    - apply last_None in Hl. apply (f_equal length) in Hl.
      rewrite length_take in Hl. simpl in Hl. lia. }
  destruct Hlast as (pe & Hlast & Hpe).
  assert (Hfirst : ∃ s1,
    match Criterias pc with
    | Some conds =>
        let '(cs, conjunction) := And (jt_crits s) conds in
        '(this, ps, cs) ←
          applyOn fuel (jt_this s) st (jt_paths s) cs (take index path) conjunction;
        Some (mkJoinToState this ps cs (jt_firstCriterias s))
    | None => Some s
    end = Some s1 ∧
    keeps_shape (jt_crits s) (jt_crits s1) ∧ derived_in st (jt_paths s1) path).
  { simpl in Hcrit. destruct (Criterias pc) as [conds|]; simpl in Hcrit.
    2:{ exists s. split; [done|]. split; [apply keeps_shape_refl|done]. }
    destruct (And (jt_crits s) conds) as [cs1 conj] eqn:Hand.
    destruct (And_ok _ _ _ _ _ Hcrit Hand) as [Hsub1 Hconj].
    destruct (Hder pe Hpe) as (per & d & Hper & Hd & Hst).
    destruct (applyOn_total fuel (S n) (jt_this s) st (jt_paths s) cs1
                (take index path) conj pe per d Hlast Hper Hd Hst Hconj Hle)
      as (this' & cpy & cs' & -> & Hsub2).
    cbn. eexists. split; [reflexivity|]. simpl. split.
    - apply keeps_shape_subseteq. by etrans.
    - by apply derived_in_insert. }
  destruct Hfirst as (s1 & -> & Hks1 & Hder1). cbn.
  simpl in Hcols. destruct (pcColumns pc) as [cols|]; simpl in Hcols.
  2:{ by exists s1. }
  destruct (Hder1 pe Hpe) as (per & d & Hper & Hd & Hst).
  destruct (applyInclude_total fuel n (jt_this s1) st (jt_paths s1) (jt_crits s1)
              (take index path) cols pe per d Hlast Hper Hd Hst)
    as (this' & cs' & -> & Hks2); [|lia|].
  { eapply Forall_impl; [exact Hcols|]. intros c. by apply criteria_ok_keeps. }
  cbn. eexists. split; [reflexivity|]. simpl.
  split; [by eapply keeps_shape_trans|done].
Qed.

Lemma attach_slots_total fuel n st path : ∀ slots s index,
  S n ≤ fuel → 0 < index → index + length slots ≤ S (length path) →
  derived_in st (jt_paths s) path →
  slots_ok n (jt_crits s) slots →
  is_Some (attach_slots fuel st path s index slots).
Proof.
  induction slots as [|slot slots IH]; intros s index Hle Hpos Hlen Hder Hok; simpl;
    [done|].
  apply Forall_cons in Hok as [[Hc Hcol] Hok].
  destruct (attach_slot_total fuel n st path s index slot) as (s1 & -> & Hks & Hder1);
    [done|simpl in Hlen; lia|done..|].
  simpl. apply IH; [done|lia|simpl in Hlen; lia|done|].
  by eapply slots_ok_keeps.
Qed.

Lemma reuse_association_in (st : astore) d lastFk :
  reuse_association st d = Some lastFk → is_Some (st !! d).
Proof.
  unfold reuse_association. destruct (st !! d); [by eexists|done].
Qed.

Lemma addJoin_loop_derived common : ∀ todo s s',
  foldM (addJoin_step common) s todo = Some s' →
  aj_inv common s → (∀ pe, pe ∈ todo → pe ∉ common) →
  derived_in (aj_assocs s') (aj_paths s') todo.
Proof.
  induction todo as [|pe todo IH]; intros s s' Hrun Hinv Hdisj q Hq;
    [by apply elem_of_nil in Hq|].
  simpl in Hrun.
  destruct (addJoin_step common s pe) as [s1|] eqn:Hstep; simpl in Hrun; [|done].
  destruct (addJoin_step_inv _ _ _ _ Hstep Hinv) as [Hinv1 _].
  { apply Hdisj. by left. }
  assert (Hdisj1 : ∀ pe, pe ∈ todo → pe ∉ common).
  { intros r Hr. apply Hdisj. by right. }
  destruct (decide (q ∈ todo)) as [Hin|Hnotin].
  { by apply (IH _ _ Hrun Hinv1 Hdisj1). }
  apply elem_of_cons in Hq as [->|Hq]; [|done].
  destruct (addJoin_loop_inv _ _ _ _ Hrun Hinv1 Hdisj1)
    as (_ & (Hsub & _) & _ & _ & Hsame & _).
  destruct (addJoin_step_spec _ _ _ _ Hstep) as (per & d & Hper & Hps1 & _ & _ & Hcase).
  exists (set_Derived per (Some d)), d.
  rewrite (Hsame _ Hnotin), Hps1, lookup_insert_eq. split; [done|]. split; [done|].
  assert (Hd : is_Some (aj_assocs s1 !! d)).
  { destruct Hcase as [(_ & _ & _ & _ & Hst & Hreuse)|(Hres & _)].
    - rewrite Hst. by eapply reuse_association_in.
    - destruct Hinv as (Hbag & Hlast & _).
      destruct (resolve_association_frame _ _ _ _ _ _ _ _ _ Hres Hbag Hlast)
        as (_ & _ & _ & _ & _ & _ & Hreuse & _).
      by eapply reuse_association_in. }
  destruct Hd as [a Ha]. exists a. by eapply lookup_weaken.
Qed.

(** After [addJoin], every element of the requested path has a derived
    association, and is otherwise as it was. *)
Lemma addJoin_derived this st ps associations fetch this' st' ps' local :
  wf_session this st ps → fresh_request this associations → associations ≠ [] →
  addJoin this st ps associations None fetch = Some (this', st', ps', local) →
  derived_in st' ps' associations ∧
  ∀ q per', ps' !! q = Some per' →
    ∃ per, ps !! q = Some per ∧ per' = set_Derived per (Derived per').
Proof.
  intros Hwf Hfresh Hne Hrun.
  destruct (addJoin_setup _ _ _ _ _ _ _ _ _ Hwf Hfresh Hne Hrun)
    as (s & Hloop & Hinv & Hdisj & -> & -> & _).
  split; [by eapply addJoin_loop_derived|].
  by destruct (addJoin_loop_inv _ _ _ _ Hloop Hinv Hdisj) as (_ & _ & _ & _ & _ & Hshape).
Qed.

Lemma attachable_weaken n (st st' : astore) (ps ps' : pstore) cs path :
  st ⊆ st' →
  (∀ q, q ∈ path → ∃ per', ps' !! q = Some per') →
  (∀ q per', ps' !! q = Some per' →
     ∃ per, ps !! q = Some per ∧ per' = set_Derived per (Derived per')) →
  attachable n st ps cs path → attachable n st' ps' cs path.
Proof.
  intros Hsub Hdom Hshape Hat. unfold attachable in *. rewrite Forall_forall in Hat |- *.
  intros pe Hpe. destruct (Hat pe Hpe) as (per & base & Hper & Hbase & Hrest).
  destruct (Hdom pe Hpe) as [per' Hper'].
  destruct (Hshape _ _ Hper') as (per0 & Hper0 & Heq).
  assert (per0 = per) by congruence. subst per0.
  exists per', base. split; [done|]. rewrite Heq. simpl.
  split; [by eapply lookup_weaken|done].
Qed.

(** [joinTo] returns. *)
Lemma joinTo_total fuel n this st ps cs path fetch :
  wf_session this st ps → fresh_request this path →
  resolvable st ps path → attachable n st ps cs path → S n ≤ fuel →
  is_Some (joinTo fuel this st ps cs path fetch).
Proof.
  intros Hwf Hfresh Hres Hat Hle. unfold joinTo.
  destruct path as [|pe0 path0] eqn:Hpath; [done|]. rewrite <- Hpath in *.
  assert (Hne : path ≠ []) by (by rewrite Hpath).
  destruct (addJoin_total this st ps path fetch Hwf Hfresh Hres)
    as [[[[this1 st1] ps1] local] Hadd].
  rewrite Hadd. cbn.
  destruct (addJoin_derived _ _ _ _ _ _ _ _ _ Hwf Hfresh Hne Hadd) as [Hder Hshape].
  pose proof (addJoin_store_frame _ _ _ _ _ _ _ _ _ _ Hadd) as Hsub.
  assert (Hat1 : attachable n st1 ps1 cs path).
  { eapply attachable_weaken; [exact Hsub| |exact Hshape|exact Hat].
    intros q Hq. destruct (Hder q Hq) as (per' & _ & ? & _). by exists per'. }
  destruct (buildPathCriterias_total fuel this1 st1 ps1 cs path)
    as [[[this2 cs2] pcs] Hbuild].
  { eapply attachable_composable; [|exact Hat1]. lia. }
  rewrite Hbuild. cbn.
  destruct (buildPathCriterias_ok n fuel _ _ _ _ _ _ _ _ ltac:(lia) Hat1 Hbuild)
    as [Hks Hok].
  destruct (buildPathCriterias_spec _ _ _ _ _ _ _ _ _ Hbuild) as (Hlen & H0 & _).
  destruct pcs as [|slot0 slots]; [done|]. simpl in H0. inversion H0; subst slot0.
  simpl. rewrite joinTo_loop_attach by done.
  apply Forall_cons in Hok as [_ Hok].
  destruct (attach_slots_total fuel n st1 path slots
              (mkJoinToState this2 ps1 cs2 None) 1) as [s ->]; try done.
  - lia.
  - simpl in Hlen. lia.
Qed.

Lemma applyWhere_total fuel n this cs restriction :
  criteria_ok n cs restriction → n ≤ fuel →
  is_Some (applyWhere fuel this cs restriction).
Proof.
  intros Hok Hle. unfold applyWhere.
  destruct (Criteria_Clone_total fuel n cs restriction Hok Hle) as (cs1 & token & -> & _ & Htok).
  cbn.
  destruct (replaceRaw_total fuel n this cs1 token Htok Hle) as (this1 & cs2 & -> & Hks).
  cbn.
  destruct (SetTableAlias_total fuel n cs2 token (tableAlias this1)) as (cs3 & -> & _);
    [by eapply criteria_ok_keeps|done|].
  done.
Qed.

(** ** The alias of association-level discriminators *)

(** [SetTableAlias] writes tokens with the alias it is given, and nothing
    else. *)
Lemma SetTableAlias_writes fuel : ∀ cs l a cs',
  SetTableAlias fuel cs l a = Some cs' →
  ∀ k, cs' !! k = cs !! k ∨ ∃ tok, cs' !! k = Some tok ∧ TableAlias tok = a.
Proof.
  induction fuel as [|fuel IH]; intros cs l a cs' Hrun; [done|].
  rewrite SetTableAlias_S in Hrun.
  destruct (cs !! l) as [tok|] eqn:Hl; simpl in Hrun; [|done].
  eapply (foldM_inv _ (λ c, ∀ k, c !! k = cs !! k ∨
                                 ∃ tok, c !! k = Some tok ∧ TableAlias tok = a));
    [| |exact Hrun].
  - intros k. destruct (decide (k = l)) as [->|Hne].
    + right. eexists. rewrite lookup_insert_eq. done.
    + left. by rewrite lookup_insert_ne.
  - intros c [m|] c' _ Hc Hstep k; simpl in Hstep; [|by inversion Hstep; subst].
    destruct (IH _ _ _ _ Hstep k) as [Heq|Hw]; [|by right].
    rewrite Heq. apply Hc.
Qed.

Lemma SetTableAlias_root fuel cs l a cs' :
  SetTableAlias fuel cs l a = Some cs' →
  ∃ tok, cs' !! l = Some tok ∧ TableAlias tok = a.
Proof.
  destruct fuel as [|fuel]; intros Hrun; [done|].
  rewrite SetTableAlias_S in Hrun.
  destruct (cs !! l) as [tok|] eqn:Hl; simpl in Hrun; [|done].
  eapply (foldM_inv _ (λ c, ∃ tok, c !! l = Some tok ∧ TableAlias tok = a));
    [| |exact Hrun].
  - eexists. rewrite lookup_insert_eq. done.
  - intros c [m|] c' _ Hc Hstep; simpl in Hstep; [|by inversion Hstep; subst].
    destruct (SetTableAlias_writes _ _ _ _ _ Hstep l) as [Heq|Hw]; [|done].
    by rewrite Heq.
Qed.

Lemma alloc_tree_root t cs cs' l :
  alloc_tree cs t = (cs', l) →
  ∃ tok, cs' !! l = Some tok ∧
    (Operator tok, TableAlias tok, TokValue tok) = CTree_root t.
Proof.
  destruct t as [op a v kids]. simpl. intros Hrun.
  match type of Hrun with
  | (let '(_, _) := ?g in _) = _ => destruct g as [cs1 ms]
  end.
  apply alloc_spec in Hrun as [_ ->].
  eexists. rewrite lookup_insert_eq. done.
Qed.

(** What the criteria built for the discriminators of one step are: new
    cells, whose root is as the discriminator describes it, or has the
    forced alias. *)
Lemma mapM_st_new {A} (f : cstore → A → option (cstore * loc))
    (Q : A → Token → Prop) xs :
  (∀ cs x cs' l, x ∈ xs → f cs x = Some (cs', l) →
     cs ⊆ cs' ∧ cs !! l = None ∧ ∃ tok, cs' !! l = Some tok ∧ Q x tok) →
  ∀ cs cs' ls, mapM_st f cs xs = Some (cs', ls) →
    cs ⊆ cs' ∧
    Forall2 (λ x l, cs !! l = None ∧ ∃ tok, cs' !! l = Some tok ∧ Q x tok) xs ls.
Proof.
  induction xs as [|x xs IH]; intros Hf cs cs' ls Hrun; simpl in Hrun.
  - inversion Hrun; subst. split; [done|constructor].
  - destruct (f cs x) as [[cs1 l]|] eqn:Hx; simpl in Hrun; [|done].
    destruct (mapM_st f cs1 xs) as [[cs2 ls']|] eqn:Hxs; simpl in Hrun; [|done].
    inversion Hrun; subst. clear Hrun.
    destruct (Hf _ _ _ _ (list_elem_of_here _ _) Hx) as (Hsub1 & Hnew & tok & Htok & HQ).
    destruct (IH (λ cs x cs' l Hin, Hf cs x cs' l (list_elem_of_further _ _ _ Hin))
                 _ _ _ Hxs) as [Hsub2 Hall].
    split; [by etrans|]. constructor.
    + split; [done|]. exists tok. split; [by eapply lookup_weaken|done].
    + eapply Forall2_impl; [exact Hall|].
      intros y k (Hk & tk & Htk & HQk). split; [|by exists tk].
      destruct (cs !! k) as [t0|] eqn:Hk0; [|done].
      by rewrite (lookup_weaken _ _ _ _ Hk0 Hsub1) in Hk.
Qed.

Lemma buildPathCriterias_discriminators_alias fuel st ps s pe s' per base discriminators :
  buildPathCriterias_discriminators fuel st ps s pe = Some s' →
  ps !! pe = Some per → st !! Base per = Some base →
  Discriminators base = Some discriminators →
  ∃ slot crits,
    ds_pathCriterias s !! S (ds_index s) = Some slot ∧
    ds_pathCriterias s'
      = <[S (ds_index s) := Some (mkPathCriteria
                                    (go_append (Criterias (pc_or_new slot)) crits)
                                    (pcColumns (pc_or_new slot)))]> (ds_pathCriterias s) ∧
    Forall2 (λ v c,
               ds_crits s !! c = None ∧
               ∃ tok, ds_crits s' !! c = Some tok ∧
                 if Table_Equals (DiscriminatorTable base) (TableTo base)
                 then (Operator tok, TableAlias tok, TokValue tok)
                      = CTree_root (DiscriminatorCriteria v)
                 else TableAlias tok = ds_lastFkAlias s)
            discriminators crits.
Proof.
  unfold buildPathCriterias_discriminators. intros Hrun Hper Hbase Hd.
  rewrite Hper in Hrun. simpl in Hrun. rewrite Hbase in Hrun. simpl in Hrun.
  rewrite Hd in Hrun.
  destruct (ds_pathCriterias s !! S (ds_index s)) as [slot|] eqn:Hslot;
    simpl in Hrun; [|done].
  match type of Hrun with
  | (?m ≫= _) ≫= _ = _ => destruct m as [[cs crits]|] eqn:Hcrits; simpl in Hrun; [|done]
  end.
  destruct (getAlias (ds_this s) (Derived per)) as [this' a'] eqn:Hget.
  inversion Hrun; subst s'; simpl. clear Hrun.
  exists slot, crits. split; [done|]. split; [done|].
  destruct (Table_Equals (DiscriminatorTable base) (TableTo base)).
  - eapply (mapM_st_new _ (λ v tok, (Operator tok, TableAlias tok, TokValue tok)
                                    = CTree_root (DiscriminatorCriteria v)));
      [|exact Hcrits].
    intros cs0 v cs0' l _ [= Hv].
    destruct (Discriminator_Criteria_extends _ _ _ _ Hv) as [[Hsub _] Hl].
    split; [done|]. split; [apply not_elem_of_dom; set_solver|].
    by apply alloc_tree_root in Hv.
  - eapply (mapM_st_new _ (λ _ tok, TableAlias tok = ds_lastFkAlias s)); [|exact Hcrits].
    intros cs0 v cs0' l _ Hv.
    destruct (Discriminator_Criteria_aliased_extends _ _ _ _ _ _ Hv) as [[Hsub _] Hl].
    split; [done|]. split; [apply not_elem_of_dom; set_solver|].
    cbv beta in Hv. destruct (Discriminator_Criteria cs0 v) as [cs1 crit].
    destruct (SetTableAlias fuel cs1 crit (ds_lastFkAlias s)) as [cs2|] eqn:Hset;
      simpl in Hv; [|done].
    inversion Hv; subst. by eapply SetTableAlias_root.
Qed.

Lemma buildPathCriterias_discriminators_loop_alias fuel st ps : ∀ paths s s',
  foldM (buildPathCriterias_discriminators fuel st ps) s paths = Some s' →
  ∀ j pe per base discriminators,
    paths !! j = Some pe → ps !! pe = Some per → st !! Base per = Some base →
    Discriminators base = Some discriminators →
    ∃ slot crits a,
      ds_pathCriterias s !! (S (ds_index s) + j) = Some slot ∧
      ds_pathCriterias s' !! (S (ds_index s) + j)
        = Some (Some (mkPathCriteria (go_append (Criterias (pc_or_new slot)) crits)
                                     (pcColumns (pc_or_new slot)))) ∧
      forced_aliases (ds_this s) ps (ds_lastFkAlias s) paths !! j = Some a ∧
      Forall2 (λ v c,
                 ds_crits s !! c = None ∧
                 ∃ tok, ds_crits s' !! c = Some tok ∧
                   if Table_Equals (DiscriminatorTable base) (TableTo base)
                   then (Operator tok, TableAlias tok, TokValue tok)
                        = CTree_root (DiscriminatorCriteria v)
                   else TableAlias tok = a)
              discriminators crits.
Proof.
  induction paths as [|pe0 paths IH]; intros s s' Hrun j pe per base discriminators
    Hj Hper Hbase Hd; [done|].
  simpl in Hrun.
  destruct (buildPathCriterias_discriminators fuel st ps s pe0) as [s1|] eqn:Hstep;
    simpl in Hrun; [|done].
  destruct (buildPathCriterias_discriminators_spec _ _ _ _ _ _ Hstep)
    as (per0 & base0 & Hper0 & Hbase0 & Hidx1 & [Hsub1 _] & Hget & Hcase).
  destruct (buildPathCriterias_discriminators_loop _ _ _ _ _ _ Hrun)
    as (_ & _ & [Hsub _] & Hkeep & _).
  destruct j as [|j]; simpl in Hj.
  - inversion Hj; subst pe0. clear Hj.
    destruct (buildPathCriterias_discriminators_alias _ _ _ _ _ _ _ _ _
                Hstep Hper Hbase Hd) as (slot & crits & Hslot & Hpcs1 & Hall).
    exists slot, crits, (ds_lastFkAlias s). rewrite Nat.add_0_r.
    split; [done|]. split.
    + rewrite Hkeep by lia. rewrite Hpcs1. apply list_lookup_insert_eq.
      by eapply lookup_lt_Some.
    + split; [done|].
      eapply Forall2_impl; [exact Hall|].
      intros v c (Hc & tok & Htok & Htail). split; [done|].
      exists tok. split; [by eapply lookup_weaken|done].
  - destruct (IH _ _ Hrun j pe per base discriminators Hj Hper Hbase Hd)
      as (slot & crits & a & Hslot & Hslot' & Ha & Hall).
    rewrite Hidx1 in Hslot, Hslot'.
    replace (S (ds_index s) + S j) with (S (S (ds_index s)) + j) by lia.
    assert (Hold : ds_pathCriterias s !! (S (S (ds_index s)) + j) = Some slot).
    { destruct Hcase as [(_ & Hpcs1 & _)|(slot0 & pc0 & extra & _ & _ & Hpcs1 & _)].
      - by rewrite Hpcs1 in Hslot.
      - rewrite Hpcs1 in Hslot. rewrite list_lookup_insert_ne in Hslot by lia. done. }
    exists slot, crits, a. split; [done|]. split; [done|]. split.
    + simpl. rewrite Hper0. destruct (getAlias (ds_this s) (Derived per0)) as [this1 a1].
      inversion Hget; subst. done.
    + eapply Forall2_impl; [exact Hall|].
      intros v c (Hc & Htok). split; [|done].
      destruct (ds_crits s !! c) as [t0|] eqn:Hc0; [|done].
      by rewrite (lookup_weaken _ _ _ _ Hc0 Hsub1) in Hc.
Qed.

(** The association-level discriminators of step [i] (0-based; slot
    [i + 1]): their criteria are new cells of slot [i + 1], after the
    caller's criteria and the table discriminators of the step; they are as
    the discriminators describe them when the governing table is the
    destination table, and have the alias in force at the step
    otherwise. *)
Lemma buildPathCriterias_discriminator_alias
    fuel this st ps cs paths this' cs' pcs i pe per base discriminators :
  buildPathCriterias fuel this st ps cs paths = Some (this', cs', pcs) →
  paths !! i = Some pe → ps !! pe = Some per → st !! Base per = Some base →
  Discriminators base = Some discriminators →
  ∃ pc crits a,
    pcs !! (i + 1) = Some (Some pc) ∧
    slice_list (Criterias pc)
      = ptr_list (Criteria per) ++ slice_list (TableCriterias (TableTo base)) ++ crits ∧
    forced_aliases this ps (tableAlias this) paths !! i = Some a ∧
    Forall2 (λ v c,
               cs !! c = None ∧
               ∃ tok, cs' !! c = Some tok ∧
                 if Table_Equals (DiscriminatorTable base) (TableTo base)
                 then (Operator tok, TableAlias tok, TokValue tok)
                      = CTree_root (DiscriminatorCriteria v)
                 else TableAlias tok = a)
            discriminators crits.
Proof.
  intros Hrun Hi Hper Hbase Hd. unfold buildPathCriterias in Hrun.
  destruct (foldM (buildPathCriterias_normal st ps) _ paths) as [[index pcs1]|] eqn:Hrun1;
    simpl in Hrun; [|done].
  destruct (foldM (buildPathCriterias_discriminators fuel st ps) _ paths) as [s|] eqn:Hrun2;
    simpl in Hrun; [|done].
  inversion Hrun; subst. clear Hrun.
  destruct (buildPathCriterias_normal_loop _ _ _ _ _ _ _ Hrun1) as (_ & Hlen & _ & Hslots).
  destruct (Hslots i pe Hi) as (per' & base' & Hper' & Hbase' & Hslot1).
  assert (per' = per) by congruence. subst per'.
  assert (base' = base) by congruence. subst base'.
  destruct Hslot1 as (slot1 & Hslot1 & Hcrit1 & _).
  { apply lookup_replicate_2. apply lookup_lt_Some in Hi. lia. }
  destruct (buildPathCriterias_discriminators_loop_alias _ _ _ _ _ _ Hrun2
              i pe per base discriminators Hi Hper Hbase Hd)
    as (slot & crits & a & Hslot & Hslot' & Ha & Hall).
  simpl in *. rewrite Hslot1 in Hslot. inversion Hslot; subst slot. clear Hslot.
  eexists _, crits, a. rewrite Nat.add_1_r. split; [exact Hslot'|].
  split; [|done]. simpl.
  pose proof (criterias_of_go_append (pc_or_new slot1) crits (pcColumns (pc_or_new slot1)))
    as Happ.
  simpl in Happ. rewrite Happ.
  replace (slice_list (Criterias (pc_or_new slot1))) with (criterias_of slot1)
    by (by destruct slot1).
  by rewrite Hcrit1, <- app_assoc.
Qed.

Lemma getAlias_keeps this fk this' a key b :
  getAlias this fk = (this', a) → bag (joinBag this) !! key = Some b →
  bag (joinBag this') !! key = Some b.
Proof.
  intros Hget Hkey. destruct (getAlias_spec _ _ _ _ Hget) as (_ & _ & _ & Hsub & _).
  by eapply lookup_weaken.
Qed.

(** The alias in force is the alias of the base table at the first step,
    and, at a later step, the alias registered for the derived association
    of the previous element when there is one. *)
Lemma forced_aliases_first this ps a pe paths :
  forced_aliases this ps a (pe :: paths) !! 0 = Some a.
Proof. done. Qed.

Lemma forced_aliases_registered ps : ∀ paths this a0 i prev perprev pe b,
  paths !! i = Some prev → paths !! S i = Some pe →
  (∀ q, q ∈ paths → is_Some (ps !! q)) →
  ps !! prev = Some perprev →
  bag (joinBag this) !! Derived perprev = Some b →
  forced_aliases this ps a0 paths !! S i = Some b.
Proof.
  induction paths as [|pe0 paths IH]; intros this a0 i prev perprev pe b Hi HSi Hin Hprev Hb;
    [done|].
  simpl. destruct (Hin pe0) as [per0 Hper0]; [by left|]. rewrite Hper0.
  destruct (getAlias this (Derived per0)) as [this1 a1] eqn:Hget.
  destruct i as [|i]; simpl in Hi.
  - inversion Hi; subst pe0. assert (per0 = perprev) by congruence. subst per0.
    destruct paths as [|pe1 paths]; [done|]. simpl.
    f_equal. unfold getAlias, AliasBag_GetAlias in Hget. rewrite Hb in Hget.
    by inversion Hget.
  - simpl in HSi. eapply IH; [exact Hi|exact HSi| |exact Hprev|].
    + intros q Hq. apply Hin. by right.
    + by eapply getAlias_keeps.
Qed.

(** ** The rewriter on trees with sub-queries *)

Lemma copy_parameters_union this (sub : gmap string Lit) :
  copy_parameters this sub = set_parameters this ((VLit <$> sub) ∪ parameters this).
Proof.
  unfold copy_parameters.
  induction sub as [|name v sub Hname Hfold IH] using map_first_key_ind.
  - rewrite map_fold_empty, fmap_empty, (left_id_L ∅ (∪)). by destruct this.
  - rewrite map_fold_insert_first_key by done. rewrite IH.
    unfold SetParameter. cbn. rewrite fmap_insert, <- insert_union_l. done.
Qed.

(** *** The rewriting on terms, sub-queries included *)

Section rewrite_raw_met.
Variable alias : string.

Lemma rewrite_met_kids_intro kids :
  Forall (λ k, match k with Some t => rewrite_met_facts alias t | None => True end) kids →
  rewrite_met_kids_facts alias kids.
Proof.
  induction kids as [|[k|] kids IH]; intros Hall i i' regs kids' Hrw; simpl in Hrw.
  - inversion Hrw; subst. split; [done|]. split; [done|].
    intros l tok Hin. by apply elem_of_nil in Hin.
  - inversion Hall as [|? ? Hk Hks]; subst.
    destruct (rewrite_raw alias i k) as [[i1 regs1] k'] eqn:Hrk.
    destruct (rewrite_kids (rewrite_raw alias) i1 kids) as [[i2 regs2] kids2] eqn:Hrks.
    inversion Hrw; subst. clear Hrw.
    destruct (Hk _ _ _ _ Hrk) as (Hlen1 & Hleaves1 & Hcells1).
    destruct (IH Hks _ _ _ _ Hrks) as (Hlen2 & Hleaves2 & Hcells2).
    split; [|split].
    + rewrite length_app. simpl. lia.
    + intros [Hl Hls]. destruct (Hleaves1 Hl) as [Hm1 Hz1].
      destruct (Hleaves2 Hls) as [Hm2 Hz2].
      change (raw_met_kids (Some k :: kids)) with (raw_met k + raw_met_kids kids).
      change (raw_nodes_kids (Some k :: kids)) with (raw_nodes k + raw_nodes_kids kids).
      change (raw_nodes_kids (Some k' :: kids2)) with (raw_nodes k' + raw_nodes_kids kids2).
      lia.
    + intros l tok Hin Hop.
      change (met_kids (Some k :: kids)) with (met k ++ met_kids kids) in Hin.
      change (cells_kids (Some k' :: kids2)) with (cells k' ++ cells_kids kids2).
      apply elem_of_app in Hin as [Hin|Hin].
      * destruct (Hcells1 l tok Hin Hop) as (name & Hreg & Hcell).
        exists name. split; apply elem_of_app; by left.
      * destruct (Hcells2 l tok Hin Hop) as (name & Hreg & Hcell).
        exists name. split; apply elem_of_app; by right.
  - inversion Hall as [|? ? Hk Hks]; subst.
    destruct (rewrite_kids (rewrite_raw alias) i kids) as [[i2 regs2] kids2] eqn:Hrks.
    inversion Hrw; subst. clear Hrw.
    by destruct (IH Hks _ _ _ _ Hrks) as (Hlen2 & Hleaves2 & Hcells2).
Qed.

Lemma rewrite_raw_met t : rewrite_met_facts alias t.
Proof.
  induction t as [l op a v kids IH] using HTree_ind'.
  apply rewrite_met_kids_intro in IH.
  intros i i' regs t' Hrw. simpl in Hrw. simpl.
  destruct (decide (op = TOKEN_RAW)) as [Hraw|Hraw].
  - inversion Hrw; subst. clear Hrw. split; [done|]. split.
    + intros [Hleaf _]. rewrite (Hleaf (or_introl eq_refl)). done.
    + intros l' tok Hin Hop. apply list_elem_of_singleton in Hin. inversion Hin; subst.
      eexists. split; [by left|]. by left.
  - destruct (decide (op = TOKEN_SUBQUERY)) as [Hsub|Hsub].
    + inversion Hrw; subst. clear Hrw. split; [done|]. split.
      * intros [Hleaf _]. rewrite (Hleaf (or_intror eq_refl)). done.
      * intros l' tok Hin Hop. apply list_elem_of_singleton in Hin.
        inversion Hin; subst. done.
    + destruct (rewrite_kids (rewrite_raw alias) i kids) as [[i2 regs2] kids2] eqn:Hrks.
      inversion Hrw; subst. clear Hrw.
      destruct (IH _ _ _ _ Hrks) as (Hlen & Hleaves & Hcells).
      split; [done|]. split.
      * intros [_ Hls]. destruct (Hleaves Hls) as [Heq Hzero].
        split; [exact Heq|]. simpl. rewrite decide_False by done. exact Hzero.
      * intros l' tok Hin Hop. apply elem_of_cons in Hin as [Hin|Hin].
        { inversion Hin; subst. done. }
        destruct (Hcells l' tok Hin Hop) as (name & Hreg & Hcell).
        exists name. split; [done|]. by right.
Qed.

Lemma copied_subquery (sub : gmap string Lit) name :
  name ∈ (map_to_list sub).*1 ↔ is_Some (sub !! name).
Proof.
  split.
  - intros ([k v] & -> & Hin)%list_elem_of_fmap. apply elem_of_map_to_list in Hin.
    by exists v.
  - intros [v Hv]. apply list_elem_of_fmap. exists (name, v).
    split; [done|]. by apply elem_of_map_to_list.
Qed.

Lemma params_kids_intro kids :
  Forall (λ k, match k with Some t => params_facts alias t | None => True end) kids →
  params_kids_facts alias kids.
Proof.
  induction kids as [|[k|] kids IH]; intros Hall i p i' regs kids' Hrw; simpl in Hrw.
  - inversion Hrw; subst. simpl. split; [done|]. split.
    { intros name. split; [by left|]. intros [?|[Hin|Hin]]; [done|..];
        by apply elem_of_nil in Hin. }
    split; [done|]. split; [|done].
    intros name v _ Hin. by apply elem_of_nil in Hin.
  - inversion Hall as [|? ? Hk Hks]; subst.
    destruct (rewrite_raw alias i k) as [[i1 regs1] k'] eqn:Hrk.
    destruct (rewrite_kids (rewrite_raw alias) i1 kids) as [[i2 regs2] kids2] eqn:Hrks.
    inversion Hrw; subst. clear Hrw.
    destruct (Hk i p _ _ _ Hrk) as (Hi1 & Hdom1 & Hkeep1 & Hreg1 & Hplain1).
    change (params_after_kids (params_after alias) (i, p) (Some k :: kids))
      with (params_after_kids (params_after alias) (params_after alias (i, p) k) kids).
    destruct (params_after alias (i, p) k) as [j p1]. simpl in Hi1, Hdom1, Hkeep1, Hreg1,
      Hplain1. subst j.
    destruct (IH Hks i1 p1 _ _ _ Hrks) as (Hi2 & Hdom2 & Hkeep2 & Hreg2 & Hplain2).
    change (copied_kids (Some k :: kids)) with (copied k ++ copied_kids kids).
    split; [done|]. split; [|split; [|split]].
    + intros name. rewrite Hdom2, Hdom1, fmap_app, !elem_of_app. tauto.
    + intros name Hn1 Hn2. rewrite fmap_app in Hn1.
      apply not_elem_of_app in Hn1 as [? ?]. apply not_elem_of_app in Hn2 as [? ?].
      rewrite Hkeep2 by done. by apply Hkeep1.
    + intros name v Hnd Hin Hn. rewrite fmap_app in Hnd.
      apply NoDup_app in Hnd as (Hnd1 & Hdisj & Hnd2).
      apply not_elem_of_app in Hn as [? ?].
      apply elem_of_app in Hin as [Hin|Hin]; [|by apply Hreg2].
      rewrite Hkeep2; [by apply Hreg1| |done].
      apply Hdisj. apply list_elem_of_fmap. by exists (name, v).
    + intros [Hc1 Hc2]%app_eq_nil. rewrite Hplain2 by done. rewrite (Hplain1 Hc1).
      by rewrite register_app.
  - inversion Hall as [|? ? Hk Hks]; subst.
    destruct (rewrite_kids (rewrite_raw alias) i kids) as [[i2 regs2] kids2] eqn:Hrks.
    inversion Hrw; subst. clear Hrw.
    by destruct (IH Hks i p _ _ _ Hrks) as (Hi2 & Hdom2 & Hkeep2 & Hreg2 & Hplain2).
Qed.

Lemma params_after_facts t : params_facts alias t.
Proof.
  induction t as [l op a v kids IH] using HTree_ind'.
  apply params_kids_intro in IH.
  intros i p i' regs t' Hrw. simpl in Hrw. simpl.
  destruct (decide (op = TOKEN_RAW)) as [Hraw|Hraw].
  - inversion Hrw; subst. clear Hrw. simpl. split; [done|]. split; [|split; [|split]].
    + intros name. rewrite list_elem_of_singleton.
      destruct (decide (name = raw_name alias (i + 1))) as [->|Hne].
      * rewrite lookup_insert_eq. split; [intros _; right; by left|by eexists].
      * rewrite lookup_insert_ne by done. split; [by left|].
        intros [?|[?|Hin]]; [done|done|by apply elem_of_nil in Hin].
    + intros name Hn _. apply lookup_insert_ne. intros <-. apply Hn. by left.
    + intros name w _ Hin _. apply list_elem_of_singleton in Hin. inversion Hin; subst.
      apply lookup_insert_eq.
    + done.
  - destruct (decide (op = TOKEN_SUBQUERY)) as [Hsub|Hsub].
    + inversion Hrw; subst. clear Hrw. simpl. split; [done|].
      destruct v as [lit|sub]; simpl.
      * split; [|split; [done|split; [|done]]].
        -- intros name. split; [by left|].
           intros [?|[Hin|Hin]]; [done|..]; by apply elem_of_nil in Hin.
        -- intros name w _ Hin. by apply elem_of_nil in Hin.
      * split; [|split; [|split]].
        -- intros name. rewrite copied_subquery, elem_of_nil, lookup_union, lookup_fmap.
           destruct (sub !! name) as [w|], (p !! name) as [w'|]; simpl;
             unfold is_Some; naive_solver.
        -- intros name _ Hn. rewrite copied_subquery in Hn.
           rewrite lookup_union, lookup_fmap.
           destruct (sub !! name) as [w|] eqn:Hs; [exfalso; apply Hn; by eexists|].
           simpl. by destruct (p !! name).
        -- intros name w _ Hin. by apply elem_of_nil in Hin.
        -- intros Hnil. assert (sub = ∅) as ->.
           { apply map_to_list_empty_iff. by apply fmap_nil_inv in Hnil. }
           by rewrite fmap_empty, (left_id_L ∅ (∪)).
    + destruct (rewrite_kids (rewrite_raw alias) i kids) as [[i2 regs2] kids2] eqn:Hrks.
      inversion Hrw; subst. clear Hrw.
      by destruct (IH i p _ _ _ Hrks) as (Hi & Hdom & Hkeep & Hreg & Hplain).
Qed.

End rewrite_raw_met.

(** *** The code against the rewriting on terms, sub-queries included *)

Lemma rewrite_met_Forall alias kids :
  Forall (λ k, match k with Some t => rewrite_met_facts alias t | None => True end) kids.
Proof. induction kids as [|[k|] kids IH]; constructor; try done. apply rewrite_raw_met. Qed.

Lemma params_Forall alias kids :
  Forall (λ k, match k with Some t => params_facts alias t | None => True end) kids.
Proof. induction kids as [|[k|] kids IH]; constructor; try done. apply params_after_facts. Qed.

Lemma rewrite_facts_Forall alias kids :
  Forall (λ k, match k with Some t => rewrite_facts alias t | None => True end) kids.
Proof. induction kids as [|[k|] kids IH]; constructor; try done. apply rewrite_raw_facts. Qed.

Lemma replaceRaw_runs_kids fuel kids :
  Forall (λ k, match k with Some t => replaceRaw_runs t | None => True end) kids →
  ∀ this cs i' regs kids',
    (∀ k, Some k ∈ kids → height k ≤ fuel) →
    repr_kids cs kids → NoDup (cells_kids kids).*1 →
    subqueries_ok_kids kids →
    (- 2 ^ 63 ≤ rawIndex this)%Z →
    (rawIndex this + Z.of_nat (raw_met_kids kids) < 2 ^ 63)%Z →
    rewrite_kids (rewrite_raw (tableAlias this)) (rawIndex this) kids = (i', regs, kids') →
    ∃ cs',
      foldM (visit_member (λ s t, replaceRaw fuel s.1 s.2 t)) (this, cs) (roots kids)
        = Some (with_raw this i'
                  (params_after_kids (params_after (tableAlias this))
                     (rawIndex this, parameters this) kids).2, cs') ∧
      repr_kids cs' kids' ∧ ∀ k, k ∉ (cells_kids kids).*1 → cs' !! k = cs !! k.
Proof.
  induction kids as [|[k|] kids IH];
    intros Hall this cs i' regs kids' Hfuel Hrepr Hnodup Hok Hlo Hhi Hrw; simpl in Hrw.
  - inversion Hrw; subst. exists cs. simpl. by rewrite with_raw_id.
  - inversion Hall as [|? ? Hk Hks]; subst.
    destruct (rewrite_raw (tableAlias this) (rawIndex this) k) as [[i1 regs1] k'] eqn:Hrk.
    destruct (rewrite_kids (rewrite_raw (tableAlias this)) i1 kids)
      as [[i2 regs2] kids2] eqn:Hrks.
    inversion Hrw; subst. clear Hrw.
    change (cells_kids (Some k :: kids)) with (cells k ++ cells_kids kids) in *.
    rewrite fmap_app in Hnodup. apply NoDup_app in Hnodup as (Hnd1 & Hdisj & Hnd2).
    destruct Hok as [Hp Hps].
    change (raw_met_kids (Some k :: kids)) with (raw_met k + raw_met_kids kids) in Hhi.
    destruct (rewrite_raw_facts (tableAlias this) k _ _ _ _ Hrk)
      as (Hroot & Hlocs & Hi1 & _ & _).
    destruct (rewrite_raw_met (tableAlias this) k _ _ _ _ Hrk) as (Hn1 & _).
    destruct (params_after_facts (tableAlias this) k (rawIndex this) (parameters this)
                _ _ _ Hrk) as (Hidx & _).
    destruct (Hk fuel this cs i1 regs1 k') as (cs1 & Hrun1 & Hrepr1 & Hframe1);
      try done.
    { apply Hfuel. by left. }
    { intros l tok Hl. apply Hrepr. apply elem_of_app. by left. }
    { lia. }
    change (params_after_kids (params_after (tableAlias this))
              (rawIndex this, parameters this) (Some k :: kids))
      with (params_after_kids (params_after (tableAlias this))
              (params_after (tableAlias this) (rawIndex this, parameters this) k) kids).
    destruct (params_after (tableAlias this) (rawIndex this, parameters this) k)
      as [j p1]. simpl in Hidx, Hrun1. subst j.
    set (this1 := with_raw this i1 p1) in *.
    destruct (IH Hks this1 cs1 i' regs2 kids2) as (cs2 & Hrun2 & Hrepr2 & Hframe2);
      try done.
    { intros k0 Hk0. apply Hfuel. by right. }
    { intros l tok Hl. rewrite Hframe1.
      - apply Hrepr. apply elem_of_app. by right.
      - intros Hin. apply (Hdisj l Hin). apply list_elem_of_fmap. by exists (l, tok). }
    { simpl. lia. }
    { simpl. lia. }
    exists cs2. split; [|split].
    + change (roots (Some k :: kids)) with (Some (root k) :: roots kids).
      simpl. rewrite Hrun1. simpl. rewrite Hrun2. simpl. done.
    + change (cells_kids (Some k' :: kids2)) with (cells k' ++ cells_kids kids2).
      intros l tok [Hl|Hl]%elem_of_app; [|by apply Hrepr2].
      rewrite Hframe2; [by apply Hrepr1|].
      intros Hin. apply (Hdisj l); [|done]. fold (locs k). rewrite <- Hlocs.
      apply list_elem_of_fmap. by exists (l, tok).
    + intros l Hl. rewrite fmap_app in Hl. rewrite Hframe2, Hframe1; [done| |];
        intros Hin; apply Hl, elem_of_app; [by left|by right].
  - inversion Hall as [|? ? Hk Hks]; subst.
    destruct (rewrite_kids (rewrite_raw (tableAlias this)) (rawIndex this) kids)
      as [[i2 regs2] kids2] eqn:Hrks.
    inversion Hrw; subst. clear Hrw.
    destruct (IH Hks this cs i' regs kids2) as (cs2 & Hrun2 & Hrepr2 & Hframe2); try done.
    { intros k0 Hk0. apply Hfuel. by right. }
    exists cs2. done.
Qed.

Lemma replaceRaw_runs_all t : replaceRaw_runs t.
Proof.
  induction t as [l op a v kids IH] using HTree_ind'.
  intros fuel this cs i' regs t' Hfuel Hrepr Hnodup Hok Hlo Hhi Hrw.
  destruct fuel as [|fuel]; [simpl in Hfuel; lia|].
  assert (Hroot : cs !! l = Some (mkToken op a v (roots kids))).
  { apply Hrepr. by left. }
  simpl in Hrw, Hok, Hhi. rewrite replaceRaw_S. simpl root. rewrite Hroot. simpl.
  destruct (decide (op = TOKEN_RAW)) as [Hraw|Hraw].
  - inversion Hrw; subst. clear Hrw.
    rewrite int_wrap_id by lia. eexists. split; [reflexivity|]. split.
    + intros l' tok [Hl|Hl]%elem_of_cons.
      * inversion Hl; subst. apply lookup_insert_eq.
      * rewrite lookup_insert_ne; [apply Hrepr; by right|].
        intros Heq. subst l'. change (locs (HNode l TOKEN_RAW a v kids))
          with (l :: (cells_kids kids).*1) in Hnodup.
        apply NoDup_cons in Hnodup as [Hl' _]. apply Hl'.
        apply list_elem_of_fmap. by exists (l, tok).
    + intros k Hk. apply lookup_insert_ne. intros <-. apply Hk. by left.
  - destruct (decide (op = TOKEN_SUBQUERY)) as [Hsub|Hsub].
    + inversion Hrw; subst. clear Hrw. destruct v as [lit|sub]; [done|].
      simpl. rewrite copy_parameters_union. exists cs. split; [by destruct this|].
      split; [done|done].
    + destruct (rewrite_kids (rewrite_raw (tableAlias this)) (rawIndex this) kids)
        as [[i2 regs2] kids2] eqn:Hrks.
      inversion Hrw; subst. clear Hrw.
      change (locs (HNode l op a v kids)) with (l :: (cells_kids kids).*1) in *.
      apply NoDup_cons in Hnodup as [Hl Hnd].
      destruct (replaceRaw_runs_kids fuel kids IH this cs i' regs kids2)
        as (cs' & Hrun & Hrepr' & Hframe); try done.
      { intros k Hk. apply height_kid in Hk. simpl in Hfuel. lia. }
      { intros l' tok Hl'. apply Hrepr. by right. }
      exists cs'. split; [done|]. split.
      * destruct (rewrite_kids_facts_intro (tableAlias this) kids
                    (rewrite_facts_Forall _ _) _ _ _ _ Hrks) as (Hroots & _).
        intros l' tok [Hl'|Hl']%elem_of_cons; [|by apply Hrepr'].
        inversion Hl'; subst. rewrite Hroots, Hframe; done.
      * intros k Hk. apply Hframe. intros Hin. apply Hk. by right.
Qed.

(** When raw-literal and sub-query tokens are leaves, [replaceRaw] meets
    every cell of the tree. *)
Lemma leaves_met t : leaves t → met t = cells t.
Proof.
  induction t as [l op a v kids IH] using HTree_ind'.
  intros [Hleaf Hls]. simpl. f_equal.
  destruct (decide (op = TOKEN_RAW)) as [Hraw|Hraw].
  { by rewrite (Hleaf (or_introl Hraw)). }
  destruct (decide (op = TOKEN_SUBQUERY)) as [Hsub|Hsub].
  { by rewrite (Hleaf (or_intror Hsub)). }
  clear Hleaf. induction kids as [|[k|] kids IHk]; [done|..];
    inversion IH as [|? ? Hk Hks]; subst; simpl.
  - destruct Hls as [Hl Hls]. by rewrite (Hk Hl), (IHk Hks Hls).
  - by apply IHk.
Qed.

(** C3, as amended.  For a criteria whose cells form a tree, whose
    sub-query tokens hold a query, and as long as the counter does not
    overflow, [replaceRaw] returns.  With [n] the number of raw-literal nodes
    that it meets (all of them when raw-literal and sub-query tokens have no
    members, which are not visited), it makes exactly [n] registrations under
    the [n] pairwise distinct names [tableAlias_R(c+1)], ...,
    [tableAlias_R(c+n)], [c] being the counter before the call, and it copies
    the parameters of the sub-queries that it meets: the keys of the
    parameter map are those it had, the [n] names and the names of these
    parameters; a registration is in the map unless a sub-query parameter has
    its name; without sub-query parameters the map is the old one with the
    registrations, and has exactly [n] more entries when none of the names
    was a key of it before.  Every raw-literal node met has become a
    bound-parameter node whose value is the name under which its literal was
    registered, and no raw-literal node is left when raw-literal and
    sub-query tokens have no members. *)
Theorem replaceRaw_registers_raw_literals fuel this cs t :
  repr cs t → NoDup (locs t) → subqueries_ok t → height t ≤ fuel →
  (- 2 ^ 63 ≤ rawIndex this)%Z →
  (rawIndex this + Z.of_nat (raw_met t) < 2 ^ 63)%Z →
  ∃ this' cs' regs t',
    replaceRaw fuel this cs (root t) = Some (this', cs') ∧
    rewrite_raw (tableAlias this) (rawIndex this) t = (rawIndex this', regs, t') ∧
    length regs = raw_met t ∧
    regs.*1 = (λ k : nat, raw_name (tableAlias this) (rawIndex this + Z.of_nat (S k)))
                <$> seq 0 (raw_met t) ∧
    NoDup regs.*1 ∧
    rawIndex this' = (rawIndex this + Z.of_nat (raw_met t))%Z ∧
    parameters this'
      = (params_after (tableAlias this) (rawIndex this, parameters this) t).2 ∧
    (∀ name, is_Some (parameters this' !! name) ↔
       is_Some (parameters this !! name) ∨ name ∈ regs.*1 ∨ name ∈ copied t) ∧
    (∀ name, name ∉ regs.*1 → name ∉ copied t →
       parameters this' !! name = parameters this !! name) ∧
    (∀ name v, (name, v) ∈ regs → name ∉ copied t →
       parameters this' !! name = Some v) ∧
    (copied t = [] →
       parameters this' = register (parameters this) regs ∧
       ((∀ name, name ∈ regs.*1 → parameters this !! name = None) →
        size (parameters this') = size (parameters this) + raw_met t)) ∧
    (∀ l tok, (l, tok) ∈ met t → Operator tok = TOKEN_RAW →
       ∃ name, (name, TokValue tok) ∈ regs ∧
         cs' !! l = Some (mkToken TOKEN_PARAM (TableAlias tok) (VLit (LStr name))
                            (Members tok))) ∧
    repr cs' t' ∧ locs t' = locs t ∧
    (leaves t → met t = cells t ∧ raw_met t = raw_nodes t ∧ raw_nodes t' = 0) ∧
    (∀ k, k ∉ locs t → cs' !! k = cs !! k).
Proof.
  intros Hrepr Hnodup Hok Hfuel Hlo Hhi.
  destruct (rewrite_raw (tableAlias this) (rawIndex this) t) as [[i' regs] t'] eqn:Hrw.
  destruct (replaceRaw_runs_all t fuel this cs i' regs t') as (cs' & Hrun & Hrepr' & Hframe);
    try done.
  destruct (rewrite_raw_facts (tableAlias this) t _ _ _ _ Hrw)
    as (Hroot & Hlocs & Hi' & Hnames & _).
  destruct (rewrite_raw_met (tableAlias this) t _ _ _ _ Hrw) as (Hlen & Hleaves & Hcells).
  destruct (params_after_facts (tableAlias this) t (rawIndex this) (parameters this)
              _ _ _ Hrw) as (_ & Hdom & Hkeep & Hreg & Hplain).
  assert (Hnd : NoDup regs.*1) by (rewrite Hnames; apply raw_names_NoDup).
  eexists _, cs', regs, t'. split; [exact Hrun|]. simpl.
  split; [done|]. split; [done|].
  split; [by rewrite <- Hlen|]. split; [done|]. split; [lia|]. split; [done|].
  split; [done|]. split; [done|].
  split; [intros name v Hin Hn; by apply Hreg|].
  split.
  { intros Hc. rewrite (Hplain Hc). split; [done|].
    intros Hfresh. rewrite <- Hlen. by apply register_size. }
  split.
  { intros l tok Hin Hop. destruct (Hcells l tok Hin Hop) as (name & Hin' & Hcell).
    exists name. split; [done|]. by apply Hrepr'. }
  split; [done|]. split; [done|]. split; [|done].
  intros Hl. split; [by apply leaves_met|]. by apply Hleaves.
Qed.
(** ** Copies and alias rewriting on trees *)

Lemma realias_facts a t :
  root (realias a t) = root t ∧ locs (realias a t) = locs t ∧
  height (realias a t) = height t ∧ raw_met (realias a t) = raw_met t ∧
  (subqueries_ok t → subqueries_ok (realias a t)).
Proof.
  induction t as [l op a0 v kids IH] using HTree_ind'.
  assert (Hkids : roots (realias_kids a kids) = roots kids ∧
                  (cells_kids (realias_kids a kids)).*1 = (cells_kids kids).*1 ∧
                  height_kids (realias_kids a kids) = height_kids kids ∧
                  raw_met_kids (realias_kids a kids) = raw_met_kids kids ∧
                  (subqueries_ok_kids kids → subqueries_ok_kids (realias_kids a kids))).
  { induction kids as [|[k|] kids IHk]; [done|..]; inversion IH as [|? ? Hk Hks]; subst.
    - destruct Hk as (Hr & Hl & Hh & Hm & Hs).
      destruct (IHk Hks) as (Hrs & Hls & Hhs & Hms & Hss).
      split; [|split; [|split; [|split]]].
      + change (Some (root (realias a k)) :: roots (realias_kids a kids)
                = Some (root k) :: roots kids). by rewrite Hr, Hrs.
      + change ((cells (realias a k) ++ cells_kids (realias_kids a kids)).*1
                = (cells k ++ cells_kids kids).*1).
        rewrite !fmap_app. unfold locs in Hl. by rewrite Hl, Hls.
      + change (max (height (realias a k)) (height_kids (realias_kids a kids))
                = max (height k) (height_kids kids)). by rewrite Hh, Hhs.
      + change (raw_met (realias a k) + raw_met_kids (realias_kids a kids)
                = raw_met k + raw_met_kids kids). by rewrite Hm, Hms.
      + intros [H1 H2]. split; [by apply Hs|by apply Hss].
    - destruct (IHk Hks) as (Hrs & Hls & Hhs & Hms & Hss).
      split; [|split; [|split; [|split]]];
        [change (None :: roots (realias_kids a kids) = None :: roots kids); by rewrite Hrs
        |exact Hls|exact Hhs|exact Hms|exact Hss]. }
  destruct Hkids as (Hrs & Hls & Hhs & Hms & Hss).
  split; [done|]. split; [|split; [|split]].
  - change ((l :: (cells_kids (realias_kids a kids)).*1) = l :: (cells_kids kids).*1).
    by rewrite Hls.
  - change (S (height_kids (realias_kids a kids)) = S (height_kids kids)). by rewrite Hhs.
  - simpl. destruct (decide (op = TOKEN_RAW)); [done|].
    destruct (decide (op = TOKEN_SUBQUERY)); [done|]. exact Hms.
  - simpl. destruct (decide (op = TOKEN_RAW)); [done|].
    destruct (decide (op = TOKEN_SUBQUERY)); [done|]. exact Hss.
Qed.

Lemma roots_realias a kids : roots (realias_kids a kids) = roots kids.
Proof.
  induction kids as [|[k|] kids IH]; [done|..].
  - change (Some (root (realias a k)) :: roots (realias_kids a kids)
            = Some (root k) :: roots kids).
    rewrite IH. by destruct (realias_facts a k) as [-> _].
  - change (None :: roots (realias_kids a kids) = None :: roots kids). by rewrite IH.
Qed.

Lemma shape_facts t : ∀ t1, shape t1 = shape t →
  height t1 = height t ∧ raw_met t1 = raw_met t ∧ (subqueries_ok t → subqueries_ok t1).
Proof.
  induction t as [l op a v kids IH] using HTree_ind'.
  intros [l1 op1 a1 v1 kids1] Heq. simpl in Heq. inversion Heq as [[Hop Ha Hv Hkids]].
  subst op1 a1 v1. clear Heq.
  assert (Hk : height_kids kids1 = height_kids kids ∧
               raw_met_kids kids1 = raw_met_kids kids ∧
               (subqueries_ok_kids kids → subqueries_ok_kids kids1)).
  { revert kids1 Hkids.
    induction kids as [|[k|] kids IHk]; intros [|[k1|] kids1] Hkids; try done;
      inversion IH as [|? ? Hk Hks]; subst; simpl in Hkids.
    - injection Hkids as Hs Hss. destruct (Hk k1 Hs) as (Hh & Hm & Hok).
      destruct (IHk Hks kids1 Hss) as (Hhs & Hms & Hoks).
      split; [|split].
      + change (max (height k1) (height_kids kids1) = max (height k) (height_kids kids)).
        by rewrite Hh, Hhs.
      + change (raw_met k1 + raw_met_kids kids1 = raw_met k + raw_met_kids kids).
        by rewrite Hm, Hms.
      + intros [H1 H2]. split; [by apply Hok|by apply Hoks].
    - injection Hkids as Hss. exact (IHk Hks kids1 Hss). }
  destruct Hk as (Hhs & Hms & Hoks).
  split; [|split].
  - change (S (height_kids kids1) = S (height_kids kids)). by rewrite Hhs.
  - simpl. destruct (decide (op = TOKEN_RAW)); [done|].
    destruct (decide (op = TOKEN_SUBQUERY)); [done|]. exact Hms.
  - simpl. destruct (decide (op = TOKEN_RAW)); [done|].
    destruct (decide (op = TOKEN_SUBQUERY)); [done|]. exact Hoks.
Qed.

Lemma repr_in_dom cs t k : repr cs t → k ∈ locs t → is_Some (cs !! k).
Proof.
  intros Hrepr ([l tok] & -> & Hin)%list_elem_of_fmap. exists tok. by apply Hrepr.
Qed.

Lemma repr_kids_in_dom cs kids k :
  repr_kids cs kids → k ∈ (cells_kids kids).*1 → is_Some (cs !! k).
Proof.
  intros Hrepr ([l tok] & -> & Hin)%list_elem_of_fmap. exists tok. by apply Hrepr.
Qed.

Lemma Criteria_Clone_kids fuel kids :
  Forall (λ k, match k with
               | Some t => ∀ cs, height t ≤ fuel → repr cs t →
                   ∃ cs1 t1, Criteria_Clone fuel cs (root t) = Some (cs1, root t1) ∧
                     copy_of cs t t1 ∧ repr cs1 t1 ∧ cs ⊆ cs1
               | None => True
               end) kids →
  ∀ cs, (∀ k, Some k ∈ kids → height k ≤ fuel) → repr_kids cs kids →
    ∃ cs1 kids1,
      mapM_st (λ cs m,
                 match m with
                 | None => Some (cs, None)
                 | Some k => '(cs', k') ← Criteria_Clone fuel cs k; Some (cs', Some k')
                 end) cs (roots kids) = Some (cs1, roots kids1) ∧
      shape_kids kids1 = shape_kids kids ∧ NoDup (cells_kids kids1).*1 ∧
      (∀ k, k ∈ (cells_kids kids1).*1 → cs !! k = None) ∧
      repr_kids cs1 kids1 ∧ cs ⊆ cs1.
Proof.
  induction kids as [|[k|] kids IH]; intros Hall cs Hfuel Hrepr.
  - exists cs, []. split; [done|]. split; [done|]. split; [constructor|].
    split; [intros k Hk; by apply elem_of_nil in Hk|]. done.
  - inversion Hall as [|? ? Hk Hks]; subst.
    destruct (Hk cs) as (cs1 & k1 & Hrun1 & (Hshape1 & Hnd1 & Hnew1) & Hrepr1 & Hsub1).
    { apply Hfuel. by left. }
    { intros l tok Hl. apply Hrepr. apply elem_of_app. by left. }
    destruct (IH Hks cs1) as (cs2 & kids2 & Hrun2 & Hshape2 & Hnd2 & Hnew2 & Hrepr2 & Hsub2).
    { intros k0 Hk0. apply Hfuel. by right. }
    { intros l tok Hl. apply (lookup_weaken cs); [|done]. apply Hrepr.
      apply elem_of_app. by right. }
    exists cs2, (Some k1 :: kids2).
    change (roots (Some k :: kids)) with (Some (root k) :: roots kids).
    change (roots (Some k1 :: kids2)) with (Some (root k1) :: roots kids2).
    change (cells_kids (Some k1 :: kids2)) with (cells k1 ++ cells_kids kids2).
    split; [|split; [|split; [|split; [|split]]]].
    + simpl. rewrite Hrun1. simpl. rewrite Hrun2. done.
    + change (Some (shape k1) :: shape_kids kids2 = Some (shape k) :: shape_kids kids).
      by rewrite Hshape1, Hshape2.
    + rewrite fmap_app. apply NoDup_app. split; [done|]. split; [|done].
      intros l Hl1 Hl2. destruct (repr_in_dom cs1 k1 l Hrepr1 Hl1) as [tok Htok].
      rewrite (Hnew2 l Hl2) in Htok. done.
    + intros l Hl. rewrite fmap_app in Hl. apply elem_of_app in Hl as [Hl|Hl].
      * by apply Hnew1.
      * specialize (Hnew2 l Hl). destruct (cs !! l) as [tok|] eqn:Hc; [|done].
        by rewrite (lookup_weaken _ _ _ _ Hc Hsub1) in Hnew2.
    + intros l tok [Hl|Hl]%elem_of_app; [|by apply Hrepr2].
      apply (lookup_weaken cs1); [|done]. by apply Hrepr1.
    + by transitivity cs1.
  - inversion Hall as [|? ? Hk Hks]; subst.
    destruct (IH Hks cs) as (cs2 & kids2 & Hrun2 & Hshape2 & Hnd2 & Hnew2 & Hrepr2 & Hsub2).
    { intros k0 Hk0. apply Hfuel. by right. }
    { done. }
    exists cs2, (None :: kids2).
    change (roots (None :: kids)) with (None :: roots kids).
    change (roots (None :: kids2)) with (None :: roots kids2).
    split; [|split; [|done]].
    + simpl. rewrite Hrun2. done.
    + change (None :: shape_kids kids2 = None :: shape_kids kids). by rewrite Hshape2.
Qed.

(** [Criteria.Clone] of a criteria that the store holds makes a copy of it
    in new cells, and changes no cell. *)
Lemma Criteria_Clone_tree t : ∀ fuel cs,
  height t ≤ fuel → repr cs t →
  ∃ cs1 t1, Criteria_Clone fuel cs (root t) = Some (cs1, root t1) ∧
    copy_of cs t t1 ∧ repr cs1 t1 ∧ cs ⊆ cs1.
Proof.
  induction t as [l op a v kids IH] using HTree_ind'.
  intros fuel cs Hfuel Hrepr.
  destruct fuel as [|fuel]; [simpl in Hfuel; lia|].
  assert (Hroot : cs !! l = Some (mkToken op a v (roots kids))).
  { apply Hrepr. by left. }
  destruct (Criteria_Clone_kids fuel kids) with (cs := cs)
    as (cs1 & kids1 & Hrun & Hshape & Hnd & Hnew & Hrepr1 & Hsub).
  { eapply Forall_impl; [exact IH|]. intros [k|] Hk; [|done]. intros cs0. apply Hk. }
  { intros k Hk. apply height_kid in Hk. simpl in Hfuel. lia. }
  { intros l' tok Hl'. apply Hrepr. by right. }
  rewrite Criteria_Clone_S. simpl root. rewrite Hroot. simpl. rewrite Hrun. simpl.
  set (l1 := fresh (dom cs1)).
  assert (Hl1 : cs1 !! l1 = None) by (apply not_elem_of_dom, is_fresh).
  exists (<[l1 := mkToken op a v (roots kids1)]> cs1), (HNode l1 op a v kids1).
  split; [done|]. split; [split; [|split]|split].
  - simpl. fold (shape_kids kids1). fold (shape_kids kids). by rewrite Hshape.
  - change (NoDup (l1 :: (cells_kids kids1).*1)). apply NoDup_cons. split; [|done].
    intros Hin. destruct (repr_kids_in_dom cs1 kids1 l1 Hrepr1 Hin) as [tok Htok].
    by rewrite Hl1 in Htok.
  - intros k Hk. change (k ∈ l1 :: (cells_kids kids1).*1) in Hk.
    apply elem_of_cons in Hk as [->|Hk]; [|by apply Hnew].
    destruct (cs !! l1) as [tok|] eqn:Hc; [|done].
    by rewrite (lookup_weaken _ _ _ _ Hc Hsub) in Hl1.
  - intros l' tok [Hl'|Hl']%elem_of_cons.
    + inversion Hl'; subst. apply lookup_insert_eq.
    + rewrite lookup_insert_ne; [by apply Hrepr1|].
      intros <-. rewrite (Hrepr1 _ _ Hl') in Hl1. done.
  - transitivity cs1; [done|]. by apply insert_subseteq.
Qed.

Lemma SetTableAlias_kids fuel a kids :
  Forall (λ k, match k with
               | Some t => ∀ cs, height t ≤ fuel → repr cs t → NoDup (locs t) →
                   ∃ cs', SetTableAlias fuel cs (root t) a = Some cs' ∧
                     repr cs' (realias a t) ∧ ∀ k, k ∉ locs t → cs' !! k = cs !! k
               | None => True
               end) kids →
  ∀ cs, (∀ k, Some k ∈ kids → height k ≤ fuel) → repr_kids cs kids →
    NoDup (cells_kids kids).*1 →
    ∃ cs',
      foldM (visit_member (λ cs k, SetTableAlias fuel cs k a)) cs (roots kids) = Some cs' ∧
      repr_kids cs' (realias_kids a kids) ∧
      ∀ k, k ∉ (cells_kids kids).*1 → cs' !! k = cs !! k.
Proof.
  induction kids as [|[k|] kids IH]; intros Hall cs Hfuel Hrepr Hnodup.
  - exists cs. done.
  - inversion Hall as [|? ? Hk Hks]; subst.
    change (cells_kids (Some k :: kids)) with (cells k ++ cells_kids kids) in *.
    rewrite fmap_app in Hnodup. apply NoDup_app in Hnodup as (Hnd1 & Hdisj & Hnd2).
    destruct (Hk cs) as (cs1 & Hrun1 & Hrepr1 & Hframe1); [..|done|].
    { apply Hfuel. by left. }
    { intros l tok Hl. apply Hrepr. apply elem_of_app. by left. }
    destruct (IH Hks cs1) as (cs2 & Hrun2 & Hrepr2 & Hframe2); [..|done|].
    { intros k0 Hk0. apply Hfuel. by right. }
    { intros l tok Hl. rewrite Hframe1.
      - apply Hrepr. apply elem_of_app. by right.
      - intros Hin. apply (Hdisj l Hin). apply list_elem_of_fmap. by exists (l, tok). }
    exists cs2. split; [|split].
    + change (roots (Some k :: kids)) with (Some (root k) :: roots kids).
      simpl. rewrite Hrun1. simpl. exact Hrun2.
    + change (realias_kids a (Some k :: kids))
        with (Some (realias a k) :: realias_kids a kids).
      change (cells_kids (Some (realias a k) :: realias_kids a kids))
        with (cells (realias a k) ++ cells_kids (realias_kids a kids)).
      intros l tok [Hl|Hl]%elem_of_app; [|by apply Hrepr2].
      rewrite Hframe2; [by apply Hrepr1|].
      intros Hin. apply (Hdisj l); [|done].
      destruct (realias_facts a k) as (_ & Hlocs & _). unfold locs in Hlocs.
      rewrite <- Hlocs. apply list_elem_of_fmap. by exists (l, tok).
    + intros l Hl. rewrite fmap_app in Hl. rewrite Hframe2, Hframe1; [done| |];
        intros Hin; apply Hl, elem_of_app; [by left|by right].
  - inversion Hall as [|? ? Hk Hks]; subst.
    destruct (IH Hks cs) as (cs2 & Hrun2 & Hrepr2 & Hframe2); try done.
    { intros k0 Hk0. apply Hfuel. by right. }
    exists cs2. done.
Qed.

(** [SetTableAlias] on a tree that the store holds sets the alias of every
    node of the tree, and changes no other cell. *)
Lemma SetTableAlias_tree a t : ∀ fuel cs,
  height t ≤ fuel → repr cs t → NoDup (locs t) →
  ∃ cs', SetTableAlias fuel cs (root t) a = Some cs' ∧
    repr cs' (realias a t) ∧ ∀ k, k ∉ locs t → cs' !! k = cs !! k.
Proof.
  induction t as [l op a0 v kids IH] using HTree_ind'.
  intros fuel cs Hfuel Hrepr Hnodup.
  destruct fuel as [|fuel]; [simpl in Hfuel; lia|].
  assert (Hroot : cs !! l = Some (mkToken op a0 v (roots kids))).
  { apply Hrepr. by left. }
  change (locs (HNode l op a0 v kids)) with (l :: (cells_kids kids).*1) in *.
  apply NoDup_cons in Hnodup as [Hl Hnd].
  rewrite SetTableAlias_S. simpl root. rewrite Hroot. simpl.
  destruct (SetTableAlias_kids fuel a kids)
    with (cs := <[l := mkToken op a v (roots kids)]> cs)
    as (cs' & Hrun & Hrepr' & Hframe); [..|done|].
  { eapply Forall_impl; [exact IH|]. intros [k|] Hk; [|done]. intros cs0. apply Hk. }
  { intros k Hk. apply height_kid in Hk. simpl in Hfuel. lia. }
  { intros l' tok Hl'. rewrite lookup_insert_ne.
    - apply Hrepr. by right.
    - intros <-. apply Hl. apply list_elem_of_fmap. by exists (l, tok). }
  exists cs'. split; [done|]. split.
  - change (realias a (HNode l op a0 v kids)) with (HNode l op a v (realias_kids a kids)).
    intros l' tok [Hl'|Hl']%elem_of_cons; [|by apply Hrepr'].
    inversion Hl'; subst. fold (realias_kids a kids).
    rewrite roots_realias, Hframe by done. apply lookup_insert_eq.
  - intros k Hk. rewrite Hframe.
    + apply lookup_insert_ne. intros <-. apply Hk. by left.
    + intros Hin. apply Hk. by right.
Qed.

Lemma rewrite_raw_height alias t : ∀ i i' regs t',
  rewrite_raw alias i t = (i', regs, t') → height t' = height t.
Proof.
  induction t as [l op a v kids IH] using HTree_ind'.
  intros i i' regs t' Hrw. simpl in Hrw.
  destruct (decide (op = TOKEN_RAW)); [by inversion Hrw|].
  destruct (decide (op = TOKEN_SUBQUERY)); [by inversion Hrw|].
  destruct (rewrite_kids (rewrite_raw alias) i kids) as [[i2 regs2] kids2] eqn:Hrks.
  inversion Hrw; subst. clear Hrw.
  change (S (height_kids kids2) = S (height_kids kids)). f_equal.
  revert i i' regs kids2 Hrks.
  induction kids as [|[k|] kids IHk]; intros i i' regs kids2 Hrks; simpl in Hrks.
  - by inversion Hrks.
  - inversion IH as [|? ? Hk Hks]; subst.
    destruct (rewrite_raw alias i k) as [[i1 regs1] k'] eqn:Hrk.
    destruct (rewrite_kids (rewrite_raw alias) i1 kids) as [[i3 regs3] kids3] eqn:Hrks3.
    inversion Hrks; subst.
    change (max (height k') (height_kids kids3) = max (height k) (height_kids kids)).
    by rewrite (Hk _ _ _ _ Hrk), (IHk Hks _ _ _ _ Hrks3).
  - inversion IH as [|? ? Hk Hks]; subst.
    destruct (rewrite_kids (rewrite_raw alias) i kids) as [[i3 regs3] kids3] eqn:Hrks3.
    inversion Hrks; subst. exact (IHk Hks _ _ _ _ Hrks3).
Qed.

Lemma derived_alias_same this st per this1 a :
  derived_alias this st per = Some (this1, a) →
  tableAlias this1 = tableAlias this ∧ rawIndex this1 = rawIndex this ∧
  parameters this1 = parameters this ∧ criteria this1 = criteria this.
Proof.
  unfold derived_alias, getAlias. intros Hrun.
  destruct (Derived per) as [pfk|]; [|done]. simpl in Hrun.
  destruct (st !! pfk) as [fk|]; [|done]. simpl in Hrun.
  destruct (IsMany2Many fk).
  - destruct (AliasBag_GetAlias (joinBag this) (ToM2M fk)) as [b a'].
    inversion Hrun; subst. done.
  - destruct (AliasBag_GetAlias (joinBag this) (Some pfk)) as [b a'].
    inversion Hrun; subst. done.
Qed.

(** [applyOn] attaches a copy of the criteria it is given, made in new
    cells, with the alias of the join on every node and its raw literals
    rewritten; the cells that existed are as they were. *)
Lemma applyOn_clones fuel this st (ps : pstore) cs chain pe per d t :
  last chain = Some pe → ps !! pe = Some per →
  Derived per = Some d → is_Some (st !! d) →
  repr cs t → subqueries_ok t → height t ≤ fuel →
  (- 2 ^ 63 ≤ rawIndex this)%Z →
  (rawIndex this + Z.of_nat (raw_met t) < 2 ^ 63)%Z →
  ∃ this1 fkAlias t1 i' regs t' cs',
    derived_alias this st per = Some (this1, fkAlias) ∧
    copy_of cs t t1 ∧
    rewrite_raw (tableAlias this) (rawIndex this) (realias fkAlias t1) = (i', regs, t') ∧
    applyOn fuel this st ps cs chain (root t)
      = Some (set_rawSQL
                (with_raw this1 i'
                   (params_after (tableAlias this) (rawIndex this, parameters this)
                      (realias fkAlias t1)).2) None,
              <[pe := set_Criteria per (Some (root t1))]> ps, cs') ∧
    repr cs' t' ∧ root t' = root t1 ∧ cs ⊆ cs'.
Proof.
  intros Hlast Hper Hd Hst Hrepr Hok Hfuel Hlo Hhi.
  destruct (Criteria_Clone_tree t fuel cs Hfuel Hrepr)
    as (cs1 & t1 & Hclone & Hcopy & Hrepr1 & Hsub1).
  destruct (derived_alias_total this st per d Hd Hst) as [[this1 fkAlias] Halias].
  destruct (derived_alias_same _ _ _ _ _ Halias) as (Hta & Hri & Hpa & _).
  destruct Hcopy as (Hshape & Hnd & Hnew).
  destruct (shape_facts t t1 Hshape) as (Hh & Hm & Hs).
  destruct (SetTableAlias_tree fkAlias t1 fuel cs1) as (cs2 & Hset & Hrepr2 & Hframe2);
    [lia|done|done|].
  destruct (realias_facts fkAlias t1) as (Hroot2 & Hlocs2 & Hh2 & Hm2 & Hs2).
  destruct (rewrite_raw (tableAlias this) (rawIndex this) (realias fkAlias t1))
    as [[i' regs] t'] eqn:Hrw.
  destruct (replaceRaw_runs_all (realias fkAlias t1) fuel this1 cs2 i' regs t')
    as (cs' & Hrun & Hrepr' & Hframe').
  { lia. }
  { done. }
  { by rewrite Hlocs2. }
  { by apply Hs2, Hs. }
  { by rewrite Hri. }
  { rewrite Hri, Hm2, Hm. done. }
  { by rewrite Hta, Hri. }
  destruct (rewrite_raw_facts _ _ _ _ _ _ Hrw) as (Hroot' & _).
  exists this1, fkAlias, t1, i', regs, t', cs'.
  split; [done|]. split; [done|]. split; [done|]. split; [|split; [done|split]].
  - unfold applyOn. rewrite Hlast, Hper. simpl. rewrite Hclone. simpl.
    rewrite Halias. simpl. rewrite Hset. simpl. rewrite <- Hroot2, Hrun. simpl.
    by rewrite Hta, Hri, Hpa.
  - by rewrite Hroot', Hroot2.
  - apply map_subseteq_spec. intros k tok Hk.
    assert (Hout : k ∉ locs t1).
    { intros Hin. by rewrite (Hnew k Hin) in Hk. }
    rewrite Hframe' by (by rewrite Hlocs2). rewrite Hframe2 by done.
    by apply (lookup_weaken cs).
Qed.

(** [applyWhere] installs a copy of the restriction it is given, made in
    new cells, with its raw literals rewritten and the alias of the table
    on every node; the cells that existed are as they were. *)
Lemma applyWhere_clones fuel this cs t :
  repr cs t → subqueries_ok t → height t ≤ fuel →
  (- 2 ^ 63 ≤ rawIndex this)%Z →
  (rawIndex this + Z.of_nat (raw_met t) < 2 ^ 63)%Z →
  ∃ t1 i' regs t' cs',
    copy_of cs t t1 ∧
    rewrite_raw (tableAlias this) (rawIndex this) t1 = (i', regs, t') ∧
    applyWhere fuel this cs (root t)
      = Some (set_rawSQL
                (set_criteria
                   (with_raw this i'
                      (params_after (tableAlias this) (rawIndex this, parameters this)
                         t1).2)
                   (Some (root t1))) None, cs') ∧
    repr cs' (realias (tableAlias this) t') ∧ root t' = root t1 ∧ cs ⊆ cs'.
Proof.
  intros Hrepr Hok Hfuel Hlo Hhi.
  destruct (Criteria_Clone_tree t fuel cs Hfuel Hrepr)
    as (cs1 & t1 & Hclone & Hcopy & Hrepr1 & Hsub1).
  pose proof Hcopy as (Hshape & Hnd & Hnew).
  destruct (shape_facts t t1 Hshape) as (Hh & Hm & Hs).
  destruct (rewrite_raw (tableAlias this) (rawIndex this) t1) as [[i' regs] t'] eqn:Hrw.
  destruct (replaceRaw_runs_all t1 fuel this cs1 i' regs t')
    as (cs2 & Hrun & Hrepr2 & Hframe2); [lia|done|done|by apply Hs|done|lia|done|].
  destruct (rewrite_raw_facts _ _ _ _ _ _ Hrw) as (Hroot' & Hlocs' & _).
  pose proof (rewrite_raw_height _ _ _ _ _ _ Hrw) as Hh'.
  destruct (SetTableAlias_tree (tableAlias this) t' fuel cs2)
    as (cs' & Hset & Hrepr' & Hframe'); [lia|done|by rewrite Hlocs'|].
  exists t1, i', regs, t', cs'.
  split; [done|]. split; [done|]. split; [|split; [done|split; [done|]]].
  - unfold applyWhere. rewrite Hclone. simpl. rewrite Hrun. simpl.
    rewrite <- Hroot', Hset. done.
  - apply map_subseteq_spec. intros k tok Hk.
    assert (Hout : k ∉ locs t1).
    { intros Hin. by rewrite (Hnew k Hin) in Hk. }
    rewrite Hframe' by (by rewrite Hlocs'). rewrite Hframe2 by done.
    by apply (lookup_weaken cs).
Qed.

(** ** What [joinTo] leaves as it was *)

Lemma normal_path_criteria_pcColumns per base :
  pcColumns (pc_or_new (normal_path_criteria per base)) = Columns per.
Proof.
  unfold normal_path_criteria.
  by destruct (Criteria per), (TableCriterias (TableTo base)), (Columns per).
Qed.

Lemma buildPathCriterias_normal_slots st ps : ∀ paths index pcs index' pcs',
  foldM (buildPathCriterias_normal st ps) (index, pcs) paths = Some (index', pcs') →
  ∀ j pe per base,
    paths !! j = Some pe → ps !! pe = Some per → st !! Base per = Some base →
    pcs !! (S index + j) = Some None →
    pcs' !! (S index + j) = Some (normal_path_criteria per base).
Proof.
  induction paths as [|pe paths IH]; intros index pcs index' pcs' Hrun; simpl in Hrun.
  - intros j pe per base Hj. by destruct j.
  - destruct (buildPathCriterias_normal st ps (index, pcs) pe) as [[i1 pcs1]|] eqn:Hstep;
      simpl in Hrun; [|done].
    destruct (buildPathCriterias_normal_spec _ _ _ _ _ _ _ Hstep)
      as (per & base & Hper & Hbase & -> & Hpcs1).
    destruct (buildPathCriterias_normal_loop _ _ _ _ _ _ _ Hrun) as (_ & _ & Hlow & _).
    intros [|j] pe' per' base' Hj Hper' Hbase' Hnone; simpl in Hj.
    + inversion Hj; subst pe'. rewrite Hper in Hper'. inversion Hper'; subst per'.
      rewrite Hbase in Hbase'. inversion Hbase'; subst base'.
      rewrite Nat.add_0_r in *. rewrite Hlow by lia. subst pcs1.
      destruct (normal_path_criteria per base) as [pc|]; [|done].
      apply list_lookup_insert_eq. by eapply lookup_lt_Some.
    + replace (S index + S j) with (S (S index) + j) in * by lia.
      eapply IH; try done. subst pcs1.
      destruct (normal_path_criteria per base); [|done].
      rewrite list_lookup_insert_ne by lia. done.
Qed.

Lemma buildPathCriterias_discriminators_slot fuel st ps s pe s' :
  buildPathCriterias_discriminators fuel st ps s pe = Some s' →
  ∃ per base,
    ps !! pe = Some per ∧ st !! Base per = Some base ∧
    (∀ k, k ≠ S (ds_index s) → ds_pathCriterias s' !! k = ds_pathCriterias s !! k) ∧
    ∀ slot, ds_pathCriterias s !! S (ds_index s) = Some slot →
      ∃ slot', ds_pathCriterias s' !! S (ds_index s) = Some slot' ∧
        (slot' = None ↔ slot = None ∧ Discriminators base = None) ∧
        pcColumns (pc_or_new slot') = pcColumns (pc_or_new slot).
Proof.
  unfold buildPathCriterias_discriminators. intros Hrun.
  destruct (ps !! pe) as [per|] eqn:Hper; simpl in Hrun; [|done].
  destruct (st !! Base per) as [base|] eqn:Hbase; simpl in Hrun; [|done].
  exists per, base. split; [done|]. split; [done|].
  destruct (Discriminators base) as [discriminators|].
  - destruct (ds_pathCriterias s !! S (ds_index s)) as [slot|] eqn:Hslot;
      simpl in Hrun; [|done].
    match type of Hrun with
    | (?m ≫= _) ≫= _ = _ => destruct m as [[cs crits]|] eqn:Hcrits; simpl in Hrun; [|done]
    end.
    destruct (getAlias (ds_this s) (Derived per)) as [this' a'] eqn:Hget.
    inversion Hrun; subst s'; simpl. clear Hrun. split.
    + intros k Hk. by apply list_lookup_insert_ne.
    + intros slot0 [= <-]. eexists. split.
      { apply list_lookup_insert_eq. by eapply lookup_lt_Some. }
      split; [|done]. split; [done|]. by intros [_ ?].
  - simpl in Hrun. destruct (getAlias (ds_this s) (Derived per)) as [this' a'] eqn:Hget.
    inversion Hrun; subst s'; simpl. split; [done|].
    intros slot Hslot. exists slot. split; [done|]. split; [|done].
    split; [done|]. by intros [? _].
Qed.

Lemma buildPathCriterias_discriminators_slots fuel st ps : ∀ paths s s',
  foldM (buildPathCriterias_discriminators fuel st ps) s paths = Some s' →
  ∀ j pe per base slot,
    paths !! j = Some pe → ps !! pe = Some per → st !! Base per = Some base →
    ds_pathCriterias s !! (S (ds_index s) + j) = Some slot →
    ∃ slot', ds_pathCriterias s' !! (S (ds_index s) + j) = Some slot' ∧
      (slot' = None ↔ slot = None ∧ Discriminators base = None) ∧
      pcColumns (pc_or_new slot') = pcColumns (pc_or_new slot).
Proof.
  induction paths as [|pe paths IH]; intros s s' Hrun; simpl in Hrun.
  - intros j pe per base slot Hj. by destruct j.
  - destruct (buildPathCriterias_discriminators fuel st ps s pe) as [s1|] eqn:Hstep;
      simpl in Hrun; [|done].
    destruct (buildPathCriterias_discriminators_slot _ _ _ _ _ _ Hstep)
      as (per & base & Hper & Hbase & Hother & Hslot1).
    destruct (buildPathCriterias_discriminators_spec _ _ _ _ _ _ Hstep)
      as (_ & _ & _ & _ & Hidx & _).
    destruct (buildPathCriterias_discriminators_loop _ _ _ _ _ _ Hrun)
      as (_ & _ & _ & Hlow & _).
    intros [|j] pe' per' base' slot Hj Hper' Hbase' Hslot; simpl in Hj.
    + inversion Hj; subst pe'. rewrite Hper in Hper'. inversion Hper'; subst per'.
      rewrite Hbase in Hbase'. inversion Hbase'; subst base'.
      rewrite Nat.add_0_r in *. rewrite Hlow by lia. by apply Hslot1.
    + replace (S (ds_index s) + S j) with (S (ds_index s1) + j) in * by lia.
      eapply IH; try done. rewrite Hother by lia. done.
Qed.

Lemma keeps_outside_refl X cs : X ⊆ dom cs → closed X cs → keeps_outside X cs cs.
Proof. intros HX Hc. split; [done|]. split; [done|]. split; [done|]. done. Qed.

Lemma keeps_outside_trans X cs1 cs2 cs3 :
  keeps_outside X cs1 cs2 → keeps_outside X cs2 cs3 → keeps_outside X cs1 cs3.
Proof.
  intros (HX2 & Hc2 & Hd2 & Hf2) (HX3 & Hc3 & Hd3 & Hf3).
  split; [done|]. split; [done|]. split; [set_solver|].
  intros k Hk HkX. rewrite Hf3; [by apply Hf2| |done]. by apply Hd2.
Qed.

Lemma keeps_outside_subseteq X (cs cs' : cstore) :
  X ⊆ dom cs → closed X cs → cs ⊆ cs' → keeps_outside X cs cs'.
Proof.
  intros HX Hc Hsub.
  assert (Hdom : dom cs ⊆ dom cs') by (by apply subseteq_dom).
  split; [set_solver|]. split; [|split; [done|]].
  - intros k tok m Hk Htok Hm. apply HX in Hk as Hin. apply elem_of_dom in Hin as [tok0 Htok0].
    pose proof (lookup_weaken _ _ _ _ Htok0 Hsub) as Htok'. rewrite Htok in Htok'.
    inversion Htok'; subst tok0. by apply (Hc k tok m).
  - intros k Hk _. apply elem_of_dom in Hk as [tok Htok].
    by rewrite Htok, (lookup_weaken _ _ _ _ Htok Hsub).
Qed.

Lemma keeps_outside_touches X cs cs' :
  X ⊆ dom cs → closed X cs → touches_only X cs cs' → keeps_outside X cs cs'.
Proof.
  intros HX Hc [Hsame Hframe].
  pose proof (same_members_dom _ _ Hsame) as Hdom.
  split; [by rewrite Hdom|]. split; [by eapply same_members_closed|].
  split; [by rewrite Hdom|]. intros k _ Hk. by apply Hframe.
Qed.

Lemma criteria_kept_or_new_refl cs ps : criteria_kept_or_new cs ps ps.
Proof. intros pe per Hper. exists per. split; [done|]. by left. Qed.

Lemma criteria_kept_or_new_trans cs cs' ps1 ps2 ps3 :
  dom cs ⊆ dom cs' →
  criteria_kept_or_new cs ps1 ps2 → criteria_kept_or_new cs' ps2 ps3 →
  criteria_kept_or_new cs ps1 ps3.
Proof.
  intros Hdom H12 H23 pe per3 Hper3.
  destruct (H23 pe per3 Hper3) as (per2 & Hper2 & Hc23).
  destruct (H12 pe per2 Hper2) as (per1 & Hper1 & Hc12).
  exists per1. split; [done|].
  destruct Hc23 as [Heq|(c & Hc & Hnew)].
  - rewrite Heq. exact Hc12.
  - right. exists c. split; [done|]. apply not_elem_of_dom. intros Hin.
    apply Hdom in Hin. by apply not_elem_of_dom in Hnew.
Qed.

Lemma applyOn_kept_or_new fuel this st ps cs chain crit this' ps' cs' :
  applyOn fuel this st ps cs chain crit = Some (this', ps', cs') →
  criteria_kept_or_new cs ps ps'.
Proof.
  intros Hrun.
  destruct (applyOn_frame _ _ _ _ _ _ _ _ _ _ Hrun) as (_ & Hnil & Hlast).
  destruct (last chain) as [pe|] eqn:Hl.
  - destruct (Hlast pe eq_refl) as (per & cpy & Hper & -> & Hcpy & _).
    intros q per' Hq. destruct (decide (pe = q)) as [<-|Hne].
    + rewrite lookup_insert_eq in Hq. inversion Hq; subst per'.
      exists per. split; [done|]. right. exists cpy. split; [done|].
      apply not_elem_of_dom. set_solver.
    + rewrite lookup_insert_ne in Hq by done. exists per'. split; [done|]. by left.
  - apply last_None in Hl. destruct (Hnil Hl) as (_ & -> & _).
    apply criteria_kept_or_new_refl.
Qed.

Lemma attach_slot_keeps fuel X st path s index slot s' :
  attach_slot fuel st path s index slot = Some s' →
  X ⊆ dom (jt_crits s) → closed X (jt_crits s) →
  (∀ c, c ∈ columns_of slot → c ∈ X) →
  keeps_outside X (jt_crits s) (jt_crits s') ∧
  criteria_kept_or_new (jt_crits s) (jt_paths s) (jt_paths s').
Proof.
  unfold attach_slot. intros Hrun HX Hc Hcols.
  destruct slot as [pc|]; [|inversion Hrun; subst; split;
    [by apply keeps_outside_refl|apply criteria_kept_or_new_refl]].
  assert (Hstep1 : ∃ s1,
    match Criterias pc with
    | Some conds =>
        let '(cs, conjunction) := And (jt_crits s) conds in
        '(this, ps, cs) ←
          applyOn fuel (jt_this s) st (jt_paths s) cs (take index path) conjunction;
        Some (mkJoinToState this ps cs (jt_firstCriterias s))
    | None => Some s
    end = Some s1 ∧
    keeps_outside X (jt_crits s) (jt_crits s1) ∧
    criteria_kept_or_new (jt_crits s) (jt_paths s) (jt_paths s1) ∧
    match pcColumns pc with
    | Some cols =>
        '(this, cs) ←
          applyInclude fuel (jt_this s1) st (jt_paths s1) (jt_crits s1)
            (take index path) cols;
        Some (mkJoinToState this (jt_paths s1) cs (jt_firstCriterias s1))
    | None => Some s1
    end = Some s').
  { destruct (Criterias pc) as [conds|]; cbn in Hrun.
    - destruct (And (jt_crits s) conds) as [cs conjunction] eqn:Hand.
      destruct (applyOn fuel (jt_this s) st (jt_paths s) cs (take index path) conjunction)
        as [[[this1 ps1] cs1]|] eqn:Hon; cbn in Hrun; [|done].
      eexists. split; [reflexivity|]. cbn.
      unfold And, alloc in Hand. inversion Hand; subst cs conjunction. clear Hand.
      destruct (applyOn_frame _ _ _ _ _ _ _ _ _ _ Hon) as ([Hsub _] & _).
      pose proof (applyOn_kept_or_new _ _ _ _ _ _ _ _ _ _ Hon) as Hkept.
      assert (Hins : jt_crits s ⊆ cs1).
      { transitivity (<[fresh (dom (jt_crits s)) :=
                        mkToken TOKEN_AND "" (VLit LNil) (Some <$> conds)]> (jt_crits s));
          [|done]. apply insert_subseteq, not_elem_of_dom, is_fresh. }
      split; [by apply keeps_outside_subseteq|]. split; [|done].
      intros pe per' Hpe. destruct (Hkept pe per' Hpe) as (per & Hper & Hcase).
      exists per. split; [done|]. destruct Hcase as [?|(c & Hcc & Hnew)]; [by left|].
      right. exists c. split; [done|]. rewrite lookup_insert_None in Hnew. tauto.
    - exists s. split; [done|]. split; [by apply keeps_outside_refl|].
      split; [apply criteria_kept_or_new_refl|done]. }
  destruct Hstep1 as (s1 & _ & Hk1 & Hc1 & Hrun2).
  destruct (pcColumns pc) as [cols|] eqn:Hpc; [|by inversion Hrun2; subst].
  destruct (applyInclude fuel (jt_this s1) st (jt_paths s1) (jt_crits s1)
              (take index path) cols) as [[this2 cs2]|] eqn:Hinc; cbn in Hrun2; [|done].
  inversion Hrun2; subst s'. cbn. split; [|done].
  destruct Hk1 as (HX1 & Hcl1 & Hd1 & Hf1).
  apply (keeps_outside_trans X _ (jt_crits s1)); [done|].
  apply keeps_outside_touches; [done|done|].
  eapply applyInclude_touches; [exact Hinc|done|].
  intros t Ht. apply Hcols. cbn. by rewrite Hpc.
Qed.

Lemma attach_slots_keeps fuel X st path : ∀ slots s index s',
  attach_slots fuel st path s index slots = Some s' →
  X ⊆ dom (jt_crits s) → closed X (jt_crits s) →
  (∀ slot c, slot ∈ slots → c ∈ columns_of slot → c ∈ X) →
  keeps_outside X (jt_crits s) (jt_crits s') ∧
  criteria_kept_or_new (jt_crits s) (jt_paths s) (jt_paths s').
Proof.
  induction slots as [|slot slots IH]; intros s index s' Hrun HX Hc Hcols; cbn in Hrun.
  - inversion Hrun; subst. split; [by apply keeps_outside_refl|].
    apply criteria_kept_or_new_refl.
  - destruct (attach_slot fuel st path s index slot) as [s1|] eqn:Hstep; cbn in Hrun;
      [|done].
    destruct (attach_slot_keeps _ X _ _ _ _ _ _ Hstep HX Hc) as [Hk1 Hc1].
    { intros c Hin. apply (Hcols slot); [by left|done]. }
    pose proof Hk1 as (HX1 & Hcl1 & Hd1 & _).
    destruct (IH s1 (S index) s' Hrun HX1 Hcl1) as [Hk2 Hc2].
    { intros slot' c Hin. apply Hcols. by right. }
    split; [by eapply keeps_outside_trans|].
    by eapply criteria_kept_or_new_trans.
Qed.

Lemma same_attachments_refl ps : same_attachments ps ps.
Proof. by intros q. Qed.

Lemma addJoin_loop_attachments common : ∀ todo s s',
  foldM (addJoin_step common) s todo = Some s' →
  same_attachments (aj_paths s) (aj_paths s').
Proof.
  induction todo as [|pe todo IH]; intros s s' Hrun; simpl in Hrun.
  - inversion Hrun; subst. apply same_attachments_refl.
  - destruct (addJoin_step common s pe) as [s1|] eqn:Hstep; simpl in Hrun; [|done].
    destruct (addJoin_step_spec _ _ _ _ Hstep) as (per & d & Hper & Hps & _).
    intros q. rewrite (IH _ _ Hrun q), Hps.
    destruct (decide (pe = q)) as [<-|Hne].
    + by rewrite lookup_insert_eq, Hper.
    + by rewrite lookup_insert_ne.
Qed.

Lemma addJoin_attachments this st ps associations common fetch this' st' ps' local :
  addJoin this st ps associations common fetch = Some (this', st', ps', local) →
  same_attachments ps ps'.
Proof.
  unfold addJoin. intros Hrun.
  match type of Hrun with
  | (?m ≫= _) = _ => destruct m as [s|] eqn:Hloop; simpl in Hrun; [|done]
  end.
  destruct (getAlias (aj_this s) (aj_lastFk s)) as [this1 a].
  inversion Hrun; subst. apply (addJoin_loop_attachments _ _ _ _ Hloop).
Qed.

Lemma included_elem ps path c :
  c ∈ included ps path ↔
  ∃ pe per, pe ∈ path ∧ ps !! pe = Some per ∧ c ∈ slice_list (Columns per).
Proof.
  unfold included. rewrite list_elem_of_In, in_flat_map. split.
  - intros (pe & Hpe & Hin). apply list_elem_of_In in Hpe, Hin.
    destruct (ps !! pe) as [per|] eqn:Hper; [|by apply elem_of_nil in Hin].
    by exists pe, per.
  - intros (pe & per & Hpe & Hper & Hin). exists pe. rewrite Hper.
    split; by apply list_elem_of_In.
Qed.

Lemma buildPathCriterias_columns fuel this st ps cs paths this' cs' pcs :
  buildPathCriterias fuel this st ps cs paths = Some (this', cs', pcs) →
  ∀ slot c, slot ∈ pcs → c ∈ columns_of slot → c ∈ included ps paths.
Proof.
  intros Hrun slot c Hslot Hc.
  destruct (buildPathCriterias_spec _ _ _ _ _ _ _ _ _ Hrun) as (Hlen & H0 & _ & Hslots).
  apply list_elem_of_lookup in Hslot as [j Hj].
  destruct j as [|i].
  { rewrite H0 in Hj. inversion Hj; subst. by apply elem_of_nil in Hc. }
  assert (Hi : i < length paths).
  { apply lookup_lt_Some in Hj. lia. }
  destruct (lookup_lt_is_Some_2 paths i Hi) as [pe Hpe].
  destruct (Hslots i pe Hpe) as (per & base & slot0 & extra & Hper & Hbase & Hs0 & _).
  unfold buildPathCriterias in Hrun.
  destruct (foldM (buildPathCriterias_normal st ps) _ paths) as [[i1 pcs1]|] eqn:H1;
    simpl in Hrun; [|done].
  destruct (foldM (buildPathCriterias_discriminators fuel st ps) _ paths) as [s2|] eqn:H2;
    simpl in Hrun; [|done].
  inversion Hrun; subst this' cs' pcs. clear Hrun.
  pose proof (buildPathCriterias_normal_slots _ _ _ _ _ _ _ H1 i pe per base Hpe Hper Hbase)
    as Hs1.
  cbn in Hs1.
  assert (Hs1' : pcs1 !! S i = Some (normal_path_criteria per base)).
  { apply Hs1. apply lookup_replicate. split; [done|]. lia. }
  destruct (buildPathCriterias_discriminators_slots _ _ _ _ _ _ H2 i pe per base _ Hpe Hper
              Hbase Hs1') as (slot' & Hslot' & _ & Hcols).
  cbn in Hslot'. rewrite Hj in Hslot'. inversion Hslot'; subst slot'.
  rewrite normal_path_criteria_pcColumns in Hcols.
  apply included_elem. exists pe, per. split; [by eapply list_elem_of_lookup_2|].
  split; [done|]. destruct slot as [pc|]; [|by apply elem_of_nil in Hc].
  cbn in Hcols, Hc. by rewrite <- Hcols.
Qed.

(** [joinTo] changes no association that the store held, and no cell of
    the criteria store that existed, apart from the included columns of the
    path elements and what they refer to; the criteria of a path element is
    afterwards what it was or a cell that did not exist. *)
Lemma joinTo_keeps fuel X this st ps cs path fetch this' st' ps' cs' :
  joinTo fuel this st ps cs path fetch = Some (this', st', ps', cs') →
  X ⊆ dom cs → closed X cs → (∀ c, c ∈ included ps path → c ∈ X) →
  st ⊆ st' ∧ keeps_outside X cs cs' ∧ criteria_kept_or_new cs ps ps'.
Proof.
  intros Hrun HX Hc Hinc.
  destruct path as [|pe0 path0] eqn:Hpath.
  { simpl in Hrun. inversion Hrun; subst. split; [done|].
    split; [by apply keeps_outside_refl|apply criteria_kept_or_new_refl]. }
  rewrite <- Hpath in *.
  assert (Hne : path ≠ []) by (by rewrite Hpath).
  destruct (joinTo_attach_facts _ _ _ _ _ _ _ _ _ _ _ Hrun Hne)
    as (_ & this1 & ps1 & local & this2 & cs2 & slots & s' & Hadd & Hbuild & _ & Hatt
        & _ & -> & ->).
  pose proof (addJoin_store_frame _ _ _ _ _ _ _ _ _ _ Hadd) as Hst.
  pose proof (addJoin_attachments _ _ _ _ _ _ _ _ _ _ Hadd) as Hsame.
  destruct (buildPathCriterias_spec _ _ _ _ _ _ _ _ _ Hbuild) as (_ & _ & [Hsub _] & _).
  pose proof (keeps_outside_subseteq X cs cs2 HX Hc Hsub) as Hk2.
  pose proof Hk2 as (HX2 & Hcl2 & Hd2 & _).
  destruct (attach_slots_keeps _ X _ _ _ _ _ _ Hatt HX2 Hcl2) as [Hk3 Hc3].
  { intros slot c Hslot Hcol. apply Hinc.
    pose proof (buildPathCriterias_columns _ _ _ _ _ _ _ _ _ Hbuild slot c) as Hin.
    apply included_elem in Hin as (pe & per1 & Hpe & Hper1 & Hcin); [|by right|done].
    specialize (Hsame pe). rewrite Hper1 in Hsame.
    destruct (ps !! pe) as [per|] eqn:Hper; [|done]. inversion Hsame as [[Hcr Hco]].
    apply included_elem. exists pe, per. split; [done|]. split; [done|]. by rewrite <- Hco. }
  cbn in Hk3, Hc3. split; [done|]. split; [by eapply keeps_outside_trans|].
  intros pe per' Hpe. destruct (Hc3 pe per' Hpe) as (per1 & Hper1 & Hcase).
  specialize (Hsame pe). rewrite Hper1 in Hsame.
  destruct (ps !! pe) as [per|] eqn:Hper; [|done]. inversion Hsame as [[Hcr Hco]].
  exists per. split; [done|]. rewrite <- Hcr.
  destruct Hcase as [?|(c & Hcc & Hnew)]; [by left|]. right. exists c. split; [done|].
  apply not_elem_of_dom. intros Hin. apply Hd2 in Hin. by apply not_elem_of_dom in Hnew.
Qed.
(** * Part III: the resolver, the composer and the attachment of criteria *)

(** ** Prefix reuse *)

(** C1.  For a well-formed session and a non-empty requested path of new
    elements whose associations the store holds, [addJoin] returns, having
    changed no association of the store and no alias of the allocator and
    given aliases to new associations only; the new associations are the
    clones given to elements of the path, with their junction clones; every
    element of the requested path within a prefix shared (association by
    association) with a cached path has got the derived association of the
    cached element at the same position, which the store already held; every
    element beyond the prefixes shared with cached paths has got a new
    clone; and when a cached path shares the whole requested path, no
    association was cloned and no alias allocated. *)
Theorem addJoin_prefix_reuse this st ps (associations : list loc) fetch :
  wf_session this st ps → fresh_request this associations → associations ≠ [] →
  resolvable st ps associations →
  ∃ this' st' ps',
    addJoin this st ps associations None fetch = Some (this', st', ps', associations) ∧
    st ⊆ st' ∧
    bag (joinBag this) ⊆ bag (joinBag this') ∧
    (∀ key, aliased this' key → ¬ aliased this key → ∃ l, key = Some l ∧ st !! l = None) ∧
    (∀ l, st !! l = None → is_Some (st' !! l) →
       ∃ pe per d a,
         pe ∈ associations ∧ ps' !! pe = Some per ∧ Derived per = Some d ∧
         st' !! d = Some a ∧ st !! d = None ∧
         (l = d ∨ FromM2M a = Some l ∨ ToM2M a = Some l)) ∧
    (∀ c k f pe cf cfr,
       c ∈ cachedAssociation this → same_bases ps associations c k → f < k →
       associations !! f = Some pe → c !! f = Some cf → ps !! cf = Some cfr →
       ∃ per d, ps !! pe = Some per ∧ ps' !! pe = Some (set_Derived per (Some d)) ∧
         Derived cfr = Some d ∧ is_Some (st !! d)) ∧
    (∀ f pe,
       associations !! f = Some pe →
       (¬ ∃ c, c ∈ cachedAssociation this ∧ same_bases ps associations c (S f)) →
       ∃ per d, ps !! pe = Some per ∧ ps' !! pe = Some (set_Derived per (Some d)) ∧
         st !! d = None ∧ is_Some (st' !! d)) ∧
    ((∃ c, c ∈ cachedAssociation this ∧
           same_bases ps associations c (length associations)) →
     st' = st ∧ joinBag this' = joinBag this).
Proof.
  intros Hwf Hfresh Hne Hready.
  destruct (addJoin_total this st ps associations fetch Hwf Hfresh Hready)
    as [[[[this' st'] ps'] local] Hrun].
  destruct (addJoin_cache_append_facts _ _ _ _ _ _ _ _ _ Hrun Hne) as [-> _].
  exists this', st', ps'. split; [done|].
  destruct (addJoin_reuse_facts _ _ _ _ _ _ _ _ _ Hwf Hfresh Hne Hrun)
    as (Hst & Hbag & Halias & Hshared & Hbeyond & Hwhole).
  split; [done|]. split; [done|]. split; [done|].
  split; [by eapply addJoin_new_associations|].
  split; [done|]. split; [done|]. done.
Qed.

(** ** Many-to-many expansion *)

(** C2, as amended.  Under the same conditions, when [addJoin] resolves an
    element whose association is a many-to-many pairing, that is an element
    beyond the prefixes shared with cached paths (an element within such a
    prefix takes the cached derived association as it is, C1),
    it clones the pairing and its two junction associations and stamps the
    two junction clones, and only them: the first hop goes from the origin
    alias to the alias allocated to the from-junction clone, the second from
    that same alias to the destination alias, which is the caller-preferred
    alias when there is one and is the alias registered for the to-junction
    clone.  The origin alias is the alias of the base table for the first
    element, and the alias of the destination end of the previous element
    otherwise. *)
Theorem addJoin_many2many_two_hops
    this st ps (associations : list loc) fetch f pe per base :
  wf_session this st ps → fresh_request this associations → associations ≠ [] →
  resolvable st ps associations →
  associations !! f = Some pe → ps !! pe = Some per →
  st !! Base per = Some base → IsMany2Many base = true →
  (¬ ∃ c, c ∈ cachedAssociation this ∧ same_bases ps associations c (S f)) →
  ∃ this' st' ps' d fromFk toFk hop1 hop2 origin junction dest,
    addJoin this st ps associations None fetch = Some (this', st', ps', associations) ∧
    ps' !! pe = Some (set_Derived per (Some d)) ∧
    st !! d = None ∧ st !! fromFk = None ∧ st !! toFk = None ∧
    fromFk ≠ toFk ∧ d ≠ fromFk ∧ d ≠ toFk ∧
    st' !! d = Some (mkAssociation (TableFrom base) (TableTo base) (Relations base)
                       (DiscriminatorTable base) (Discriminators base)
                       (Some fromFk) (Some toFk) (AliasFrom base) (AliasTo base)) ∧
    st' !! fromFk = Some hop1 ∧ st' !! toFk = Some hop2 ∧
    AliasFrom hop1 = origin ∧ AliasTo hop1 = junction ∧
    AliasFrom hop2 = junction ∧ AliasTo hop2 = dest ∧
    AliasTo hop1 = AliasFrom hop2 ∧
    Forall (λ rel, ColumnTableAlias (From rel) = origin ∧
                   ColumnTableAlias (To rel) = junction) (Relations hop1) ∧
    Forall (λ rel, ColumnTableAlias (From rel) = junction ∧
                   ColumnTableAlias (To rel) = dest) (Relations hop2) ∧
    bag (joinBag this') !! Some fromFk = Some junction ∧
    bag (joinBag this') !! Some toFk = Some dest ∧
    (PreferredAlias per ≠ "" → dest = PreferredAlias per) ∧
    (f = 0 → origin = tableAlias this) ∧
    (f ≠ 0 →
     ∃ pe0 per0 d0 lastFk,
       associations !! (f - 1) = Some pe0 ∧ ps' !! pe0 = Some per0 ∧
       Derived per0 = Some d0 ∧ reuse_association st' d0 = Some lastFk ∧
       bag (joinBag this') !! lastFk = Some origin).
Proof.
  intros Hwf Hfresh Hne Hready Hpe Hper Hbase Hm2m Hnew.
  destruct (addJoin_total this st ps associations fetch Hwf Hfresh Hready)
    as [[[[this' st'] ps'] local] Hrun].
  destruct (addJoin_cache_append_facts _ _ _ _ _ _ _ _ _ Hrun Hne) as [-> _].
  destruct (addJoin_two_hops_facts _ _ _ _ _ _ _ _ _ _ _ _ _
              Hwf Hfresh Hne Hrun Hpe Hper Hbase Hm2m Hnew)
    as (d & fromFk & toFk & hop1 & hop2 & origin & junction & dest & Hfacts).
  by exists this', st', ps', d, fromFk, toFk, hop1, hop2, origin, junction, dest.
Qed.

(** ** The cache of traversed paths *)

(** C8, as amended.  Under the same conditions [addJoin] returns the whole
    resolved sequence, the requested path: its elements within a shared
    prefix have the cached derived associations, the others are newly
    resolved (C1).  When some cached path starts with the associations of
    the whole requested path, the cache is left as it was; otherwise that
    whole sequence, and not its newly resolved suffix alone, is appended to
    it, as one entry. *)
Theorem addJoin_cache_append this st ps (associations : list loc) fetch :
  wf_session this st ps → fresh_request this associations → associations ≠ [] →
  resolvable st ps associations →
  ∃ this' st' ps' local,
    addJoin this st ps associations None fetch = Some (this', st', ps', local) ∧
    local = associations ∧
    (((∃ c, c ∈ cachedAssociation this ∧
            same_bases ps associations c (length associations)) ∧
      cachedAssociation this' = cachedAssociation this)
     ∨
     ((¬ ∃ c, c ∈ cachedAssociation this ∧
              same_bases ps associations c (length associations)) ∧
      cachedAssociation this' = cachedAssociation this ++ [associations])).
Proof.
  intros Hwf Hfresh Hne Hready.
  destruct (addJoin_total this st ps associations fetch Hwf Hfresh Hready)
    as [[[[this' st'] ps'] local] Hrun].
  exists this', st', ps', local. split; [done|].
  by eapply addJoin_cache_append_facts.
Qed.

(** ** Composition of the path criteria *)

(** C10.  For a path of [n] elements that the stores hold,
    [buildPathCriterias] returns [n + 1] slots, and slot 0, the slot of the
    base table, is nil: both loops increment the slot index before they
    write. *)
Theorem buildPathCriterias_length_slot0 fuel this st ps cs (paths : list loc) :
  composable fuel st ps paths →
  ∃ this' cs' (pathCriterias : list (option PathCriteria)),
    buildPathCriterias fuel this st ps cs paths = Some (this', cs', pathCriterias) ∧
    length pathCriterias = length paths + 1 ∧ pathCriterias !! 0 = Some None.
Proof.
  intros Hready.
  destruct (buildPathCriterias_total fuel this st ps cs paths Hready)
    as [[[this' cs'] pcs] Hrun].
  exists this', cs', pcs. split; [done|].
  destruct (buildPathCriterias_spec _ _ _ _ _ _ _ _ _ Hrun) as (Hlen & H0 & _).
  split; [lia|done].
Qed.

(** C5.  For such a path [buildPathCriterias] returns, and for every step
    [i] (1-based) whose association's destination table declares
    table-level discriminator criteria [tcs], slot [i] of the result is not
    nil and holds [tcs] as a block, after the caller's criteria of the step;
    a criteria that existed before the call and sits in slot [j] is the
    caller's criteria of step [j] or one of the table discriminators of the
    destination table of step [j]: no slot receives the table discriminators
    of another step, and slot 0 receives nothing. *)
Theorem buildPathCriterias_table_discriminators fuel this st ps cs (paths : list loc) :
  composable fuel st ps paths →
  ∃ this' cs' (pathCriterias : list (option PathCriteria)),
    buildPathCriterias fuel this st ps cs paths = Some (this', cs', pathCriterias) ∧
    (∀ i pe per base tcs,
       paths !! i = Some pe → ps !! pe = Some per → st !! Base per = Some base →
       TableCriterias (TableTo base) = Some tcs →
       ∃ pc extra,
         pathCriterias !! (i + 1) = Some (Some pc) ∧
         slice_list (Criterias pc) = ptr_list (Criteria per) ++ tcs ++ extra) ∧
    pathCriterias !! 0 = Some None ∧
    (∀ j slot c,
       pathCriterias !! j = Some slot → c ∈ criterias_of slot → c ∈ dom cs →
       ∃ i pe per base,
         j = i + 1 ∧ paths !! i = Some pe ∧ ps !! pe = Some per ∧
         st !! Base per = Some base ∧
         (Criteria per = Some c ∨ c ∈ slice_list (TableCriterias (TableTo base)))).
Proof.
  intros Hready.
  destruct (buildPathCriterias_total fuel this st ps cs paths Hready)
    as [[[this' cs'] pcs] Hrun].
  exists this', cs', pcs. split; [done|].
  by apply (buildPathCriterias_placement fuel this st ps cs paths this' cs').
Qed.

(** ** Routing of the composed criteria *)

(** C7.  For a well-formed session and a non-empty path of new elements
    whose associations and criteria the stores hold, [joinTo] returns.  The
    composed path criteria it processes start with a nil slot 0: no criteria
    of slot 0 is turned into an ON clause, and the top-level filter of the
    session is as it was.  The rest of [joinTo] is, for each slot [i > 0] in
    turn, the attachment of the criteria of the slot, joined by [And],
    through [applyOn] to the prefix of the path that ends at step [i] (and
    of its columns through [applyInclude]). *)
Theorem joinTo_attaches_on_clauses fuel n this st ps cs (path : list loc) fetch :
  wf_session this st ps → fresh_request this path → path ≠ [] →
  resolvable st ps path → attachable n st ps cs path → S n ≤ fuel →
  ∃ this' st' ps' cs',
    joinTo fuel this st ps cs path fetch = Some (this', st', ps', cs') ∧
    criteria this' = criteria this ∧
    ∃ this1 ps1 local this2 cs2 slots s',
      addJoin this st ps path None fetch = Some (this1, st', ps1, local) ∧
      buildPathCriterias fuel this1 st' ps1 cs path = Some (this2, cs2, None :: slots) ∧
      length slots = length path ∧
      attach_slots fuel st' path (mkJoinToState this2 ps1 cs2 None) 1 slots = Some s' ∧
      this' = jt_this s' ∧ ps' = jt_paths s' ∧ cs' = jt_crits s'.
Proof.
  intros Hwf Hfresh Hne Hready Hat Hle.
  destruct (joinTo_total fuel n this st ps cs path fetch Hwf Hfresh Hready Hat Hle)
    as [[[[this' st'] ps'] cs'] Hrun].
  exists this', st', ps', cs'. split; [done|].
  by apply (joinTo_attach_facts fuel this st ps cs path fetch).
Qed.

(** ** Clone before mutate *)

(** C9, as amended.  [applyOn] and [applyWhere] return on a criteria that
    the store holds within the depth bound (and, while the counter of raw
    literals does not overflow, with the result stated): they make a copy of
    the criteria in cells that did not exist, and it is the copy that gets
    the alias and has its raw literals rewritten; the copy, so rewritten, is
    what is attached to the path element, or installed as the filter of the
    session; every cell of the criteria store that existed before the call
    (the criteria passed in among them) is the same after it.  The same holds
    of [where], and [buildPathCriterias] changes no cell that existed.
    [applyInclude] sets the alias of the column tokens it is given, and of
    what they refer to, in place, and leaves the other cells as they were.
    [joinTo], which attaches through [applyOn] and [applyInclude], returns
    and changes no association that the store held and no cell of the
    criteria store that existed, apart from the included columns of the path
    elements and what they refer to; the criteria of a path element is
    afterwards what it was or a cell that did not exist.  [addJoin] changes
    no association that the store held: it stamps aliases on its own clones
    only. *)
Theorem clone_before_mutate :
  (∀ fuel this st (ps : pstore) cs chain pe per d t,
     last chain = Some pe → ps !! pe = Some per →
     Derived per = Some d → is_Some (st !! d) →
     repr cs t → subqueries_ok t → height t ≤ fuel →
     (- 2 ^ 63 ≤ rawIndex this)%Z →
     (rawIndex this + Z.of_nat (raw_met t) < 2 ^ 63)%Z →
     ∃ this1 fkAlias t1 i' regs t' cs',
       derived_alias this st per = Some (this1, fkAlias) ∧
       copy_of cs t t1 ∧
       rewrite_raw (tableAlias this) (rawIndex this) (realias fkAlias t1) = (i', regs, t') ∧
       applyOn fuel this st ps cs chain (root t)
         = Some (set_rawSQL
                   (with_raw this1 i'
                      (params_after (tableAlias this) (rawIndex this, parameters this)
                         (realias fkAlias t1)).2) None,
                 <[pe := set_Criteria per (Some (root t1))]> ps, cs') ∧
       repr cs' t' ∧ root t' = root t1 ∧ cs ⊆ cs') ∧
  (∀ fuel this cs t,
     repr cs t → subqueries_ok t → height t ≤ fuel →
     (- 2 ^ 63 ≤ rawIndex this)%Z →
     (rawIndex this + Z.of_nat (raw_met t) < 2 ^ 63)%Z →
     ∃ t1 i' regs t' cs',
       copy_of cs t t1 ∧
       rewrite_raw (tableAlias this) (rawIndex this) t1 = (i', regs, t') ∧
       applyWhere fuel this cs (root t)
         = Some (set_rawSQL
                   (set_criteria
                      (with_raw this i'
                         (params_after (tableAlias this) (rawIndex this, parameters this)
                            t1).2)
                      (Some (root t1))) None, cs') ∧
       repr cs' (realias (tableAlias this) t') ∧ root t' = root t1 ∧ cs ⊆ cs') ∧
  (∀ fuel n X this st ps cs (path : list loc) fetch,
     wf_session this st ps → fresh_request this path →
     resolvable st ps path → attachable n st ps cs path → S n ≤ fuel →
     X ⊆ dom cs → closed X cs → (∀ c, c ∈ included ps path → c ∈ X) →
     ∃ this' st' ps' cs',
       joinTo fuel this st ps cs path fetch = Some (this', st', ps', cs') ∧
       st ⊆ st' ∧ dom cs ⊆ dom cs' ∧
       (∀ k, k ∈ dom cs → k ∉ X → cs' !! k = cs !! k) ∧
       criteria_kept_or_new cs ps ps') ∧
  (∀ fuel n this st (ps : pstore) cs chain crit pe per d,
     last chain = Some pe → ps !! pe = Some per →
     Derived per = Some d → is_Some (st !! d) →
     criteria_ok n cs crit → n ≤ fuel →
     is_Some (applyOn fuel this st ps cs chain crit)) ∧
  (∀ fuel this st ps cs chain crit this' ps' cs',
     applyOn fuel this st ps cs chain crit = Some (this', ps', cs') →
     cs ⊆ cs' ∧
     ∀ pe, last chain = Some pe →
       ∃ per cpy, ps !! pe = Some per ∧
         ps' = <[pe := set_Criteria per (Some cpy)]> ps ∧
         cs !! cpy = None ∧ is_Some (cs' !! cpy)) ∧
  (∀ fuel n this cs restriction,
     criteria_ok n cs restriction → n ≤ fuel →
     is_Some (applyWhere fuel this cs restriction)) ∧
  (∀ fuel this cs restriction this' cs',
     applyWhere fuel this cs restriction = Some (this', cs') →
     cs ⊆ cs' ∧
     ∃ token, criteria this' = Some token ∧ cs !! token = None ∧ is_Some (cs' !! token)) ∧
  (∀ fuel this cs restrictions this' cs',
     where_ fuel this cs restrictions = Some (this', cs') → cs ⊆ cs') ∧
  (∀ fuel X this st ps cs chain tokens this' cs',
     applyInclude fuel this st ps cs chain tokens = Some (this', cs') →
     closed X cs → (∀ t, t ∈ tokens → t ∈ X) →
     ∀ k, k ∉ X → cs' !! k = cs !! k) ∧
  (∀ fuel this st ps cs paths this' cs' pathCriterias,
     buildPathCriterias fuel this st ps cs paths = Some (this', cs', pathCriterias) →
     cs ⊆ cs') ∧
  (∀ this st ps associations common fetch this' st' ps' local,
     addJoin this st ps associations common fetch = Some (this', st', ps', local) →
     st ⊆ st').
Proof.
  split; [|split; [|split; [|split; [|split; [|split; [|split; [|split; [|split;
    [|split]]]]]]]]].
  - intros fuel this st ps cs chain pe per d t. apply applyOn_clones.
  - intros fuel this cs t. apply applyWhere_clones.
  - intros fuel n X this st ps cs path fetch Hwf Hfresh Hready Hat Hle HX Hc Hinc.
    destruct (joinTo_total fuel n this st ps cs path fetch Hwf Hfresh Hready Hat Hle)
      as [[[[this' st'] ps'] cs'] Hrun].
    exists this', st', ps', cs'. split; [done|].
    destruct (joinTo_keeps _ X _ _ _ _ _ _ _ _ _ _ Hrun HX Hc Hinc)
      as (Hst & (_ & _ & Hdom & Hframe) & Hkept).
    done.
  - intros fuel n this st ps cs chain crit pe per d Hlast Hper Hd Hst Hok Hle.
    destruct (applyOn_total fuel n this st ps cs chain crit pe per d
                Hlast Hper Hd Hst Hok Hle) as (this' & cpy & cs' & -> & _).
    done.
  - intros fuel this st ps cs chain crit this' ps' cs' Hrun.
    destruct (applyOn_frame _ _ _ _ _ _ _ _ _ _ Hrun) as ([Hsub _] & _ & Hlast).
    split; [done|]. intros pe Hpe.
    destruct (Hlast pe Hpe) as (per & cpy & Hper & Hps & Hcpy & _).
    exists per, cpy. split; [done|]. split; [done|].
    apply elem_of_difference in Hcpy as [Hin Hout].
    split; [by apply not_elem_of_dom|by apply elem_of_dom].
  - apply applyWhere_total.
  - intros fuel this cs restriction this' cs' Hrun.
    destruct (applyWhere_frame _ _ _ _ _ _ Hrun) as ([Hsub _] & token & Htok & Hnew).
    split; [done|]. exists token. split; [done|].
    apply elem_of_difference in Hnew as [Hin Hout].
    split; [by apply not_elem_of_dom|by apply elem_of_dom].
  - apply where_frame.
  - intros fuel X this st ps cs chain tokens this' cs' Hrun Hclosed Hin.
    by destruct (applyInclude_touches _ _ _ _ _ _ _ _ _ _ Hrun Hclosed Hin) as [_ Hframe].
  - intros fuel this st ps cs paths this' cs' pcs Hrun.
    by destruct (buildPathCriterias_spec _ _ _ _ _ _ _ _ _ Hrun) as (_ & _ & [Hsub _] & _).
  - apply addJoin_store_frame.
Qed.
(** * Part IV: the properties on the example data *)

Section Examples.
Import Example.

(** Lists of facts about the example stores are checked element by
    element. *)
Ltac each_element :=
  unfold resolvable, composable, attachable;
  repeat (apply Forall_cons_2); try apply Forall_nil_2.

Ltac criteria_in_store :=
  simpl; eexists; split; [vm_compute; reflexivity|];
  split; [simpl; try discriminate; try done|];
  each_element; try criteria_in_store.

(** The runs of the example, evaluated. *)
Lemma after1_run :
  addJoin request1.1 schema request1.2 path1 None false
    = Some (after1.1.1.1, store1, paths1, after1.2).
Proof. vm_compute. reflexivity. Qed.

(** The requests of the example are requests of new elements on well-formed
    sessions, and the stores hold what they refer to. *)
Lemma request1_wf :
  wf_session request1.1 schema request1.2 ∧ fresh_request request1.1 path1.
Proof.
  apply (inner_fresh_request session0 schema ∅ true [aOrderCustomer; aCustomerAddress]).
  - apply NewDmlBase_wf.
  - reflexivity.
  - apply surjective_pairing.
Qed.

Lemma session1_wf : wf_session session1 store1 paths1.
Proof.
  destruct request1_wf as [Hwf Hfresh].
  apply (wf_session_weaken after1.1.1.1 store1 paths1); [|reflexivity..].
  eapply addJoin_preserves_wf; [exact Hwf|exact Hfresh| |exact after1_run].
  vm_compute. discriminate.
Qed.

Lemma request2_wf :
  wf_session request2.1 store1 request2.2 ∧ fresh_request request2.1 path2.
Proof.
  apply (inner_fresh_request session1 store1 paths1 true
           [aOrderCustomer; aCustomerAddress; aTagAddress]).
  - apply session1_wf.
  - reflexivity.
  - apply surjective_pairing.
Qed.

Lemma request3_wf :
  wf_session request3.1 schema request3.2 ∧ fresh_request request3.1 path3.
Proof.
  apply (inner_fresh_request session0 schema ∅ true [aOrderTags; aTagAddress]).
  - apply NewDmlBase_wf.
  - reflexivity.
  - apply surjective_pairing.
Qed.

Lemma request1_resolvable : resolvable schema request1.2 path1.
Proof. each_element; eexists _, _; repeat split; vm_compute; reflexivity. Qed.

Lemma request2_resolvable : resolvable store1 request2.2 path2.
Proof. each_element; eexists _, _; repeat split; vm_compute; reflexivity. Qed.

Lemma request3_resolvable : resolvable schema request3.2 path3.
Proof.
  each_element; eexists _, _;
    (split; [vm_compute; reflexivity|]); (split; [vm_compute; reflexivity|]);
    simpl; done.
Qed.

Lemma path1_composable : composable 3 store1 paths1 path1.
Proof.
  each_element; eexists _, _;
    (split; [vm_compute; reflexivity|]); (split; [vm_compute; reflexivity|]);
    simpl; each_element.
Qed.

Lemma request1_attachable : attachable 3 schema request1.2 criteria0 path1.
Proof.
  each_element; eexists _, _;
    (split; [vm_compute; reflexivity|]); (split; [vm_compute; reflexivity|]);
    simpl; repeat split; each_element.
  criteria_in_store.
Qed.

Lemma filter_tree_repr : repr criteria0 filter_tree.
Proof.
  intros l tok Hin. apply list_elem_of_In in Hin. vm_compute in Hin.
  repeat (destruct Hin as [Hin|Hin]; [inversion Hin; subst; reflexivity|]).
  destruct Hin.
Qed.

Lemma filter_tree_plain : plain filter_tree.
Proof. simpl. repeat split; congruence. Qed.

Lemma filter_in_store : criteria_ok 3 criteria0 20%positive.
Proof. criteria_in_store. Qed.

(** C4 on the statement of the example, with both names bound and with
    the second name missing. *)
Lemma BuildValues_positional_or_panic_witness :
  (∃ vs, BuildValues "RawSql" rawSql values_ab = Ok vs ∧
         length vs = length (Names rawSql) ∧
         ∀ i name, Names rawSql !! i = Some name → vs !! i = values_ab !! name) ∧
  (∃ missing, missing ∈ Names rawSql ∧ values_a !! missing = None ∧
     BuildValues "RawSql" rawSql values_a
       = Panic ("[" +:+ "RawSql" +:+ "] No value supplied for the SQL parameter '"
                    +:+ missing +:+ "' for the SQL " +:+ OriSql rawSql)).
Proof.
  split.
  - apply (proj1 (BuildValues_positional_or_panic "RawSql" rawSql values_ab)).
    intros name Hin. apply list_elem_of_In in Hin.
    destruct Hin as [<-|[<-|[]]]; vm_compute; eauto.
  - apply (proj2 (BuildValues_positional_or_panic "RawSql" rawSql values_a) "b").
    + apply list_elem_of_In. vm_compute. auto.
    + vm_compute. reflexivity.
Defined.

(** C1 on the second request, whose first two associations are those of
    the cached path. *)
Lemma addJoin_prefix_reuse_witness :
  wf_session request2.1 store1 request2.2 ∧ fresh_request request2.1 path2 ∧
  path2 ≠ [] ∧ resolvable store1 request2.2 path2 ∧
  ∃ this' st' ps',
    addJoin request2.1 store1 request2.2 path2 None false
      = Some (this', st', ps', path2) ∧
    store1 ⊆ st' ∧
    bag (joinBag request2.1) ⊆ bag (joinBag this') ∧
    (∀ key, aliased this' key → ¬ aliased request2.1 key →
       ∃ l, key = Some l ∧ store1 !! l = None) ∧
    (∀ l, store1 !! l = None → is_Some (st' !! l) →
       ∃ pe per d a,
         pe ∈ path2 ∧ ps' !! pe = Some per ∧ Derived per = Some d ∧
         st' !! d = Some a ∧ store1 !! d = None ∧
         (l = d ∨ FromM2M a = Some l ∨ ToM2M a = Some l)) ∧
    (∀ c k f pe cf cfr,
       c ∈ cachedAssociation request2.1 → same_bases request2.2 path2 c k → f < k →
       path2 !! f = Some pe → c !! f = Some cf → request2.2 !! cf = Some cfr →
       ∃ per d, request2.2 !! pe = Some per ∧
         ps' !! pe = Some (set_Derived per (Some d)) ∧
         Derived cfr = Some d ∧ is_Some (store1 !! d)) ∧
    (∀ f pe,
       path2 !! f = Some pe →
       (¬ ∃ c, c ∈ cachedAssociation request2.1 ∧ same_bases request2.2 path2 c (S f)) →
       ∃ per d, request2.2 !! pe = Some per ∧
         ps' !! pe = Some (set_Derived per (Some d)) ∧
         store1 !! d = None ∧ is_Some (st' !! d)) ∧
    ((∃ c, c ∈ cachedAssociation request2.1 ∧
           same_bases request2.2 path2 c (length path2)) →
     st' = store1 ∧ joinBag this' = joinBag request2.1).
Proof.
  assert (Hne : path2 ≠ []) by (vm_compute; discriminate).
  split; [exact (proj1 request2_wf)|]. split; [exact (proj2 request2_wf)|].
  split; [exact Hne|]. split; [exact request2_resolvable|].
  exact (addJoin_prefix_reuse request2.1 store1 request2.2 path2 false
           (proj1 request2_wf) (proj2 request2_wf) Hne request2_resolvable).
Defined.

(** C2, as amended, on the first element of ORDER <-> TAG -> ADDRESS. *)
Lemma addJoin_many2many_two_hops_witness :
  wf_session request3.1 schema request3.2 ∧ fresh_request request3.1 path3 ∧
  path3 ≠ [] ∧ resolvable schema request3.2 path3 ∧
  path3 !! 0 = Some pe3 ∧ request3.2 !! pe3 = Some per3 ∧
  schema !! Base per3 = Some pairing ∧ IsMany2Many pairing = true ∧
  (¬ ∃ c, c ∈ cachedAssociation request3.1 ∧ same_bases request3.2 path3 c 1) ∧
  ∃ this' st' ps' d fromFk toFk hop1 hop2 origin junction dest,
    addJoin request3.1 schema request3.2 path3 None false
      = Some (this', st', ps', path3) ∧
    ps' !! pe3 = Some (set_Derived per3 (Some d)) ∧
    schema !! d = None ∧ schema !! fromFk = None ∧ schema !! toFk = None ∧
    fromFk ≠ toFk ∧ d ≠ fromFk ∧ d ≠ toFk ∧
    st' !! d
      = Some (mkAssociation (TableFrom pairing) (TableTo pairing) (Relations pairing)
                (DiscriminatorTable pairing) (Discriminators pairing)
                (Some fromFk) (Some toFk) (AliasFrom pairing) (AliasTo pairing)) ∧
    st' !! fromFk = Some hop1 ∧ st' !! toFk = Some hop2 ∧
    AliasFrom hop1 = origin ∧ AliasTo hop1 = junction ∧
    AliasFrom hop2 = junction ∧ AliasTo hop2 = dest ∧
    AliasTo hop1 = AliasFrom hop2 ∧
    Forall (λ rel, ColumnTableAlias (From rel) = origin ∧
                   ColumnTableAlias (To rel) = junction) (Relations hop1) ∧
    Forall (λ rel, ColumnTableAlias (From rel) = junction ∧
                   ColumnTableAlias (To rel) = dest) (Relations hop2) ∧
    bag (joinBag this') !! Some fromFk = Some junction ∧
    bag (joinBag this') !! Some toFk = Some dest ∧
    (PreferredAlias per3 ≠ "" → dest = PreferredAlias per3) ∧
    (0 = 0 → origin = tableAlias request3.1) ∧
    (0 ≠ 0 →
     ∃ pe0 per0 d0 lastFk,
       path3 !! (0 - 1) = Some pe0 ∧ ps' !! pe0 = Some per0 ∧
       Derived per0 = Some d0 ∧ reuse_association st' d0 = Some lastFk ∧
       bag (joinBag this') !! lastFk = Some origin).
Proof.
  assert (Hne : path3 ≠ []) by (vm_compute; discriminate).
  assert (Hpe : path3 !! 0 = Some pe3) by reflexivity.
  assert (Hper : request3.2 !! pe3 = Some per3) by (vm_compute; reflexivity).
  assert (Hbase : schema !! Base per3 = Some pairing) by (vm_compute; reflexivity).
  assert (Hm2m : IsMany2Many pairing = true) by reflexivity.
  assert (Hnew : ¬ ∃ c, c ∈ cachedAssociation request3.1 ∧ same_bases request3.2 path3 c 1).
  { intros (c & Hc & _). vm_compute in Hc. inversion Hc. }
  split; [exact (proj1 request3_wf)|]. split; [exact (proj2 request3_wf)|].
  split; [exact Hne|]. split; [exact request3_resolvable|]. split; [exact Hpe|].
  split; [exact Hper|]. split; [exact Hbase|]. split; [exact Hm2m|]. split; [exact Hnew|].
  exact (addJoin_many2many_two_hops request3.1 schema request3.2 path3 false 0 pe3 per3
           pairing (proj1 request3_wf) (proj2 request3_wf) Hne request3_resolvable
           Hpe Hper Hbase Hm2m Hnew).
Defined.

(** C2 as stated fails on an element within the cached prefix: the pairing
    ORDER <-> TAG requested again, with the preferred alias [x], gets the
    cached derived association; nothing is stamped and no alias is
    registered, and the destination end of its second hop keeps the alias
    [t0_j2]. *)
Lemma addJoin_many2many_reused_counterexample :
  path4 = [3%positive] ∧
  request4.2 !! 3%positive = Some (mkPathElement aOrderTags true "x" None None None) ∧
  store3 !! aOrderTags = Some pairing ∧ IsMany2Many pairing = true ∧
  addJoin request4.1 store3 request4.2 path4 None false
    = Some (after4.1.1.1, after4.1.1.2, after4.1.2, after4.2) ∧
  after4.1.1.2 = store3 ∧ joinBag after4.1.1.1 = joinBag request4.1 ∧
  ∃ per d pair toFk hop2,
    after4.1.2 !! 3%positive = Some per ∧ PreferredAlias per = "x" ∧
    Derived per = Some d ∧ after4.1.1.2 !! d = Some pair ∧
    ToM2M pair = Some toFk ∧ after4.1.1.2 !! toFk = Some hop2 ∧
    AliasTo hop2 = "t0_j2" ∧
    bag (joinBag after4.1.1.1) !! Some toFk = Some "t0_j2" ∧
    AliasTo hop2 ≠ PreferredAlias per.
Proof.
  split; [reflexivity|]. split; [vm_compute; reflexivity|].
  split; [vm_compute; reflexivity|]. split; [reflexivity|].
  split; [vm_compute; reflexivity|]. split; [vm_compute; reflexivity|].
  split; [vm_compute; reflexivity|].
  eexists _, _, _, _, _.
  repeat (split; [vm_compute; reflexivity|]). vm_compute. discriminate.
Qed.

Lemma mixed_tree_repr : repr mixed_store mixed_tree.
Proof.
  intros l tok Hin. apply list_elem_of_In in Hin. vm_compute in Hin.
  repeat (destruct Hin as [Hin|Hin]; [inversion Hin; subst; reflexivity|]).
  destruct Hin.
Qed.

(** C3, as amended, on the filter [(TOTAL = 100) AND (sub-query)]: one
    registration, under [t0_R1], and the parameter of the sub-query. *)
Lemma replaceRaw_registers_raw_literals_witness :
  repr mixed_store mixed_tree ∧ NoDup (locs mixed_tree) ∧ subqueries_ok mixed_tree ∧
  height mixed_tree ≤ 3 ∧ leaves mixed_tree ∧ raw_met mixed_tree = 1 ∧
  ∃ this' cs' regs t',
    replaceRaw 3 session0 mixed_store (root mixed_tree) = Some (this', cs') ∧
    rewrite_raw (tableAlias session0) (rawIndex session0) mixed_tree
      = (rawIndex this', regs, t') ∧
    length regs = raw_met mixed_tree ∧
    regs.*1 = (λ k : nat, raw_name (tableAlias session0)
                                   (rawIndex session0 + Z.of_nat (S k)))
                <$> seq 0 (raw_met mixed_tree) ∧
    NoDup regs.*1 ∧
    rawIndex this' = (rawIndex session0 + Z.of_nat (raw_met mixed_tree))%Z ∧
    parameters this'
      = (params_after (tableAlias session0) (rawIndex session0, parameters session0)
           mixed_tree).2 ∧
    (∀ name, is_Some (parameters this' !! name) ↔
       is_Some (parameters session0 !! name) ∨ name ∈ regs.*1 ∨ name ∈ copied mixed_tree) ∧
    (∀ name, name ∉ regs.*1 → name ∉ copied mixed_tree →
       parameters this' !! name = parameters session0 !! name) ∧
    (∀ name v, (name, v) ∈ regs → name ∉ copied mixed_tree →
       parameters this' !! name = Some v) ∧
    (copied mixed_tree = [] →
       parameters this' = register (parameters session0) regs ∧
       ((∀ name, name ∈ regs.*1 → parameters session0 !! name = None) →
        size (parameters this') = size (parameters session0) + raw_met mixed_tree)) ∧
    (∀ l tok, (l, tok) ∈ met mixed_tree → Operator tok = TOKEN_RAW →
       ∃ name, (name, TokValue tok) ∈ regs ∧
         cs' !! l = Some (mkToken TOKEN_PARAM (TableAlias tok) (VLit (LStr name))
                            (Members tok))) ∧
    repr cs' t' ∧ locs t' = locs mixed_tree ∧
    (leaves mixed_tree →
       met mixed_tree = cells mixed_tree ∧ raw_met mixed_tree = raw_nodes mixed_tree ∧
       raw_nodes t' = 0) ∧
    (∀ k, k ∉ locs mixed_tree → cs' !! k = mixed_store !! k).
Proof.
  assert (Hnodup : NoDup (locs mixed_tree))
    by (apply (bool_decide_unpack _); vm_compute; exact I).
  assert (Hok : subqueries_ok mixed_tree) by (simpl; done).
  assert (Hheight : height mixed_tree ≤ 3) by (vm_compute; lia).
  split; [exact mixed_tree_repr|]. split; [exact Hnodup|].
  split; [exact Hok|]. split; [exact Hheight|].
  split; [simpl; repeat split; intros [?|?]; congruence|].
  split; [reflexivity|].
  apply (replaceRaw_registers_raw_literals 3 session0 mixed_store mixed_tree
           mixed_tree_repr Hnodup Hok Hheight).
  - vm_compute. discriminate.
  - vm_compute. reflexivity.
Defined.

(** C3 as stated fails on a criteria that is one sub-query token whose query
    holds one parameter: the tree has no raw-literal node, and [replaceRaw]
    adds one entry, the parameter of the sub-query under its own name, to the
    parameter map. *)
Lemma replaceRaw_subquery_counterexample :
  repr subquery_store subquery_tree ∧ NoDup (locs subquery_tree) ∧
  raw_nodes subquery_tree = 0 ∧ parameters session0 = ∅ ∧
  ∃ this' cs',
    replaceRaw 1 session0 subquery_store (root subquery_tree) = Some (this', cs') ∧
    parameters this' = {[ "p" := VLit (LInt 1) ]} ∧
    size (parameters this') = size (parameters session0) + 1 ∧
    size (parameters this') ≠ size (parameters session0) + raw_nodes subquery_tree.
Proof.
  split.
  { intros l tok Hin. apply list_elem_of_In in Hin.
    destruct Hin as [Hin|[]]. inversion Hin; subst. reflexivity. }
  split; [apply (bool_decide_unpack _); vm_compute; exact I|].
  split; [reflexivity|]. split; [reflexivity|].
  eexists _, _. split; [vm_compute; reflexivity|].
  split; [vm_compute; reflexivity|]. split; [vm_compute; reflexivity|].
  vm_compute. discriminate.
Qed.

(** C5 on the path ORDER -> CUSTOMER -> ADDRESS, CUSTOMER having a
    table-level discriminator. *)
Lemma buildPathCriterias_table_discriminators_witness :
  composable 3 store1 paths1 path1 ∧
  ∃ this' cs' (pathCriterias : list (option PathCriteria)),
    buildPathCriterias 3 after1.1.1.1 store1 paths1 criteria0 path1
      = Some (this', cs', pathCriterias) ∧
    (∀ i pe per base tcs,
       path1 !! i = Some pe → paths1 !! pe = Some per → store1 !! Base per = Some base →
       TableCriterias (TableTo base) = Some tcs →
       ∃ pc extra,
         pathCriterias !! (i + 1) = Some (Some pc) ∧
         slice_list (Criterias pc) = ptr_list (Criteria per) ++ tcs ++ extra) ∧
    pathCriterias !! 0 = Some None ∧
    (∀ j slot c,
       pathCriterias !! j = Some slot → c ∈ criterias_of slot → c ∈ dom criteria0 →
       ∃ i pe per base,
         j = i + 1 ∧ path1 !! i = Some pe ∧ paths1 !! pe = Some per ∧
         store1 !! Base per = Some base ∧
         (Criteria per = Some c ∨ c ∈ slice_list (TableCriterias (TableTo base)))).
Proof.
  split; [exact path1_composable|].
  exact (buildPathCriterias_table_discriminators 3 after1.1.1.1 store1 paths1 criteria0
           path1 path1_composable).
Defined.

(** C7 on the first request. *)
Lemma joinTo_attaches_on_clauses_witness :
  wf_session request1.1 schema request1.2 ∧ fresh_request request1.1 path1 ∧
  path1 ≠ [] ∧ resolvable schema request1.2 path1 ∧
  attachable 3 schema request1.2 criteria0 path1 ∧ 4 ≤ 4 ∧
  ∃ this' st' ps' cs',
    joinTo 4 request1.1 schema request1.2 criteria0 path1 false
      = Some (this', st', ps', cs') ∧
    criteria this' = criteria request1.1 ∧
    ∃ this1 ps1 local this2 cs2 slots s',
      addJoin request1.1 schema request1.2 path1 None false
        = Some (this1, st', ps1, local) ∧
      buildPathCriterias 4 this1 st' ps1 criteria0 path1
        = Some (this2, cs2, None :: slots) ∧
      length slots = length path1 ∧
      attach_slots 4 st' path1 (mkJoinToState this2 ps1 cs2 None) 1 slots = Some s' ∧
      this' = jt_this s' ∧ ps' = jt_paths s' ∧ cs' = jt_crits s'.
Proof.
  assert (Hne : path1 ≠ []) by (vm_compute; discriminate).
  assert (Hle : 4 ≤ 4) by lia.
  split; [exact (proj1 request1_wf)|]. split; [exact (proj2 request1_wf)|].
  split; [exact Hne|]. split; [exact request1_resolvable|].
  split; [exact request1_attachable|]. split; [exact Hle|].
  exact (joinTo_attaches_on_clauses 4 3 request1.1 schema request1.2 criteria0 path1 false
           (proj1 request1_wf) (proj2 request1_wf) Hne request1_resolvable
           request1_attachable Hle).
Defined.

(** C8 as stated fails on the second request, whose first two associations
    are those of the cached path: the entry appended to the cache is the
    whole requested path, and not its newly resolved suffix, the one element
    after the deepest common path. *)
Lemma addJoin_cache_append_counterexample :
  cachedAssociation request2.1 = [path1] ∧
  DeepestCommonPath request2.2 (cachedAssociation request2.1) path2 = Some path1 ∧
  drop (length path1) path2 = [5%positive] ∧
  addJoin request2.1 store1 request2.2 path2 None false
    = Some (after2.1.1.1, after2.1.1.2, after2.1.2, after2.2) ∧
  cachedAssociation after2.1.1.1 = [path1; path2] ∧
  cachedAssociation after2.1.1.1
    ≠ cachedAssociation request2.1 ++ [drop (length path1) path2].
Proof.
  split; [reflexivity|]. split; [vm_compute; reflexivity|].
  split; [reflexivity|]. split; [vm_compute; reflexivity|].
  split; [vm_compute; reflexivity|]. vm_compute. discriminate.
Qed.

(** C8, as amended, on the first request of a session. *)
Lemma addJoin_cache_append_witness :
  wf_session request1.1 schema request1.2 ∧ fresh_request request1.1 path1 ∧
  path1 ≠ [] ∧ resolvable schema request1.2 path1 ∧
  ∃ this' st' ps' local,
    addJoin request1.1 schema request1.2 path1 None false
      = Some (this', st', ps', local) ∧
    local = path1 ∧
    (((∃ c, c ∈ cachedAssociation request1.1 ∧
            same_bases request1.2 path1 c (length path1)) ∧
      cachedAssociation this' = cachedAssociation request1.1)
     ∨
     ((¬ ∃ c, c ∈ cachedAssociation request1.1 ∧
              same_bases request1.2 path1 c (length path1)) ∧
      cachedAssociation this' = cachedAssociation request1.1 ++ [path1])).
Proof.
  assert (Hne : path1 ≠ []) by (vm_compute; discriminate).
  split; [exact (proj1 request1_wf)|]. split; [exact (proj2 request1_wf)|].
  split; [exact Hne|]. split; [exact request1_resolvable|].
  exact (addJoin_cache_append request1.1 schema request1.2 path1 false
           (proj1 request1_wf) (proj2 request1_wf) Hne request1_resolvable).
Defined.

Lemma request5_wf :
  wf_session request5.1 schema request5.2 ∧ fresh_request request5.1 path5.
Proof.
  split.
  - apply (wf_session_weaken session0 schema ∅); [apply NewDmlBase_wf|reflexivity..|].
    apply map_empty_subseteq.
  - split; [apply (bool_decide_unpack _); vm_compute; exact I|].
    intros c pe Hc. by apply elem_of_nil in Hc.
Qed.

Lemma request5_resolvable : resolvable schema request5.2 path5.
Proof. each_element; eexists _, _; repeat split; vm_compute; reflexivity. Qed.

Lemma request5_attachable : attachable 3 schema request5.2 columns_store path5.
Proof.
  each_element; eexists _, _;
    (split; [vm_compute; reflexivity|]); (split; [vm_compute; reflexivity|]);
    simpl; repeat split; each_element; criteria_in_store.
Qed.

(** C9, as amended: [applyOn] on the caller's filter and the first join of
    the first path, and [joinTo] on the path whose element includes the
    column at cell 40. *)
Lemma clone_before_mutate_witness :
  (repr criteria0 filter_tree ∧ subqueries_ok filter_tree ∧ height filter_tree ≤ 4 ∧
   ∃ t1 t' this' ps' cs',
     copy_of criteria0 filter_tree t1 ∧
     applyOn 4 session1 store1 paths1 criteria0 (take 1 path1) (root filter_tree)
       = Some (this', ps', cs') ∧
     (Criteria <$> ps' !! 1%positive) = Some (Some (root t1)) ∧
     repr cs' t' ∧ root t' = root t1 ∧ criteria0 ⊆ cs') ∧
  (wf_session request5.1 schema request5.2 ∧ fresh_request request5.1 path5 ∧
   resolvable schema request5.2 path5 ∧
   attachable 3 schema request5.2 columns_store path5 ∧
   ∃ this' st' ps' cs',
     joinTo 4 request5.1 schema request5.2 columns_store path5 false
       = Some (this', st', ps', cs') ∧
     schema ⊆ st' ∧ dom columns_store ⊆ dom cs' ∧
     (∀ k, k ∈ dom columns_store → k ∉ ({[ 40%positive ]} : gset loc) →
        cs' !! k = columns_store !! k) ∧
     criteria_kept_or_new columns_store request5.2 ps').
Proof.
  assert (Hok : subqueries_ok filter_tree) by (simpl; done).
  assert (Hheight : height filter_tree ≤ 4) by (vm_compute; lia).
  split.
  - split; [exact filter_tree_repr|]. split; [exact Hok|]. split; [exact Hheight|].
    destruct (proj1 clone_before_mutate 4 session1 store1 paths1 criteria0 (take 1 path1)
                1%positive
                (mkPathElement aOrderCustomer true "" None None (Some 7%positive))
                7%positive filter_tree)
      as (this1 & fkAlias & t1 & i' & regs & t' & cs' & _ & Hcopy & _ & Hrun & Hrepr
          & Hroot & Hsub).
    + reflexivity.
    + vm_compute. reflexivity.
    + reflexivity.
    + vm_compute. eauto.
    + exact filter_tree_repr.
    + exact Hok.
    + exact Hheight.
    + vm_compute. discriminate.
    + vm_compute. reflexivity.
    + eexists t1, t', _, _, cs'. split; [exact Hcopy|]. split; [exact Hrun|].
      split; [by rewrite lookup_insert_eq|]. split; [exact Hrepr|].
      split; [exact Hroot|exact Hsub].
  - split; [exact (proj1 request5_wf)|]. split; [exact (proj2 request5_wf)|].
    split; [exact request5_resolvable|]. split; [exact request5_attachable|].
    apply (proj1 (proj2 (proj2 clone_before_mutate)) 4 3 {[ 40%positive ]} request5.1
             schema request5.2 columns_store path5 false
             (proj1 request5_wf) (proj2 request5_wf) request5_resolvable
             request5_attachable).
    + lia.
    + intros k Hk. apply elem_of_singleton in Hk as ->. apply elem_of_dom.
      vm_compute. eauto.
    + intros k tok m Hk Htok Hm. apply elem_of_singleton in Hk as ->.
      vm_compute in Htok. inversion Htok; subst tok. by apply elem_of_nil in Hm.
    + intros c Hc. apply list_elem_of_In in Hc. vm_compute in Hc.
      destruct Hc as [<-|[]]. by apply elem_of_singleton.
Defined.

(** C9 as stated fails on [joinTo] for a path whose element includes a
    column: the column token that the caller attached to the element (cell
    40) is not cloned, [joinTo] sets the alias of the join on it in place.
    The discriminator criteria of CUSTOMER (cell 10), which goes through
    [applyOn], is as it was: what is attached (cell 45) holds a copy of it
    (cell 44). *)
Lemma joinTo_include_counterexample :
  request5.2 !! 1%positive
    = Some (mkPathElement aOrderCustomer true "" None (Some [40%positive]) None) ∧
  columns_store !! 40%positive
    = Some (mkToken TOKEN_COLUMN "" (VLit (LStr "NAME")) []) ∧
  ∃ this' st' ps' cs',
    joinTo 4 request5.1 schema request5.2 columns_store path5 false
      = Some (this', st', ps', cs') ∧
    cs' !! 40%positive = Some (mkToken TOKEN_COLUMN "t0_j1" (VLit (LStr "NAME")) []) ∧
    cs' !! 40%positive ≠ columns_store !! 40%positive ∧
    cs' !! 10%positive = columns_store !! 10%positive ∧
    (Criteria <$> ps' !! 1%positive) = Some (Some 45%positive) ∧
    cs' !! 45%positive
      = Some (mkToken TOKEN_AND "t0_j1" (VLit LNil) [Some 44%positive]) ∧
    cs' !! 44%positive
      = Some (mkToken TOKEN_EQ "t0_j1" (VLit LNil) [Some 42%positive; Some 43%positive]).
Proof.
  split; [vm_compute; reflexivity|]. split; [vm_compute; reflexivity|].
  eexists _, _, _, _. split; [vm_compute; reflexivity|].
  repeat split; try (vm_compute; reflexivity). vm_compute. discriminate.
Qed.

(** C10 on the path ORDER -> CUSTOMER -> ADDRESS. *)
Lemma buildPathCriterias_length_slot0_witness :
  composable 3 store1 paths1 path1 ∧
  ∃ this' cs' (pathCriterias : list (option PathCriteria)),
    buildPathCriterias 3 after1.1.1.1 store1 paths1 criteria0 path1
      = Some (this', cs', pathCriterias) ∧
    length pathCriterias = length path1 + 1 ∧ pathCriterias !! 0 = Some None.
Proof.
  split; [exact path1_composable|].
  exact (buildPathCriterias_length_slot0 3 after1.1.1.1 store1 paths1 criteria0 path1
           path1_composable).
Defined.

(** C6 on the path ORDER <-> TAG -> ADDRESS, whose second association has a
    discriminator on its origin side.  [addJoin] resolves the pairing into
    the joins [t0 -> t0_j1 -> t0_j2] and the second association into
    [t0_j2 -> t0_j3], so the alias of the previous hop of step 2 is [t0_j2].
    [buildPathCriterias] asks the alias allocator for the alias of the clone
    of the pairing, which has none (the aliases are those of its two junction
    clones): the allocator makes the new alias [t0_j4], which becomes the
    alias in force at step 2, and the criteria of the discriminator, in
    slot 2, gets that alias, which is the alias of no join. *)
Theorem buildPathCriterias_alias_after_many2many :
  addJoin request3.1 schema request3.2 path3 None false
    = Some (after3.1.1.1, after3.1.1.2, after3.1.2, after3.2) ∧
  buildPathCriterias 3 after3.1.1.1 after3.1.1.2 after3.1.2 criteria0 path3
    = Some (composed3.1.1, composed3.1.2, composed3.2) ∧
  (∃ per d pair hop1 hop2 fromFk toFk,
     after3.1.2 !! pe3 = Some per ∧ Derived per = Some d ∧
     after3.1.1.2 !! d = Some pair ∧
     FromM2M pair = Some fromFk ∧ ToM2M pair = Some toFk ∧
     after3.1.1.2 !! fromFk = Some hop1 ∧ after3.1.1.2 !! toFk = Some hop2 ∧
     AliasFrom hop1 = "t0" ∧ AliasTo hop1 = "t0_j1" ∧
     AliasFrom hop2 = "t0_j1" ∧ AliasTo hop2 = "t0_j2" ∧
     bag (joinBag after3.1.1.1) !! Some d = None ∧
     bag (joinBag composed3.1.1) !! Some d = Some "t0_j4") ∧
  (∃ pe per d a,
     path3 !! 1 = Some pe ∧ after3.1.2 !! pe = Some per ∧ Derived per = Some d ∧
     after3.1.1.2 !! d = Some a ∧ AliasFrom a = "t0_j2" ∧ AliasTo a = "t0_j3" ∧
     Table_Equals (DiscriminatorTable a) (TableTo a) = false) ∧
  forced_aliases after3.1.1.1 after3.1.2 (tableAlias after3.1.1.1) path3
    = ["t0"; "t0_j4"] ∧
  (∃ c tok,
     composed3.2 = [None; None; Some (mkPathCriteria (Some [c]) None)] ∧
     composed3.1.2 !! c = Some tok ∧ Operator tok = TOKEN_EQ ∧
     TableAlias tok = "t0_j4" ∧ TableAlias tok ≠ "t0_j2") ∧
  map_Forall (λ _ a, AliasFrom a ≠ "t0_j4" ∧ AliasTo a ≠ "t0_j4") after3.1.1.2.
Proof.
  split; [vm_compute; reflexivity|].
  split; [vm_compute; reflexivity|].
  split.
  { eexists _, _, _, _, _, _, _.
    repeat (split; [vm_compute; reflexivity|]). vm_compute; reflexivity. }
  split.
  { eexists _, _, _, _.
    repeat (split; [vm_compute; reflexivity|]). vm_compute; reflexivity. }
  split; [vm_compute; reflexivity|].
  split.
  { eexists _, _. repeat (split; [vm_compute; reflexivity|]).
    vm_compute. discriminate. }
  apply (bool_decide_unpack _). vm_compute. exact I.
Qed.

End Examples.

(** * Part V: further properties of the code

    ** The data access helper [SimpleDBA] *)

Section SimpleDBA_facts.
Context `{dbx.Sql}.
Import dbx.

Implicit Types (this : SimpleDBA) (w : World) (sql : string) (params : slice Param).

Lemma Query_rows_all {R} sql (transformer : Row → error + R) params rows :
  ∀ pending results acc w,
    Forall2 (λ row r, transformer row = inr r) pending results →
    Query_rows sql transformer params rows pending acc w
    = (mkWorld (statements w) (cursors w)
         (calls w ++ replicate (S (length pending)) (CallNext rows)),
       inr (acc ++ results)).
Proof.
  induction pending as [|row pending IH]; intros results acc w Hall.
  - apply Forall2_nil_inv_l in Hall as ->. by rewrite app_nil_r.
  - apply Forall2_cons_inv_l in Hall as (r & results' & Hr & Hall & ->).
    cbn [Query_rows]. rewrite Hr, (IH results' _ _ Hall). cbn.
    by rewrite <- !(assoc_L (++)).
Qed.

Lemma Query_rows_first_failure {R} sql (transformer : Row → error + R) params rows :
  ∀ good results bad rest err acc w,
    Forall2 (λ row r, transformer row = inr r) good results →
    transformer bad = inl err →
    Query_rows sql transformer params rows (good ++ bad :: rest) acc w
    = (mkWorld (statements w) (cursors w)
         (calls w ++ replicate (S (length good)) (CallNext rows)),
       inl (rethrow FAULT_PARSE_STATEMENT err sql params)).
Proof.
  induction good as [|row good IH]; intros results bad rest err acc w Hall Hbad.
  - cbn [app Query_rows]. by rewrite Hbad.
  - apply Forall2_cons_inv_l in Hall as (r & results' & Hr & Hall & ->).
    cbn [app Query_rows]. rewrite Hr, (IH results' _ _ _ _ _ Hall Hbad). cbn.
    by rewrite <- !(assoc_L (++)).
Qed.

Lemma Query_rows_world {R} sql (transformer : Row → error + R) params rows :
  ∀ pending acc w,
    statements (Query_rows sql transformer params rows pending acc w).1 = statements w ∧
    cursors (Query_rows sql transformer params rows pending acc w).1 = cursors w.
Proof.
  induction pending as [|row pending IH]; intros acc w; [done|].
  cbn [Query_rows]. destruct (transformer row); [done|].
  destruct (IH (acc ++ [r]) (called (CallNext rows) w)) as [-> ->]. done.
Qed.

Lemma QueryClosure_rows_world {S} query (transformer : Row → S → S * option error)
    params rows :
  ∀ pending s w,
    statements (QueryClosure_rows query transformer params rows pending s w).1
      = statements w ∧
    cursors (QueryClosure_rows query transformer params rows pending s w).1 = cursors w.
Proof.
  induction pending as [|row pending IH]; intros s w; [done|].
  cbn [QueryClosure_rows]. destruct (transformer row s) as [s' [err|]]; [done|].
  destruct (IH s' (called (CallNext rows) w)) as [-> ->]. done.
Qed.

Lemma QueryCollection_rows_world {S I} sql (rt : IRowTransformer S I) params rows :
  ∀ pending s w,
    statements (QueryCollection_rows sql rt params rows pending s w).1 = statements w ∧
    cursors (QueryCollection_rows sql rt params rows pending s w).1 = cursors w.
Proof.
  induction pending as [|row pending IH]; intros s w; [done|].
  cbn [QueryCollection_rows]. destruct (Transform rt row s) as [s' [err|instance]]; [done|].
  destruct (IH (OnTransformation rt instance s')
              (called CallOnTransformation
                 (called CallTransform (called (CallNext rows) w)))) as [-> ->].
  done.
Qed.

(** What [fetchRows] leaves behind: on a failure, the world as it was, apart
    from the calls; on success one statement and one result set more, both
    new. *)
Lemma fetchRows_world this sql params w :
  match (fetchRows this sql params w).2 with
  | inl _ =>
      statements (fetchRows this sql params w).1 = statements w ∧
      cursors (fetchRows this sql params w).1 = cursors w
  | inr (rows, stmt) =>
      (stmt_id stmt ∉ statements w) ∧ (rows_id rows ∉ cursors w) ∧
      stmt_connection stmt = connection this ∧ stmt_sql stmt = sql ∧
      rows_connection rows = connection this ∧ rows_sql rows = sql ∧
      statements (fetchRows this sql params w).1 = {[stmt_id stmt]} ∪ statements w ∧
      cursors (fetchRows this sql params w).1 = {[rows_id rows]} ∪ cursors w
  end.
Proof.
  unfold fetchRows, Prepare, Stmt_Query. cbn.
  destruct (on_Prepare _ sql); [done|]. cbn.
  destruct (on_Query _ sql params); cbn.
  - split; [|done]. pose proof (is_fresh (statements w)). set_solver.
  - split_and!; try done; apply is_fresh.
Qed.


Ltac open_query Hprepare Hquery :=
  unfold fetchRows, Prepare, Stmt_Query; cbn;
  rewrite Hprepare; cbn; rewrite Hquery; cbn.

(** X1. When the statement is prepared and run and the transformer accepts
    every row, [Query] returns the transformer's results, one per row, in
    the order of the rows (an empty list when there is no row), whatever the
    closing of the rows and of the statement answers. *)
Theorem Query_results_in_row_order {R} this sql (transformer : Row → error + R)
    params w rows results :
  on_Prepare (connection this) sql = None →
  on_Query (connection this) sql params = inr rows →
  Forall2 (λ row r, transformer row = inr r) rows results →
  (Query this sql transformer params w).2 = inr results.
Proof.
  intros Hprepare Hquery Hall. unfold Query. open_query Hprepare Hquery.
  rewrite (Query_rows_all _ _ _ _ _ _ [] _ Hall). cbn.
  unfold closeResources, Rows_Close, Stmt_Close. cbn.
  by destruct (on_Rows_Close (connection this) sql), (on_Stmt_Close (connection this) sql).
Qed.

(** X2. [Query] stops at the first row that the transformer refuses: it
    returns the failure [FAULT_PARSE_STATEMENT] built from that row's error,
    drops the results of the rows before, and fetches no row after
    ([Next] has been called once per row up to the refused one); it then
    closes the rows and, unless that fails, the statement. *)
Theorem Query_stops_at_first_failure {R} this sql (transformer : Row → error + R)
    params w good results bad rest err :
  on_Prepare (connection this) sql = None →
  on_Query (connection this) sql params = inr (good ++ bad :: rest) →
  Forall2 (λ row r, transformer row = inr r) good results →
  transformer bad = inl err →
  ∃ w' stmt rows,
    Query this sql transformer params w
      = (w', inl (rethrow FAULT_PARSE_STATEMENT err sql params)) ∧
    calls w' = calls w ++ [CallPrepare sql; CallQuery stmt params]
                 ++ replicate (S (length good)) (CallNext rows)
                 ++ CallRowsClose rows
                    :: match on_Rows_Close (connection this) sql with
                       | Some _ => []
                       | None => [CallStmtClose stmt]
                       end.
Proof.
  intros Hprepare Hquery Hall Hbad. unfold Query. open_query Hprepare Hquery.
  rewrite (Query_rows_first_failure _ _ _ _ _ _ _ rest _ [] _ Hall Hbad). cbn.
  unfold closeResources, Rows_Close, Stmt_Close. cbn.
  destruct (on_Rows_Close (connection this) sql) eqn:Hclose; cbn.
  - eexists _, _, _. split; [done|]. cbn. by rewrite <- ?(assoc_L (++)).
  - destruct (on_Stmt_Close (connection this) sql);
      (eexists _, _, _; split; [done|]; cbn;
       rewrite <- ?(assoc_L (++)); cbn; by rewrite <- ?(assoc_L (++))).
Qed.


Lemma closeResources_world (rows : Rows) (stmt : Stmt) w :
  cursors (closeResources (Some rows) (Some stmt) w).1 = cursors w ∖ {[rows_id rows]} ∧
  statements (closeResources (Some rows) (Some stmt) w).1
  = match on_Rows_Close (rows_connection rows) (rows_sql rows) with
    | Some _ => statements w
    | None => statements w ∖ {[stmt_id stmt]}
    end.
Proof.
  unfold closeResources, Rows_Close, Stmt_Close. cbn.
  destruct (on_Rows_Close _ _); [done|]. cbn. by destruct (on_Stmt_Close _ _).
Qed.

Lemma closeResources_statement (stmt : Stmt) w :
  cursors (closeResources None (Some stmt) w).1 = cursors w ∧
  statements (closeResources None (Some stmt) w).1 = statements w ∖ {[stmt_id stmt]}.
Proof.
  unfold closeResources, Stmt_Close. cbn. by destruct (on_Stmt_Close _ _).
Qed.

Lemma execute_world this sql params w :
  match (execute this sql params w).2 with
  | inl _ =>
      statements (execute this sql params w).1 = statements w ∧
      cursors (execute this sql params w).1 = cursors w
  | inr (result, stmt) =>
      (stmt_id stmt ∉ statements w) ∧
      statements (execute this sql params w).1 = {[stmt_id stmt]} ∪ statements w ∧
      cursors (execute this sql params w).1 = cursors w
  end.
Proof.
  unfold execute, Prepare, Stmt_Exec. cbn.
  destruct (on_Prepare _ sql); [done|]. cbn.
  destruct (on_Exec _ sql params); cbn.
  - split; [|done]. pose proof (is_fresh (statements w)). set_solver.
  - split_and!; try done; apply is_fresh.
Qed.

(** What the part of a query function after [fetchRows] leaves behind, when
    it keeps the statements and the result sets as they are and
    [closeResources] follows. *)
Lemma fetched_then_closed this sql params w w1 rows stmt w2 :
  fetchRows this sql params w = (w1, inr (rows, stmt)) →
  statements w2 = statements w1 → cursors w2 = cursors w1 →
  cursors (closeResources (Some rows) (Some stmt) w2).1 = cursors w ∧
  statements (closeResources (Some rows) (Some stmt) w2).1
  = match on_Rows_Close (connection this) sql with
    | Some _ => {[stmt_id stmt]} ∪ statements w
    | None => statements w
    end ∧
  (stmt_id stmt ∉ statements w).
Proof.
  intros Hfetch Hs Hc. pose proof (fetchRows_world this sql params w) as Hw.
  rewrite Hfetch in Hw. cbn in Hw.
  destruct Hw as (Hstmt & Hrows & _ & _ & Hconn & Hsql & Hs1 & Hc1).
  destruct (closeResources_world rows stmt w2) as [-> ->].
  rewrite Hconn, Hsql, Hs, Hc, Hs1, Hc1.
  split; [set_solver|]. split; [|done].
  destruct (on_Rows_Close _ _); [done|set_solver].
Qed.

(** X3. [Query], [QueryClosure], [QueryRow] and [QueryCollection] leave no
    statement and no
    result set open when closing the rows succeeds: on every path (the
    statement cannot be prepared or run, a row is refused, all goes well)
    the statements and the result sets open afterwards are those open
    before. *)
Theorem queries_release_what_they_open {R S D T I} this sql params w
    (transformer : Row → error + R) (closure : Row → S → S * option error) (s : S)
    (Scan : Row → D → D * option error) (dest : D)
    (rt : IRowTransformer T I) (t : T) :
  on_Rows_Close (connection this) sql = None →
  (statements (Query this sql transformer params w).1 = statements w ∧
   cursors (Query this sql transformer params w).1 = cursors w) ∧
  (statements (QueryClosure this sql closure params s w).1 = statements w ∧
   cursors (QueryClosure this sql closure params s w).1 = cursors w) ∧
  (statements (QueryRow Scan this sql params dest w).1 = statements w ∧
   cursors (QueryRow Scan this sql params dest w).1 = cursors w) ∧
  (statements (QueryCollection this sql rt params t w).1 = statements w ∧
   cursors (QueryCollection this sql rt params t w).1 = cursors w).
Proof.
  intros Hclose. pose proof (fetchRows_world this sql params w) as Hw.
  unfold Query, QueryClosure, QueryRow, QueryCollection.
  destruct (fetchRows this sql params w) as [w1 [fail|[rows stmt]]] eqn:Hfetch;
    [cbn in *; by destruct Hw|clear Hw].
  assert (∀ w2, statements w2 = statements w1 → cursors w2 = cursors w1 →
            statements (closeResources (Some rows) (Some stmt) w2).1 = statements w ∧
            cursors (closeResources (Some rows) (Some stmt) w2).1 = cursors w)
    as Hclosed.
  { intros w2 Hs Hc.
    destruct (fetched_then_closed _ _ _ _ _ _ _ w2 Hfetch Hs Hc) as (? & Hst & _).
    by rewrite Hst, Hclose. }
  split_and!.
  - destruct (Query_rows_world sql transformer params (rows_id rows)
                (rows_pending rows) [] w1) as [Hs Hc].
    destruct (Query_rows _ _ _ _ _ _ w1) as [w2 r].
    destruct (Hclosed w2 Hs Hc) as [Hst _]. by destruct (closeResources _ _ w2).
  - destruct (Query_rows_world sql transformer params (rows_id rows)
                (rows_pending rows) [] w1) as [Hs Hc].
    destruct (Query_rows _ _ _ _ _ _ w1) as [w2 r].
    destruct (Hclosed w2 Hs Hc) as [_ Hcu]. by destruct (closeResources _ _ w2).
  - destruct (QueryClosure_rows_world sql closure params (rows_id rows)
                (rows_pending rows) s w1) as [Hs Hc].
    destruct (QueryClosure_rows _ _ _ _ _ _ w1) as [w2 r].
    destruct (Hclosed w2 Hs Hc) as [Hst _]. by destruct (closeResources _ _ w2).
  - destruct (QueryClosure_rows_world sql closure params (rows_id rows)
                (rows_pending rows) s w1) as [Hs Hc].
    destruct (QueryClosure_rows _ _ _ _ _ _ w1) as [w2 r].
    destruct (Hclosed w2 Hs Hc) as [_ Hcu]. by destruct (closeResources _ _ w2).
  - destruct (rows_pending rows) as [|row ?]; [|destruct (Scan row dest) as [? [?|]]];
      match goal with
      | |- context [closeResources _ _ ?w2] =>
          destruct (Hclosed w2 eq_refl eq_refl) as [Hst _];
          by destruct (closeResources _ _ w2)
      end.
  - destruct (rows_pending rows) as [|row ?]; [|destruct (Scan row dest) as [? [?|]]];
      match goal with
      | |- context [closeResources _ _ ?w2] =>
          destruct (Hclosed w2 eq_refl eq_refl) as [_ Hcu];
          by destruct (closeResources _ _ w2)
      end.
  - destruct (QueryCollection_rows_world sql rt params (rows_id rows)
                (rows_pending rows) (BeforeAll rt t) (called CallBeforeAll w1)) as [Hs Hc].
    destruct (QueryCollection_rows _ _ _ _ _ _ _) as [w2 [t1 err]].
    destruct (Hclosed (called CallAfterAll w2) Hs Hc) as [Hst _].
    by destruct (closeResources _ _ (called CallAfterAll w2)).
  - destruct (QueryCollection_rows_world sql rt params (rows_id rows)
                (rows_pending rows) (BeforeAll rt t) (called CallBeforeAll w1)) as [Hs Hc].
    destruct (QueryCollection_rows _ _ _ _ _ _ _) as [w2 [t1 err]].
    destruct (Hclosed (called CallAfterAll w2) Hs Hc) as [_ Hcu].
    by destruct (closeResources _ _ (called CallAfterAll w2)).
Qed.

Lemma fetchRows_opens this sql params w rows :
  on_Prepare (connection this) sql = None →
  on_Query (connection this) sql params = inr rows →
  ∃ w1 stmt cursor,
    fetchRows this sql params w
    = (w1, inr (mkRows cursor (connection this) sql rows,
                mkStmt stmt (connection this) sql)) ∧
    statements w1 = {[stmt]} ∪ statements w ∧ cursors w1 = {[cursor]} ∪ cursors w ∧
    calls w1 = calls w ++ [CallPrepare sql; CallQuery stmt params].
Proof.
  intros Hprepare Hquery. open_query Hprepare Hquery.
  eexists _, _, _. split; [done|]. cbn. by rewrite <- (assoc_L (++)).
Qed.

(** X4. When closing the rows fails, [closeResources] returns before it
    closes the statement: after [Query] the statement that it prepared is
    still open. *)
Theorem Query_leaves_statement_open_when_rows_close_fails {R} this sql
    (transformer : Row → error + R) params w rows err :
  on_Prepare (connection this) sql = None →
  on_Query (connection this) sql params = inr rows →
  on_Rows_Close (connection this) sql = Some err →
  ∃ stmt,
    (stmt ∉ statements w) ∧
    statements (Query this sql transformer params w).1 = {[stmt]} ∪ statements w ∧
    cursors (Query this sql transformer params w).1 = cursors w.
Proof.
  intros Hprepare Hquery Hclose.
  destruct (fetchRows_opens this sql params w rows Hprepare Hquery)
    as (w1 & stmt & cursor & Hfetch & _).
  exists stmt. unfold Query. rewrite Hfetch.
  destruct (Query_rows_world sql transformer params cursor rows [] w1) as [Hs Hc].
  cbn [rows_id rows_pending].
  destruct (Query_rows _ _ _ _ _ _ w1) as [w2 r].
  destruct (fetched_then_closed _ _ _ _ _ _ _ w2 Hfetch Hs Hc) as (Hcu & Hst & Hnew).
  rewrite Hclose in Hst. by destruct (closeResources _ _ w2).
Qed.

(** X5. [Update], [Delete] and [Insert] leave no statement open, on every
    path and whatever closing the statement answers. *)
Theorem updates_release_the_statement this sql params w :
  (statements (Update this sql params w).1 = statements w ∧
   cursors (Update this sql params w).1 = cursors w) ∧
  (statements (Delete this sql params w).1 = statements w ∧
   cursors (Delete this sql params w).1 = cursors w) ∧
  (statements (Insert this sql params w).1 = statements w ∧
   cursors (Insert this sql params w).1 = cursors w).
Proof.
  pose proof (execute_world this sql params w) as Hw.
  unfold Delete, Update, Insert, Result_RowsAffected.
  destruct (execute this sql params w) as [w1 [fail|[result stmt]]];
    [cbn in *; by destruct Hw|].
  cbn in Hw. destruct Hw as (Hstmt & Hs & Hc).
  destruct (closeResources_statement stmt (called CallRowsAffected w1)) as [Hc1 Hs1].
  destruct (closeResources_statement stmt w1) as [Hc2 Hs2].
  destruct (closeResources None (Some stmt) (called CallRowsAffected w1)).
  destruct (closeResources None (Some stmt) w1).
  cbn in *. rewrite Hs1, Hs2, Hc1, Hc2, Hs, Hc.
  split_and!; try done; set_solver.
Qed.


Lemma execute_runs this sql params w affected :
  on_Prepare (connection this) sql = None →
  on_Exec (connection this) sql params = inr affected →
  ∃ w1 stmt,
    execute this sql params w
    = (w1, inr (mkResult affected, mkStmt stmt (connection this) sql)) ∧
    calls w1 = calls w ++ [CallPrepare sql; CallExec stmt params].
Proof.
  intros Hprepare Hexec. unfold execute, Prepare, Stmt_Exec. cbn.
  rewrite Hprepare. cbn. rewrite Hexec. cbn.
  eexists _, _. split; [done|]. cbn. by rewrite <- (assoc_L (++)).
Qed.

(** X6. When the statement runs, [Update] and [Delete] return what
    [RowsAffected] answers, the count and the error as they are; [Insert]
    returns 0 and no error and does not ask for the rows affected. *)
Theorem Update_reports_rows_affected_Insert_reports_nothing this sql params w affected :
  on_Prepare (connection this) sql = None →
  on_Exec (connection this) sql params = inr affected →
  (Update this sql params w).2 = affected ∧
  (Delete this sql params w).2 = affected ∧
  (Insert this sql params w).2 = (0%Z, None) ∧
  CallRowsAffected ∉ drop (length (calls w)) (calls (Insert this sql params w).1).
Proof.
  intros Hprepare Hexec.
  destruct (execute_runs this sql params w affected Hprepare Hexec)
    as (w1 & stmt & Hrun & Hcalls).
  unfold Delete, Update, Insert. rewrite Hrun.
  unfold Result_RowsAffected, closeResources, Stmt_Close. cbn.
  destruct (on_Stmt_Close _ _); cbn; (split_and!; [done..|]);
    rewrite Hcalls, <- (assoc_L (++)), drop_app_length; set_solver.
Qed.

(** X7. A statement that cannot be prepared costs the one call to
    [Prepare] and gives the failure [FAULT_PREP_STATEMENT]; a statement
    that is prepared and cannot be run is closed at once, the answer of the
    closing being dropped, and gives the failure [FAULT_QUERY] for [Query]
    and [FAULT_EXEC_STATEMENT] for [Update]; the failure is built by
    [rethrow] from the error, the SQL text and the values bound. *)
Theorem statement_that_fails_to_open this sql params w :
  (∀ err, on_Prepare (connection this) sql = Some err →
     (∀ R (transformer : Row → error + R),
        Query this sql transformer params w
        = (called (CallPrepare sql) w,
           inl (rethrow FAULT_PREP_STATEMENT err sql params))) ∧
     Update this sql params w
     = (called (CallPrepare sql) w,
        (0%Z, Some (rethrow FAULT_PREP_STATEMENT err sql params)))) ∧
  (∀ err, on_Prepare (connection this) sql = None →
     (on_Query (connection this) sql params = inl err →
      ∀ R (transformer : Row → error + R), ∃ stmt,
        Query this sql transformer params w
        = (mkWorld (statements w) (cursors w)
             (calls w ++ [CallPrepare sql; CallQuery stmt params; CallStmtClose stmt]),
           inl (rethrow FAULT_QUERY err sql params))) ∧
     (on_Exec (connection this) sql params = inl err →
      ∃ stmt,
        Update this sql params w
        = (mkWorld (statements w) (cursors w)
             (calls w ++ [CallPrepare sql; CallExec stmt params; CallStmtClose stmt]),
           (0%Z, Some (rethrow FAULT_EXEC_STATEMENT err sql params))))).
Proof.
  split.
  - intros err Hprepare. split; [intros R transformer|].
    + unfold Query, fetchRows, Prepare. by rewrite Hprepare.
    + unfold Update, execute, Prepare. by rewrite Hprepare.
  - intros err Hprepare.
    assert (({[fresh (statements w)]} ∪ statements w) ∖ {[fresh (statements w)]}
            = statements w) as Hback.
    { pose proof (is_fresh (statements w)). set_solver. }
    split; [intros Hquery R transformer|intros Hexec]; exists (fresh (statements w)).
    + unfold Query, fetchRows, Prepare, Stmt_Query, Stmt_Close. cbn.
      rewrite Hprepare. cbn. rewrite Hquery. cbn.
      by rewrite Hback, <- !(assoc_L (++)).
    + unfold Update, execute, Prepare, Stmt_Exec, Stmt_Close. cbn.
      rewrite Hprepare. cbn. rewrite Hexec. cbn.
      by rewrite Hback, <- !(assoc_L (++)).
Qed.

(** X8. [InsertReturning] returns 0 and no error when the statement gives
    no row; otherwise it scans the first row: the number scanned when the
    scan succeeds, and 0 with the error of the scan, as it is, when the scan
    fails, whatever the scan had stored. *)
Theorem InsertReturning_zero_without_row this sql params w rows :
  on_Prepare (connection this) sql = None →
  on_Query (connection this) sql params = inr rows →
  (InsertReturning this sql params w).2
  = match rows with
    | [] => (0%Z, None)
    | row :: _ =>
        match Scan_int64 row 0%Z with
        | (_, Some err) => (0%Z, Some err)
        | (id, None) => (id, None)
        end
    end.
Proof.
  intros Hprepare Hquery.
  destruct (fetchRows_opens this sql params w rows Hprepare Hquery)
    as (w1 & stmt & cursor & Hfetch & _).
  unfold InsertReturning, QueryRow. rewrite Hfetch. cbn [rows_id rows_pending].
  destruct rows as [|row rest]; [|destruct (Scan_int64 row 0) as [id [err|]]];
    match goal with
    | |- context [closeResources ?r ?s ?w2] => by destruct (closeResources r s w2)
    end.
Qed.

(** X9. [QueryRow] calls [Next] once: it scans the first row, if there is
    one, into the destinations and reads no other row.  It answers [true]
    exactly when there was a row and the scan succeeded; the error of the
    scan is returned as it is, not as a persistence failure. *)
Theorem QueryRow_reads_one_row {D} (Scan : Row → D → D * option error)
    this sql params dest w rows :
  on_Prepare (connection this) sql = None →
  on_Query (connection this) sql params = inr rows →
  ∃ w' stmt cursor,
    QueryRow Scan this sql params dest w
    = (w', match rows with
           | [] => (dest, (false, None))
           | row :: _ =>
               ((Scan row dest).1,
                (bool_decide ((Scan row dest).2 = None), (Scan row dest).2))
           end) ∧
    calls w' = calls w ++ [CallPrepare sql; CallQuery stmt params; CallNext cursor]
                 ++ match rows with [] => [] | _ => [CallScan cursor] end
                 ++ CallRowsClose cursor
                    :: match on_Rows_Close (connection this) sql with
                       | Some _ => []
                       | None => [CallStmtClose stmt]
                       end.
Proof.
  intros Hprepare Hquery.
  destruct (fetchRows_opens this sql params w rows Hprepare Hquery)
    as (w1 & stmt & cursor & Hfetch & _ & _ & Hcalls).
  unfold QueryRow. rewrite Hfetch. cbn [rows_id rows_pending].
  unfold closeResources, Rows_Close, Stmt_Close.
  destruct rows as [|row rest]; [|destruct (Scan row dest) as [dest' [err|]]];
    cbn; destruct (on_Rows_Close _ _); cbn; try destruct (on_Stmt_Close _ _);
    (eexists _, stmt, cursor; split; [done|]); cbn; rewrite Hcalls;
    by rewrite <- ?(assoc_L (++)).
Qed.


Lemma QueryClosure_rows_all {S} query (closure : Row → S → S * option error) params rows :
  ∀ pending s w,
    (∀ row s, row ∈ pending → (closure row s).2 = None) →
    (QueryClosure_rows query closure params rows pending s w).2
    = (foldl (λ s row, (closure row s).1) s pending, None).
Proof.
  induction pending as [|row pending IH]; intros s w Hall; [done|].
  cbn [QueryClosure_rows foldl].
  pose proof (Hall row s (list_elem_of_here _ _)) as Hrow.
  destruct (closure row s) as [s' err]. cbn in Hrow. subst err. cbn.
  apply IH. intros row' s'' Hin. apply Hall. by right.
Qed.

(** X10. When the statement is prepared and run and the closure accepts
    every row, [QueryClosure] runs the closure on every row in order, each
    time in the state that the row before left. *)
Theorem QueryClosure_folds_the_rows {S} this sql (closure : Row → S → S * option error)
    params s w rows :
  on_Prepare (connection this) sql = None →
  on_Query (connection this) sql params = inr rows →
  (∀ row s, row ∈ rows → (closure row s).2 = None) →
  (QueryClosure this sql closure params s w).2
  = (foldl (λ s row, (closure row s).1) s rows, None).
Proof.
  intros Hprepare Hquery Hall.
  destruct (fetchRows_opens this sql params w rows Hprepare Hquery)
    as (w1 & stmt & cursor & Hfetch & _).
  unfold QueryClosure. rewrite Hfetch. cbn [rows_id rows_pending].
  pose proof (QueryClosure_rows_all sql closure params cursor rows s w1 Hall) as Hrows.
  destruct (QueryClosure_rows _ _ _ _ _ _ w1) as [w2 r]. cbn in Hrows. subst r.
  by destruct (closeResources _ _ w2).
Qed.

Lemma QueryCollection_rows_trace {S I} sql (rt : IRowTransformer S I) params rows :
  ∀ pending s w,
    ∃ s1 err trace,
      QueryCollection_rows sql rt params rows pending s w
      = (mkWorld (statements w) (cursors w) (calls w ++ trace), (s1, err)) ∧
      Forall (λ c, c = CallNext rows ∨ c = CallTransform ∨ c = CallOnTransformation) trace ∧
      (err = None ∨ ∃ cause, err = Some (rethrow FAULT_TRANSFORM cause sql params)).
Proof.
  induction pending as [|row pending IH]; intros s w; cbn [QueryCollection_rows].
  - exists s, None, [CallNext rows]. split; [done|]. split; [|by left].
    repeat constructor.
  - destruct (Transform rt row s) as [s' [err|instance]].
    + exists s', (Some (rethrow FAULT_TRANSFORM err sql params)),
        [CallNext rows; CallTransform].
      split; [unfold called; cbn; by rewrite <- ?(assoc_L (++))|].
      split; [|right; by exists err].
      constructor; [by left|]. constructor; [by right; left|]. constructor.
    + destruct (IH (OnTransformation rt instance s')
                  (called CallOnTransformation
                     (called CallTransform (called (CallNext rows) w))))
        as (s1 & err & trace & -> & Htrace & Herr).
      exists s1, err, ([CallNext rows; CallTransform; CallOnTransformation] ++ trace).
      split; [unfold called; cbn; by rewrite <- ?(assoc_L (++))|].
      split; [|done].
      constructor; [by left|]. constructor; [by right; left|].
      constructor; [by right; right|]. done.
Qed.

(** X20. [QueryCollection] on a statement that is prepared and run calls
    [BeforeAll] once, before it reads a row, and [AfterAll] once, after the
    last row read and before it closes the rows and the statement, also
    when [Transform] refuses a row; the collection handed back is as
    [AfterAll] left it.  Between the two it calls only [Next], [Transform]
    and [OnTransformation]; the error, if any, is the failure
    [FAULT_TRANSFORM] built from the error of [Transform]. *)
Theorem QueryCollection_calls_AfterAll {S I} this sql (rt : IRowTransformer S I)
    params s w rows :
  on_Prepare (connection this) sql = None →
  on_Query (connection this) sql params = inr rows →
  ∃ w' stmt cursor s1 err trace,
    QueryCollection this sql rt params s w = (w', (AfterAll rt s1, err)) ∧
    calls w'
    = calls w ++ [CallPrepare sql; CallQuery stmt params; CallBeforeAll] ++ trace
        ++ [CallAfterAll; CallRowsClose cursor]
        ++ match on_Rows_Close (connection this) sql with
           | Some _ => []
           | None => [CallStmtClose stmt]
           end ∧
    Forall (λ c, c = CallNext cursor ∨ c = CallTransform ∨ c = CallOnTransformation) trace ∧
    (err = None ∨ ∃ cause, err = Some (rethrow FAULT_TRANSFORM cause sql params)).
Proof.
  intros Hprepare Hquery.
  destruct (fetchRows_opens this sql params w rows Hprepare Hquery)
    as (w1 & stmt & cursor & Hfetch & _ & _ & Hcalls).
  unfold QueryCollection. rewrite Hfetch. cbn [rows_id rows_pending].
  destruct (QueryCollection_rows_trace sql rt params cursor rows (BeforeAll rt s)
              (called CallBeforeAll w1)) as (s1 & err & trace & -> & Htrace & Herr).
  unfold closeResources, Rows_Close, Stmt_Close. cbn.
  destruct (on_Rows_Close _ _); cbn; try destruct (on_Stmt_Close _ _);
    (eexists _, stmt, cursor, s1, err, trace; split; [done|]; split; [|done]);
    cbn; rewrite Hcalls; by rewrite <- ?(assoc_L (++)).
Qed.


End SimpleDBA_facts.

(** ** The dump of the parameters: [dumpParameters] *)

(** X11. [dumpParameters] writes no value of a parameter whose name ends in
    [$]: two lists of parameters with the same names in the same order,
    which differ only in the values of such parameters, give the same
    text. *)
Theorem dumpParameters_hides_secrets {V} (reflect : V → Shown)
    (params params' : list (string * V)) :
  Forall2 (λ e e', e.1 = e'.1 ∧ (HasSuffix e.1 "$" = true ∨ e.2 = e'.2)) params params' →
  dumpParameters reflect params = dumpParameters reflect params'.
Proof.
  induction 1 as [|[name v] [name' v'] params params' [Hname Hvalue] _ IH]; [done|].
  cbn in Hname, Hvalue. subst name'. cbn [dumpParameters]. rewrite IH.
  destruct Hvalue as [->| ->]; done.
Qed.

(** ** More on the rewriter: [replaceRaw] *)

(** X12. On a sub-query token, [replaceRaw] copies the parameters of the
    sub-query into those of the session and does nothing else: the store,
    the counter of raw literals and the members of the token are left as
    they are, and where the session already has a parameter of the same
    name, the value of the sub-query replaces it. *)
Theorem replaceRaw_subquery_parameters_win fuel this cs token tok sub :
  cs !! token = Some tok → Operator tok = TOKEN_SUBQUERY → TokValue tok = VQuery sub →
  replaceRaw (S fuel) this cs token
  = Some (set_parameters this ((VLit <$> sub) ∪ parameters this), cs) ∧
  ∀ name v, sub !! name = Some v →
    parameters (set_parameters this ((VLit <$> sub) ∪ parameters this)) !! name
    = Some (VLit v).
Proof.
  intros Htok Hop Hsub. split.
  - rewrite replaceRaw_S, Htok. cbn. rewrite Hop, Hsub.
    rewrite decide_False by done. rewrite decide_True by done.
    by rewrite copy_parameters_union.
  - intros name v Hname. cbn. apply lookup_union_Some_l.
    by rewrite lookup_fmap, Hname.
Qed.


Section rewrite_raw_more.
Variable alias : string.

Lemma rewrite_kids_more_intro kids :
  Forall (λ k, match k with Some t => rewrite_more alias t | None => True end) kids →
  rewrite_kids_more alias kids.
Proof.
  induction kids as [|[k|] kids IH]; intros Hall i i' regs kids' Hrw; simpl in Hrw.
  - by inversion Hrw; subst.
  - inversion Hall as [|? ? Hk Hks]; subst.
    destruct (rewrite_raw alias i k) as [[i1 regs1] k'] eqn:Hrk.
    destruct (rewrite_kids (rewrite_raw alias) i1 kids) as [[i2 regs2] kids2] eqn:Hrks.
    inversion Hrw; subst. clear Hrw.
    destruct (Hk _ _ _ _ Hrk) as (Hv1 & Hh1 & Hp1 & Hz1).
    destruct (IH Hks _ _ _ _ Hrks) as (Hv2 & Hh2 & Hp2 & Hz2).
    split_and!.
    + simpl. intros [Hp Hps]. by rewrite fmap_app, Hv1, Hv2.
    + simpl. by rewrite Hh1, Hh2.
    + intros [Hp Hps]. split; [by apply Hp1|by apply Hp2].
    + simpl. intros Hz. destruct Hz1 as [-> ->]; [lia|].
      destruct Hz2 as [-> ->]; [lia|]. done.
  - inversion Hall as [|? ? Hk Hks]; subst.
    destruct (rewrite_kids (rewrite_raw alias) i kids) as [[i2 regs2] kids2] eqn:Hrks.
    inversion Hrw; subst. clear Hrw.
    destruct (IH Hks _ _ _ _ Hrks) as (Hv2 & Hh2 & Hp2 & Hz2).
    split_and!; [done|done|done|].
    simpl. intros Hz. by destruct (Hz2 Hz) as [-> ->].
Qed.

Lemma rewrite_raw_more t : rewrite_more alias t.
Proof.
  induction t as [l op a v kids IH] using HTree_ind'.
  apply rewrite_kids_more_intro in IH.
  intros i i' regs t' Hrw. simpl in Hrw.
  destruct (decide (op = TOKEN_RAW)) as [Hraw|Hraw].
  - inversion Hrw; subst. simpl.
    split_and!; [done| done | |done].
    intros (_ & Hleaf & _). by rewrite (Hleaf eq_refl).
  - destruct (decide (op = TOKEN_SUBQUERY)) as [Hsub|Hsub].
    { inversion Hrw; subst. split_and!; try done. by intros (Hno & _). }
    destruct (rewrite_kids (rewrite_raw alias) i kids) as [[i2 regs2] kids2] eqn:Hrks.
    inversion Hrw; subst. clear Hrw.
    destruct (IH _ _ _ _ Hrks) as (Hv & Hh & Hp & Hz).
    simpl. rewrite !decide_False by done. split_and!.
    + intros (_ & _ & Hps). by apply Hv.
    + fold (foldr (λ k h, match k with Some t' => max (height t') h | None => h end) 0).
      by rewrite Hh.
    + intros (_ & Hleaf & Hps). split_and!; [done|done|by apply Hp].
    + intros Hzero. by destruct (Hz Hzero) as [-> ->].
Qed.

End rewrite_raw_more.

Lemma BuildValues_loop_bound fault oriSql (paramMap : gmap string Value) names vs :
  Forall2 (λ name v, paramMap !! name = Some v) names vs →
  BuildValues_loop fault oriSql paramMap names = Ok vs.
Proof.
  induction 1 as [|name v names vs Hv _ IH]; [done|].
  simpl. by rewrite Hv, IH.
Qed.

(** X14. The names that [replaceRaw] gives to the raw literals of a plain
    tree, bound in order by [BuildValues] against the parameters of the
    session after the rewriting, give back the values of the raw literals,
    in the order of the traversal. *)
Theorem replaceRaw_then_BuildValues fault oriSql sql fuel this cs t :
  repr cs t → NoDup (locs t) → plain t → height t ≤ fuel →
  (- 2 ^ 63 ≤ rawIndex this)%Z →
  (rawIndex this + Z.of_nat (raw_nodes t) < 2 ^ 63)%Z →
  ∃ this' cs',
    replaceRaw fuel this cs (root t) = Some (this', cs') ∧
    BuildValues fault
      (mkRawSql oriSql sql
         ((λ k : nat, raw_name (tableAlias this) (rawIndex this + Z.of_nat (S k)))
            <$> seq 0 (raw_nodes t)))
      (parameters this')
    = Ok (raw_values t).
Proof.
  intros Hrepr Hnodup Hplain Hfuel Hlo Hhi.
  destruct (rewrite_raw (tableAlias this) (rawIndex this) t) as [[i' regs] t'] eqn:Hrw.
  destruct (replaceRaw_refines_all t fuel this cs i' regs t') as (cs' & Hrun & _);
    try done.
  destruct (rewrite_raw_facts _ t _ _ _ _ Hrw) as (_ & _ & _ & Hnames & Hcount).
  destruct (Hcount Hplain) as [Hlen _]. rewrite Hlen in Hnames.
  destruct (rewrite_raw_more _ t _ _ _ _ Hrw) as (Hvalues & _).
  specialize (Hvalues Hplain).
  eexists _, cs'. split; [exact Hrun|].
  unfold BuildValues. cbn. apply BuildValues_loop_bound.
  rewrite <- Hnames, <- Hvalues. apply Forall2_fmap, Forall_Forall2_diag.
  apply Forall_forall. intros [name v] Hin. cbn.
  apply register_lookup; [|done]. rewrite Hnames. apply raw_names_NoDup.
Qed.

(** X13. [replaceRaw] on a plain tree that it has already rewritten does
    nothing: no parameter is added, the counter does not move, and the store
    is left as it is. *)
Theorem replaceRaw_twice fuel this cs t :
  repr cs t → NoDup (locs t) → plain t → height t ≤ fuel →
  (- 2 ^ 63 ≤ rawIndex this)%Z →
  (rawIndex this + Z.of_nat (raw_nodes t) < 2 ^ 63)%Z →
  ∃ this' cs',
    replaceRaw fuel this cs (root t) = Some (this', cs') ∧
    replaceRaw fuel this' cs' (root t) = Some (this', cs').
Proof.
  intros Hrepr Hnodup Hplain Hfuel Hlo Hhi.
  destruct (rewrite_raw (tableAlias this) (rawIndex this) t) as [[i' regs] t'] eqn:Hrw.
  destruct (replaceRaw_refines_all t fuel this cs i' regs t')
    as (cs' & Hrun & Hrepr' & Hframe); try done.
  destruct (rewrite_raw_facts _ t _ _ _ _ Hrw) as (Hroot & Hlocs & Hi' & _ & Hcount).
  destruct (Hcount Hplain) as [Hlen Hzero].
  destruct (rewrite_raw_more _ t _ _ _ _ Hrw) as (_ & Hheight & Hplain' & _).
  set (this' := with_raw this i' (register (parameters this) regs)) in *.
  destruct (rewrite_raw (tableAlias this') (rawIndex this') t') as [[i2 regs2] t2] eqn:Hrw2.
  destruct (rewrite_raw_more _ t' _ _ _ _ Hrw2) as (_ & _ & _ & Hsame).
  destruct (Hsame Hzero) as [-> ->].
  destruct (rewrite_raw_facts _ t' _ _ _ _ Hrw2) as (_ & _ & Hi2 & _).
  cbn in Hi2. rewrite Z.add_0_r in Hi2. subst i2.
  destruct (replaceRaw_refines_all t' fuel this' cs' i' [] t')
    as (cs2 & Hrun2 & Hrepr2 & Hframe2); try done.
  { by rewrite Hheight. }
  { by rewrite Hlocs. }
  { by apply Hplain'. }
  { cbn. lia. }
  { rewrite Hzero. cbn. lia. }
  exists this', cs'. split; [done|]. rewrite <- Hroot, Hrun2. f_equal. f_equal.
  apply map_eq. intros k. destruct (decide (k ∈ locs t')) as [Hin|Hout].
  - apply list_elem_of_fmap in Hin as ([k' tok] & -> & Hin). cbn.
    by rewrite (Hrepr' _ _ Hin), (Hrepr2 _ _ Hin).
  - by apply Hframe2.
Qed.

(** ** More on the resolver: [inner] and [addJoin] *)

Lemma inner_elements : ∀ associations this ps inn,
  ∃ new,
    (inner this ps inn associations).1
    = set_rawSQL (set_path this (path this ++ new)) None ∧
    length new = length associations ∧ NoDup new ∧
    ps ⊆ (inner this ps inn associations).2 ∧
    (∀ q, q ∉ new → (inner this ps inn associations).2 !! q = ps !! q) ∧
    ∀ i pe, new !! i = Some pe →
      ps !! pe = None ∧
      ∃ association,
        associations !! i = Some association ∧
        (inner this ps inn associations).2 !! pe
        = Some (mkPathElement association inn EmptyString None None None).
Proof.
  induction associations as [|a associations IH]; intros this ps inn.
  - exists []. cbn. rewrite app_nil_r. split_and!; try done; try constructor.
    all: by destruct this.
  - cbn [inner]. unfold alloc. set (pe := fresh (dom ps)).
    assert (Hpe : ps !! pe = None) by (apply not_elem_of_dom, is_fresh).
    set (per := mkPathElement a inn EmptyString None None None).
    destruct (IH (set_path this (path this ++ [pe])) (<[pe := per]> ps) inn)
      as (new & Hthis & Hlen & Hnd & Hsub & Hframe & Hnew).
    exists (pe :: new). rewrite Hthis. cbn [path set_path].
    rewrite <- (assoc_L (++)). cbn [app length].
    assert (Hfresh : pe ∉ new).
    { intros (i & Hi)%list_elem_of_lookup. destruct (Hnew i pe Hi) as [Hnone _].
      by rewrite lookup_insert_eq in Hnone. }
    split_and!.
    + done.
    + by rewrite Hlen.
    + by apply NoDup_cons.
    + etrans; [by apply insert_subseteq|done].
    + intros q Hq. apply not_elem_of_cons in Hq as [Hne Hq].
      rewrite (Hframe q Hq). by apply lookup_insert_ne.
    + intros [|i] q Hq; cbn in Hq.
      * inversion Hq; subst q. split; [done|]. exists a. split; [done|].
        rewrite (Hframe pe Hfresh). apply lookup_insert_eq.
      * destruct (Hnew i q Hq) as (Hnone & association & Ha & Hrec).
        split; [|by exists association].
        destruct (decide (pe = q)) as [<-|Hne]; [done|].
        by rewrite lookup_insert_ne in Hnone.
Qed.

(** X15. [inner] appends to the path one new path element per association,
    in the order of the associations, each with the association as its
    base, the flag given, and no alias, criteria, columns or derived
    association; it forgets the cached SQL and leaves the elements that
    existed as they were. *)
Theorem inner_appends_new_elements this ps inn associations :
  ∃ new,
    (inner this ps inn associations).1
    = set_rawSQL (set_path this (path this ++ new)) None ∧
    length new = length associations ∧ NoDup new ∧
    ps ⊆ (inner this ps inn associations).2 ∧
    (∀ q, q ∉ new → (inner this ps inn associations).2 !! q = ps !! q) ∧
    ∀ i pe, new !! i = Some pe →
      ps !! pe = None ∧
      ∃ association,
        associations !! i = Some association ∧
        (inner this ps inn associations).2 !! pe
        = Some (mkPathElement association inn EmptyString None None None).
Proof. apply inner_elements. Qed.

(** X17. [addJoin] appends one join, of the path requested with the fetch
    flag, to the joins of the session and makes it the last join; the alias
    of the last join is the one registered for the association that ends the
    last element (its second hop when it is many-to-many).  The table, its
    alias, the filter, the parameters, the counter of raw literals, the path
    and the cached SQL are left as they were. *)
Theorem addJoin_records_the_join this st ps (associations : list loc) fetch :
  wf_session this st ps → fresh_request this associations → associations ≠ [] →
  resolvable st ps associations →
  ∃ this' st' ps',
    addJoin this st ps associations None fetch = Some (this', st', ps', associations) ∧
    joins this' = joins this ++ [NewJoin associations fetch] ∧
    lastJoin this' = Some (NewJoin associations fetch) ∧
    (∃ pe per d lastFk,
       last associations = Some pe ∧ ps' !! pe = Some per ∧ Derived per = Some d ∧
       reuse_association st' d = Some lastFk ∧
       bag (joinBag this') !! lastFk = Some (lastFkAlias this')) ∧
    table this' = table this ∧ tableAlias this' = tableAlias this ∧
    criteria this' = criteria this ∧ parameters this' = parameters this ∧
    rawIndex this' = rawIndex this ∧ path this' = path this ∧
    discriminatorCriterias this' = discriminatorCriterias this ∧
    rawSQL this' = rawSQL this.
Proof.
  intros Hwf Hfresh Hne Hres.
  destruct (addJoin_total _ _ _ _ fetch Hwf Hfresh Hres) as [[[[this' st'] ps'] local] Hrun].
  destruct (addJoin_setup _ _ _ _ _ _ _ _ _ Hwf Hfresh Hne Hrun)
    as (s & Hfold & Hinv0 & Hnin & -> & -> & -> & _ & _ & Hmono & Hinv & Hlast).
  destruct (addJoin_loop_inv _ _ _ _ Hfold Hinv0 Hnin) as (_ & _ & Hf & Hlocal & _).
  cbn in Hf, Hlocal.
  assert (Hf0 : aj_f s ≠ 0).
  { rewrite Hf. destruct associations; [done|]. cbn. lia. }
  destruct (addJoin_unfold _ _ _ _ _ _ _ _ _ Hrun)
    as (s' & this1 & a & Hfold' & _ & _ & _ & Halias & _ & _ & _ & Hlj & Hjoins).
  rewrite Hfold in Hfold'. inversion Hfold'; subst s'. clear Hfold'.
  rewrite Hlocal in Hlj, Hjoins.
  destruct Hmono as (_ & Hsame & _). cbn in Hsame.
  destruct (getAlias_spec _ _ _ _ Halias) as (Hsame1 & _).
  exists this', (aj_assocs s), (aj_paths s). split; [done|].
  assert (Hj : joins this1 = joins this).
  { rewrite Hsame1, Hsame. done. }
  split; [by rewrite Hjoins, Hj|]. split; [done|]. split.
  { destruct Hinv as (_ & _ & _ & Hend). destruct (Hend Hf0) as (pe & per & d & Hl & Hper & Hd & Hreuse).
    rewrite Hlocal in Hl. exists pe, per, d, (aj_lastFk s). split_and!; try done. by apply Hlast. }
  unfold addJoin in Hrun. rewrite Hfold in Hrun. cbn in Hrun. rewrite Halias in Hrun.
  inversion Hrun; subst this'. cbn.
  rewrite Hsame1, Hsame. done.
Qed.

(** ** More on the composer: the slots that stay empty *)

Lemma normal_path_criteria_None per base :
  normal_path_criteria per base = None ↔
  Criteria per = None ∧ TableCriterias (TableTo base) = None ∧ Columns per = None.
Proof.
  unfold normal_path_criteria.
  destruct (Criteria per), (TableCriterias (TableTo base)), (Columns per);
    cbn; split; try done; intros (? & ? & ?); done.
Qed.

(** X18. [buildPathCriterias] leaves the slot of a step nil exactly when
    the step has nothing to say: its element has no criteria and no
    included columns, the destination table of its association has no
    discriminator criteria, and the association has no discriminators.  A
    slot that is not nil carries the included columns of its element. *)
Theorem buildPathCriterias_empty_slots fuel this st ps cs (paths : list loc) :
  composable fuel st ps paths →
  ∃ this' cs' (pathCriterias : list (option PathCriteria)),
    buildPathCriterias fuel this st ps cs paths = Some (this', cs', pathCriterias) ∧
    ∀ i pe per base,
      paths !! i = Some pe → ps !! pe = Some per → st !! Base per = Some base →
      ∃ slot,
        pathCriterias !! (i + 1) = Some slot ∧
        (slot = None ↔
           Criteria per = None ∧ TableCriterias (TableTo base) = None ∧
           Columns per = None ∧ Discriminators base = None) ∧
        ∀ pc, slot = Some pc → pcColumns pc = Columns per.
Proof.
  intros Hcomp.
  destruct (buildPathCriterias_total fuel this st ps cs paths Hcomp)
    as [[[this' cs'] pcs] Hrun].
  exists this', cs', pcs. split; [done|].
  unfold buildPathCriterias in Hrun.
  destruct (foldM (buildPathCriterias_normal st ps) _ paths) as [[i1 pcs1]|] eqn:H1;
    simpl in Hrun; [|done].
  destruct (foldM (buildPathCriterias_discriminators fuel st ps) _ paths) as [s2|] eqn:H2;
    simpl in Hrun; [|done].
  inversion Hrun; subst this' cs' pcs. clear Hrun.
  intros i pe per base Hi Hper Hbase.
  assert (Hilt : i < length paths) by (by eapply lookup_lt_Some).
  pose proof (buildPathCriterias_normal_slots _ _ _ _ _ _ _ H1 i pe per base Hi Hper Hbase)
    as Hs1.
  cbn in Hs1.
  assert (Hs1' : pcs1 !! S i = Some (normal_path_criteria per base)).
  { apply Hs1. apply lookup_replicate. split; [done|]. lia. }
  destruct (buildPathCriterias_discriminators_slots _ _ _ _ _ _ H2 i pe per base _ Hi Hper
              Hbase Hs1') as (slot & Hslot & Hnone & Hcols).
  cbn in Hslot. exists slot. rewrite Nat.add_1_r. split; [done|]. split.
  - rewrite Hnone, normal_path_criteria_None. tauto.
  - intros pc ->. cbn in Hcols. by rewrite Hcols, normal_path_criteria_pcColumns.
Qed.

(** ** The session invariant through [joinTo] *)

Lemma same_links_refl ps : same_links ps ps.
Proof. done. Qed.

Lemma same_links_trans ps1 ps2 ps3 :
  same_links ps1 ps2 → same_links ps2 ps3 → same_links ps1 ps3.
Proof. intros H12 H23 q. by rewrite H23, H12. Qed.

Lemma same_links_lookup ps ps' q per :
  same_links ps ps' → ps !! q = Some per →
  ∃ per', ps' !! q = Some per' ∧ Base per' = Base per ∧ Derived per' = Derived per.
Proof.
  intros Hl Hq. specialize (Hl q). rewrite Hq in Hl.
  destruct (ps' !! q) as [per'|]; [|done]. inversion Hl. by exists per'.
Qed.

Lemma same_links_sym ps ps' : same_links ps ps' → same_links ps' ps.
Proof. intros H q. by rewrite H. Qed.

Lemma same_links_set_Criteria (ps : pstore) pe per c :
  ps !! pe = Some per → same_links ps (<[pe := set_Criteria per c]> ps).
Proof.
  intros Hpe q. destruct (decide (q = pe)) as [->|Hne].
  - by rewrite lookup_insert_eq, Hpe.
  - by rewrite lookup_insert_ne.
Qed.

Lemma resolved_transfer this (st : astore) ps this' ps' pe :
  resolved this st ps pe →
  bag (joinBag this) ⊆ bag (joinBag this') → same_links ps ps' →
  resolved this' st ps' pe.
Proof.
  intros (per & d & lastFk & Hper & Hd & Hreuse & [a Ha]) Hbag Hlinks.
  destruct (same_links_lookup _ _ _ _ Hlinks Hper) as (per' & Hper' & _ & Hd').
  exists per', d, lastFk. split; [done|]. split; [congruence|]. split; [done|].
  exists a. by eapply lookup_weaken.
Qed.

Lemma same_bases_links ps ps' c1 c2 k :
  same_links ps ps' → same_bases ps' c1 c2 k → same_bases ps c1 c2 k.
Proof.
  intros Hlinks Hb f Hf.
  destruct (Hb f Hf) as (pe1 & pe2 & per1 & per2 & H1 & H2 & Hp1 & Hp2 & Heq).
  destruct (same_links_lookup _ _ _ _ (same_links_sym _ _ Hlinks) Hp1)
    as (q1 & Hq1 & Hb1 & _).
  destruct (same_links_lookup _ _ _ _ (same_links_sym _ _ Hlinks) Hp2)
    as (q2 & Hq2 & Hb2 & _).
  exists pe1, pe2, q1, q2. repeat split; try done. congruence.
Qed.

(** A well-formed session stays well-formed when the alias allocator grows
    by aliases of associations of the store and the path elements keep their
    links. *)
Lemma wf_session_transfer this st ps this' ps' :
  wf_session this st ps →
  cachedAssociation this' = cachedAssociation this →
  bag (joinBag this) ⊆ bag (joinBag this') →
  (∀ l, aliased this' (Some l) → l ∈ dom st) →
  same_links ps ps' →
  wf_session this' st ps'.
Proof.
  intros Hwf Hcache Hbag Hdom Hlinks. split.
  - intros c pe Hc Hpe. rewrite Hcache in Hc.
    eapply resolved_transfer; [by eapply (wf_resolved _ _ _ Hwf)|done|done].
  - done.
  - intros c1 c2 k f pe1 pe2 per1 per2 Hc1 Hc2 Hb Hf H1 H2 Hp1 Hp2.
    rewrite Hcache in Hc1, Hc2.
    destruct (same_links_lookup _ _ _ _ (same_links_sym _ _ Hlinks) Hp1)
      as (q1 & Hq1 & _ & Hd1).
    destruct (same_links_lookup _ _ _ _ (same_links_sym _ _ Hlinks) Hp2)
      as (q2 & Hq2 & _ & Hd2).
    rewrite <- Hd1, <- Hd2.
    eapply (wf_coherent _ _ _ Hwf c1 c2 k f); try done.
    by eapply same_bases_links.
Qed.

(** [replaceRaw] changes the parameters and the counter of the session, and
    nothing else of it. *)
Lemma replaceRaw_session fuel : ∀ this cs l this' cs',
  replaceRaw fuel this cs l = Some (this', cs') →
  this' = with_raw this (rawIndex this') (parameters this').
Proof.
  induction fuel as [|fuel IH]; intros this cs l this' cs' Hraw; [done|].
  rewrite replaceRaw_S in Hraw.
  destruct (cs !! l) as [tok|]; cbn in Hraw; [|done].
  destruct (decide (Operator tok = TOKEN_RAW)); [by inversion Hraw; subst|].
  destruct (decide (Operator tok = TOKEN_SUBQUERY)).
  { destruct (TokValue tok) as [|sub]; [done|]. inversion Hraw; subst.
    by rewrite copy_parameters_union. }
  revert Hraw.
  apply (foldM_inv _ (λ s, s.1 = with_raw this (rawIndex s.1) (parameters s.1))
           _ _ (this', cs')); [by destruct this|].
  intros [t1 c1] [k|] [t2 c2] _ Ht Hstep; simpl in *.
  - apply IH in Hstep. rewrite Hstep, Ht. done.
  - by inversion Hstep; subst.
Qed.

(** The alias that [applyOn] and [applyInclude] ask for, for a resolved
    element, is registered already: the session is left as it is. *)
Lemma derived_alias_resolved this st ps pe per this' a :
  resolved this st ps pe → ps !! pe = Some per →
  derived_alias this st per = Some (this', a) → this' = this.
Proof.
  intros (per0 & d & lastFk & Hper0 & Hd & Hreuse & Hal) Hper Hrun.
  rewrite Hper in Hper0. inversion Hper0; subst per0.
  unfold derived_alias in Hrun. rewrite Hd in Hrun. cbn in Hrun.
  unfold reuse_association in Hreuse.
  destruct (st !! d) as [fk|]; cbn in Hrun, Hreuse; [|done].
  inversion Hreuse; subst lastFk. clear Hreuse.
  destruct (IsMany2Many fk); inversion Hrun as [Hget];
    match type of Hget with
    | getAlias ?t ?k = _ =>
        destruct (getAlias t k) as [t' a'] eqn:Hg;
        apply getAlias_spec in Hg as (_ & _ & _ & _ & Hsame)
    end; inversion Hget; subst; by apply Hsame.
Qed.

Lemma applyOn_session fuel this st ps cs chain crit this' ps' cs' :
  (∀ pe, pe ∈ chain → resolved this st ps pe) →
  applyOn fuel this st ps cs chain crit = Some (this', ps', cs') →
  joinBag this' = joinBag this ∧ cachedAssociation this' = cachedAssociation this ∧
  same_links ps ps'.
Proof.
  intros Hres Hrun. unfold applyOn in Hrun.
  destruct (last chain) as [pe|] eqn:Hlast; [|by inversion Hrun; subst].
  destruct (ps !! pe) as [per|] eqn:Hper; cbn in Hrun; [|done].
  destruct (Criteria_Clone fuel cs crit) as [[cs1 cpy]|]; cbn in Hrun; [|done].
  destruct (derived_alias this st per) as [[this1 fkAlias]|] eqn:Hal; cbn in Hrun; [|done].
  destruct (SetTableAlias fuel cs1 cpy fkAlias) as [cs2|]; cbn in Hrun; [|done].
  destruct (replaceRaw fuel this1 cs2 cpy) as [[this2 cs3]|] eqn:Hraw; cbn in Hrun; [|done].
  inversion Hrun; subst this' ps' cs'. clear Hrun.
  assert (Hin : pe ∈ chain) by (by apply last_Some_elem_of).
  pose proof (derived_alias_resolved _ _ _ _ _ _ _ (Hres pe Hin) Hper Hal) as ->.
  apply replaceRaw_session in Hraw. rewrite Hraw. cbn.
  split; [done|]. split; [done|]. by apply same_links_set_Criteria.
Qed.

Lemma applyInclude_session fuel this st ps cs chain tokens this' cs' :
  (∀ pe, pe ∈ chain → resolved this st ps pe) →
  applyInclude fuel this st ps cs chain tokens = Some (this', cs') →
  joinBag this' = joinBag this ∧ cachedAssociation this' = cachedAssociation this.
Proof.
  intros Hres Hrun. unfold applyInclude in Hrun.
  destruct (last chain) as [pe|] eqn:Hlast; [|by inversion Hrun; subst].
  destruct (ps !! pe) as [per|] eqn:Hper; cbn in Hrun; [|done].
  destruct (derived_alias this st per) as [[this1 fkAlias]|] eqn:Hal; cbn in Hrun; [|done].
  destruct (foldM _ cs tokens) as [cs1|]; cbn in Hrun; [|done].
  inversion Hrun; subst this' cs'. clear Hrun.
  assert (Hin : pe ∈ chain) by (by apply last_Some_elem_of).
  by pose proof (derived_alias_resolved _ _ _ _ _ _ _ (Hres pe Hin) Hper Hal) as ->.
Qed.

Lemma attach_slot_session fuel st path s index slot s' :
  (∀ pe, pe ∈ path → resolved (jt_this s) st (jt_paths s) pe) →
  attach_slot fuel st path s index slot = Some s' →
  joinBag (jt_this s') = joinBag (jt_this s) ∧
  cachedAssociation (jt_this s') = cachedAssociation (jt_this s) ∧
  same_links (jt_paths s) (jt_paths s').
Proof.
  intros Hres Hrun. unfold attach_slot in Hrun.
  destruct slot as [pc|]; [|by inversion Hrun; subst].
  assert (Hchain : ∀ t ps, bag (joinBag (jt_this s)) ⊆ bag (joinBag t) →
            same_links (jt_paths s) ps →
            ∀ pe, pe ∈ take index path → resolved t st ps pe).
  { intros t ps Hb Hl pe Hpe. eapply resolved_transfer; [|done|done].
    apply Hres. apply elem_of_take in Hpe as (j & Hj & _).
    by eapply list_elem_of_lookup_2. }
  destruct (Criterias pc) as [conds|]; cbn in Hrun.
  - destruct (And (jt_crits s) conds) as [cs conjunction].
    destruct (applyOn fuel (jt_this s) st (jt_paths s) cs (take index path) conjunction)
      as [[[this1 ps1] cs1]|] eqn:Hon; cbn in Hrun; [|done].
    destruct (applyOn_session _ _ _ _ _ _ _ _ _ _ (Hchain _ _ (reflexivity _)
                (same_links_refl _)) Hon) as (Hb1 & Hc1 & Hl1).
    destruct (pcColumns pc) as [cols|]; cbn in Hrun.
    + destruct (applyInclude fuel this1 st ps1 cs1 (take index path) cols)
        as [[this2 cs2]|] eqn:Hinc; cbn in Hrun; [|done].
      inversion Hrun; subst s'. cbn.
      destruct (applyInclude_session _ _ _ _ _ _ _ _ _
                  (Hchain this1 ps1 ltac:(by rewrite Hb1) Hl1) Hinc) as (Hb2 & Hc2).
      split; [congruence|]. split; [congruence|]. done.
    + inversion Hrun; subst s'. cbn. done.
  - destruct (pcColumns pc) as [cols|]; cbn in Hrun.
    + destruct (applyInclude fuel (jt_this s) st (jt_paths s) (jt_crits s)
                  (take index path) cols) as [[this2 cs2]|] eqn:Hinc; cbn in Hrun; [|done].
      inversion Hrun; subst s'. cbn.
      destruct (applyInclude_session _ _ _ _ _ _ _ _ _
                  (Hchain _ _ (reflexivity _) (same_links_refl _)) Hinc) as (Hb2 & Hc2).
      done.
    + by inversion Hrun; subst s'.
Qed.

Lemma attach_slots_session fuel st path : ∀ slots s index s',
  (∀ pe, pe ∈ path → resolved (jt_this s) st (jt_paths s) pe) →
  attach_slots fuel st path s index slots = Some s' →
  joinBag (jt_this s') = joinBag (jt_this s) ∧
  cachedAssociation (jt_this s') = cachedAssociation (jt_this s) ∧
  same_links (jt_paths s) (jt_paths s').
Proof.
  induction slots as [|slot slots IH]; intros s index s' Hres Hrun; cbn in Hrun.
  - inversion Hrun; subst. done.
  - destruct (attach_slot fuel st path s index slot) as [s1|] eqn:Hstep; cbn in Hrun;
      [|done].
    destruct (attach_slot_session _ _ _ _ _ _ _ Hres Hstep) as (Hb1 & Hc1 & Hl1).
    destruct (IH s1 (S index) s') as (Hb2 & Hc2 & Hl2); [|done|].
    { intros pe Hpe. eapply resolved_transfer; [by apply Hres| |done].
      by rewrite Hb1. }
    split; [congruence|]. split; [congruence|]. by eapply same_links_trans.
Qed.

(** The aliases that [buildPathCriterias] registers are those of the derived
    associations of the elements of the path. *)
Lemma buildPathCriterias_discriminators_bag fuel st ps : ∀ paths s s',
  foldM (buildPathCriterias_discriminators fuel st ps) s paths = Some s' →
  bag (joinBag (ds_this s)) ⊆ bag (joinBag (ds_this s')) ∧
  cachedAssociation (ds_this s') = cachedAssociation (ds_this s) ∧
  ∀ key, aliased (ds_this s') key →
    aliased (ds_this s) key ∨ ∃ pe per, pe ∈ paths ∧ ps !! pe = Some per ∧ key = Derived per.
Proof.
  induction paths as [|pe paths IH]; intros s s' Hrun; cbn in Hrun.
  - inversion Hrun; subst. split; [done|]. split; [done|]. by left.
  - destruct (buildPathCriterias_discriminators fuel st ps s pe) as [s1|] eqn:Hstep;
      cbn in Hrun; [|done].
    destruct (buildPathCriterias_discriminators_spec _ _ _ _ _ _ Hstep)
      as (per & base & Hper & _ & _ & _ & Hget & _).
    symmetry in Hget. apply getAlias_spec in Hget as (Hsame & _ & Hother & Hsub & _).
    destruct (IH _ _ Hrun) as (Hsub2 & Hcache2 & Hkeys).
    split; [by etrans|]. split.
    { rewrite Hcache2, Hsame. done. }
    intros key Hkey. destruct (Hkeys key Hkey) as [Hk|(pe' & per' & Hin & Hp & ->)].
    + destruct (decide (key = Derived per)) as [->|Hne].
      * right. exists pe, per. split; [by left|done].
      * left. unfold aliased in *. by rewrite <- (Hother key Hne).
    + right. exists pe', per'. split; [by right|done].
Qed.

Lemma buildPathCriterias_bag fuel this st ps cs paths this' cs' pcs :
  buildPathCriterias fuel this st ps cs paths = Some (this', cs', pcs) →
  bag (joinBag this) ⊆ bag (joinBag this') ∧
  cachedAssociation this' = cachedAssociation this ∧
  ∀ key, aliased this' key →
    aliased this key ∨ ∃ pe per, pe ∈ paths ∧ ps !! pe = Some per ∧ key = Derived per.
Proof.
  unfold buildPathCriterias. intros Hrun.
  destruct (foldM (buildPathCriterias_normal st ps) _ paths) as [[i1 pcs1]|] eqn:H1;
    simpl in Hrun; [|done].
  destruct (foldM (buildPathCriterias_discriminators fuel st ps) _ paths) as [s2|] eqn:H2;
    simpl in Hrun; [|done].
  inversion Hrun; subst this' cs' pcs. clear Hrun.
  by apply (buildPathCriterias_discriminators_bag _ _ _ _ _ _ H2).
Qed.

(** After [addJoin] every element of the path is resolved: its derived
    association is in the store and the association that ends it has an
    alias. *)
Lemma addJoin_resolves this st ps associations fetch this' st' ps' local :
  wf_session this st ps → fresh_request this associations → associations ≠ [] →
  addJoin this st ps associations None fetch = Some (this', st', ps', local) →
  ∀ pe, pe ∈ associations → resolved this' st' ps' pe.
Proof.
  intros Hwf Hfresh Hne Hrun.
  destruct (addJoin_setup _ _ _ _ _ _ _ _ _ Hwf Hfresh Hne Hrun)
    as (s & Hloop & Hinv0 & Hdisj & -> & -> & -> & Hbag & Halias & Hmono & Hinv & _).
  destruct Hfresh as [Hnd Hfresh].
  intros pe [f Hpe]%list_elem_of_lookup.
  destruct (addJoin_loop_zoom _ _ _ _ _ _ Hloop Hinv0 Hdisj Hnd Hpe)
    as (s1 & s2 & per & _ & Hstep & Hinv1 & _ & Hmono2 & _ & _ & _ & _ & _ & _ & Hfinal & _).
  destruct (addJoin_step_inv _ _ _ _ Hstep Hinv1) as [(_ & Hal2 & _ & Hlast2) _].
  { apply Hdisj. apply list_elem_of_lookup. eauto. }
  destruct (addJoin_step_spec _ _ _ _ Hstep) as (per1 & d & _ & Hps2 & Hf2 & Hloc2 & _).
  destruct Hlast2 as (pe0 & per0 & d0 & Hl & Hp0 & Hd0 & Hreuse); [lia|].
  rewrite Hloc2, last_snoc in Hl. inversion Hl; subst pe0.
  destruct Hmono2 as (Hst2 & _ & Hsub2 & _).
  exists per0, d0, (aj_lastFk s2). split; [by rewrite Hfinal|]. split; [done|].
  split; [by eapply reuse_association_weaken|].
  destruct Hal2 as [a Ha]; [lia|]. exists a. rewrite Hbag. by eapply lookup_weaken.
Qed.

Lemma joinTo_session fuel n this st ps cs (path : list loc) fetch :
  wf_session this st ps → fresh_request this path → path ≠ [] →
  resolvable st ps path → attachable n st ps cs path → S n ≤ fuel →
  ∃ this' st' ps' cs',
    joinTo fuel this st ps cs path fetch = Some (this', st', ps', cs') ∧
    wf_session this' st' ps' ∧
    ∀ pe, pe ∈ path → resolved this' st' ps' pe.
Proof.
  intros Hwf Hfresh Hne Hres Hatt Hfuel.
  destruct (joinTo_total fuel n this st ps cs path fetch Hwf Hfresh Hres Hatt Hfuel)
    as [[[[this' st'] ps'] cs'] Hrun].
  exists this', st', ps', cs'. split; [done|].
  destruct (joinTo_attach_facts _ _ _ _ _ _ _ _ _ _ _ Hrun Hne)
    as (_ & this1 & ps1 & local & this2 & cs2 & slots & s' & Hadd & Hbuild & _ & Hattach
        & -> & -> & ->).
  pose proof (addJoin_preserves_wf _ _ _ _ _ _ _ _ _ Hwf Hfresh Hne Hadd) as Hwf1.
  pose proof (addJoin_resolves _ _ _ _ _ _ _ _ _ Hwf Hfresh Hne Hadd) as Hres1.
  destruct (buildPathCriterias_bag _ _ _ _ _ _ _ _ _ Hbuild) as (Hsub2 & Hcache2 & Hkeys2).
  assert (Hdom2 : ∀ l, aliased this2 (Some l) → l ∈ dom st').
  { intros l Hl. destruct (Hkeys2 _ Hl) as [Hold|(pe & per & Hin & Hper & Hkey)].
    - by apply (wf_bag _ _ _ Hwf1).
    - destruct (Hres1 pe Hin) as (per0 & d & lastFk & Hper0 & Hd & Hreuse & _).
      rewrite Hper in Hper0. inversion Hper0; subst per0. rewrite Hd in Hkey.
      inversion Hkey; subst l. unfold reuse_association in Hreuse.
      destruct (st' !! d) eqn:Hst; [|done]. by apply elem_of_dom. }
  assert (Hres2 : ∀ pe, pe ∈ path → resolved this2 st' ps1 pe).
  { intros pe Hpe. eapply resolved_transfer; [by apply Hres1|done|apply same_links_refl]. }
  destruct (attach_slots_session fuel st' path slots (mkJoinToState this2 ps1 cs2 None)
              1 s' Hres2 Hattach) as (Hb3 & Hc3 & Hl3).
  cbn in Hb3, Hc3, Hl3.
  assert (Hsub3 : bag (joinBag this1) ⊆ bag (joinBag (jt_this s'))) by (by rewrite Hb3).
  assert (Hdom3 : ∀ l, aliased (jt_this s') (Some l) → l ∈ dom st').
  { intros l Hl. apply Hdom2. unfold aliased in *. by rewrite <- Hb3. }
  split.
  - eapply wf_session_transfer; [exact Hwf1|congruence|done|done|done].
  - intros pe Hpe. eapply resolved_transfer; [by apply Hres1|done|done].
Qed.

(** X19. [joinTo] keeps the session well-formed: on a well-formed session
    and a request of new path elements that the stores hold, it returns, the
    session it leaves is well-formed, so that a later request can be joined
    in turn, and every element of the path is resolved: its derived
    association is in the store and the association that ends it has an
    alias. *)
Theorem joinTo_keeps_the_session_well_formed fuel n this st ps cs (path : list loc) fetch :
  wf_session this st ps → fresh_request this path → path ≠ [] →
  resolvable st ps path → attachable n st ps cs path → S n ≤ fuel →
  ∃ this' st' ps' cs',
    joinTo fuel this st ps cs path fetch = Some (this', st', ps', cs') ∧
    wf_session this' st' ps' ∧
    ∀ pe, pe ∈ path → resolved this' st' ps' pe.
Proof. apply joinTo_session. Qed.

(** X16. On a well-formed session with an empty path, the chain that
    [inner] builds from associations held by the store (with both ends, for
    a many-to-many association, and with the criteria of their
    discriminators) can be joined: [joinTo] returns on it and leaves the
    session well-formed. *)
Theorem inner_then_joinTo fuel n this st ps cs inn associations fetch :
  wf_session this st ps → path this = [] → associations ≠ [] →
  Forall (λ a, ∃ base,
            st !! a = Some base ∧
            match FromM2M base, ToM2M base with
            | Some f, Some t => is_Some (st !! f) ∧ is_Some (st !! t)
            | _, _ => True
            end ∧
            Forall (criteria_ok n cs) (slice_list (TableCriterias (TableTo base))) ∧
            Forall (λ v, CTree_ok (DiscriminatorCriteria v) ∧
                         CTree_height (DiscriminatorCriteria v) ≤ n)
                   (slice_list (Discriminators base)))
         associations →
  S n ≤ fuel →
  ∃ this' st' ps' cs',
    joinTo fuel (inner this ps inn associations).1 st (inner this ps inn associations).2 cs
      (path (inner this ps inn associations).1) fetch
    = Some (this', st', ps', cs') ∧
    length (path (inner this ps inn associations).1) = length associations ∧
    wf_session this' st' ps'.
Proof.
  intros Hwf Hpath Hne Hall Hfuel.
  destruct (inner_elements associations this ps inn)
    as (new & Hthis & Hlen & Hnd & Hsub & Hframe & Hnew).
  destruct (inner this ps inn associations) as [this1 ps1] eqn:Hinner. cbn [fst snd] in *.
  destruct (inner_fresh_request _ _ _ _ _ _ _ Hwf Hpath Hinner) as [Hwf1 Hfresh].
  assert (Hp : path this1 = new) by (by rewrite Hthis; cbn; rewrite Hpath).
  assert (Hnonempty : path this1 ≠ []).
  { rewrite Hp. intros ->. by destruct associations. }
  assert (Hres : resolvable st ps1 (path this1)).
  { rewrite Hp. apply Forall_lookup_2. intros i pe Hi.
    destruct (Hnew i pe Hi) as (_ & a & Ha & Hrec).
    destruct (Forall_lookup_1 _ _ _ _ Hall Ha) as (base & Hbase & Hends & _).
    by exists (mkPathElement a inn EmptyString None None None), base. }
  assert (Hatt : attachable n st ps1 cs (path this1)).
  { rewrite Hp. apply Forall_lookup_2. intros i pe Hi.
    destruct (Hnew i pe Hi) as (_ & a & Ha & Hrec).
    destruct (Forall_lookup_1 _ _ _ _ Hall Ha) as (base & Hbase & _ & Htcs & Hds).
    exists (mkPathElement a inn EmptyString None None None), base.
    split; [done|]. split; [done|]. cbn. split; [constructor|]. split; [constructor|].
    done. }
  destruct (joinTo_session fuel n this1 st ps1 cs (path this1) fetch Hwf1 Hfresh Hnonempty
              Hres Hatt Hfuel) as (this' & st' & ps' & cs' & Hrun & Hwf' & _).
  exists this', st', ps', cs'. split; [done|]. split; [by rewrite Hp|done].
Qed.

(** ** The further properties on the example data *)

Section More_examples.
Import Example ExampleDba.
#[local] Existing Instance texts.

(** A criteria of the example store, checked cell by cell. *)
Ltac in_store :=
  simpl; eexists; split; [vm_compute; reflexivity|];
  split; [simpl; try discriminate; try done|];
  repeat (apply Forall_cons_2); try apply Forall_nil_2; try in_store.

Lemma Query_results_in_row_order_witness :
  dbx.on_Prepare (dbx.connection dba) select_ids = None ∧
  dbx.on_Query (dbx.connection dba) select_ids None = inr [[LInt 7]; [LInt 8]] ∧
  Forall2 (λ row r, number row = inr r) [[LInt 7]; [LInt 8]] [7%Z; 8%Z] ∧
  (dbx.Query dba select_ids number None world0).2 = inr [7%Z; 8%Z].
Proof.
  assert (Hall : Forall2 (λ row r, number row = inr r) [[LInt 7]; [LInt 8]] [7%Z; 8%Z])
    by (repeat constructor).
  split; [reflexivity|]. split; [reflexivity|]. split; [exact Hall|].
  exact (Query_results_in_row_order (H := texts) dba select_ids number None world0
           [[LInt 7]; [LInt 8]] [7%Z; 8%Z] eq_refl eq_refl Hall).
Defined.

Lemma Query_stops_at_first_failure_witness :
  dbx.on_Prepare (dbx.connection dba) select_codes = None ∧
  dbx.on_Query (dbx.connection dba) select_codes None
    = inr ([[LInt 7]] ++ [LStr "x"] :: [[LInt 9]]) ∧
  Forall2 (λ row r, number row = inr r) [[LInt 7]] [7%Z] ∧
  number [LStr "x"] = inl "not a number" ∧
  ∃ w' stmt rows,
    dbx.Query dba select_codes number None world0
      = (w', inl (dbx.rethrow dbx.FAULT_PARSE_STATEMENT "not a number"
                    select_codes None)) ∧
    dbx.calls w'
    = dbx.calls world0 ++ [dbx.CallPrepare select_codes; dbx.CallQuery stmt None]
        ++ replicate (S (length [[LInt 7]])) (dbx.CallNext rows)
        ++ dbx.CallRowsClose rows
           :: match dbx.on_Rows_Close (dbx.connection dba) select_codes with
              | Some _ => []
              | None => [dbx.CallStmtClose stmt]
              end.
Proof.
  assert (Hall : Forall2 (λ row r, number row = inr r) [[LInt 7]] [7%Z])
    by (repeat constructor).
  split; [reflexivity|]. split; [reflexivity|]. split; [exact Hall|].
  split; [reflexivity|].
  exact (Query_stops_at_first_failure (H := texts) dba select_codes number None world0
           [[LInt 7]] [7%Z] [LStr "x"] [[LInt 9]] "not a number"
           eq_refl eq_refl Hall eq_refl).
Defined.

Lemma queries_release_what_they_open_witness :
  dbx.on_Rows_Close (dbx.connection dba) select_ids = None ∧
  (dbx.statements (dbx.Query dba select_ids number None world0).1
     = dbx.statements world0 ∧
   dbx.cursors (dbx.Query dba select_ids number None world0).1 = dbx.cursors world0) ∧
  (dbx.statements (dbx.QueryClosure dba select_ids add_up None 0%Z world0).1
     = dbx.statements world0 ∧
   dbx.cursors (dbx.QueryClosure dba select_ids add_up None 0%Z world0).1
     = dbx.cursors world0) ∧
  (dbx.statements (dbx.QueryRow dbx.Scan_int64 dba select_ids None 0%Z world0).1
     = dbx.statements world0 ∧
   dbx.cursors (dbx.QueryRow dbx.Scan_int64 dba select_ids None 0%Z world0).1
     = dbx.cursors world0) ∧
  (dbx.statements (dbx.QueryCollection dba select_ids collector None ([], false) world0).1
     = dbx.statements world0 ∧
   dbx.cursors (dbx.QueryCollection dba select_ids collector None ([], false) world0).1
     = dbx.cursors world0).
Proof.
  split; [reflexivity|].
  exact (queries_release_what_they_open (H := texts) dba select_ids None world0
           number add_up 0%Z dbx.Scan_int64 0%Z collector ([], false) eq_refl).
Defined.

Lemma QueryCollection_calls_AfterAll_witness :
  dbx.on_Prepare (dbx.connection dba) select_codes = None ∧
  dbx.on_Query (dbx.connection dba) select_codes None
    = inr [[LInt 7]; [LStr "x"]; [LInt 9]] ∧
  ∃ w' stmt cursor s1 err trace,
    dbx.QueryCollection dba select_codes collector None ([], false) world0
    = (w', (dbx.AfterAll collector s1, err)) ∧
    dbx.calls w'
    = dbx.calls world0
        ++ [dbx.CallPrepare select_codes; dbx.CallQuery stmt None; dbx.CallBeforeAll]
        ++ trace ++ [dbx.CallAfterAll; dbx.CallRowsClose cursor]
        ++ match dbx.on_Rows_Close (dbx.connection dba) select_codes with
           | Some _ => []
           | None => [dbx.CallStmtClose stmt]
           end ∧
    Forall (λ c, c = dbx.CallNext cursor ∨ c = dbx.CallTransform
                 ∨ c = dbx.CallOnTransformation) trace ∧
    (err = None
     ∨ ∃ cause, err = Some (dbx.rethrow dbx.FAULT_TRANSFORM cause select_codes None)).
Proof.
  split; [reflexivity|]. split; [reflexivity|].
  exact (QueryCollection_calls_AfterAll (H := texts) dba select_codes collector None
           ([], false) world0 [[LInt 7]; [LStr "x"]; [LInt 9]] eq_refl eq_refl).
Defined.

Lemma Query_leaves_statement_open_when_rows_close_fails_witness :
  dbx.on_Prepare (dbx.connection dba) select_codes = None ∧
  dbx.on_Query (dbx.connection dba) select_codes None
    = inr [[LInt 7]; [LStr "x"]; [LInt 9]] ∧
  dbx.on_Rows_Close (dbx.connection dba) select_codes = Some "connection lost" ∧
  ∃ stmt,
    (stmt ∉ dbx.statements world0) ∧
    dbx.statements (dbx.Query dba select_codes number None world0).1
      = {[stmt]} ∪ dbx.statements world0 ∧
    dbx.cursors (dbx.Query dba select_codes number None world0).1 = dbx.cursors world0.
Proof.
  split; [reflexivity|]. split; [reflexivity|]. split; [reflexivity|].
  exact (Query_leaves_statement_open_when_rows_close_fails (H := texts) dba select_codes
           number None world0 [[LInt 7]; [LStr "x"]; [LInt 9]] "connection lost"
           eq_refl eq_refl eq_refl).
Defined.

Lemma Update_reports_rows_affected_Insert_reports_nothing_witness :
  dbx.on_Prepare (dbx.connection dba) delete_all = None ∧
  dbx.on_Exec (dbx.connection dba) delete_all None = inr (2%Z, None) ∧
  (dbx.Update dba delete_all None world0).2 = (2%Z, None) ∧
  (dbx.Delete dba delete_all None world0).2 = (2%Z, None) ∧
  (dbx.Insert dba delete_all None world0).2 = (0%Z, None) ∧
  dbx.CallRowsAffected
    ∉ drop (length (dbx.calls world0)) (dbx.calls (dbx.Insert dba delete_all None world0).1).
Proof.
  split; [reflexivity|]. split; [reflexivity|].
  exact (Update_reports_rows_affected_Insert_reports_nothing (H := texts) dba delete_all
           None world0 (2%Z, None) eq_refl eq_refl).
Defined.

Lemma statement_that_fails_to_open_witness :
  dbx.on_Prepare (dbx.connection dba) misspelt = Some "syntax error" ∧
  dbx.Update dba misspelt None world0
    = (dbx.called (dbx.CallPrepare misspelt) world0,
       (0%Z, Some (dbx.rethrow dbx.FAULT_PREP_STATEMENT "syntax error"
                     misspelt None))) ∧
  dbx.on_Prepare (dbx.connection dba) select_gone = None ∧
  dbx.on_Query (dbx.connection dba) select_gone None = inl "no such table" ∧
  ∃ stmt,
    dbx.Query dba select_gone number None world0
    = (dbx.mkWorld (dbx.statements world0) (dbx.cursors world0)
         (dbx.calls world0
            ++ [dbx.CallPrepare select_gone; dbx.CallQuery stmt None;
                dbx.CallStmtClose stmt]),
       inl (dbx.rethrow dbx.FAULT_QUERY "no such table" select_gone None)).
Proof.
  split; [reflexivity|]. split.
  { exact (proj2 (proj1 (statement_that_fails_to_open (H := texts) dba misspelt None
                            world0) "syntax error" eq_refl)). }
  split; [reflexivity|]. split; [reflexivity|].
  exact (proj1 (proj2 (statement_that_fails_to_open (H := texts) dba select_gone None
                         world0) "no such table" eq_refl) eq_refl Z number).
Defined.

Lemma InsertReturning_zero_without_row_witness :
  dbx.on_Prepare (dbx.connection dba) select_none = None ∧
  dbx.on_Query (dbx.connection dba) select_none None = inr [] ∧
  (dbx.InsertReturning dba select_none None world0).2 = (0%Z, None).
Proof.
  split; [reflexivity|]. split; [reflexivity|].
  exact (InsertReturning_zero_without_row (H := texts) dba select_none None world0 []
           eq_refl eq_refl).
Defined.

Lemma QueryRow_reads_one_row_witness :
  dbx.on_Prepare (dbx.connection dba) select_ids = None ∧
  dbx.on_Query (dbx.connection dba) select_ids None = inr [[LInt 7]; [LInt 8]] ∧
  ∃ w' stmt cursor,
    dbx.QueryRow dbx.Scan_int64 dba select_ids None 0%Z world0 = (w', (7%Z, (true, None))) ∧
    dbx.calls w'
    = [dbx.CallPrepare select_ids; dbx.CallQuery stmt None; dbx.CallNext cursor;
       dbx.CallScan cursor; dbx.CallRowsClose cursor; dbx.CallStmtClose stmt].
Proof.
  split; [reflexivity|]. split; [reflexivity|].
  exact (QueryRow_reads_one_row (H := texts) dbx.Scan_int64 dba select_ids None 0%Z world0
           [[LInt 7]; [LInt 8]] eq_refl eq_refl).
Defined.

Lemma QueryClosure_folds_the_rows_witness :
  dbx.on_Prepare (dbx.connection dba) select_ids = None ∧
  dbx.on_Query (dbx.connection dba) select_ids None = inr [[LInt 7]; [LInt 8]] ∧
  (∀ row s, row ∈ [[LInt 7]; [LInt 8]] → (add_up row s).2 = None) ∧
  (dbx.QueryClosure dba select_ids add_up None 0%Z world0).2 = (15%Z, None).
Proof.
  assert (Hall : ∀ row (s : Z), row ∈ [[LInt 7]; [LInt 8]] → (add_up row s).2 = None).
  { intros row s Hin. apply list_elem_of_In in Hin.
    destruct Hin as [<-|[<-|[]]]; reflexivity. }
  split; [reflexivity|]. split; [reflexivity|]. split; [exact Hall|].
  exact (QueryClosure_folds_the_rows (H := texts) dba select_ids add_up None 0%Z world0
           [[LInt 7]; [LInt 8]] eq_refl eq_refl Hall).
Defined.

Lemma dumpParameters_hides_secrets_witness :
  Forall2 (λ e e', e.1 = e'.1 ∧ (HasSuffix e.1 "$" = true ∨ e.2 = e'.2)) logged logged' ∧
  dumpParameters show logged = dumpParameters show logged'.
Proof.
  assert (Hsame : Forall2 (λ e e', e.1 = e'.1 ∧ (HasSuffix e.1 "$" = true ∨ e.2 = e'.2))
                    logged logged').
  { constructor; [split; [reflexivity|right; reflexivity]|].
    constructor; [split; [reflexivity|left; reflexivity]|].
    constructor; [split; [reflexivity|right; reflexivity]|].
    constructor. }
  split; [exact Hsame|]. exact (dumpParameters_hides_secrets show logged logged' Hsame).
Defined.

Lemma replaceRaw_subquery_parameters_win_witness :
  subquery_store !! 1%positive
    = Some (mkToken TOKEN_SUBQUERY "" (VQuery {[ "p" := LInt 1 ]}) []) ∧
  replaceRaw 1 (SetParameter session0 "p" (VLit (LInt 0))) subquery_store 1%positive
  = Some (set_parameters (SetParameter session0 "p" (VLit (LInt 0)))
            ((VLit <$> {[ "p" := LInt 1 ]})
               ∪ parameters (SetParameter session0 "p" (VLit (LInt 0)))),
          subquery_store) ∧
  ∀ name v, ({[ "p" := LInt 1 ]} : gmap string Lit) !! name = Some v →
    parameters (set_parameters (SetParameter session0 "p" (VLit (LInt 0)))
                  ((VLit <$> {[ "p" := LInt 1 ]})
                     ∪ parameters (SetParameter session0 "p" (VLit (LInt 0))))) !! name
    = Some (VLit v).
Proof.
  split; [reflexivity|].
  exact (replaceRaw_subquery_parameters_win 0 (SetParameter session0 "p" (VLit (LInt 0)))
           subquery_store 1%positive
           (mkToken TOKEN_SUBQUERY "" (VQuery {[ "p" := LInt 1 ]}) []) {[ "p" := LInt 1 ]}
           eq_refl eq_refl eq_refl).
Defined.

Lemma replaceRaw_twice_witness :
  repr criteria0 filter_tree ∧ NoDup (locs filter_tree) ∧ plain filter_tree ∧
  height filter_tree ≤ 3 ∧
  ∃ this' cs',
    replaceRaw 3 session0 criteria0 (root filter_tree) = Some (this', cs') ∧
    replaceRaw 3 this' cs' (root filter_tree) = Some (this', cs').
Proof.
  assert (Hnodup : NoDup (locs filter_tree))
    by (apply (bool_decide_unpack _); vm_compute; exact I).
  assert (Hheight : height filter_tree ≤ 3) by (vm_compute; lia).
  split; [exact filter_tree_repr|]. split; [exact Hnodup|].
  split; [exact filter_tree_plain|]. split; [exact Hheight|].
  apply (replaceRaw_twice 3 session0 criteria0 filter_tree
           filter_tree_repr Hnodup filter_tree_plain Hheight).
  - vm_compute. discriminate.
  - vm_compute. reflexivity.
Defined.

Lemma replaceRaw_then_BuildValues_witness :
  repr criteria0 filter_tree ∧ NoDup (locs filter_tree) ∧ plain filter_tree ∧
  height filter_tree ≤ 3 ∧
  ∃ this' cs',
    replaceRaw 3 session0 criteria0 (root filter_tree) = Some (this', cs') ∧
    BuildValues "F" 
      (mkRawSql "TOTAL = :t AND STATUS = :s" "TOTAL = ? AND STATUS = ?"
         ((λ k : nat, raw_name (tableAlias session0)
                        (rawIndex session0 + Z.of_nat (S k)))
            <$> seq 0 (raw_nodes filter_tree)))
      (parameters this')
    = Ok (raw_values filter_tree).
Proof.
  assert (Hnodup : NoDup (locs filter_tree))
    by (apply (bool_decide_unpack _); vm_compute; exact I).
  assert (Hheight : height filter_tree ≤ 3) by (vm_compute; lia).
  split; [exact filter_tree_repr|]. split; [exact Hnodup|].
  split; [exact filter_tree_plain|]. split; [exact Hheight|].
  apply (replaceRaw_then_BuildValues "F" "TOTAL = :t AND STATUS = :s"
           "TOTAL = ? AND STATUS = ?" 3 session0 criteria0 filter_tree
           filter_tree_repr Hnodup filter_tree_plain Hheight).
  - vm_compute. discriminate.
  - vm_compute. reflexivity.
Defined.

Lemma inner_then_joinTo_witness :
  wf_session session0 schema ∅ ∧ path session0 = [] ∧
  [aOrderCustomer; aCustomerAddress] ≠ [] ∧
  ∃ this' st' ps' cs',
    joinTo 4 request1.1 schema request1.2 criteria0 (path request1.1) false
    = Some (this', st', ps', cs') ∧
    length (path request1.1) = 2 ∧
    wf_session this' st' ps'.
Proof.
  split; [apply NewDmlBase_wf|]. split; [reflexivity|]. split; [discriminate|].
  apply (inner_then_joinTo 4 3 session0 schema ∅ criteria0 true
           [aOrderCustomer; aCustomerAddress] false (NewDmlBase_wf _ _ _) eq_refl).
  - discriminate.
  - repeat (apply Forall_cons_2); try apply Forall_nil_2;
      (eexists; split; [vm_compute; reflexivity|]; split; [exact I|]; split;
       cbn; repeat (apply Forall_cons_2); try apply Forall_nil_2;
       try (split; [vm_compute; tauto|vm_compute; lia])).
    all: in_store.
  - lia.
Defined.

Lemma joinTo_keeps_the_session_well_formed_witness :
  wf_session request1.1 schema request1.2 ∧ fresh_request request1.1 path1 ∧
  path1 ≠ [] ∧ resolvable schema request1.2 path1 ∧
  attachable 3 schema request1.2 criteria0 path1 ∧
  ∃ this' st' ps' cs',
    joinTo 4 request1.1 schema request1.2 criteria0 path1 false
      = Some (this', st', ps', cs') ∧
    wf_session this' st' ps' ∧
    ∀ pe, pe ∈ path1 → resolved this' st' ps' pe.
Proof.
  assert (Hne : path1 ≠ []) by (vm_compute; discriminate).
  destruct request1_wf as [Hwf Hfresh].
  split; [exact Hwf|]. split; [exact Hfresh|]. split; [exact Hne|].
  split; [exact request1_resolvable|]. split; [exact request1_attachable|].
  apply (joinTo_keeps_the_session_well_formed 4 3 request1.1 schema request1.2 criteria0
           path1 false Hwf Hfresh Hne request1_resolvable request1_attachable).
  lia.
Defined.

Lemma addJoin_records_the_join_witness :
  wf_session request1.1 schema request1.2 ∧ fresh_request request1.1 path1 ∧
  path1 ≠ [] ∧ resolvable schema request1.2 path1 ∧
  ∃ this' st' ps',
    addJoin request1.1 schema request1.2 path1 None false
      = Some (this', st', ps', path1) ∧
    joins this' = joins request1.1 ++ [NewJoin path1 false] ∧
    lastJoin this' = Some (NewJoin path1 false) ∧
    (∃ pe per d lastFk,
       last path1 = Some pe ∧ ps' !! pe = Some per ∧ Derived per = Some d ∧
       reuse_association st' d = Some lastFk ∧
       bag (joinBag this') !! lastFk = Some (lastFkAlias this')) ∧
    table this' = table request1.1 ∧ tableAlias this' = tableAlias request1.1 ∧
    criteria this' = criteria request1.1 ∧ parameters this' = parameters request1.1 ∧
    rawIndex this' = rawIndex request1.1 ∧ path this' = path request1.1 ∧
    discriminatorCriterias this' = discriminatorCriterias request1.1 ∧
    rawSQL this' = rawSQL request1.1.
Proof.
  assert (Hne : path1 ≠ []) by (vm_compute; discriminate).
  destruct request1_wf as [Hwf Hfresh].
  split; [exact Hwf|]. split; [exact Hfresh|]. split; [exact Hne|].
  split; [exact request1_resolvable|].
  exact (addJoin_records_the_join request1.1 schema request1.2 path1 false
           Hwf Hfresh Hne request1_resolvable).
Defined.

Lemma buildPathCriterias_empty_slots_witness :
  composable 3 store1 paths1 path1 ∧
  ∃ this' cs' (pathCriterias : list (option PathCriteria)),
    buildPathCriterias 3 after1.1.1.1 store1 paths1 criteria0 path1
      = Some (this', cs', pathCriterias) ∧
    ∀ i pe per base,
      path1 !! i = Some pe → paths1 !! pe = Some per → store1 !! Base per = Some base →
      ∃ slot,
        pathCriterias !! (i + 1) = Some slot ∧
        (slot = None ↔
           Criteria per = None ∧ TableCriterias (TableTo base) = None ∧
           Columns per = None ∧ Discriminators base = None) ∧
        ∀ pc, slot = Some pc → pcColumns pc = Columns per.
Proof.
  split; [exact path1_composable|].
  exact (buildPathCriterias_empty_slots 3 after1.1.1.1 store1 paths1 criteria0 path1
           path1_composable).
Defined.

End More_examples.
